(** * Antenna rule checker (polygon-set engine of [AntennaChecker.cc])

    A shallow embedding of the ratio engine and the checker of
    [src/ant/src/AntennaChecker.cc], and the properties of its specification.

    Conventions of the embedding.
    - A C++ [double] (and the [float] margin) is an exact rational of [Q]:
      the statements are about the formulas the code evaluates, not about
      rounding.  Equalities between computed values are [Qeq] ([==]).  A
      quotient of [Q] with divisor 0 is 0 where the double is an infinity
      or a NaN; what depends on a quotient is stated with its divisor
      nonzero, or of the formula alone.  Where the code tests whether such
      a value is zero ([getViolatedWireLength]), the inputs on which exact
      arithmetic cannot answer for the doubles get an answer of their own.
    - An [int] that the code does arithmetic on is an integer of [Z] with
      the wrap-around of 32 bits written out ([findMaxWireLength]); counts
      and indices are natural numbers.
    - A [dbTechLayer*] is the position of the layer in the technology stack
      ([tech->getLayers()], bottom first); [getUpperLayer]/[getLowerLayer]
      move by one position.
    - [std::unordered_map]s that the code iterates over are association lists
      in iteration order; they are only ever extended through the
      find-or-insert functions below.
    - The logger and the violation vector are explicit outputs. *)

From Stdlib Require Import String.
From Stdlib Require Import List Bool Arith Lia ZArith QArith Qfield Lqa.
From Stdlib Require Import Permutation Sorted.
Import ListNotations.
Open Scope Q_scope.

(** ** Comparisons of doubles *)

Definition Qneb (a b : Q) : bool := negb (Qeq_bool a b).
Definition Qltb (a b : Q) : bool := negb (Qle_bool b a).
Definition Qgtb (a b : Q) : bool := negb (Qle_bool a b).

(** [std::max(a, b)]: [(a < b) ? b : a]. *)
Definition std_max (a b : Q) : Q := if Qltb a b then b else a.

(** ** Piecewise-linear tables: [dbTechLayerAntennaRule::pwl_pair] *)

Record pwl_pair : Type := mk_pwl { indices : list Q; ratios : list Q }.

Definition empty_pwl : pwl_pair := mk_pwl [] [].

(** The [for] loop of [getPwlFactor]; [n] is the number of iterations left
    ([indices.size() - i]). *)
Fixpoint pwl_loop (pwl_info : pwl_pair) (ref_value : Q) (n i : nat)
         (pwl_info_index1 pwl_info_ratio1 slope : Q) : Q :=
  match n with
  | O => pwl_info_ratio1 + (ref_value - pwl_info_index1) * slope
  | S n' =>
      let pwl_info_index2 := nth i (indices pwl_info) 0 in
      let pwl_info_ratio2 := nth i (ratios pwl_info) 0 in
      let slope := (pwl_info_ratio2 - pwl_info_ratio1)
                   / (pwl_info_index2 - pwl_info_index1) in
      if Qle_bool pwl_info_index1 ref_value && Qltb ref_value pwl_info_index2
      then pwl_info_ratio1 + (ref_value - pwl_info_index1) * slope
      else pwl_loop pwl_info ref_value n' (S i)
                    pwl_info_index2 pwl_info_ratio2 slope
  end.

Definition getPwlFactor (pwl_info : pwl_pair) (ref_value default_value : Q) : Q :=
  if negb (Nat.eqb (length (indices pwl_info)) 0) then
    if Nat.eqb (length (indices pwl_info)) 1 then nth 0 (ratios pwl_info) 0
    else pwl_loop pwl_info ref_value (length (indices pwl_info)) 0
                  (nth 0 (indices pwl_info) 0) (nth 0 (ratios pwl_info) 0) 1
  else default_value.

(** Indices in non-decreasing order, as a LEF PWL table lists them. *)
Fixpoint pwl_sortedb (l : list Q) : bool :=
  match l with
  | [] => true
  | x :: tl =>
      match tl with
      | [] => true
      | y :: _ => Qle_bool x y && pwl_sortedb tl
      end
  end.

(** The slope of the segment between points [k] and [k+1]. *)
Definition segment_slope (pwl_info : pwl_pair) (k : nat) : Q :=
  (nth (S k) (ratios pwl_info) 0 - nth k (ratios pwl_info) 0)
  / (nth (S k) (indices pwl_info) 0 - nth k (indices pwl_info) 0).

(** The reference value lies in the half-open index interval of segment [j]. *)
Definition in_segment (pwl_info : pwl_pair) (ref_value : Q) (j : nat) : Prop :=
  nth j (indices pwl_info) 0 <= ref_value
  /\ ref_value < nth (S j) (indices pwl_info) 0.

(** ** Technology: layers and their antenna rules *)

Record dbTechLayerAntennaRule : Type := mk_rule {
  isAreaFactorDiffUseOnly : bool;
  getAreaFactor : Q;
  isSideAreaFactorDiffUseOnly : bool;
  getSideAreaFactor : Q;
  getAreaMinusDiffFactor : Q;
  getGatePlusDiffFactor : Q;
  getAreaDiffReduce : pwl_pair;
  getPAR : Q;
  getPSR : Q;
  getCAR : Q;
  getCSR : Q;
  getDiffPAR : pwl_pair;
  getDiffPSR : pwl_pair;
  getDiffCAR : pwl_pair;
  getDiffCSR : pwl_pair
}.

Inductive dbTechLayerType : Type := ROUTING | CUT | OTHER.

Record dbTechLayer : Type := mk_layer {
  getType : dbTechLayerType;
  getRoutingLevel : nat;            (* 0 on a cut layer *)
  getThickness : Z;                 (* in database units, 0 when absent *)
  getDefaultAntennaRule : option dbTechLayerAntennaRule
}.

(** A layer is its position in the stack. *)
Definition Layer : Type := nat.
Definition Tech : Type := list dbTechLayer.

Definition no_layer : dbTechLayer := mk_layer OTHER 0 0 None.
Definition layer_at (tech : Tech) (l : Layer) : dbTechLayer := nth l tech no_layer.

Definition routingLevel (tech : Tech) (l : Layer) : nat :=
  getRoutingLevel (layer_at tech l).

Definition getUpperLayer (tech : Tech) (l : Layer) : option Layer :=
  if Nat.ltb (S l) (length tech) then Some (S l) else None.

Definition getLowerLayer (tech : Tech) (l : Layer) : option Layer :=
  match l with O => None | S l' => Some l' end.

(** [tech->findRoutingLayer(1)]: the first layer of routing level 1. *)
Fixpoint findRoutingLayer_from (tech : Tech) (level : nat) (pos : nat) : option Layer :=
  match tech with
  | [] => None
  | t :: rest =>
      if Nat.eqb (getRoutingLevel t) level then Some pos
      else findRoutingLayer_from rest level (S pos)
  end.

Definition findRoutingLayer (tech : Tech) (level : nat) : option Layer :=
  findRoutingLayer_from tech level 0.

(** ** RuleStore: [AntennaModel] and [initAntennaRules] *)

Record AntennaModel : Type := mk_model {
  am_layer : option Layer;
  metal_factor : Q;
  diff_metal_factor : Q;
  cut_factor : Q;
  diff_cut_factor : Q;
  side_metal_factor : Q;
  diff_side_metal_factor : Q;
  minus_diff_factor : Q;
  plus_diff_factor : Q;
  diff_metal_reduce_factor : Q
}.

Inductive RatioKind : Type := Gate_area | Side_area | Cumulative_area | Cumulative_side_area.

(** What the checker sends to the logger: warnings 13 and 15, the data
    errors of the layered graph, and the lines of the report. *)
Inductive LogEvent : Type :=
| Warn13_no_thickness (l : Layer)
| Warn15_too_many_diodes (max_count : nat)
| Error_via_upper (via_layer : Layer)
| Error_via_lower (via_layer : Layer)
| Report_net
| Report_pin (pin : string)
| Report_layer (l : Layer)
| Report_ratio (kind : RatioKind) (value required : Q) (violated : bool)
| Report_blank.

(** The body of the loop of [initAntennaRules] for one layer. *)
Definition initAntennaRule (l : Layer) (tech_layer : dbTechLayer)
  : AntennaModel * list LogEvent :=
  match getDefaultAntennaRule tech_layer with
  | Some antenna_rule =>
      let '(metal, diff_metal, cut, diff_cut) :=
        if isAreaFactorDiffUseOnly antenna_rule
        then (1, getAreaFactor antenna_rule, 1, getAreaFactor antenna_rule)
        else (getAreaFactor antenna_rule, getAreaFactor antenna_rule,
              getAreaFactor antenna_rule, getAreaFactor antenna_rule) in
      let '(side_metal, diff_side_metal) :=
        if isSideAreaFactorDiffUseOnly antenna_rule
        then (1, getSideAreaFactor antenna_rule)
        else (getSideAreaFactor antenna_rule, getSideAreaFactor antenna_rule) in
      let warn :=
        if (Qneb (getPSR antenna_rule) 0
            || negb (Nat.eqb (length (indices (getDiffPSR antenna_rule))) 0))
           && match getType tech_layer with ROUTING => true | _ => false end
           && Z.eqb (getThickness tech_layer) 0
        then [Warn13_no_thickness l] else [] in
      (mk_model (Some l) metal diff_metal cut diff_cut side_metal diff_side_metal
                (getAreaMinusDiffFactor antenna_rule)
                (getGatePlusDiffFactor antenna_rule) 1,
       warn)
  | None => (mk_model (Some l) 1 1 1 1 1 1 0 0 1, [])
  end.

(** [layer_info_]: a map from layers to models. *)
Definition LayerInfo : Type := list (Layer * AntennaModel).

Fixpoint initAntennaRules_from (tech : Tech) (pos : nat) : LayerInfo * list LogEvent :=
  match tech with
  | [] => ([], [])
  | t :: rest =>
      let '(m, w) := initAntennaRule pos t in
      let '(ms, ws) := initAntennaRules_from rest (S pos) in
      ((pos, m) :: ms, w ++ ws)
  end.

Definition initAntennaRules (tech : Tech) : LayerInfo * list LogEvent :=
  initAntennaRules_from tech 0.

(** [layer_info_[tech_layer]]: [operator[]] value-initialises a missing entry. *)
Definition zero_model : AntennaModel := mk_model None 0 0 0 0 0 0 0 0 0.

Fixpoint layer_info_at (layer_info_ : LayerInfo) (l : Layer) : AntennaModel :=
  match layer_info_ with
  | [] => zero_model
  | (k, m) :: rest => if Nat.eqb k l then m else layer_info_at rest l
  end.

(** ** Pins and gates *)

Inductive dbIoType : Type := INPUT | OUTPUT | INOUT | FEEDTHRU.

Record dbMTerm : Type := mk_mterm {
  getIoType : dbIoType;
  (* the gate areas of the default antenna pin model, when there is one *)
  getDefaultAntennaModel : option (list (Q * option Layer));
  getDiffArea : list (Q * option Layer)
}.

Record dbITerm : Type := mk_iterm {
  getName : string;
  getMTerm : dbMTerm
}.

(** The range-[for] of [gateArea] and [diffArea]. *)
Fixpoint max_area_loop (areas : list (Q * option Layer)) (max_area : Q) : Q :=
  match areas with
  | [] => max_area
  | (area, _) :: rest => max_area_loop rest (std_max max_area area)
  end.

Definition gateArea (mterm : dbMTerm) : Q :=
  match getDefaultAntennaModel mterm with
  | Some gate_areas => max_area_loop gate_areas 0
  | None => 0
  end.

Definition diffArea (mterm : dbMTerm) : Q :=
  max_area_loop (getDiffArea mterm) 0.

Definition isValidGate (mterm : dbMTerm) : bool :=
  match getIoType mterm with INPUT => true | _ => false end
  && Qgtb (gateArea mterm) 0.

(** [PinType]: an instance terminal or a block terminal under its name. *)
Inductive PinType : Type :=
| ITermPin (pin_name : string) (iterm : dbITerm)
| BTermPin (pin_name : string).

(** ** Per-gate, per-layer records: [InfoType]

    The struct is declared in the header of the checker; its fields are the
    ones that the functions below read and write. *)

Record InfoType : Type := mk_info {
  PAR : Q;
  PSR : Q;
  diff_PAR : Q;
  diff_PSR : Q;
  area : Q;
  side_area : Q;
  iterm_gate_area : Q;
  iterm_diff_area : Q;
  CAR : Q;
  CSR : Q;
  diff_CAR : Q;
  diff_CSR : Q;
  iterms : list dbITerm
}.

(** Modelled from the spec: the default constructor of [InfoType], declared
    in the header of the checker, which is not part of the sources at hand.
    A fresh record holds zeros and no iterm (the cumulative ratios are
    produced by adding to a fresh record). *)
Definition InfoType_new : InfoType := mk_info 0 0 0 0 0 0 0 0 0 0 0 0 [].

(** Modelled from the spec: [InfoType::operator+=], declared in the same
    header.  The spec has running sums of PAR, PSR, diff_PAR and diff_PSR,
    and a merge of islands in which the area and the side area sum while the
    gate and diffusion areas do not. *)
Definition InfoType_add (a b : InfoType) : InfoType :=
  mk_info (PAR a + PAR b) (PSR a + PSR b)
          (diff_PAR a + diff_PAR b) (diff_PSR a + diff_PSR b)
          (area a + area b) (side_area a + side_area b)
          (iterm_gate_area a) (iterm_diff_area a)
          (CAR a) (CSR a) (diff_CAR a) (diff_CSR a) (iterms a).

Definition set_ratios (info : InfoType) (par psr dpar dpsr : Q) : InfoType :=
  mk_info par psr dpar dpsr
          (area info) (side_area info) (iterm_gate_area info) (iterm_diff_area info)
          (CAR info) (CSR info) (diff_CAR info) (diff_CSR info) (iterms info).

Definition set_iterm_diff_area (info : InfoType) (d : Q) : InfoType :=
  mk_info (PAR info) (PSR info) (diff_PAR info) (diff_PSR info)
          (area info) (side_area info) (iterm_gate_area info) d
          (CAR info) (CSR info) (diff_CAR info) (diff_CSR info) (iterms info).

Definition add_cumulative (info sum : InfoType) : InfoType :=
  mk_info (PAR info) (PSR info) (diff_PAR info) (diff_PSR info)
          (area info) (side_area info) (iterm_gate_area info) (iterm_diff_area info)
          (CAR info + PAR sum) (CSR info + PSR sum)
          (diff_CAR info + diff_PAR sum) (diff_CSR info + diff_PSR sum)
          (iterms info).

(** ** RatioEngine: partial ratios *)

(** The reduce factor both PAR functions start with. *)
Definition reduce_factor (tech : Tech) (tech_layer : Layer) (info : InfoType) : Q :=
  match getDefaultAntennaRule (layer_at tech tech_layer) with
  | Some antenna_rule =>
      getPwlFactor (getAreaDiffReduce antenna_rule) (iterm_diff_area info) 1
  | None => 1
  end.

Definition calculateWirePar (tech : Tech) (layer_info_ : LayerInfo)
           (tech_layer : Layer) (info : InfoType) : InfoType :=
  let am := layer_info_at layer_info_ tech_layer in
  let diff_metal_reduce_factor := reduce_factor tech tech_layer info in
  if Qneb (iterm_diff_area info) 0 then
    set_ratios info
      ((diff_metal_factor am * area info) / iterm_gate_area info)
      ((diff_side_metal_factor am * side_area info) / iterm_gate_area info)
      ((diff_metal_factor am * area info * diff_metal_reduce_factor
        - minus_diff_factor am * iterm_diff_area info)
       / (iterm_gate_area info + plus_diff_factor am * iterm_diff_area info))
      ((diff_side_metal_factor am * side_area info * diff_metal_reduce_factor
        - minus_diff_factor am * iterm_diff_area info)
       / (iterm_gate_area info + plus_diff_factor am * iterm_diff_area info))
  else
    set_ratios info
      ((metal_factor am * area info) / iterm_gate_area info)
      ((side_metal_factor am * side_area info) / iterm_gate_area info)
      ((metal_factor am * area info * diff_metal_reduce_factor)
       / iterm_gate_area info)
      ((side_metal_factor am * side_area info * diff_metal_reduce_factor)
       / iterm_gate_area info).

Definition calculateViaPar (tech : Tech) (layer_info_ : LayerInfo)
           (tech_layer : Layer) (info : InfoType) : InfoType :=
  let am := layer_info_at layer_info_ tech_layer in
  let diff_metal_reduce_factor := reduce_factor tech tech_layer info in
  if Qneb (iterm_diff_area info) 0 then
    set_ratios info
      ((diff_cut_factor am * area info) / iterm_gate_area info)
      (PSR info)
      ((diff_cut_factor am * area info * diff_metal_reduce_factor
        - minus_diff_factor am * iterm_diff_area info)
       / (iterm_gate_area info + plus_diff_factor am * iterm_diff_area info))
      (diff_PSR info)
  else
    set_ratios info
      ((cut_factor am * area info) / iterm_gate_area info)
      (PSR info)
      ((cut_factor am * area info * diff_metal_reduce_factor)
       / iterm_gate_area info)
      (diff_PSR info).

(** ** The per-gate info map [info_] *)

Definition LayerMap : Type := list (Layer * InfoType).
Definition InfoMap : Type := list (string * LayerMap).

Fixpoint find_layer (m : LayerMap) (l : Layer) : option InfoType :=
  match m with
  | [] => None
  | (k, v) :: rest => if Nat.eqb k l then Some v else find_layer rest l
  end.

(** [m[l] = f(m[l])] on a present key. *)
Fixpoint update_layer (m : LayerMap) (l : Layer) (f : InfoType -> InfoType) : LayerMap :=
  match m with
  | [] => []
  | (k, v) :: rest =>
      if Nat.eqb k l then (k, f v) :: rest else (k, v) :: update_layer rest l f
  end.

Fixpoint find_gate (m : InfoMap) (g : string) : option LayerMap :=
  match m with
  | [] => None
  | (k, v) :: rest => if String.eqb k g then Some v else find_gate rest g
  end.

(** The merge-or-insert of [calculateAreas] on the records of one gate. *)
Definition put_layer (m : LayerMap) (l : Layer) (info : InfoType) : LayerMap :=
  match find_layer m l with
  | Some _ => update_layer m l (fun old => InfoType_add old info)
  | None => m ++ [(l, info)]
  end.

Fixpoint put_info (m : InfoMap) (g : string) (l : Layer) (info : InfoType) : InfoMap :=
  match m with
  | [] => [(g, put_layer [] l info)]
  | (k, v) :: rest =>
      if String.eqb k g then (k, put_layer v l info) :: rest
      else (k, v) :: put_info rest g l info
  end.

Definition find_info (m : InfoMap) (g : string) (l : Layer) : option InfoType :=
  match find_gate m g with
  | Some lm => find_layer lm l
  | None => None
  end.

(** ** Geometry: the polygon library behind the islands

    The islands are [boost::polygon] rectilinear polygons.  The checker uses
    three operations of that library: the area and the perimeter of a
    polygon, and [+=] on a polygon set, which unions a polygon into the set
    and leaves the set merged. *)

Class Gtl (Polygon : Type) : Type := {
  gtl_area : Polygon -> Z;
  gtl_perimeter : Polygon -> Z;
  gtl_add : list Polygon -> Polygon -> list Polygon
}.

Record GraphNode (Polygon : Type) : Type := mk_node {
  id : nat;
  isVia : bool;
  pol : Polygon;
  low_adj : list nat;
  gates : list PinType
}.

Arguments mk_node {Polygon}.
Arguments id {Polygon}.
Arguments isVia {Polygon}.
Arguments pol {Polygon}.
Arguments low_adj {Polygon}.
Arguments gates {Polygon}.

(** [node_by_layer_map_] *)
Definition NodeMap (Polygon : Type) : Type := list (Layer * list (GraphNode Polygon)).

(** Modelled from the spec: [dbuToMicrons], declared in the header of the
    checker; a distance in database units over the database units per
    micron. *)
Definition dbuToMicrons (dbu_per_micron : Z) (value : Q) : Q :=
  value / inject_Z dbu_per_micron.

(** ** RatioEngine: [calculateAreas] *)

Definition add_iterm (info : InfoType) (iterm : dbITerm) : InfoType :=
  mk_info (PAR info) (PSR info) (diff_PAR info) (diff_PSR info)
          (area info) (side_area info)
          (iterm_gate_area info + gateArea (getMTerm iterm))
          (iterm_diff_area info + diffArea (getMTerm iterm))
          (CAR info) (CSR info) (diff_CAR info) (diff_CSR info)
          (iterms info ++ [iterm]).

Definition set_area (info : InfoType) (a : Q) : InfoType :=
  mk_info (PAR info) (PSR info) (diff_PAR info) (diff_PSR info)
          a (side_area info) (iterm_gate_area info) (iterm_diff_area info)
          (CAR info) (CSR info) (diff_CAR info) (diff_CSR info) (iterms info).

Definition set_side_area (info : InfoType) (s : Q) : InfoType :=
  mk_info (PAR info) (PSR info) (diff_PAR info) (diff_PSR info)
          (area info) s (iterm_gate_area info) (iterm_diff_area info)
          (CAR info) (CSR info) (diff_CAR info) (diff_CSR info) (iterms info).

(** First loop over the gates of a node: iterms and their areas. *)
Fixpoint gather_iterms (gs : list PinType) (info : InfoType) (gates_count : nat)
  : InfoType * nat :=
  match gs with
  | [] => (info, gates_count)
  | BTermPin _ :: rest => gather_iterms rest info gates_count
  | ITermPin _ iterm :: rest =>
      gather_iterms rest (add_iterm info iterm) (S gates_count)
  end.

(** Second loop over the gates of a node: one record per valid gate. *)
Fixpoint put_gates (gs : list PinType) (l : Layer) (info : InfoType)
         (info_ : InfoMap) : InfoMap :=
  match gs with
  | [] => info_
  | BTermPin _ :: rest => put_gates rest l info info_
  | ITermPin n iterm :: rest =>
      if negb (isValidGate (getMTerm iterm)) then put_gates rest l info info_
      else put_gates rest l info (put_info info_ n l info)
  end.

Section Areas.
Context {Polygon : Type} {gtl : Gtl Polygon}.
Variable tech : Tech.
Variable dbu_per_micron : Z.

(** The record of one island, before it is stored: the body of the inner
    loop of [calculateAreas] up to "put values on struct". *)
Definition node_info (l : Layer) (node : GraphNode Polygon) : InfoType * nat :=
  let info := set_area InfoType_new
                (dbuToMicrons dbu_per_micron
                   (dbuToMicrons dbu_per_micron (inject_Z (gtl_area (pol node))))) in
  let '(info, gates_count) := gather_iterms (gates node) info 0 in
  if Nat.eqb gates_count 0 then (info, gates_count)
  else if negb (Nat.eqb (routingLevel tech l) 0) then
    let wire_thickness :=
      dbuToMicrons dbu_per_micron (inject_Z (getThickness (layer_at tech l))) in
    (set_side_area info
       (dbuToMicrons dbu_per_micron
          (inject_Z (gtl_perimeter (pol node)) * wire_thickness)),
     gates_count)
  else (info, gates_count).

Definition calculateAreas_node (l : Layer) (info_ : InfoMap)
           (node : GraphNode Polygon) : InfoMap :=
  let '(info, gates_count) := node_info l node in
  if Nat.eqb gates_count 0 then info_
  else put_gates (gates node) l info info_.

Definition calculateAreas_layer (info_ : InfoMap)
           (it : Layer * list (GraphNode Polygon)) : InfoMap :=
  fold_left (calculateAreas_node (fst it)) (snd it) info_.

Definition calculateAreas (node_by_layer_map_ : NodeMap Polygon)
           (info_ : InfoMap) : InfoMap :=
  fold_left calculateAreas_layer node_by_layer_map_ info_.

End Areas.

(** ** RatioEngine: [calculatePAR] and [calculateCAR] *)

Definition calculatePAR_record (tech : Tech) (layer_info_ : LayerInfo)
           (layer_it : Layer * InfoType) : Layer * InfoType :=
  let '(tech_layer, gate_info) := layer_it in
  (tech_layer,
   if Nat.eqb (routingLevel tech tech_layer) 0
   then calculateViaPar tech layer_info_ tech_layer gate_info
   else calculateWirePar tech layer_info_ tech_layer gate_info).

Definition calculatePAR (tech : Tech) (layer_info_ : LayerInfo)
           (info_ : InfoMap) : InfoMap :=
  map (fun gate_it : string * LayerMap =>
         (fst gate_it, map (calculatePAR_record tech layer_info_) (snd gate_it)))
      info_.

(** One turn of the [while (iter_layer)] loop of [calculateCAR] on the
    records of one gate: the sums and the record of layer [l]. *)
Definition calculateCAR_step (tech : Tech) (l : Layer)
           (sumWire sumVia : InfoType) (m : LayerMap)
  : InfoType * InfoType * LayerMap :=
  match find_layer m l with
  | Some rec =>
      if Nat.eqb (routingLevel tech l) 0 then
        let sumVia := InfoType_add sumVia rec in
        (sumWire, sumVia, update_layer m l (fun r => add_cumulative r sumVia))
      else
        let sumWire := InfoType_add sumWire rec in
        (sumWire, sumVia, update_layer m l (fun r => add_cumulative r sumWire))
  | None => (sumWire, sumVia, m)
  end.

(** The loop.  The walk visits at most [length tech] layers, which is the
    fuel [calculateCAR] gives it. *)
Fixpoint calculateCAR_walk (tech : Tech) (fuel : nat) (iter_layer : option Layer)
         (sumWire sumVia : InfoType) (m : LayerMap) : LayerMap :=
  match fuel, iter_layer with
  | S fuel', Some l =>
      let '(sumWire, sumVia, m) := calculateCAR_step tech l sumWire sumVia m in
      calculateCAR_walk tech fuel' (getUpperLayer tech l) sumWire sumVia m
  | _, _ => m
  end.

Definition calculateCAR (tech : Tech) (min_layer_ : option Layer)
           (info_ : InfoMap) : InfoMap :=
  map (fun gate_it : string * LayerMap =>
         (fst gate_it,
          calculateCAR_walk tech (length tech) min_layer_
                            InfoType_new InfoType_new (snd gate_it)))
      info_.

(** ** Checker: the four ratio checks

    Each check returns its verdict and the lines it reports.  The checks are
    called on layers that have a default antenna rule, which is passed here
    in place of the layer. *)

Definition report_if (violation report verbose : bool) (line : LogEvent) : list LogEvent :=
  if (violation && report) || verbose then [line] else [].

Definition checkPAR (antenna_rule : dbTechLayerAntennaRule) (ratio_margin_ : Q)
           (info : InfoType) (verbose report : bool)
  : (bool * bool) * list LogEvent :=
  let PAR_ratio := getPAR antenna_rule in
  let diff_PAR_PWL_ratio :=
    getPwlFactor (getDiffPAR antenna_rule) (iterm_diff_area info) 0 in
  let checked := false in
  (* apply ratio_margin *)
  let PAR_ratio := PAR_ratio * (1 - ratio_margin_ / 100) in
  let diff_PAR_PWL_ratio := diff_PAR_PWL_ratio * (1 - ratio_margin_ / 100) in
  if Qneb PAR_ratio 0 then
    let par_violation := Qgtb (PAR info) PAR_ratio in
    ((par_violation, checked),
     report_if par_violation report verbose
       (Report_ratio Gate_area (PAR info) PAR_ratio par_violation))
  else
    let checked := if Qneb diff_PAR_PWL_ratio 0 then true else checked in
    let diff_par_violation :=
      if Qneb diff_PAR_PWL_ratio 0
      then Qgtb (diff_PAR info) diff_PAR_PWL_ratio else false in
    ((diff_par_violation, checked),
     report_if diff_par_violation report verbose
       (Report_ratio Gate_area (diff_PAR info) diff_PAR_PWL_ratio diff_par_violation)).

Definition checkPSR (antenna_rule : dbTechLayerAntennaRule) (ratio_margin_ : Q)
           (info : InfoType) (verbose report : bool)
  : (bool * bool) * list LogEvent :=
  let PSR_ratio := getPSR antenna_rule in
  let diff_PSR_PWL_ratio :=
    getPwlFactor (getDiffPSR antenna_rule) (iterm_diff_area info) 0 in
  let checked := false in
  (* apply ratio_margin *)
  let PSR_ratio := PSR_ratio * (1 - ratio_margin_ / 100) in
  let diff_PSR_PWL_ratio := diff_PSR_PWL_ratio * (1 - ratio_margin_ / 100) in
  if Qneb PSR_ratio 0 then
    let psr_violation := Qgtb (PSR info) PSR_ratio in
    ((psr_violation, checked),
     report_if psr_violation report verbose
       (Report_ratio Side_area (PSR info) PSR_ratio psr_violation))
  else
    let checked := if Qneb diff_PSR_PWL_ratio 0 then true else checked in
    let diff_psr_violation :=
      if Qneb diff_PSR_PWL_ratio 0
      then Qgtb (diff_PSR info) diff_PSR_PWL_ratio else false in
    ((diff_psr_violation, checked),
     report_if diff_psr_violation report verbose
       (Report_ratio Side_area (diff_PSR info) diff_PSR_PWL_ratio diff_psr_violation)).

Definition checkCAR (antenna_rule : dbTechLayerAntennaRule)
           (info : InfoType) (verbose report : bool) : bool * list LogEvent :=
  let CAR_ratio := getCAR antenna_rule in
  let diff_CAR_PWL_ratio :=
    getPwlFactor (getDiffCAR antenna_rule) (iterm_diff_area info) 0 in
  if Qneb CAR_ratio 0 then
    let car_violation := Qgtb (CAR info) CAR_ratio in
    (car_violation,
     report_if car_violation report verbose
       (Report_ratio Cumulative_area (CAR info) CAR_ratio car_violation))
  else
    let diff_car_violation :=
      if Qneb diff_CAR_PWL_ratio 0
      then Qgtb (diff_CAR info) diff_CAR_PWL_ratio else false in
    (diff_car_violation,
     report_if diff_car_violation report verbose
       (Report_ratio Cumulative_area (diff_CAR info) diff_CAR_PWL_ratio
                     diff_car_violation)).

Definition checkCSR (antenna_rule : dbTechLayerAntennaRule)
           (info : InfoType) (verbose report : bool) : bool * list LogEvent :=
  let CSR_ratio := getCSR antenna_rule in
  let diff_CSR_PWL_ratio :=
    getPwlFactor (getDiffCSR antenna_rule) (iterm_diff_area info) 0 in
  if Qneb CSR_ratio 0 then
    let csr_violation := Qgtb (CSR info) CSR_ratio in
    (csr_violation,
     report_if csr_violation report verbose
       (Report_ratio Cumulative_side_area (CSR info) CSR_ratio csr_violation))
  else
    let diff_csr_violation :=
      if Qneb diff_CSR_PWL_ratio 0
      then Qgtb (diff_CSR info) diff_CSR_PWL_ratio else false in
    (diff_csr_violation,
     report_if diff_csr_violation report verbose
       (Report_ratio Cumulative_side_area (diff_CSR info) diff_CSR_PWL_ratio
                     diff_csr_violation)).

(** The checks of one record: PAR, PSR, CAR and CSR on a metal layer, PAR and
    CAR on a via layer.  Returns [node_has_violation] and the report. *)
Definition check_record (tech : Tech) (antenna_rule : dbTechLayerAntennaRule)
           (ratio_margin_ : Q) (l : Layer) (info : InfoType) (verbose report : bool)
  : bool * list LogEvent :=
  if negb (Nat.eqb (routingLevel tech l) 0) then
    let par_violation := checkPAR antenna_rule ratio_margin_ info verbose report in
    let psr_violation := checkPSR antenna_rule ratio_margin_ info verbose report in
    let car_violation := checkCAR antenna_rule info verbose report in
    let csr_violation := checkCSR antenna_rule info verbose report in
    (fst (fst par_violation) || fst (fst psr_violation)
     || fst car_violation || fst csr_violation,
     snd par_violation ++ snd psr_violation ++ snd car_violation ++ snd csr_violation)
  else
    let par_violation := checkPAR antenna_rule ratio_margin_ info verbose report in
    let car_violation := checkCAR antenna_rule info verbose report in
    (fst (fst par_violation) || fst car_violation,
     snd par_violation ++ snd car_violation).

(** ** Checker: [checkInfo] and the diode loop

    A [Violation] is built as [{routing level, gates, diode count}].  The cap
    [max_diode_count_per_gate] is a constant of the header and a parameter
    here. *)

Record Violation : Type := mk_violation {
  routing_level : nat;
  violation_gates : list dbITerm;
  diode_count_per_gate : nat
}.

(** The members of the checker that the per-net check reads and writes. *)
Record Checker : Type := mk_checker {
  layer_info_ : LayerInfo;
  min_layer_ : option Layer;
  info_ : InfoMap;
  ratio_margin_ : Q;
  antenna_violations_ : list Violation;
  logger_ : list LogEvent
}.

(** The [while (par_violation.first || psr_violation.first)] loop.  Each
    iteration counts one more diode and the loop breaks once the count
    exceeds the cap, so [S max_diode_count_per_gate] units of fuel always
    suffice; [None] is running out of fuel.  The result is the record, the
    diode count and whether warning 15 was emitted. *)
Fixpoint diode_loop (tech : Tech) (layer_info : LayerInfo)
         (antenna_rule : dbTechLayerAntennaRule) (ratio_margin : Q)
         (violation_layer : Layer) (diode_diff_area : Q) (gates_size : nat)
         (max_diode_count_per_gate : nat)
         (fuel : nat) (violation_info : InfoType) (diode_count_per_gate : nat)
         (par_violation psr_violation : bool * bool)
  : option (InfoType * nat * bool) :=
  if negb (fst par_violation || fst psr_violation)
  then Some (violation_info, diode_count_per_gate, false)
  else
    match fuel with
    | O => None
    | S fuel' =>
        (* increasing iterm_diff_area and count *)
        let violation_info :=
          set_iterm_diff_area violation_info
            (iterm_diff_area violation_info
             + diode_diff_area * inject_Z (Z.of_nat gates_size)) in
        let diode_count_per_gate := S diode_count_per_gate in
        (* re-calculate info only PAR & PSR *)
        let violation_info :=
          calculateWirePar tech layer_info violation_layer violation_info in
        (* re-check violations only PAR & PSR *)
        let par_violation :=
          fst (checkPAR antenna_rule ratio_margin violation_info false false) in
        let psr_violation :=
          fst (checkPSR antenna_rule ratio_margin violation_info false false) in
        if Nat.ltb max_diode_count_per_gate diode_count_per_gate
        then Some (violation_info, diode_count_per_gate, true)
        else diode_loop tech layer_info antenna_rule ratio_margin violation_layer
                        diode_diff_area gates_size max_diode_count_per_gate
                        fuel' violation_info diode_count_per_gate
                        par_violation psr_violation
    end.

(** The diode estimate of one violating record: the initial PAR and PSR
    checks, then the loop. *)
Definition diode_estimate (tech : Tech) (layer_info : LayerInfo)
           (antenna_rule : dbTechLayerAntennaRule) (ratio_margin : Q)
           (violation_layer : Layer) (diode_mterm : dbMTerm)
           (max_diode_count_per_gate : nat) (violation_info : InfoType)
  : option (InfoType * nat * bool) :=
  let diode_diff_area := diffArea diode_mterm in
  let gates := iterms violation_info in
  diode_loop tech layer_info antenna_rule ratio_margin violation_layer
             diode_diff_area (length gates) max_diode_count_per_gate
             (S max_diode_count_per_gate) violation_info 0
             (fst (checkPAR antenna_rule ratio_margin violation_info false false))
             (fst (checkPSR antenna_rule ratio_margin violation_info false false)).

(** The locals of [checkInfo] that live across records. *)
Record CheckState : Type := mk_state {
  pin_added : list (Layer * string);
  violations : list Violation;
  log : list LogEvent;
  net_is_reported : bool;
  pin_is_reported : bool;
  pin_has_violation : bool
}.

Definition pin_added_mem (pin_added : list (Layer * string)) (l : Layer) (g : string) : bool :=
  existsb (fun p => Nat.eqb (fst p) l && String.eqb (snd p) g) pin_added.

Definition say (st : CheckState) (lines : list LogEvent) : CheckState :=
  mk_state (pin_added st) (violations st) (log st ++ lines)
           (net_is_reported st) (pin_is_reported st) (pin_has_violation st).

(** "If verbose or report is on": the headers not yet printed, then the
    re-check that reports. *)
Definition report_record (tech : Tech) (antenna_rule : dbTechLayerAntennaRule)
           (ratio_margin : Q) (verbose : bool) (gate : string) (l : Layer)
           (info : InfoType) (st : CheckState) : CheckState :=
  let net_line := if net_is_reported st then [] else [Report_net] in
  let pin_line := if pin_is_reported st then [] else [Report_pin gate] in
  mk_state (pin_added st) (violations st)
           (log st ++ net_line ++ pin_line ++ [Report_layer l]
            ++ snd (check_record tech antenna_rule ratio_margin l info verbose true))
           true true (pin_has_violation st).

(** "when repair antenna is running, calculate number of diodes" *)
Definition repair_record (tech : Tech) (layer_info : LayerInfo)
           (antenna_rule : dbTechLayerAntennaRule) (ratio_margin : Q)
           (diode_mterm : dbMTerm) (max_diode_count_per_gate : nat)
           (l : Layer) (info : InfoType) (st : CheckState) : CheckState :=
  let gates := iterms info in
  let '(_, diode_count, warned) :=
    match diode_estimate tech layer_info antenna_rule ratio_margin l diode_mterm
                         max_diode_count_per_gate info with
    | Some r => r
    | None => (info, O, false)   (* out of fuel: excluded by [diode_estimate_total] *)
    end in
  mk_state (pin_added st ++ map (fun iterm_iter => (l, getName iterm_iter)) gates)
           (violations st
            ++ (if Nat.ltb 0 diode_count
                then [mk_violation (routingLevel tech l) gates diode_count] else []))
           (log st
            ++ (if warned then [Warn15_too_many_diodes max_diode_count_per_gate] else []))
           (net_is_reported st) (pin_is_reported st) (pin_has_violation st).

Definition set_pin_has_violation (st : CheckState) : CheckState :=
  mk_state (pin_added st) (violations st) (log st)
           (net_is_reported st) (pin_is_reported st) true.

(** The body of the loop over the layers of one gate. *)
Definition checkInfo_layer (tech : Tech) (layer_info : LayerInfo) (ratio_margin : Q)
           (verbose report : bool) (diode_mterm : option dbMTerm)
           (max_diode_count_per_gate : nat) (gate : string)
           (st : CheckState) (it : Layer * InfoType) : CheckState :=
  let '(l, info) := it in
  match getDefaultAntennaRule (layer_at tech l) with
  | None => st
  | Some antenna_rule =>
      (* check if node has violation *)
      let '(node_has_violation, lines) :=
        check_record tech antenna_rule ratio_margin l info false false in
      let st := say st lines in
      let st :=
        if (node_has_violation || report)
           && match diode_mterm with None => true | Some _ => false end
        then report_record tech antenna_rule ratio_margin verbose gate l info st
        else st in
      if node_has_violation then
        let st := set_pin_has_violation st in
        match diode_mterm with
        | Some diode =>
            if negb (Nat.eqb (routingLevel tech l) 0)
               && negb (pin_added_mem (pin_added st) l gate)
            then repair_record tech layer_info antenna_rule ratio_margin diode
                               max_diode_count_per_gate l info st
            else st
        | None => st
        end
      else st
  end.

(** The body of the loop over the gates; the count of violating pins is
    threaded along. *)
Definition checkInfo_gate (tech : Tech) (layer_info : LayerInfo) (ratio_margin : Q)
           (verbose report : bool) (diode_mterm : option dbMTerm)
           (max_diode_count_per_gate : nat)
           (acc : CheckState * nat) (gate_info : string * LayerMap)
  : CheckState * nat :=
  let '(st, pin_violation_count) := acc in
  let st := mk_state (pin_added st) (violations st) (log st)
                     (net_is_reported st) false false in
  let st := fold_left (checkInfo_layer tech layer_info ratio_margin verbose report
                                       diode_mterm max_diode_count_per_gate
                                       (fst gate_info))
                      (snd gate_info) st in
  let pin_violation_count :=
    if pin_has_violation st then S pin_violation_count else pin_violation_count in
  (if pin_is_reported st then say st [Report_blank] else st, pin_violation_count).

Definition checkInfo (tech : Tech) (max_diode_count_per_gate : nat) (c : Checker)
           (verbose report : bool) (diode_mterm : option dbMTerm) (ratio_margin : Q)
  : nat * Checker :=
  let st0 := mk_state [] (antenna_violations_ c) (logger_ c) false false false in
  let '(st, pin_violation_count) :=
    fold_left (checkInfo_gate tech (layer_info_ c) ratio_margin verbose report
                              diode_mterm max_diode_count_per_gate)
              (info_ c) (st0, O) in
  let st := if net_is_reported st then say st [Report_blank] else st in
  (pin_violation_count,
   mk_checker (layer_info_ c) (min_layer_ c) (info_ c) ratio_margin
              (violations st) (log st)).

(** ** LayerGeometry: the layered graph of [buildLayerMaps] *)

Section LayerGeometry.
Context {Polygon : Type} {gtl : Gtl Polygon}.
Variable tech : Tech.

(** The loop of [findNodesWithIntersection]: a node is kept when unioning
    its polygon into [objs] does not change the size of the set. *)
Fixpoint findNodes_loop (graph_nodes : list (GraphNode Polygon)) (objs : list Polygon)
         (last_size index : nat) (ids : list nat) : list nat :=
  match graph_nodes with
  | [] => ids
  | node :: rest =>
      let objs := gtl_add objs (pol node) in
      let ids := if Nat.eqb last_size (length objs) then ids ++ [index] else ids in
      findNodes_loop rest objs (length objs) (S index) ids
  end.

Definition findNodesWithIntersection (graph_nodes : list (GraphNode Polygon))
           (p : Polygon) : list nat :=
  findNodes_loop graph_nodes (gtl_add [] p) 1 0 [].

(** [node_by_layer_map_[l]]; a missing layer reads as the empty vector. *)
Fixpoint nodes_at (m : NodeMap Polygon) (l : Layer) : list (GraphNode Polygon) :=
  match m with
  | [] => []
  | (k, ns) :: rest => if Nat.eqb k l then ns else nodes_at rest l
  end.

Definition nodes_at_opt (m : NodeMap Polygon) (l : option Layer) : list (GraphNode Polygon) :=
  match l with Some l => nodes_at m l | None => [] end.

Fixpoint set_nodes (m : NodeMap Polygon) (l : Layer) (ns : list (GraphNode Polygon))
  : NodeMap Polygon :=
  match m with
  | [] => [(l, ns)]
  | (k, old) :: rest =>
      if Nat.eqb k l then (k, ns) :: rest else (k, old) :: set_nodes rest l ns
  end.

Definition add_low_adj (v : nat) (node : GraphNode Polygon) : GraphNode Polygon :=
  mk_node (id node) (isVia node) (pol node) (low_adj node ++ [v]) (gates node).

Fixpoint update_nth (i : nat) (f : GraphNode Polygon -> GraphNode Polygon)
         (ns : list (GraphNode Polygon)) : list (GraphNode Polygon) :=
  match ns, i with
  | [], _ => []
  | n :: rest, O => f n :: rest
  | n :: rest, S i' => n :: update_nth i' f rest
  end.

(** [node_by_layer_map_[l][index]->low_adj.push_back(v)] *)
Definition push_low_adj (m : NodeMap Polygon) (l : Layer) (index v : nat)
  : NodeMap Polygon :=
  set_nodes m l (update_nth index (add_low_adj v) (nodes_at m l)).

Definition push_low_adj_opt (m : NodeMap Polygon) (l : option Layer) (index v : nat)
  : NodeMap Polygon :=
  match l with Some l => push_low_adj m l index v | None => m end.

(** First loop of [buildLayerMaps]: one node per polygon, numbered densely. *)
Definition add_node (l : Layer) (acc : NodeMap Polygon * nat) (pol_it : Polygon)
  : NodeMap Polygon * nat :=
  let '(m, node_count_) := acc in
  (set_nodes m l
     (nodes_at m l ++ [mk_node node_count_ (Nat.eqb (routingLevel tech l) 0) pol_it [] []]),
   S node_count_).

Definition add_layer_nodes (acc : NodeMap Polygon * nat) (layer_it : Layer * list Polygon)
  : NodeMap Polygon * nat :=
  fold_left (add_node (fst layer_it)) (snd layer_it) acc.

Definition init_nodes (set_by_layer : list (Layer * list Polygon))
  : NodeMap Polygon * nat :=
  fold_left add_layer_nodes set_by_layer ([], O).

(** Second loop: the connections of one via polygon. *)
Definition connect_via (via_layer : Layer) (via_index : nat) (via_it : Polygon)
           (acc : NodeMap Polygon * list LogEvent) : NodeMap Polygon * list LogEvent :=
  let '(m, lg) := acc in
  let lower_index :=
    findNodesWithIntersection (nodes_at_opt m (getLowerLayer tech via_layer)) via_it in
  let upper_index :=
    findNodesWithIntersection (nodes_at_opt m (getUpperLayer tech via_layer)) via_it in
  let '(m, lg) :=
    if Nat.leb (length upper_index) 2 then
      (* connect upper -> via *)
      (fold_left (fun m up_index =>
                    push_low_adj_opt m (getUpperLayer tech via_layer) up_index via_index)
                 upper_index m, lg)
    else if Nat.ltb 2 (length upper_index) then (m, lg ++ [Error_via_upper via_layer])
    else (m, lg) in
  if Nat.eqb (length lower_index) 1 then
    (* connect via -> lower *)
    (fold_left (fun m low_index => push_low_adj m via_layer via_index low_index)
               lower_index m, lg)
  else if Nat.ltb 2 (length lower_index) then (m, lg ++ [Error_via_lower via_layer])
  else (m, lg).

Fixpoint connect_vias (via_layer : Layer) (via_index : nat) (vias : list Polygon)
         (acc : NodeMap Polygon * list LogEvent) : NodeMap Polygon * list LogEvent :=
  match vias with
  | [] => acc
  | via_it :: rest =>
      connect_vias via_layer (S via_index) rest
                   (connect_via via_layer via_index via_it acc)
  end.

Definition connect_layer (acc : NodeMap Polygon * list LogEvent)
           (layer_it : Layer * list Polygon) : NodeMap Polygon * list LogEvent :=
  (* iterate only via layers *)
  if Nat.eqb (routingLevel tech (fst layer_it)) 0
  then connect_vias (fst layer_it) 0 (snd layer_it) acc
  else acc.

(** [buildLayerMaps] from the polygon sets of the net (wires and vias
    unioned per layer, pin footprints subtracted) up to the call of
    [saveGates]: the layered graph and what was logged. *)
Definition buildLayerMaps (set_by_layer : list (Layer * list Polygon))
  : NodeMap Polygon * list LogEvent :=
  fold_left connect_layer set_by_layer (fst (init_nodes set_by_layer), []).

(** ** Checker: [checkNet]

    [wire] is [None] for a net without wire, and otherwise the layered graph
    that [buildLayerMaps] leaves in [node_by_layer_map_], gates attached. *)
Definition checkNet (dbu_per_micron : Z) (max_diode_count_per_gate : nat)
           (c : Checker) (wire : option (NodeMap Polygon))
           (verbose report : bool) (diode_mterm : option dbMTerm) (ratio_margin : Q)
           (net_violation_count pin_violation_count : nat)
  : Checker * nat * nat :=
  match wire with
  | Some node_by_layer_map_ =>
      (* buildLayerMaps clears info_ and looks up the first routing layer *)
      let min_layer := findRoutingLayer tech 1 in
      let info := calculateAreas tech dbu_per_micron node_by_layer_map_ [] in
      let info := calculatePAR tech (layer_info_ c) info in
      let info := calculateCAR tech min_layer info in
      let c := mk_checker (layer_info_ c) min_layer info (ratio_margin_ c)
                          (antenna_violations_ c) (logger_ c) in
      let '(pin_violations, c) :=
        checkInfo tech max_diode_count_per_gate c verbose report diode_mterm
                  ratio_margin in
      if Nat.ltb 0 pin_violations
      then (c, S net_violation_count, (pin_violation_count + pin_violations)%nat)
      else (c, net_violation_count, pin_violation_count)
  | None => (c, net_violation_count, pin_violation_count)
  end.

End LayerGeometry.

(** ** Vocabulary of the statements *)

(** The [areaDiffReduce] table of a layer; a layer without rule has none. *)
Definition areaDiffReduce_of (tech : Tech) (l : Layer) : pwl_pair :=
  match getDefaultAntennaRule (layer_at tech l) with
  | Some antenna_rule => getAreaDiffReduce antenna_rule
  | None => empty_pwl
  end.

(** The number of pins of a node that store a record under gate [g]: the
    instance terminals named [g] that are valid gates. *)
Fixpoint valid_pin_count (g : string) (gs : list PinType) : nat :=
  match gs with
  | [] => O
  | BTermPin _ :: rest => valid_pin_count g rest
  | ITermPin n iterm :: rest =>
      ((if isValidGate (getMTerm iterm) && String.eqb n g then 1 else 0)
       + valid_pin_count g rest)%nat
  end.

(** Storing [info] under a key that holds [o]: merge or insert. *)
Definition merge_record (info : InfoType) (o : option InfoType) : option InfoType :=
  Some (match o with Some old => InfoType_add old info | None => info end).

Definition option_area (o : option InfoType) : Q :=
  match o with Some r => area r | None => 0 end.

Definition option_side_area (o : option InfoType) : Q :=
  match o with Some r => side_area r | None => 0 end.

Section Islands.
Context {Polygon : Type} {gtl : Gtl Polygon}.
Variable tech : Tech.
Variable dbu_per_micron : Z.

(** The islands of the layered graph with their layers, in the order
    [calculateAreas] visits them. *)
Definition islands (node_by_layer_map_ : NodeMap Polygon)
  : list (Layer * GraphNode Polygon) :=
  flat_map (fun it : Layer * list (GraphNode Polygon) =>
              map (fun node => (fst it, node)) (snd it))
           node_by_layer_map_.

(** What one island does to the record of gate [g] on layer [L]. *)
Definition island_step (g : string) (L : Layer) (o : option InfoType)
           (isl : Layer * GraphNode Polygon) : option InfoType :=
  if Nat.eqb (fst isl) L
  then Nat.iter (valid_pin_count g (gates (snd isl)))
                (merge_record (fst (node_info tech dbu_per_micron (fst isl) (snd isl))))
                o
  else o.

(** The islands of layer [L] that carry gate [g]. *)
Definition carriers (g : string) (L : Layer) (isls : list (Layer * GraphNode Polygon))
  : list (Layer * GraphNode Polygon) :=
  filter (fun isl => Nat.eqb (fst isl) L
                     && Nat.ltb 0 (valid_pin_count g (gates (snd isl))))
         isls.

(** The sum of a quantity of the island records over the islands of layer
    [L] that carry gate [g] (once per pin of that name). *)
Fixpoint carried_sum (q : InfoType -> Q) (g : string) (L : Layer)
         (isls : list (Layer * GraphNode Polygon)) : Q :=
  match isls with
  | [] => 0
  | isl :: rest =>
      (if Nat.eqb (fst isl) L
       then inject_Z (Z.of_nat (valid_pin_count g (gates (snd isl))))
            * q (fst (node_info tech dbu_per_micron (fst isl) (snd isl)))
       else 0)
      + carried_sum q g L rest
  end.

End Islands.

(** The keys of the info map are distinct, and so are the layers of each
    gate. *)
Definition one_record_per_key (m : InfoMap) : Prop :=
  NoDup (map fst m) /\ forall g lm, In (g, lm) m -> NoDup (map fst lm).

(** A field that the merge takes from the record already stored. *)
Definition kept_by_merge {A : Type} (q : InfoType -> A) : Prop :=
  forall a b, q (InfoType_add a b) = q a.

(** Metal with metal, via with via: [calculateCAR] keeps one running sum
    for each kind. *)
Definition same_kind (tech : Tech) (l l' : Layer) : bool :=
  Bool.eqb (Nat.eqb (routingLevel tech l) 0) (Nat.eqb (routingLevel tech l') 0).

(** What the record of layer [l] adds to the running sum that layer [L]
    reads. *)
Definition contribution (tech : Tech) (q : InfoType -> Q) (m : LayerMap)
           (L l : Layer) : Q :=
  match find_layer m l with
  | Some r => if same_kind tech l L then q r else 0
  | None => 0
  end.

(** The sum of [q] over the records of the layers [ls] of the kind of [L]. *)
Fixpoint kind_sum (tech : Tech) (q : InfoType -> Q) (m : LayerMap)
         (L : Layer) (ls : list Layer) : Q :=
  match ls with
  | [] => 0
  | l :: rest => contribution tech q m L l + kind_sum tech q m L rest
  end.

(** The running sum that layer [L] reads. *)
Definition sum_for (tech : Tech) (L : Layer) (sumWire sumVia : InfoType) : InfoType :=
  if Nat.eqb (routingLevel tech L) 0 then sumVia else sumWire.

(** A cumulative field [c] and the partial field [q] it accumulates. *)
Definition cumulative_pair (c q : InfoType -> Q) : Prop :=
  (forall r s, c (add_cumulative r s) = c r + q s)
  /\ (forall r s, q (add_cumulative r s) = q r)
  /\ (forall a b, q (InfoType_add a b) = q a + q b).

(** The factors of the RuleStore are not negative. *)
Definition model_ok (am : AntennaModel) : bool :=
  Qle_bool 0 (metal_factor am) && Qle_bool 0 (diff_metal_factor am)
  && Qle_bool 0 (cut_factor am) && Qle_bool 0 (diff_cut_factor am)
  && Qle_bool 0 (side_metal_factor am) && Qle_bool 0 (diff_side_metal_factor am).

Definition models_ok (layer_info : LayerInfo) : bool :=
  forallb (fun it => model_ok (snd it)) layer_info.

(** Gate [g] has no record on a layer of the kind of [L] from [min_layer]
    up to [L]. *)
Definition lowest_of_kind (tech : Tech) (info_map : InfoMap) (g : string)
           (min_layer L : Layer) : Prop :=
  forall L', (min_layer <= L')%nat -> (L' < L)%nat ->
             same_kind tech L' L = true -> find_info info_map g L' = None.

(** The reading of "CAR equals PAR exactly on the lowest layer that carries
    the gate" on an info map. *)
Definition car_equality_on_lowest_layer (info_map : InfoMap) : Prop :=
  forall g L r,
    find_info info_map g L = Some r ->
    (CAR r == PAR r
     <-> forall L' r', find_info info_map g L' = Some r' -> (L <= L')%nat).

Section GeometryChecks.
Context {Polygon : Type} {gtl : Gtl Polygon}.

(** Areas, perimeters and thicknesses are not negative, and the database
    has a positive number of units per micron. *)
Definition geometry_ok (tech : Tech) (dbu_per_micron : Z)
           (node_by_layer_map_ : NodeMap Polygon) : bool :=
  Z.ltb 0 dbu_per_micron
  && forallb (fun isl : Layer * GraphNode Polygon =>
                Z.leb 0 (gtl_area (pol (snd isl)))
                && Z.leb 0 (gtl_perimeter (pol (snd isl)))
                && Z.leb 0 (getThickness (layer_at tech (fst isl))))
             (islands node_by_layer_map_).

(** [checkNet] up to the call of [checkInfo]: the info map of a net. *)
Definition net_info (tech : Tech) (dbu_per_micron : Z) (layer_info : LayerInfo)
           (min_layer : option Layer) (node_by_layer_map_ : NodeMap Polygon) : InfoMap :=
  calculateCAR tech min_layer
    (calculatePAR tech layer_info
       (calculateAreas tech dbu_per_micron node_by_layer_map_ [])).

End GeometryChecks.

(** What [calculateAreas] guarantees of a stored record. *)
Definition fresh_record (r : InfoType) : Prop :=
  0 <= area r /\ 0 <= side_area r /\ 0 < iterm_gate_area r
  /\ PSR r == 0 /\ CAR r = 0 /\ CSR r = 0.

(** One diode more on a record: the body of the diode loop without the
    count. *)
Definition diode_step (tech : Tech) (layer_info : LayerInfo) (violation_layer : Layer)
           (diode_diff_area : Q) (gates_size : nat) (violation_info : InfoType)
  : InfoType :=
  calculateWirePar tech layer_info violation_layer
    (set_iterm_diff_area violation_info
       (iterm_diff_area violation_info
        + diode_diff_area * inject_Z (Z.of_nat gates_size))).

(** The condition of the diode loop: the PAR or the PSR check fails. *)
Definition par_psr_violation (antenna_rule : dbTechLayerAntennaRule) (ratio_margin : Q)
           (info : InfoType) : bool :=
  fst (fst (checkPAR antenna_rule ratio_margin info false false))
  || fst (fst (checkPSR antenna_rule ratio_margin info false false)).

(** A record of a layer with a rule fails one of its checks. *)
Definition record_violates (tech : Tech) (ratio_margin : Q) (it : Layer * InfoType) : bool :=
  match getDefaultAntennaRule (layer_at tech (fst it)) with
  | Some antenna_rule =>
      fst (check_record tech antenna_rule ratio_margin (fst it) (snd it) false false)
  | None => false
  end.

Definition pin_violates (tech : Tech) (ratio_margin : Q) (gate_info : string * LayerMap)
  : bool :=
  existsb (record_violates tech ratio_margin) (snd gate_info).

(** The violating records of metal layers whose diode estimate counts at
    least one diode. *)
Definition needs_diodes (tech : Tech) (layer_info : LayerInfo) (ratio_margin : Q)
           (diode_mterm : dbMTerm) (max_diode_count_per_gate : nat)
           (it : Layer * InfoType) : bool :=
  match getDefaultAntennaRule (layer_at tech (fst it)) with
  | Some antenna_rule =>
      fst (check_record tech antenna_rule ratio_margin (fst it) (snd it) false false)
      && negb (Nat.eqb (routingLevel tech (fst it)) 0)
      && match diode_estimate tech layer_info antenna_rule ratio_margin (fst it)
                              diode_mterm max_diode_count_per_gate (snd it) with
         | Some (_, diode_count, _) => Nat.ltb 0 diode_count
         | None => false
         end
  | None => false
  end.

(** The Violations of a routing level that list a gate of name [g]. *)
Definition violations_listing (vs : list Violation) (level : nat) (g : string) : nat :=
  length (filter (fun v => Nat.eqb (routing_level v) level
                           && existsb (fun iterm => String.eqb (getName iterm) g)
                                      (violation_gates v))
                 vs).

(** The reading of "exactly one Violation for each violating gate-layer
    whose diode count is positive" on a run of [checkInfo]: the gate of
    each such record is listed by one Violation of its level and no more. *)
Definition one_violation_per_gate_layer (tech : Tech) (max_diode_count_per_gate : nat)
           (c : Checker) (diode_mterm : dbMTerm) (ratio_margin : Q) : Prop :=
  forall g lm it,
    In (g, lm) (info_ c) -> In it lm ->
    needs_diodes tech (layer_info_ c) ratio_margin diode_mterm
                 max_diode_count_per_gate it = true ->
    violations_listing
      (antenna_violations_
         (snd (checkInfo tech max_diode_count_per_gate c false false
                         (Some diode_mterm) ratio_margin)))
      (routingLevel tech (fst it)) g
    = 1%nat.

(** The violation list only grows, and does not change without a diode. *)
Definition extends_violations (diode_mterm : option dbMTerm) (st st' : CheckState) : Prop :=
  exists vs, violations st' = violations st ++ vs
             /\ (diode_mterm = None -> vs = []).

Section GraphVocabulary.
Context {Polygon : Type}.

(** The node of index [index] on layer [l] has [v] among its lower
    neighbours. *)
Definition points_down (m : NodeMap Polygon) (l : Layer) (index v : nat) : Prop :=
  exists node, nth_error (@nodes_at Polygon m l) index = Some node
               /\ In v (low_adj node).

(** Same island, and no lower neighbour lost. *)
Definition node_grows (n n' : GraphNode Polygon) : Prop :=
  pol n = pol n' /\ isVia n = isVia n' /\ incl (low_adj n) (low_adj n').

(** Same islands on every layer, and no lower neighbour lost. *)
Definition graph_grows (m m' : NodeMap Polygon) : Prop :=
  forall l, Forall2 node_grows (@nodes_at Polygon m l) (@nodes_at Polygon m' l).

(** The polygons that [set_by_layer] holds for layer [l]. *)
Definition pols_of (set_by_layer : list (Layer * list Polygon)) (l : Layer)
  : list Polygon :=
  flat_map (fun it : Layer * list Polygon =>
              if Nat.eqb (fst it) l then snd it else [])
           set_by_layer.

End GraphVocabulary.

Section GraphRuns.
Context {Polygon : Type}.

(** Along [buildLayerMaps] the graph grows and the log is extended. *)
Definition run_grows (a a' : NodeMap Polygon * list LogEvent) : Prop :=
  graph_grows (fst a) (fst a') /\ exists extra, snd a' = snd a ++ extra.

End GraphRuns.


(** ** Checker: [getAntennaViolations2]

    The entry point of the repair flow: the violation list is cleared, a
    special net is skipped, and the net is checked silently with both
    counters at zero.  [isSpecial] is [net->isSpecial()]. *)

Section Violations2.
Context {Polygon : Type} {gtl : Gtl Polygon}.

Definition getAntennaViolations2 (tech : Tech) (dbu_per_micron : Z)
           (max_diode_count_per_gate : nat) (c : Checker) (isSpecial : bool)
           (wire : option (NodeMap Polygon)) (diode_mterm : option dbMTerm)
           (ratio_margin : Q) : list Violation * Checker :=
  let c := mk_checker (layer_info_ c) (min_layer_ c) (info_ c) (ratio_margin_ c)
                      [] (logger_ c) in
  if isSpecial then (antenna_violations_ c, c)
  else
    let '(c, _, _) :=
      checkNet tech dbu_per_micron max_diode_count_per_gate c wire false false
               diode_mterm ratio_margin 0 0 in
    (antenna_violations_ c, c).

End Violations2.

(** ** The wire-graph engine: [PARinfo], [ARinfo] and their checks

    The engine that walks [odb::dbWireGraph] keeps one [PARinfo] for each
    wire root.  The fields that [PARinfo] and [ARinfo] share by name with
    [InfoType] carry the prefixes [par_] and [ar_] here;
    [wire_root_layer] is [wire_root->layer()], and [GateNode] the number
    of the gate node in the wire graph. *)

Record PARinfo : Type := mk_par_info {
  wire_root_layer : Layer;
  par_iterms : list dbITerm;
  wire_area : Q;
  side_wire_area : Q;
  par_iterm_gate_area : Q;
  par_iterm_diff_area : Q;
  par_PAR : Q;
  par_PSR : Q;
  par_diff_PAR : Q;
  par_diff_PSR : Q;
  max_wire_length_PAR : Q;
  max_wire_length_PSR : Q;
  max_wire_length_diff_PAR : Q;
  max_wire_length_diff_PSR : Q;
  wire_length : Q;
  side_wire_length : Q
}.

Record ARinfo : Type := mk_ar_info {
  par_info : PARinfo;
  GateNode : nat;
  ar_CAR : Q;
  ar_CSR : Q;
  ar_diff_CAR : Q;
  ar_diff_CSR : Q
}.

Definition hasDefaultAntennaRule (tech_layer : dbTechLayer) : bool :=
  match getDefaultAntennaRule tech_layer with Some _ => true | None => false end.

(** The assignments of [calculateParInfo] to the lengths and the ratios. *)
Definition set_par_ratios (p : PARinfo)
           (wire_length side_wire_length
            max_wire_length_PAR max_wire_length_PSR
            max_wire_length_diff_PAR max_wire_length_diff_PSR
            PAR PSR diff_PAR diff_PSR : Q) : PARinfo :=
  mk_par_info (wire_root_layer p) (par_iterms p) (wire_area p) (side_wire_area p)
              (par_iterm_gate_area p) (par_iterm_diff_area p)
              PAR PSR diff_PAR diff_PSR
              max_wire_length_PAR max_wire_length_PSR
              max_wire_length_diff_PAR max_wire_length_diff_PSR
              wire_length side_wire_length.

Definition set_par_iterm_diff_area (p : PARinfo) (d : Q) : PARinfo :=
  mk_par_info (wire_root_layer p) (par_iterms p) (wire_area p) (side_wire_area p)
              (par_iterm_gate_area p) d
              (par_PAR p) (par_PSR p) (par_diff_PAR p) (par_diff_PSR p)
              (max_wire_length_PAR p) (max_wire_length_PSR p)
              (max_wire_length_diff_PAR p) (max_wire_length_diff_PSR p)
              (wire_length p) (side_wire_length p).

Section WireGraphEngine.
Variable tech : Tech.
Variable layer_info_ : LayerInfo.
Variable dbu_per_micron : Z.
(** [tech_layer->getWidth()], in database units. *)
Variable getWidth : Layer -> Z.

Definition calculateParInfo (par_info : PARinfo) : PARinfo :=
  let tech_layer := wire_root_layer par_info in
  let am := layer_info_at layer_info_ tech_layer in
  let diff_metal_reduce_factor :=
    match getDefaultAntennaRule (layer_at tech tech_layer) with
    | Some antenna_rule =>
        getPwlFactor (getAreaDiffReduce antenna_rule)
                     (par_iterm_diff_area par_info) 1
    | None => diff_metal_reduce_factor am
    end in
  match getDefaultAntennaRule (layer_at tech tech_layer) with
  | None => par_info
  | Some antenna_rule =>
      if Qeq_bool (par_iterm_gate_area par_info) 0 then par_info
      else
        (* Find the theoretical limits for PAR and its variants *)
        let PAR_ratio := getPAR antenna_rule in
        let diffPAR_PWL_ratio :=
          getPwlFactor (getDiffPAR antenna_rule) (par_iterm_diff_area par_info) 0 in
        let PSR_ratio := getPSR antenna_rule in
        let diffPSR_PWL_ratio :=
          getPwlFactor (getDiffPSR antenna_rule) (par_iterm_diff_area par_info) 0 in
        (* Extract the width and thickness *)
        let wire_width :=
          dbuToMicrons dbu_per_micron (inject_Z (getWidth tech_layer)) in
        let wire_thickness :=
          dbuToMicrons dbu_per_micron
                       (inject_Z (getThickness (layer_at tech tech_layer))) in
        let wire_length := wire_area par_info / wire_width - wire_width in
        let side_wire_length :=
          (side_wire_area par_info - 2 * wire_width * wire_thickness)
          / (2 * wire_thickness) - wire_width in
        (* Consider when there is a diffusion region connected *)
        if Qneb (par_iterm_diff_area par_info) 0 then
          let max_area_PAR :=
            PAR_ratio * par_iterm_gate_area par_info / diff_metal_factor am in
          let max_area_PSR :=
            PSR_ratio * par_iterm_gate_area par_info / diff_side_metal_factor am in
          let max_area_diff_PAR :=
            (diffPAR_PWL_ratio
             * (par_iterm_gate_area par_info
                + plus_diff_factor am * par_iterm_diff_area par_info)
             + minus_diff_factor am * par_iterm_diff_area par_info)
            / diff_metal_factor am * diff_metal_reduce_factor in
          let max_area_diff_PSR :=
            (diffPSR_PWL_ratio
             * (par_iterm_gate_area par_info
                + plus_diff_factor am * par_iterm_diff_area par_info)
             + minus_diff_factor am * par_iterm_diff_area par_info)
            / diff_side_metal_factor am * diff_metal_reduce_factor in
          set_par_ratios par_info wire_length side_wire_length
            (max_area_PAR / wire_width - wire_width)
            ((max_area_PSR - 2 * wire_width * wire_thickness)
             / (2 * wire_thickness) - wire_width)
            (max_area_diff_PAR / wire_width - wire_width)
            ((max_area_diff_PSR - 2 * wire_width * wire_thickness)
             / (2 * wire_thickness) - wire_width)
            ((diff_metal_factor am * wire_area par_info)
             / par_iterm_gate_area par_info)
            ((diff_side_metal_factor am * side_wire_area par_info)
             / par_iterm_gate_area par_info)
            ((diff_metal_factor am * wire_area par_info * diff_metal_reduce_factor
              - minus_diff_factor am * par_iterm_diff_area par_info)
             / (par_iterm_gate_area par_info
                + plus_diff_factor am * par_iterm_diff_area par_info))
            ((diff_side_metal_factor am * side_wire_area par_info
              * diff_metal_reduce_factor
              - minus_diff_factor am * par_iterm_diff_area par_info)
             / (par_iterm_gate_area par_info
                + plus_diff_factor am * par_iterm_diff_area par_info))
        else
          let max_area_PAR :=
            PAR_ratio * par_iterm_gate_area par_info / metal_factor am in
          let max_area_PSR :=
            PSR_ratio * par_iterm_gate_area par_info / side_metal_factor am in
          let max_area_diff_PAR :=
            (diffPAR_PWL_ratio * par_iterm_gate_area par_info)
            / (diff_metal_reduce_factor * metal_factor am) in
          let max_area_diff_PSR :=
            (diffPSR_PWL_ratio * par_iterm_gate_area par_info)
            / (diff_metal_reduce_factor * side_metal_factor am) in
          set_par_ratios par_info wire_length side_wire_length
            (max_area_PAR / wire_width - wire_width)
            ((max_area_PSR - 2 * wire_width * wire_thickness)
             / (2 * wire_thickness) - wire_width)
            (max_area_diff_PAR / wire_width - wire_width)
            ((max_area_diff_PSR - 2 * wire_width * wire_thickness)
             / (2 * wire_thickness) - wire_width)
            ((metal_factor am * wire_area par_info) / par_iterm_gate_area par_info)
            ((side_metal_factor am * side_wire_area par_info)
             / par_iterm_gate_area par_info)
            ((metal_factor am * wire_area par_info * diff_metal_reduce_factor)
             / par_iterm_gate_area par_info)
            ((side_metal_factor am * side_wire_area par_info
              * diff_metal_reduce_factor)
             / par_iterm_gate_area par_info)
  end.

(** [checkViolation]: the PAR and PSR decision of the wire-graph engine,
    under the margin [ratio_margin_] of the checker. *)
Definition checkViolation (ratio_margin_ : Q) (par_info : PARinfo) (layer : Layer)
  : bool :=
  let par := par_PAR par_info in
  let psr := par_PSR par_info in
  let diff_par := par_diff_PAR par_info in
  let diff_psr := par_diff_PSR par_info in
  let diff_area := par_iterm_diff_area par_info in
  match getDefaultAntennaRule (layer_at tech layer) with
  | Some antenna_rule =>
      let PAR_ratio := getPAR antenna_rule * (1 - ratio_margin_ / 100) in
      if (if Qneb PAR_ratio 0 then Qgtb par PAR_ratio
          else
            let diffPAR_ratio :=
              getPwlFactor (getDiffPAR antenna_rule) diff_area 0
              * (1 - ratio_margin_ / 100) in
            Qneb diffPAR_ratio 0 && Qgtb diff_par diffPAR_ratio)
      then true
      else
        let PSR_ratio := getPSR antenna_rule * (1 - ratio_margin_ / 100) in
        if Qneb PSR_ratio 0 then Qgtb psr PSR_ratio
        else
          let diffPSR_ratio :=
            getPwlFactor (getDiffPSR antenna_rule) diff_area 0
            * (1 - ratio_margin_ / 100) in
          Qneb diffPSR_ratio 0 && Qgtb diff_psr diffPSR_ratio
  | None => false
  end.

Definition antennaRatioDiffDependent (layer : Layer) : bool :=
  match getDefaultAntennaRule (layer_at tech layer) with
  | Some antenna_rule =>
      negb (Nat.eqb (length (indices (getDiffPAR antenna_rule))) 0)
      || negb (Nat.eqb (length (indices (getDiffPSR antenna_rule))) 0)
  | None => false
  end.

(** One report of a check of the wire-graph engine: the line goes to the
    report file when it is open and to the logger when [to_logger]. *)
Definition legacy_line (print file_open to_logger : bool) (line : LogEvent)
  : list LogEvent * list LogEvent :=
  if print
  then (if file_open then [line] else [], if to_logger then [line] else [])
  else ([], []).

Definition both_app (a b : list LogEvent * list LogEvent)
  : list LogEvent * list LogEvent :=
  (fst a ++ fst b, snd a ++ snd b).

(** [checkWirePar]: the verdict [{violated, checked}], the lines written to
    the report file and the lines sent to the logger. *)
Definition checkWirePar (AntennaRatio : ARinfo) (report verbose file_open : bool)
  : (bool * bool) * (list LogEvent * list LogEvent) :=
  let layer := wire_root_layer (par_info AntennaRatio) in
  let par := par_PAR (par_info AntennaRatio) in
  let psr := par_PSR (par_info AntennaRatio) in
  let diff_par := par_diff_PAR (par_info AntennaRatio) in
  let diff_psr := par_diff_PSR (par_info AntennaRatio) in
  let diff_area := par_iterm_diff_area (par_info AntennaRatio) in
  match getDefaultAntennaRule (layer_at tech layer) with
  | Some antenna_rule =>
      let PAR_ratio := getPAR antenna_rule in
      let diffPAR_PWL_ratio := getPwlFactor (getDiffPAR antenna_rule) diff_area 0 in
      let par_violation := Qneb PAR_ratio 0 && Qgtb par PAR_ratio in
      let par_checked := negb (Qneb PAR_ratio 0) && Qneb diffPAR_PWL_ratio 0 in
      let diff_par_violation := par_checked && Qgtb diff_par diffPAR_PWL_ratio in
      let PSR_ratio := getPSR antenna_rule in
      let diffPSR_PWL_ratio := getPwlFactor (getDiffPSR antenna_rule) diff_area 0 in
      let psr_violation := Qneb PSR_ratio 0 && Qgtb psr PSR_ratio in
      let psr_checked := negb (Qneb PSR_ratio 0) && Qneb diffPSR_PWL_ratio 0 in
      let diff_psr_violation := psr_checked && Qgtb diff_psr diffPSR_PWL_ratio in
      let violated :=
        par_violation || diff_par_violation || psr_violation || diff_psr_violation in
      let checked := par_checked || psr_checked in
      ((violated, checked),
       if report then
         both_app
           (if Qneb PAR_ratio 0
            then legacy_line (par_violation || verbose) file_open verbose
                   (Report_ratio Gate_area par PAR_ratio par_violation)
            else legacy_line (diff_par_violation || verbose) file_open verbose
                   (Report_ratio Gate_area diff_par diffPAR_PWL_ratio
                                 diff_par_violation))
           (if Qneb PSR_ratio 0
            then legacy_line (psr_violation || verbose) file_open verbose
                   (Report_ratio Side_area psr PSR_ratio psr_violation)
            else legacy_line (diff_psr_violation || verbose) file_open verbose
                   (Report_ratio Side_area diff_psr diffPSR_PWL_ratio
                                 diff_psr_violation))
       else ([], []))
  | None => ((false, false), ([], []))
  end.

(** [checkWireCar]; both PWL thresholds are compared as the code compares
    them: the cumulative area against [car], the side area against
    [diff_csr]. *)
Definition checkWireCar (AntennaRatio : ARinfo) (par_checked report verbose
                                                  file_open : bool)
  : (bool * bool) * (list LogEvent * list LogEvent) :=
  let layer := wire_root_layer (par_info AntennaRatio) in
  let car := ar_CAR AntennaRatio in
  let csr := ar_CSR AntennaRatio in
  let diff_csr := ar_diff_CSR AntennaRatio in
  let diff_area := par_iterm_diff_area (par_info AntennaRatio) in
  match getDefaultAntennaRule (layer_at tech layer) with
  | Some antenna_rule =>
      let CAR_ratio := if par_checked then 0 else getCAR antenna_rule in
      let diffCAR_PWL_ratio :=
        if par_checked then 0
        else getPwlFactor (getDiffCAR antenna_rule) diff_area 0 in
      let car_violation := Qneb CAR_ratio 0 && Qgtb car CAR_ratio in
      let car_checked := negb (Qneb CAR_ratio 0) && Qneb diffCAR_PWL_ratio 0 in
      let diff_car_violation := car_checked && Qgtb car diffCAR_PWL_ratio in
      let CSR_ratio := if par_checked then 0 else getCSR antenna_rule in
      let diffCSR_PWL_ratio :=
        if par_checked then 0
        else getPwlFactor (getDiffCSR antenna_rule) diff_area 0 in
      let csr_violation := Qneb CSR_ratio 0 && Qgtb csr CSR_ratio in
      let csr_checked := negb (Qneb CSR_ratio 0) && Qneb diffCSR_PWL_ratio 0 in
      let diff_csr_violation := csr_checked && Qgtb diff_csr diffCSR_PWL_ratio in
      let violated :=
        car_violation || diff_car_violation || csr_violation || diff_csr_violation in
      let checked := car_checked || csr_checked in
      ((violated, checked),
       if report then
         both_app
           (if Qneb CAR_ratio 0
            then legacy_line (car_violation || verbose) file_open true
                   (Report_ratio Cumulative_area car CAR_ratio car_violation)
            else legacy_line (diff_car_violation || verbose) file_open true
                   (Report_ratio Cumulative_area car diffCAR_PWL_ratio
                                 diff_car_violation))
           (if Qneb CSR_ratio 0
            then legacy_line (car_violation || verbose) file_open true
                   (Report_ratio Cumulative_side_area csr CSR_ratio csr_violation)
            else legacy_line (diff_car_violation || verbose) file_open true
                   (Report_ratio Cumulative_side_area diff_csr diffCSR_PWL_ratio
                                 diff_csr_violation))
       else ([], []))
  | None => ((false, false), ([], []))
  end.

(** [checkViaPar] and [checkViaCar]; [layer] is the via layer that the walk
    of the wire graph finds above the wire root. *)
Definition checkViaPar (AntennaRatio : ARinfo) (layer : Layer)
           (report verbose file_open : bool)
  : bool * (list LogEvent * list LogEvent) :=
  let par := par_PAR (par_info AntennaRatio) in
  let diff_par := par_diff_PAR (par_info AntennaRatio) in
  let diff_area := par_iterm_diff_area (par_info AntennaRatio) in
  match getDefaultAntennaRule (layer_at tech layer) with
  | Some antenna_rule =>
      let PAR_ratio := getPAR antenna_rule in
      let diffPAR_PWL_ratio := getPwlFactor (getDiffPAR antenna_rule) diff_area 0 in
      let par_violation := Qneb PAR_ratio 0 && Qgtb par PAR_ratio in
      let diff_par_violation :=
        negb (Qneb PAR_ratio 0) && Qneb diffPAR_PWL_ratio 0
        && Qgtb diff_par diffPAR_PWL_ratio in
      (par_violation || diff_par_violation,
       if report then
         if Qneb PAR_ratio 0
         then legacy_line (par_violation || verbose) file_open true
                (Report_ratio Gate_area par PAR_ratio par_violation)
         else legacy_line (diff_par_violation || verbose) file_open true
                (Report_ratio Gate_area par diffPAR_PWL_ratio diff_par_violation)
       else ([], []))
  | None => (false, ([], []))
  end.

Definition checkViaCar (AntennaRatio : ARinfo) (layer : Layer)
           (report verbose file_open : bool)
  : bool * (list LogEvent * list LogEvent) :=
  let car := ar_CAR AntennaRatio in
  let diff_area := par_iterm_diff_area (par_info AntennaRatio) in
  match getDefaultAntennaRule (layer_at tech layer) with
  | Some antenna_rule =>
      let CAR_ratio := getCAR antenna_rule in
      let diffCAR_PWL_ratio := getPwlFactor (getDiffCAR antenna_rule) diff_area 0 in
      let car_violation := Qneb CAR_ratio 0 && Qgtb car CAR_ratio in
      let diff_car_violation :=
        negb (Qneb CAR_ratio 0) && Qneb diffCAR_PWL_ratio 0
        && Qgtb car diffCAR_PWL_ratio in
      (car_violation || diff_car_violation,
       if report then
         if Qneb CAR_ratio 0
         then legacy_line (car_violation || verbose) file_open true
                (Report_ratio Cumulative_area car CAR_ratio car_violation)
         else legacy_line (diff_car_violation || verbose) file_open true
                (Report_ratio Cumulative_area car diffCAR_PWL_ratio
                              diff_car_violation)
       else ([], []))
  | None => (false, ([], []))
  end.

(** The [while (wire_PAR_violation)] loop of [getAntennaViolations].  As in
    the loop of [checkInfo], the count grows by one in each turn and the
    loop breaks once it exceeds the cap; [None] is running out of fuel.
    The result is the PARinfo, the diode count and whether warning 9 was
    emitted. *)
Fixpoint wire_diode_loop (ratio_margin_ : Q) (layer : Layer) (diode_diff_area : Q)
         (gates_size : nat) (max_diode_count_per_gate : nat)
         (fuel : nat) (par_info : PARinfo) (diode_count_per_gate : nat)
         (wire_PAR_violation : bool) : option (PARinfo * nat * bool) :=
  if negb wire_PAR_violation then Some (par_info, diode_count_per_gate, false)
  else
    match fuel with
    | O => None
    | S fuel' =>
        let par_info :=
          set_par_iterm_diff_area par_info
            (par_iterm_diff_area par_info
             + diode_diff_area * inject_Z (Z.of_nat gates_size)) in
        let diode_count_per_gate := S diode_count_per_gate in
        let par_info := calculateParInfo par_info in
        let wire_PAR_violation := checkViolation ratio_margin_ par_info layer in
        if Nat.ltb max_diode_count_per_gate diode_count_per_gate
        then Some (par_info, diode_count_per_gate, true)
        else wire_diode_loop ratio_margin_ layer diode_diff_area gates_size
                             max_diode_count_per_gate fuel' par_info
                             diode_count_per_gate wire_PAR_violation
    end.

(** The body of the loop of [getAntennaViolations] over the PAR table, for
    one entry; [gates] is what [findWireRootIterms] collects for the wire
    root.  The result is the Violation pushed, if any, and whether warning
    9 was emitted. *)
Definition getAntennaViolations_entry (ratio_margin : Q)
           (diode_mterm : option dbMTerm) (max_diode_count_per_gate : nat)
           (par_info : PARinfo) (gates : list dbITerm)
  : option (option Violation * bool) :=
  let diode_diff_area :=
    match diode_mterm with Some diode => diffArea diode | None => 0 end in
  let layer := wire_root_layer par_info in
  let wire_PAR_violation := checkViolation ratio_margin par_info layer in
  if wire_PAR_violation then
    match (if match diode_mterm with Some _ => true | None => false end
              && antennaRatioDiffDependent layer
           then wire_diode_loop ratio_margin layer diode_diff_area (length gates)
                                max_diode_count_per_gate
                                (S max_diode_count_per_gate) par_info 0
                                wire_PAR_violation
           else Some (par_info, 0%nat, false)) with
    | Some (_, diode_count_per_gate, warned) =>
        Some (Some (mk_violation (routingLevel tech layer) gates
                                 diode_count_per_gate),
              warned)
    | None => None
    end
  else Some (None, false).

(** What [getViolatedWireLength] does for one wire root.  The doubles are
    read as exact rationals, and the final test [cut_length != 0] is where
    that reading cannot follow them on whole classes of inputs: with a zero
    wire width or a zero divisor of [diff_par] the doubles hold an infinity
    or a NaN, and with the PWL threshold zero the cut length cancels to zero
    in exact arithmetic while the doubles keep a rounding residue.  On those
    inputs the answer is [NotExact]: neither a cut nor its absence. *)
Inductive CutLength : Type :=
| NoCut
| Cut (cut_length : Q)
| NotExact.

(** The body of the loop of [getViolatedWireLength] for one wire root of
    the requested routing level: [wire_area], [iterm_gate_area] and
    [iterm_diff_area] are what the walk of the wire graph collects for the
    root.  [assigned] is whether the branches taken assign [cut_length] at
    all (it starts at 0), [exact] whether exact arithmetic decides the
    final test as the doubles do. *)
Definition getViolatedWireLength_root (tech_layer : Layer)
           (wire_area iterm_gate_area iterm_diff_area : Q) : CutLength :=
  if Qeq_bool iterm_gate_area 0 then NoCut
  else
    let wire_width := dbuToMicrons dbu_per_micron (inject_Z (getWidth tech_layer)) in
    let am := layer_info_at layer_info_ tech_layer in
    match getDefaultAntennaRule (layer_at tech tech_layer) with
    | Some antenna_rule =>
        let diff_metal_reduce_factor :=
          getPwlFactor (getAreaDiffReduce antenna_rule) iterm_diff_area 1 in
        let par :=
          if Qneb iterm_diff_area 0
          then (diff_metal_factor am * wire_area) / iterm_gate_area
          else (metal_factor am * wire_area) / iterm_gate_area in
        let diff_par :=
          if Qneb iterm_diff_area 0
          then (diff_metal_factor am * wire_area * diff_metal_reduce_factor
                - minus_diff_factor am * iterm_diff_area)
               / (iterm_gate_area + plus_diff_factor am * iterm_diff_area)
          else (metal_factor am * wire_area * diff_metal_reduce_factor)
               / iterm_gate_area in
        let PAR_ratio := getPAR antenna_rule in
        let diffPAR_ratio :=
          getPwlFactor (getDiffPAR antenna_rule) iterm_diff_area 0 in
        let cut_length :=
          if Qneb PAR_ratio 0 then
            if Qgtb par PAR_ratio then
              if Qneb iterm_diff_area 0
              then ((par - PAR_ratio) * iterm_gate_area
                    - diff_metal_factor am * wire_area) / wire_width
              else ((par - PAR_ratio) * iterm_gate_area
                    - metal_factor am * wire_area) / wire_width
            else 0
          else
            if Qneb iterm_diff_area 0
            then ((diff_par - diffPAR_ratio)
                  * (iterm_gate_area + plus_diff_factor am * iterm_diff_area)
                  - (diff_metal_factor am * wire_area * diff_metal_reduce_factor
                     - minus_diff_factor am * iterm_diff_area))
                 / wire_width
            else ((diff_par - diffPAR_ratio)
                  * (iterm_gate_area + plus_diff_factor am * iterm_diff_area)
                  - (metal_factor am * wire_area * diff_metal_reduce_factor
                     - minus_diff_factor am * iterm_diff_area))
                 / wire_width in
        let assigned := if Qneb PAR_ratio 0 then Qgtb par PAR_ratio else true in
        let exact :=
          Qneb wire_width 0
          && (Qneb PAR_ratio 0
              || (Qneb diffPAR_ratio 0
                  && Qneb (iterm_gate_area + plus_diff_factor am * iterm_diff_area)
                          0)) in
        if negb assigned then NoCut
        else if negb exact then NotExact
        else if Qneb cut_length 0 then Cut cut_length else NoCut
    | None => NoCut
    end.


End WireGraphEngine.

(** ** [findMaxWireLength]

    A net as the loop sees it: its name, whether it is special, and the
    edges of the wire graph decoded from its wire ([None] without wire).
    An edge has a type and the coordinates of its two ends.  The
    coordinates are [int]s, and so are their differences, [abs] of them and
    the sum that is handed to [dbuToMicrons]: 32 bits, with the wrap-around
    of two's complement written out. *)

Definition wrap_int (z : Z) : Z := ((z + 2 ^ 31) mod 2 ^ 32 - 2 ^ 31)%Z.

Definition int_sub (a b : Z) : Z := wrap_int (a - b).
Definition int_add (a b : Z) : Z := wrap_int (a + b).
Definition int_abs (a : Z) : Z := wrap_int (Z.abs a).

Inductive EdgeType : Type := SEGMENT | TECH_VIA | VIA | SHORT | OTHER_EDGE.

Record dbWireGraphEdge : Type := mk_edge {
  edge_type : EdgeType;
  source_xy : Z * Z;
  target_xy : Z * Z
}.

Record dbNet : Type := mk_net {
  getConstName : string;
  isSpecial : bool;
  getWire : option (list dbWireGraphEdge)
}.

(** The loop over the edges of one net. *)
Definition net_wire_length (dbu_per_micron : Z) (edges : list dbWireGraphEdge) : Q :=
  fold_left
    (fun wire_length edge =>
       let '(x1, y1) := source_xy edge in
       let '(x2, y2) := target_xy edge in
       match edge_type edge with
       | SEGMENT | SHORT =>
           wire_length
           + dbuToMicrons dbu_per_micron
                          (inject_Z (int_add (int_abs (int_sub x2 x1))
                                             (int_abs (int_sub y2 y1))))
       | _ => wire_length
       end)
    edges 0.

(** The loop over the nets: [max_wire_net] and [max_wire_length]. *)
Definition findMaxWireLength_step (dbu_per_micron : Z) (acc : option dbNet * Q)
           (net : dbNet) : option dbNet * Q :=
  match getWire net with
  | Some edges =>
      if negb (isSpecial net) then
        let wire_length := net_wire_length dbu_per_micron edges in
        if Qgtb wire_length (snd acc) then (Some net, wire_length) else acc
      else acc
  | None => acc
  end.

(** What [findMaxWireLength] reports: the name of a net and its length. *)
Definition findMaxWireLength (dbu_per_micron : Z) (nets : list dbNet)
  : option (string * Q) :=
  let '(max_wire_net, max_wire_length) :=
    fold_left (findMaxWireLength_step dbu_per_micron) nets (None, 0) in
  match max_wire_net with
  | Some net => Some (getConstName net, max_wire_length)
  | None => None
  end.

(** ** The disjoint sets of [saveGates]

    [dsu_parent_] and [dsu_size_] are vectors indexed by node id.  The
    recursion of [find_set] is bounded by a fuel; [None] is running out of
    fuel. *)

Record Dsu : Type := mk_dsu {
  dsu_parent_ : list nat;
  dsu_size_ : list nat
}.

(** [v.resize(n)]: the first [n] elements, zeros added when [v] is shorter. *)
Definition resize (v : list nat) (n : nat) : list nat :=
  firstn n v ++ repeat 0%nat (n - length v).

(** [v[i] = x] on an index in range. *)
Fixpoint set_nth (v : list nat) (i x : nat) : list nat :=
  match v, i with
  | [], _ => []
  | _ :: rest, O => x :: rest
  | y :: rest, S i' => y :: set_nth rest i' x
  end.

(** The [for] loop of [init_dsu]; [n] is the number of iterations left. *)
Fixpoint init_dsu_loop (n i : nat) (d : Dsu) : Dsu :=
  match n with
  | O => d
  | S n' =>
      init_dsu_loop n' (S i)
        (mk_dsu (set_nth (dsu_parent_ d) i i) (set_nth (dsu_size_ d) i 1%nat))
  end.

Definition init_dsu (node_count_ : nat) (d : Dsu) : Dsu :=
  init_dsu_loop node_count_ 0
    (mk_dsu (resize (dsu_parent_ d) node_count_) (resize (dsu_size_ d) node_count_)).

(** [find_set] with its path compression: the returned root is stored as
    the parent of [u] in the state that the recursive call leaves. *)
Fixpoint find_set (fuel : nat) (d : Dsu) (u : nat) : option (nat * Dsu) :=
  match fuel with
  | O => None
  | S fuel' =>
      if Nat.eqb u (nth u (dsu_parent_ d) 0%nat) then Some (u, d)
      else
        match find_set fuel' d (nth u (dsu_parent_ d) 0%nat) with
        | Some (r, d') => Some (r, mk_dsu (set_nth (dsu_parent_ d') u r) (dsu_size_ d'))
        | None => None
        end
  end.

(** [dsu_same]; the left operand of [==] is evaluated first. *)
Definition dsu_same (fuel : nat) (d : Dsu) (u v : nat) : option (bool * Dsu) :=
  match find_set fuel d u with
  | Some (ru, d) =>
      match find_set fuel d v with
      | Some (rv, d) => Some (Nat.eqb ru rv, d)
      | None => None
      end
  | None => None
  end.

Definition union_set (fuel : nat) (d : Dsu) (u v : nat) : option Dsu :=
  match find_set fuel d u with
  | Some (u, d) =>
      match find_set fuel d v with
      | Some (v, d) =>
          (* union the smaller set to bigger set *)
          let '(u, v) :=
            if Nat.ltb (nth u (dsu_size_ d) 0%nat) (nth v (dsu_size_ d) 0%nat)
            then (v, u) else (u, v) in
          Some (mk_dsu (set_nth (dsu_parent_ d) v u)
                       (set_nth (dsu_size_ d) u
                                (nth u (dsu_size_ d) 0 + nth v (dsu_size_ d) 0)%nat))
      | None => None
      end
  | None => None
  end.

(** ** Vocabulary of the further properties *)

(** The instance terminals among the pins of a node, in order. *)
Fixpoint iterms_of (gs : list PinType) : list dbITerm :=
  match gs with
  | [] => []
  | BTermPin _ :: rest => iterms_of rest
  | ITermPin _ iterm :: rest => iterm :: iterms_of rest
  end.

(** The sum of an area of the master terminals of a list of iterms. *)
Fixpoint area_sum (f : dbMTerm -> Q) (its : list dbITerm) : Q :=
  match its with
  | [] => 0
  | iterm :: rest => f (getMTerm iterm) + area_sum f rest
  end.

(** The fields of a record that [calculateAreas] fills. *)
Definition area_fields (r : InfoType) : Q * Q * Q * Q * list dbITerm :=
  (area r, side_area r, iterm_gate_area r, iterm_diff_area r, iterms r).

(** The partial ratios of a record. *)
Definition partial_fields (r : InfoType) : Q * Q * Q * Q :=
  (PAR r, PSR r, diff_PAR r, diff_PSR r).

(** The cumulative ratios of a record. *)
Definition cumulative_fields (r : InfoType) : Q * Q * Q * Q :=
  (CAR r, CSR r, diff_CAR r, diff_CSR r).

(** A record without side area: what a via layer holds. *)
Definition no_side_ratios (r : InfoType) : Prop :=
  side_area r == 0 /\ PSR r == 0 /\ diff_PSR r == 0
  /\ CSR r == 0 /\ diff_CSR r == 0.

Section StoredRecords.
Context {Polygon : Type} {gtl : Gtl Polygon}.
Variable tech : Tech.
Variable dbu_per_micron : Z.

(** The records that [calculateAreas] stores, one after the other, under
    gate [g] on layer [L]: the record of each island of [L], once for each
    valid pin of that name on the island. *)
Definition stored_for (g : string) (L : Layer)
           (isls : list (Layer * GraphNode Polygon)) : list InfoType :=
  flat_map (fun isl : Layer * GraphNode Polygon =>
              if Nat.eqb (fst isl) L
              then repeat (fst (node_info tech dbu_per_micron (fst isl) (snd isl)))
                          (valid_pin_count g (gates (snd isl)))
              else [])
           isls.

End StoredRecords.

Section AreaClaims.
Context {Polygon : Type} {gtl : Gtl Polygon}.

(** The reading of "iterm_gate_area and iterm_diff_area remain the per-gate
    values": the record stored under the name of an instance pin holds the
    gate area and the diffusion area of that pin. *)
Definition stores_per_gate_areas (tech : Tech) (dbu_per_micron : Z)
           (node_by_layer_map_ : NodeMap Polygon) : Prop :=
  forall l node pin_name iterm r,
    In (l, node) (islands node_by_layer_map_) ->
    In (ITermPin pin_name iterm) (gates node) ->
    find_info (calculateAreas tech dbu_per_micron node_by_layer_map_ []) pin_name l
    = Some r ->
    iterm_gate_area r == gateArea (getMTerm iterm)
    /\ iterm_diff_area r == diffArea (getMTerm iterm).

End AreaClaims.

(** A Violation that the diode estimate of a record of [src] explains: a
    record of a metal layer that fails the PAR or the PSR check, with its
    iterms and a diode count between 1 and the cap plus one. *)
Definition violation_from (tech : Tech) (ratio_margin : Q)
           (max_diode_count_per_gate : nat) (src : Layer * InfoType -> Prop)
           (v : Violation) : Prop :=
  (1 <= diode_count_per_gate v)%nat
  /\ (diode_count_per_gate v <= S max_diode_count_per_gate)%nat
  /\ routing_level v <> 0%nat
  /\ exists l info antenna_rule,
       src (l, info)
       /\ getDefaultAntennaRule (layer_at tech l) = Some antenna_rule
       /\ par_psr_violation antenna_rule ratio_margin info = true
       /\ routing_level v = routingLevel tech l
       /\ violation_gates v = iterms info.

(** What [checkInfo] does to its state in repair mode: no report line, only
    warnings 15 and Violations explained by the records of [src]. *)
Definition repair_extends (tech : Tech) (ratio_margin : Q)
           (max_diode_count_per_gate : nat) (src : Layer * InfoType -> Prop)
           (st st' : CheckState) : Prop :=
  net_is_reported st' = net_is_reported st
  /\ pin_is_reported st' = pin_is_reported st
  /\ exists ws vs,
       log st' = log st ++ ws /\ violations st' = violations st ++ vs
       /\ Forall (fun e => e = Warn15_too_many_diodes max_diode_count_per_gate) ws
       /\ (length ws <= length vs)%nat
       /\ Forall (violation_from tech ratio_margin max_diode_count_per_gate src) vs.

(** Two states of [checkInfo] that differ at most in the log. *)
Definition same_but_log (st st' : CheckState) : Prop :=
  pin_added st = pin_added st' /\ violations st = violations st'
  /\ net_is_reported st = net_is_reported st'
  /\ pin_is_reported st = pin_is_reported st'
  /\ pin_has_violation st = pin_has_violation st'.

(** Nothing printed, nothing recorded. *)
Definition same_output (st st' : CheckState) : Prop :=
  log st' = log st /\ violations st' = violations st
  /\ net_is_reported st' = net_is_reported st
  /\ pin_is_reported st' = pin_is_reported st.

(** The log is extended, and by at least one line when [strict] holds. *)
Definition log_extends (strict : bool) (st st' : CheckState) : Prop :=
  exists lines, log st' = log st ++ lines /\ (strict = true -> lines <> []).

(** The records of an info map. *)
Definition record_of (info_map : InfoMap) (it : Layer * InfoType) : Prop :=
  exists g lm, In (g, lm) info_map /\ In it lm.

Section GraphClaims.
Context {Polygon : Type} {gtl : Gtl Polygon}.
Variable tech : Tech.
Variable set_by_layer : list (Layer * list Polygon).

(** Why node [index] of layer [l] may have [v] among its lower neighbours
    after [buildLayerMaps]: it is one of at most two islands found above
    via [v] of the layer below, or it is itself a via and [v] is the one
    island found below it. *)
Definition stored_by_guard (l : Layer) (index v : nat) : Prop :=
  let m0 := fst (init_nodes tech set_by_layer) in
  (exists via_layer vias via_it,
      In (via_layer, vias) set_by_layer
      /\ routingLevel tech via_layer = 0%nat
      /\ getUpperLayer tech via_layer = Some l
      /\ nth_error vias v = Some via_it
      /\ In index (findNodesWithIntersection (nodes_at m0 l) via_it)
      /\ (length (findNodesWithIntersection (nodes_at m0 l) via_it) <= 2)%nat)
  \/ (exists vias via_it,
        In (l, vias) set_by_layer
        /\ routingLevel tech l = 0%nat
        /\ nth_error vias index = Some via_it
        /\ findNodesWithIntersection (nodes_at_opt m0 (getLowerLayer tech l)) via_it
           = [v]).

End GraphClaims.

Section GraphShape.
Context {Polygon : Type}.

(** All the nodes of the layered graph. *)
Definition all_nodes (m : NodeMap Polygon) : list (GraphNode Polygon) :=
  flat_map snd m.

(** What a node is created with, apart from its lower neighbours. *)
Definition node_core (n : GraphNode Polygon) : nat * bool * Polygon * list PinType :=
  (id n, isVia n, pol n, gates n).

(** The graph [m] has the nodes of [m0] up to their lower neighbours, and
    every lower neighbour of a node is an index into the nodes of the layer
    below. *)
Definition keeps_nodes (tech : Tech) (m0 m : NodeMap Polygon) : Prop :=
  (forall l, map node_core (@nodes_at Polygon m l)
             = map node_core (@nodes_at Polygon m0 l))
  /\ forall l node v,
       In node (@nodes_at Polygon m l) -> In v (low_adj node) ->
       exists lower, getLowerLayer tech l = Some lower
                     /\ (v < length (@nodes_at Polygon m0 lower))%nat.

End GraphShape.

(** The record of the polygon engine with the areas and partial ratios of a
    [PARinfo]; the cumulative ratios are not part of a [PARinfo]. *)
Definition info_of_par (p : PARinfo) : InfoType :=
  mk_info (par_PAR p) (par_PSR p) (par_diff_PAR p) (par_diff_PSR p)
          (wire_area p) (side_wire_area p)
          (par_iterm_gate_area p) (par_iterm_diff_area p)
          0 0 0 0 (par_iterms p).

(** Node [u] reaches the root [r] along [dsu_parent_]. *)
Inductive reaches (d : Dsu) : nat -> nat -> Prop :=
| reaches_root (u : nat) :
    nth u (dsu_parent_ d) 0%nat = u -> reaches d u u
| reaches_step (u r : nat) :
    nth u (dsu_parent_ d) 0%nat <> u ->
    reaches d (nth u (dsu_parent_ d) 0%nat) r ->
    reaches d u r.

(** Two nodes of the same set: they reach the same root. *)
Definition same_set (d : Dsu) (u v : nat) : Prop :=
  exists r, reaches d u r /\ reaches d v r.

(** A forest over the nodes [0 .. n-1]: both vectors have [n] entries,
    every parent is a node, and [rank] falls along every parent link that
    is not a loop. *)
Definition dsu_forest (n : nat) (rank : nat -> nat) (d : Dsu) : Prop :=
  length (dsu_parent_ d) = n /\ length (dsu_size_ d) = n
  /\ forallb (fun u => Nat.ltb (nth u (dsu_parent_ d) 0%nat) n
                       && (Nat.eqb (nth u (dsu_parent_ d) 0%nat) u
                           || Nat.ltb (rank (nth u (dsu_parent_ d) 0%nat)) (rank u)))
             (seq 0 n)
     = true.

(** The wire length of a net that [findMaxWireLength] considers: a net with
    wire that is not special. *)
Definition routed_length (dbu_per_micron : Z) (net : dbNet) : option Q :=
  match getWire net with
  | Some edges =>
      if isSpecial net then None else Some (net_wire_length dbu_per_micron edges)
  | None => None
  end.

(** ** A concrete geometry for examples

    Rectangles of unit height on one track: the strip [lo, hi] x [0, 1].
    Two strips that overlap or abut merge into one strip. *)

Record Strip : Type := mk_strip { lo : Z; hi : Z }.

Definition strips_touch (a b : Strip) : bool :=
  Z.leb (lo a) (hi b) && Z.leb (lo b) (hi a).

Definition merge_strips (a b : Strip) : Strip :=
  mk_strip (Z.min (lo a) (lo b)) (Z.max (hi a) (hi b)).

Definition strip_add (objs : list Strip) (p : Strip) : list Strip :=
  let '(touching, others) := partition (strips_touch p) objs in
  fold_left merge_strips touching p :: others.

#[export] Instance strip_gtl : Gtl Strip := {|
  gtl_area := fun p => (hi p - lo p)%Z;
  gtl_perimeter := fun p => (2 * (hi p - lo p) + 2)%Z;
  gtl_add := strip_add
|}.

(** ** Scenarios

    The toy technology of the specification: metal 1, a via layer and
    metal 2, one database unit per micron, wires of thickness 1. *)

Definition toy_rule (par : Q) (diffPAR : pwl_pair) (plus_diff : Q)
  : dbTechLayerAntennaRule :=
  mk_rule false 1 false 1 0 plus_diff empty_pwl par 0 0 0
          diffPAR empty_pwl empty_pwl empty_pwl.

Definition toy_tech (metal_rule via_rule : dbTechLayerAntennaRule) : Tech :=
  [mk_layer ROUTING 1%nat 1%Z (Some metal_rule);
   mk_layer CUT 0%nat 0%Z (Some via_rule);
   mk_layer ROUTING 2%nat 1%Z (Some metal_rule)].

Definition M1 : Layer := 0%nat.
Definition V1 : Layer := 1%nat.
Definition M2 : Layer := 2%nat.

(** An input pin with one gate area and one diffusion area. *)
Definition receiver (pin : string) (gate_area diff_area : Q) : PinType :=
  ITermPin pin (mk_iterm pin (mk_mterm INPUT (Some [(gate_area, None)])
                                       [(diff_area, None)])).

(** An island: the strip from [a] to [b] with its gates. *)
Definition island (node_id : nat) (via : bool) (a b : Z) (gs : list PinType)
  : GraphNode Strip :=
  mk_node node_id via (mk_strip a b) [] gs.

(** Scenario S2 with a diffusion area on the receiver: one wire of 40 on
    metal 1 over a gate of 20 with diffusion 20, under a metal rule whose
    plus-diff factor is given. *)
Definition s2_tech (plus_diff : Q) : Tech :=
  toy_tech (toy_rule 1 empty_pwl plus_diff) (toy_rule 0 empty_pwl 0).

Definition s2_nodes : NodeMap Strip :=
  [(M1, [island 0 false 0 40 [receiver "u2/A" 20 20]])].

(** Two islands of metal 1 on the same gate, and a driver pin on the first. *)
Definition two_island_nodes : NodeMap Strip :=
  [(M1, [island 0 false 0 10 [receiver "u2/A" 20 5; BTermPin "in"];
         island 1 false 20 50 [receiver "u2/A" 20 5]])].

(** A wire of metal 1 and a via on it, both on the gate of scenario S2. *)
Definition wire_and_via_nodes : NodeMap Strip :=
  [(M1, [island 0 false 0 40 [receiver "u2/A" 20 0]]);
   (V1, [island 1 true 5 6 [receiver "u2/A" 20 0]])].

(** The info map of that net under the toy rules. *)
Definition wire_and_via_info : InfoMap :=
  net_info (s2_tech 0) 1 (fst (initAntennaRules (s2_tech 0)))
           (findRoutingLayer (s2_tech 0) 1) wire_and_via_nodes.

(** A net whose only threshold is the PWL table of diffPAR, constant 1: a
    wire of 18 on metal 1 over a gate of 20. *)
Definition pwl_only_tech : Tech :=
  toy_tech (toy_rule 0 (mk_pwl [0] [1]) 0) (toy_rule 0 empty_pwl 0).

Definition pwl_only_nodes : NodeMap Strip :=
  [(M1, [island 0 false 0 18 [receiver "u2/A" 20 0]])].

Definition pwl_only_checker : Checker :=
  mk_checker (fst (initAntennaRules pwl_only_tech))
             (findRoutingLayer pwl_only_tech 1)
             (net_info pwl_only_tech 1 (fst (initAntennaRules pwl_only_tech))
                       (findRoutingLayer pwl_only_tech 1) pwl_only_nodes)
             0 [] [].

(** The reading of "raising the margin adds no violation to a record whose
    only applicable thresholds are PWL thresholds". *)
Definition margin_adds_no_pwl_violation (tech : Tech) : Prop :=
  forall (antenna_rule : dbTechLayerAntennaRule) (l : Layer) (info : InfoType)
         (ratio_margin : Q),
    0 < ratio_margin -> ratio_margin < 100 ->
    getPAR antenna_rule == 0 -> getPSR antenna_rule == 0 ->
    getCAR antenna_rule == 0 -> getCSR antenna_rule == 0 ->
    fst (check_record tech antenna_rule 0 l info false false) = false ->
    fst (check_record tech antenna_rule ratio_margin l info false false) = false.

(** Scenario S5: the wire of S2 under the PWL threshold
    [diffPAR = {(0,1), (10,5)}], and a diode of diffusion area 10. *)
Definition s5_tech : Tech :=
  toy_tech (toy_rule 0 (mk_pwl [0; 10] [1; 5]) 0) (toy_rule 0 empty_pwl 0).

Definition s5_nodes : NodeMap Strip :=
  [(M1, [island 0 false 0 40 [receiver "u2/A" 20 0]])].

Definition s5_diode : dbMTerm := mk_mterm INOUT None [(10, None)].

Definition s5_info : InfoMap :=
  net_info s5_tech 1 (fst (initAntennaRules s5_tech)) (findRoutingLayer s5_tech 1)
           s5_nodes.

(** Two islands of metal 1 that both end on the pin of gate [u1/A]: the
    first carries [u1/A] and [u2/A], the second [u3/A] and [u1/A]. *)
Definition shared_gate_nodes : NodeMap Strip :=
  [(M1, [island 0 false 0 80 [receiver "u1/A" 20 0; receiver "u2/A" 20 0];
         island 1 false 100 180 [receiver "u3/A" 20 0; receiver "u1/A" 20 0]])].

Definition shared_gate_checker : Checker :=
  mk_checker (fst (initAntennaRules s5_tech)) (findRoutingLayer s5_tech 1)
             (net_info s5_tech 1 (fst (initAntennaRules s5_tech))
                       (findRoutingLayer s5_tech 1) shared_gate_nodes)
             0 [] [].

(** A via between one island of metal 1 and one island of metal 2. *)
Definition one_via_set : list (Layer * list Strip) :=
  [(M1, [mk_strip 0 12]); (V1, [mk_strip 4 8]); (M2, [mk_strip 6 20])].

(** A via under three islands of metal 2. *)
Definition three_upper_set : list (Layer * list Strip) :=
  [(M1, [mk_strip 0 12]); (V1, [mk_strip 4 8]);
   (M2, [mk_strip 0 4; mk_strip 5 6; mk_strip 8 12])].

(** A via under two islands of metal 2. *)
Definition two_upper_set : list (Layer * list Strip) :=
  [(M1, [mk_strip 0 12]); (V1, [mk_strip 4 8]); (M2, [mk_strip 0 4; mk_strip 8 12])].

(** A via over two islands of metal 1. *)
Definition two_lower_set : list (Layer * list Strip) :=
  [(M1, [mk_strip 0 4; mk_strip 8 12]); (V1, [mk_strip 4 8]); (M2, [mk_strip 6 20])].

(** A wire of 40 on metal 1 and a wire of 20 on metal 2, both on the gate
    of scenario S2; the info map before [calculateCAR]. *)
Definition two_metal_nodes : NodeMap Strip :=
  [(M1, [island 0 false 0 40 [receiver "u2/A" 20 0]]);
   (M2, [island 1 false 0 20 [receiver "u2/A" 20 0]])].

Definition two_metal_par : InfoMap :=
  calculatePAR (s2_tech 0) (fst (initAntennaRules (s2_tech 0)))
               (calculateAreas (s2_tech 0) 1 two_metal_nodes []).

(** The wire of scenario S2 as a wire root of the wire-graph engine: area
    40 and side area 84 over a gate of 20, on metal 1 of width 2. *)
Definition s2_wire_root : PARinfo :=
  mk_par_info M1 [] 40 84 20 0 0 0 0 0 0 0 0 0 0 0.

Definition s2_width (l : Layer) : Z := 2%Z.

(** One island of metal 1 on the pins of two gates: [u1/A] of gate area 4
    and diffusion 2, [u2/A] of gate area 12 and diffusion 7. *)
Definition shared_island_nodes : NodeMap Strip :=
  [(M1, [island 0 false 0 40 [receiver "u1/A" 4 2; receiver "u2/A" 12 7]])].

(** * Properties *)

(** ** Comparisons *)

Lemma Qltb_true (a b : Q) : Qltb a b = true <-> a < b.
Proof.
  unfold Qltb. rewrite negb_true_iff. split; intro H.
  - apply Qnot_le_lt. intro Hle. apply Qle_bool_iff in Hle. congruence.
  - destruct (Qle_bool b a) eqn:E; [|reflexivity].
    apply Qle_bool_iff in E. exfalso. apply (Qlt_not_le _ _ H E).
Qed.

Lemma Qltb_false (a b : Q) : Qltb a b = false <-> b <= a.
Proof.
  unfold Qltb. rewrite negb_false_iff. apply Qle_bool_iff.
Qed.

Lemma Qgtb_true (a b : Q) : Qgtb a b = true <-> b < a.
Proof. apply Qltb_true. Qed.

Lemma Qneb_true (a b : Q) : Qneb a b = true <-> ~ a == b.
Proof.
  unfold Qneb. rewrite negb_true_iff. split; intro H.
  - intro E. apply Qeq_bool_iff in E. congruence.
  - destruct (Qeq_bool a b) eqn:E; [|reflexivity].
    apply Qeq_bool_iff in E. contradiction.
Qed.

Lemma Qneb_false (a b : Q) : Qneb a b = false <-> a == b.
Proof.
  unfold Qneb. rewrite negb_false_iff. apply Qeq_bool_iff.
Qed.

Lemma std_max_ge_l (a b : Q) : a <= std_max a b.
Proof.
  unfold std_max. destruct (Qltb a b) eqn:E.
  - apply Qltb_true in E. lra.
  - lra.
Qed.

(** ** The PWL lookup *)

Section PwlLoop.
Variable pwl_info : pwl_pair.
Variable ref_value : Q.


Lemma segment_test (j : nat) :
  Qle_bool (nth j (indices pwl_info) 0) ref_value && Qltb ref_value (nth (S j) (indices pwl_info) 0) = true
  <-> in_segment pwl_info ref_value j.
Proof.
  unfold in_segment. rewrite andb_true_iff, Qle_bool_iff, Qltb_true. reflexivity.
Qed.

Lemma pwl_loop_interp (n : nat) : forall (i k : nat) (slope : Q),
  (i <= k)%nat -> (S k < S i + n)%nat ->
  (forall j, (i <= j)%nat -> (j < k)%nat -> ~ in_segment pwl_info ref_value j) ->
  in_segment pwl_info ref_value k ->
  pwl_loop pwl_info ref_value n (S i) (nth i (indices pwl_info) 0) (nth i (ratios pwl_info) 0) slope
  = nth k (ratios pwl_info) 0 + (ref_value - nth k (indices pwl_info) 0) * segment_slope pwl_info k.
Proof.
  induction n as [|n IH]; intros i k slope Hik Hlen Hmiss Hhit.
  - lia.
  - cbn [pwl_loop].
    destruct (Nat.eq_dec i k) as [->|Hne].
    + apply segment_test in Hhit. rewrite Hhit. reflexivity.
    + assert (Hno : ~ in_segment pwl_info ref_value i) by (apply Hmiss; lia).
      destruct (Qle_bool (nth i (indices pwl_info) 0) ref_value
                && Qltb ref_value (nth (S i) (indices pwl_info) 0)) eqn:E.
      * apply segment_test in E. contradiction.
      * apply IH; try lia; try assumption.
        intros j Hj1 Hj2. apply Hmiss; lia.
Qed.

Lemma pwl_loop_extrap (n : nat) : forall (i : nat) (slope : Q),
  (S i + n = length (indices pwl_info))%nat ->
  (forall j, (i <= j)%nat -> (S j < length (indices pwl_info))%nat -> ~ in_segment pwl_info ref_value j) ->
  pwl_loop pwl_info ref_value n (S i) (nth i (indices pwl_info) 0) (nth i (ratios pwl_info) 0) slope
  = nth (length (indices pwl_info) - 1) (ratios pwl_info) 0
    + (ref_value - nth (length (indices pwl_info) - 1) (indices pwl_info) 0)
      * (if Nat.eqb n 0 then slope else segment_slope pwl_info (length (indices pwl_info) - 2)).
Proof.
  induction n as [|n IH]; intros i slope Hlen Hmiss.
  - cbn [pwl_loop Nat.eqb]. replace (length (indices pwl_info) - 1)%nat with i by lia. reflexivity.
  - cbn [pwl_loop].
    assert (Hno : ~ in_segment pwl_info ref_value i) by (apply Hmiss; lia).
    destruct (Qle_bool (nth i (indices pwl_info) 0) ref_value
              && Qltb ref_value (nth (S i) (indices pwl_info) 0)) eqn:E.
    + apply segment_test in E. contradiction.
    + rewrite IH; try lia.
      * cbn [Nat.eqb]. destruct n as [|n'].
        -- cbn [Nat.eqb]. replace (length (indices pwl_info) - 2)%nat with i by lia. reflexivity.
        -- reflexivity.
      * intros j Hj1 Hj2. apply Hmiss; lia.
Qed.

(** The first iteration compares the first point with itself and moves on. *)
Lemma pwl_loop_first (n : nat) (slope : Q) :
  pwl_loop pwl_info ref_value (S n) 0 (nth 0 (indices pwl_info) 0) (nth 0 (ratios pwl_info) 0) slope
  = pwl_loop pwl_info ref_value n 1 (nth 0 (indices pwl_info) 0) (nth 0 (ratios pwl_info) 0)
             ((nth 0 (ratios pwl_info) 0 - nth 0 (ratios pwl_info) 0) / (nth 0 (indices pwl_info) 0 - nth 0 (indices pwl_info) 0)).
Proof.
  cbn [pwl_loop].
  unfold Qltb. destruct (Qle_bool (nth 0 (indices pwl_info) 0) ref_value); reflexivity.
Qed.

End PwlLoop.

Lemma pwl_sortedb_nth (l : list Q) :
  pwl_sortedb l = true ->
  forall a b, (a <= b)%nat -> (b < length l)%nat -> nth a l 0 <= nth b l 0.
Proof.
  induction l as [|x tl IH]; intros Hs a b Hab Hb.
  - simpl in Hb. lia.
  - destruct tl as [|y tl'].
    + simpl in Hb. assert (b = 0%nat) by lia. assert (a = 0%nat) by lia.
      subst. simpl. lra.
    + cbn [pwl_sortedb] in Hs. apply andb_true_iff in Hs. destruct Hs as [Hxy Hs].
      apply Qle_bool_iff in Hxy.
      destruct b as [|b].
      * assert (a = 0%nat) by lia. subst. simpl. lra.
      * destruct a as [|a].
        -- apply Qle_trans with y; [exact Hxy|].
           change (nth 0 (y :: tl') 0 <= nth b (y :: tl') 0).
           apply IH; [exact Hs| lia | simpl in Hb |- *; lia].
        -- change (nth a (y :: tl') 0 <= nth b (y :: tl') 0).
           apply IH; [exact Hs| lia | simpl in Hb |- *; lia].
Qed.

(** C5. [getPwlFactor] returns the default on an empty table and the single
    ratio of a one-point table.  On a table of two or more points it returns
    the interpolation on the first segment whose index interval holds the
    reference value, and the extrapolation from the last point along the
    last segment when no interval holds it.  With the indices in order, the
    segment that holds the reference value is the only one, and no interval
    holds a reference value below the first index or from the last index
    on. *)
Theorem getPwlFactor_cases (pwl_info : pwl_pair) (ref_value default_value : Q) :
  (indices pwl_info = [] ->
   getPwlFactor pwl_info ref_value default_value = default_value)
  /\ (length (indices pwl_info) = 1%nat ->
      getPwlFactor pwl_info ref_value default_value = nth 0 (ratios pwl_info) 0)
  /\ ((2 <= length (indices pwl_info))%nat ->
      (forall k, (S k < length (indices pwl_info))%nat ->
                 in_segment pwl_info ref_value k ->
                 (forall j, (j < k)%nat -> ~ in_segment pwl_info ref_value j) ->
                 getPwlFactor pwl_info ref_value default_value
                 = nth k (ratios pwl_info) 0
                   + (ref_value - nth k (indices pwl_info) 0)
                     * segment_slope pwl_info k)
      /\ ((forall j, (S j < length (indices pwl_info))%nat ->
                     ~ in_segment pwl_info ref_value j) ->
          getPwlFactor pwl_info ref_value default_value
          = nth (length (indices pwl_info) - 1) (ratios pwl_info) 0
            + (ref_value - nth (length (indices pwl_info) - 1) (indices pwl_info) 0)
              * segment_slope pwl_info (length (indices pwl_info) - 2))
      /\ (pwl_sortedb (indices pwl_info) = true ->
          (forall k, (S k < length (indices pwl_info))%nat ->
                     nth k (indices pwl_info) 0 <= ref_value ->
                     ref_value < nth (S k) (indices pwl_info) 0 ->
                     getPwlFactor pwl_info ref_value default_value
                     = nth k (ratios pwl_info) 0
                       + (ref_value - nth k (indices pwl_info) 0)
                         * segment_slope pwl_info k)
          /\ (ref_value < nth 0 (indices pwl_info) 0
              \/ nth (length (indices pwl_info) - 1) (indices pwl_info) 0 <= ref_value ->
              getPwlFactor pwl_info ref_value default_value
              = nth (length (indices pwl_info) - 1) (ratios pwl_info) 0
                + (ref_value
                   - nth (length (indices pwl_info) - 1) (indices pwl_info) 0)
                  * segment_slope pwl_info (length (indices pwl_info) - 2)))).
Proof.
  split; [|split].
  - intros E. unfold getPwlFactor. rewrite E. reflexivity.
  - intros E. unfold getPwlFactor. rewrite E. reflexivity.
  - intros Hlen.
    assert (Hunf : getPwlFactor pwl_info ref_value default_value
                   = pwl_loop pwl_info ref_value (length (indices pwl_info) - 1) 1
                       (nth 0 (indices pwl_info) 0) (nth 0 (ratios pwl_info) 0)
                       ((nth 0 (ratios pwl_info) 0 - nth 0 (ratios pwl_info) 0)
                        / (nth 0 (indices pwl_info) 0 - nth 0 (indices pwl_info) 0))).
    { unfold getPwlFactor.
      destruct (length (indices pwl_info)) as [|[|n]] eqn:E; try lia.
      cbn [Nat.eqb negb]. rewrite pwl_loop_first.
      replace (S (S n) - 1)%nat with (S n) by lia. reflexivity. }
    assert (Hfirst : forall k, (S k < length (indices pwl_info))%nat ->
                in_segment pwl_info ref_value k ->
                (forall j, (j < k)%nat -> ~ in_segment pwl_info ref_value j) ->
                getPwlFactor pwl_info ref_value default_value
                = nth k (ratios pwl_info) 0
                  + (ref_value - nth k (indices pwl_info) 0)
                    * segment_slope pwl_info k).
    { intros k Hk Hhit Hmiss. rewrite Hunf.
      apply pwl_loop_interp; try lia; [|exact Hhit].
      intros j _ Hj. apply Hmiss. exact Hj. }
    assert (Hnone : (forall j, (S j < length (indices pwl_info))%nat ->
                               ~ in_segment pwl_info ref_value j) ->
                getPwlFactor pwl_info ref_value default_value
                = nth (length (indices pwl_info) - 1) (ratios pwl_info) 0
                  + (ref_value
                     - nth (length (indices pwl_info) - 1) (indices pwl_info) 0)
                    * segment_slope pwl_info (length (indices pwl_info) - 2)).
    { intros Hmiss. rewrite Hunf. rewrite pwl_loop_extrap; try lia.
      - destruct (length (indices pwl_info) - 1)%nat eqn:E; try lia. reflexivity.
      - intros j _ Hj. apply Hmiss. exact Hj. }
    split; [exact Hfirst|]. split; [exact Hnone|].
    intros Hsorted. pose proof (pwl_sortedb_nth _ Hsorted) as Hmono. split.
    + intros k Hk Hlo Hhi. apply Hfirst; [exact Hk|split; assumption|].
      intros j Hj [_ Hlt].
      assert (nth (S j) (indices pwl_info) 0 <= nth k (indices pwl_info) 0)
        by (apply Hmono; lia).
      lra.
    + intros Hout. apply Hnone.
      intros j Hj [Hge Hlt]. destruct Hout as [Hbelow|Habove].
      * assert (nth 0 (indices pwl_info) 0 <= nth j (indices pwl_info) 0)
          by (apply Hmono; lia).
        lra.
      * assert (nth (S j) (indices pwl_info) 0
                <= nth (length (indices pwl_info) - 1) (indices pwl_info) 0)
          by (apply Hmono; lia).
        lra.
Qed.

(** The table of scenario S3, [{(0,1), (10,3)}], read at 5 and at 20. *)
Lemma getPwlFactor_cases_witness :
  getPwlFactor (mk_pwl [0; 10] [1; 3]) 5 0 == 2
  /\ getPwlFactor (mk_pwl [0; 10] [1; 3]) 20 0 == 5.
Proof.
  destruct (getPwlFactor_cases (mk_pwl [0; 10] [1; 3]) 5 0) as (_ & _ & H5).
  destruct (getPwlFactor_cases (mk_pwl [0; 10] [1; 3]) 20 0) as (_ & _ & H20).
  split.
  - destruct (H5 ltac:(simpl; lia)) as (_ & _ & Hs).
    destruct (Hs eq_refl) as [Hi _].
    rewrite (Hi 0%nat ltac:(simpl; lia) ltac:(simpl; lra) ltac:(simpl; lra)).
    vm_compute. reflexivity.
  - destruct (H20 ltac:(simpl; lia)) as (_ & _ & Hs).
    destruct (Hs eq_refl) as [_ He].
    rewrite (He ltac:(right; simpl; lra)).
    vm_compute. reflexivity.
Defined.

(** ** RuleStore *)

Lemma initAntennaRules_from_at (tech : Tech) : forall (pos i : nat),
  (i < length tech)%nat ->
  layer_info_at (fst (initAntennaRules_from tech pos)) (pos + i)%nat
  = fst (initAntennaRule (pos + i)%nat (nth i tech no_layer)).
Proof.
  induction tech as [|t rest IH]; intros pos i Hi.
  - simpl in Hi. lia.
  - cbn [initAntennaRules_from].
    destruct (initAntennaRule pos t) as [m w] eqn:Em.
    destruct (initAntennaRules_from rest (S pos)) as [ms ws] eqn:Ems.
    cbn [fst layer_info_at].
    destruct i as [|i].
    + replace (pos + 0)%nat with pos by lia. rewrite Nat.eqb_refl.
      cbn [nth]. rewrite Em. reflexivity.
    + destruct (Nat.eqb_spec pos (pos + S i)) as [E|_]; [lia|].
      replace (pos + S i)%nat with (S pos + i)%nat by lia.
      cbn [nth]. specialize (IH (S pos) i). rewrite Ems in IH. cbn [fst] in IH.
      apply IH. simpl in Hi. lia.
Qed.

Lemma initAntennaRules_at (tech : Tech) (l : Layer) :
  (l < length tech)%nat ->
  layer_info_at (fst (initAntennaRules tech)) l
  = fst (initAntennaRule l (layer_at tech l)).
Proof.
  intro Hl. unfold initAntennaRules, layer_at.
  apply (initAntennaRules_from_at tech 0 l Hl).
Qed.

(** C8. On a layer with an antenna rule, an area factor flagged "diffusion
    use only" goes to [diff_metal_factor] and [diff_cut_factor] alone, and
    [metal_factor] and [cut_factor] stay 1; otherwise all four take it.  The
    side-area factor is split the same way between [side_metal_factor] and
    [diff_side_metal_factor]. *)
Theorem initAntennaRules_factors (tech : Tech) (l : Layer)
        (antenna_rule : dbTechLayerAntennaRule) :
  (l < length tech)%nat ->
  getDefaultAntennaRule (layer_at tech l) = Some antenna_rule ->
  let am := layer_info_at (fst (initAntennaRules tech)) l in
  (if isAreaFactorDiffUseOnly antenna_rule
   then diff_metal_factor am = getAreaFactor antenna_rule
        /\ diff_cut_factor am = getAreaFactor antenna_rule
        /\ metal_factor am = 1 /\ cut_factor am = 1
   else diff_metal_factor am = getAreaFactor antenna_rule
        /\ diff_cut_factor am = getAreaFactor antenna_rule
        /\ metal_factor am = getAreaFactor antenna_rule
        /\ cut_factor am = getAreaFactor antenna_rule)
  /\ (if isSideAreaFactorDiffUseOnly antenna_rule
      then diff_side_metal_factor am = getSideAreaFactor antenna_rule
           /\ side_metal_factor am = 1
      else diff_side_metal_factor am = getSideAreaFactor antenna_rule
           /\ side_metal_factor am = getSideAreaFactor antenna_rule).
Proof.
  intros Hl Hrule am. subst am.
  rewrite (initAntennaRules_at tech l Hl).
  unfold initAntennaRule. rewrite Hrule.
  destruct (isAreaFactorDiffUseOnly antenna_rule);
    destruct (isSideAreaFactorDiffUseOnly antenna_rule);
    cbn; repeat split; reflexivity.
Qed.

(** A metal layer whose area factor 3 is for diffusion use only and whose
    side-area factor 5 is not. *)
Lemma initAntennaRules_factors_witness :
  let am := layer_info_at
              (fst (initAntennaRules
                      [mk_layer ROUTING 1%nat 100%Z
                         (Some (mk_rule true 3 false 5 0 0 empty_pwl 0 0 0 0
                                        empty_pwl empty_pwl empty_pwl empty_pwl))])) 0%nat in
  (diff_metal_factor am = 3 /\ diff_cut_factor am = 3
   /\ metal_factor am = 1 /\ cut_factor am = 1)
  /\ (diff_side_metal_factor am = 5 /\ side_metal_factor am = 5).
Proof.
  exact (initAntennaRules_factors
           [mk_layer ROUTING 1%nat 100%Z
              (Some (mk_rule true 3 false 5 0 0 empty_pwl 0 0 0 0
                             empty_pwl empty_pwl empty_pwl empty_pwl))]
           0%nat _ (le_n 1) eq_refl).
Defined.

(** ** Partial ratios *)

Lemma reduce_factor_pwl (tech : Tech) (l : Layer) (info : InfoType) :
  reduce_factor tech l info
  = getPwlFactor (areaDiffReduce_of tech l) (iterm_diff_area info) 1.
Proof.
  unfold reduce_factor, areaDiffReduce_of.
  destruct (getDefaultAntennaRule (layer_at tech l)); reflexivity.
Qed.

Lemma find_layer_map (f : Layer * InfoType -> Layer * InfoType) (m : LayerMap) (l : Layer) :
  (forall it, fst (f it) = fst it) ->
  find_layer (map f m) l
  = match find_layer m l with Some r => Some (snd (f (l, r))) | None => None end.
Proof.
  intros Hf. induction m as [|[k v] rest IH]; [reflexivity|].
  cbn [map find_layer]. specialize (Hf (k, v)) as Hk.
  destruct (f (k, v)) as [k' v'] eqn:E. cbn [fst] in Hk. subst k'.
  destruct (Nat.eqb_spec k l) as [->|_].
  - rewrite E. reflexivity.
  - exact IH.
Qed.

Lemma find_gate_map (f : LayerMap -> LayerMap) (m : InfoMap) (g : string) :
  find_gate (map (fun gate_it : string * LayerMap => (fst gate_it, f (snd gate_it))) m) g
  = match find_gate m g with Some lm => Some (f lm) | None => None end.
Proof.
  induction m as [|[k v] rest IH]; [reflexivity|].
  cbn [map find_gate fst snd]. destruct (String.eqb k g); [reflexivity|exact IH].
Qed.

Lemma find_info_calculatePAR (tech : Tech) (layer_info : LayerInfo)
      (info_map : InfoMap) (g : string) (l : Layer) :
  find_info (calculatePAR tech layer_info info_map) g l
  = match find_info info_map g l with
    | Some r => Some (snd (calculatePAR_record tech layer_info (l, r)))
    | None => None
    end.
Proof.
  unfold find_info, calculatePAR. rewrite find_gate_map.
  destruct (find_gate info_map g) as [lm|]; [|reflexivity].
  apply find_layer_map. intros [k v]. reflexivity.
Qed.

(** C1. On a metal layer [calculatePAR] runs [calculateWirePar], which sets
    the four partial ratios of a record from its areas [A], [S], [Gg], [Gd]
    and the reduce factor [R] read from [areaDiffReduce] at [Gd] (1 by
    default): with the diffusion factors, the subtraction of
    [minus_diff * Gd] and the division by [Gg + plus_diff * Gd] when [Gd] is
    not zero, with the plain factors and the division by [Gg] when it is. *)
Theorem calculateWirePar_formulas (tech : Tech) (layer_info : LayerInfo)
        (info_map : InfoMap) (g : string) (l : Layer) (r : InfoType) :
  find_info info_map g l = Some r ->
  routingLevel tech l <> 0%nat ->
  let am := layer_info_at layer_info l in
  let A := area r in
  let S := side_area r in
  let Gg := iterm_gate_area r in
  let Gd := iterm_diff_area r in
  let R := getPwlFactor (areaDiffReduce_of tech l) Gd 1 in
  exists r',
    find_info (calculatePAR tech layer_info info_map) g l = Some r'
    /\ r' = calculateWirePar tech layer_info l r
    /\ area r' = A /\ side_area r' = S
    /\ iterm_gate_area r' = Gg /\ iterm_diff_area r' = Gd
    /\ (~ Gd == 0 ->
        PAR r' = (diff_metal_factor am * A) / Gg
        /\ PSR r' = (diff_side_metal_factor am * S) / Gg
        /\ diff_PAR r' = (diff_metal_factor am * A * R - minus_diff_factor am * Gd)
                         / (Gg + plus_diff_factor am * Gd)
        /\ diff_PSR r' = (diff_side_metal_factor am * S * R - minus_diff_factor am * Gd)
                         / (Gg + plus_diff_factor am * Gd))
    /\ (Gd == 0 ->
        PAR r' = (metal_factor am * A) / Gg
        /\ PSR r' = (side_metal_factor am * S) / Gg
        /\ diff_PAR r' = (metal_factor am * A * R) / Gg
        /\ diff_PSR r' = (side_metal_factor am * S * R) / Gg).
Proof.
  intros Hfind Hlevel am A S Gg Gd R.
  exists (calculateWirePar tech layer_info l r).
  rewrite find_info_calculatePAR, Hfind. unfold calculatePAR_record. cbn [snd].
  destruct (Nat.eqb_spec (routingLevel tech l) 0) as [E|_]; [contradiction|].
  split; [reflexivity|]. split; [reflexivity|].
  unfold calculateWirePar. rewrite reduce_factor_pwl.
  destruct (Qneb (iterm_diff_area r) 0) eqn:Ed.
  - repeat (split; [reflexivity|]). split.
    + intros _. repeat split; reflexivity.
    + intros Hz. apply Qneb_true in Ed. contradiction.
  - repeat (split; [reflexivity|]). split.
    + intros Hnz. apply Qneb_false in Ed. contradiction.
    + intros _. repeat split; reflexivity.
Qed.

(** Scenario S2 with a diffusion area of 20 on the receiver: a wire of 40
    over a gate of 20 has a PAR of 2 and, with no minus-diff and plus-diff
    factor, a diff-PAR of 2. *)
Lemma calculateWirePar_formulas_witness :
  exists r',
    find_info (calculatePAR (s2_tech 0) (fst (initAntennaRules (s2_tech 0)))
                            (calculateAreas (s2_tech 0) 1 s2_nodes []))
              "u2/A" M1 = Some r'
    /\ PAR r' == 2 /\ diff_PAR r' == 2.
Proof.
  destruct (find_info (calculateAreas (s2_tech 0) 1 s2_nodes []) "u2/A" M1)
    as [r|] eqn:E; [|vm_compute in E; discriminate].
  pose proof (calculateWirePar_formulas (s2_tech 0) (fst (initAntennaRules (s2_tech 0)))
                (calculateAreas (s2_tech 0) 1 s2_nodes []) "u2/A" M1 r E
                ltac:(vm_compute; discriminate)) as H.
  cbn zeta in H. destruct H as (r' & Hf & _ & _ & _ & _ & _ & Hdiff & _).
  exists r'. split; [exact Hf|].
  vm_compute in E. injection E as <-.
  destruct (Hdiff ltac:(vm_compute; discriminate)) as (HP & _ & HD & _).
  rewrite HP, HD. split; vm_compute; reflexivity.
Defined.

(** ** The info map: find after put *)

Lemma find_layer_update (m : LayerMap) (l l' : Layer) (f : InfoType -> InfoType) :
  find_layer (update_layer m l f) l'
  = if Nat.eqb l l' then option_map f (find_layer m l) else find_layer m l'.
Proof.
  induction m as [|[k v] rest IH].
  - cbn. destruct (Nat.eqb l l'); reflexivity.
  - cbn [update_layer find_layer].
    destruct (Nat.eqb_spec k l) as [->|Hkl].
    + cbn [find_layer]. destruct (Nat.eqb_spec l l') as [->|Hll]; reflexivity.
    + cbn [find_layer]. rewrite IH.
      destruct (Nat.eqb_spec k l') as [->|Hkl'].
      * destruct (Nat.eqb_spec l l') as [->|_]; [contradiction|reflexivity].
      * reflexivity.
Qed.

Lemma find_layer_app (m : LayerMap) (l l' : Layer) (info : InfoType) :
  find_layer (m ++ [(l, info)]) l'
  = match find_layer m l' with
    | Some r => Some r
    | None => if Nat.eqb l l' then Some info else None
    end.
Proof.
  induction m as [|[k v] rest IH].
  - reflexivity.
  - cbn [app find_layer]. destruct (Nat.eqb k l'); [reflexivity|exact IH].
Qed.

Lemma find_layer_put_layer (m : LayerMap) (l l' : Layer) (info : InfoType) :
  find_layer (put_layer m l info) l'
  = if Nat.eqb l l' then merge_record info (find_layer m l) else find_layer m l'.
Proof.
  unfold put_layer, merge_record. destruct (find_layer m l) as [old|] eqn:E.
  - rewrite find_layer_update, E. reflexivity.
  - rewrite find_layer_app. destruct (Nat.eqb_spec l l') as [->|_].
    + rewrite E. reflexivity.
    + destruct (find_layer m l'); reflexivity.
Qed.

Lemma find_info_put_info (m : InfoMap) (g g' : string) (l l' : Layer) (info : InfoType) :
  find_info (put_info m g l info) g' l'
  = if String.eqb g g' && Nat.eqb l l'
    then merge_record info (find_info m g l)
    else find_info m g' l'.
Proof.
  unfold find_info. induction m as [|[k v] rest IH].
  - cbn [put_info find_gate]. destruct (String.eqb_spec g g') as [->|_].
    + rewrite find_layer_put_layer. cbn. destruct (Nat.eqb l l'); reflexivity.
    + reflexivity.
  - cbn [put_info find_gate].
    destruct (String.eqb_spec k g) as [->|Hkg].
    + cbn [find_gate]. destruct (String.eqb_spec g g') as [->|_].
      * rewrite find_layer_put_layer. cbn [andb]. reflexivity.
      * reflexivity.
    + cbn [find_gate]. destruct (String.eqb_spec k g') as [->|_].
      * destruct (String.eqb_spec g g') as [->|_]; [contradiction|reflexivity].
      * exact IH.
Qed.

Lemma iter_merge_shift (info : InfoType) (n : nat) (o : option InfoType) :
  Nat.iter n (merge_record info) (merge_record info o)
  = Nat.iter (S n) (merge_record info) o.
Proof.
  symmetry. apply Nat.iter_succ_r.
Qed.

Lemma find_info_put_gates (gs : list PinType) (l : Layer) (info : InfoType) :
  forall (m : InfoMap) (g : string) (L : Layer),
  find_info (put_gates gs l info m) g L
  = if Nat.eqb l L
    then Nat.iter (valid_pin_count g gs) (merge_record info) (find_info m g L)
    else find_info m g L.
Proof.
  induction gs as [|[n iterm|n] rest IH]; intros m g L.
  - cbn. destruct (Nat.eqb l L); reflexivity.
  - cbn [put_gates valid_pin_count].
    destruct (isValidGate (getMTerm iterm)) eqn:Ev; cbn [negb andb].
    + rewrite IH, find_info_put_info.
      destruct (Nat.eqb_spec l L) as [->|_]; [|rewrite andb_false_r; reflexivity].
      rewrite andb_true_r.
      destruct (String.eqb_spec n g) as [->|_].
      * cbn [Nat.add]. apply iter_merge_shift.
      * reflexivity.
    + apply IH.
  - cbn [put_gates valid_pin_count]. apply IH.
Qed.

Lemma gather_iterms_count (gs : list PinType) :
  forall (info : InfoType) (n : nat) (g : string),
  (valid_pin_count g gs + n <= snd (gather_iterms gs info n))%nat.
Proof.
  induction gs as [|[k iterm|k] rest IH]; intros info n g.
  - cbn. lia.
  - cbn [gather_iterms valid_pin_count].
    specialize (IH (add_iterm info iterm) (S n) g).
    destruct (isValidGate (getMTerm iterm) && String.eqb k g); lia.
  - cbn [gather_iterms valid_pin_count]. apply IH.
Qed.

Section AreasFacts.
Context {Polygon : Type} {gtl : Gtl Polygon}.
Variable tech : Tech.
Variable dbu_per_micron : Z.

Lemma node_info_count (l : Layer) (node : GraphNode Polygon) (g : string) :
  (valid_pin_count g (gates node) <= snd (node_info tech dbu_per_micron l node))%nat.
Proof.
  unfold node_info.
  pose proof (gather_iterms_count (gates node)
    (set_area InfoType_new
       (dbuToMicrons dbu_per_micron
          (dbuToMicrons dbu_per_micron (inject_Z (gtl_area (pol node)))))) 0 g) as H.
  destruct (gather_iterms _ _ _) as [info c]. cbn [snd] in H.
  destruct (Nat.eqb c 0); [cbn; lia|].
  destruct (negb _); cbn; lia.
Qed.

Lemma find_info_calculateAreas_node (l : Layer) (m : InfoMap)
      (node : GraphNode Polygon) (g : string) (L : Layer) :
  find_info (calculateAreas_node tech dbu_per_micron l m node) g L
  = island_step tech dbu_per_micron g L (find_info m g L) (l, node).
Proof.
  unfold calculateAreas_node, island_step. cbn [fst snd].
  pose proof (node_info_count l node g) as Hc.
  destruct (node_info tech dbu_per_micron l node) as [info c]. cbn [fst snd] in *.
  destruct (Nat.eqb_spec c 0) as [->|_].
  - assert (valid_pin_count g (gates node) = 0%nat) as -> by lia.
    cbn. destruct (Nat.eqb l L); reflexivity.
  - apply find_info_put_gates.
Qed.

Lemma find_info_calculateAreas (nodes : NodeMap Polygon) :
  forall (m : InfoMap) (g : string) (L : Layer),
  find_info (calculateAreas tech dbu_per_micron nodes m) g L
  = fold_left (island_step tech dbu_per_micron g L) (islands nodes) (find_info m g L).
Proof.
  unfold calculateAreas.
  induction nodes as [|[l ns] rest IH]; intros m g L.
  - reflexivity.
  - cbn [fold_left islands flat_map]. rewrite fold_left_app.
    fold (islands rest). rewrite IH. f_equal.
    unfold calculateAreas_layer. cbn [fst snd]. clear IH.
    revert m. induction ns as [|n ns IHn]; intro m.
    + reflexivity.
    + cbn [fold_left map]. rewrite IHn, find_info_calculateAreas_node. reflexivity.
Qed.

End AreasFacts.

(** ** Gate and diffusion areas of an island record *)

Lemma max_area_loop_ge (areas : list (Q * option Layer)) :
  forall m, m <= max_area_loop areas m.
Proof.
  induction areas as [|[a l] rest IH]; intro m.
  - simpl. lra.
  - cbn [max_area_loop]. apply Qle_trans with (std_max m a).
    + apply std_max_ge_l.
    + apply IH.
Qed.

Lemma gateArea_nonneg (mterm : dbMTerm) : 0 <= gateArea mterm.
Proof.
  unfold gateArea. destruct (getDefaultAntennaModel mterm).
  - apply max_area_loop_ge.
  - lra.
Qed.

Lemma diffArea_nonneg (mterm : dbMTerm) : 0 <= diffArea mterm.
Proof. apply max_area_loop_ge. Qed.

Lemma isValidGate_gateArea (mterm : dbMTerm) :
  isValidGate mterm = true -> 0 < gateArea mterm.
Proof.
  unfold isValidGate. intro H. apply andb_true_iff in H. destruct H as [_ H].
  apply Qgtb_true in H. exact H.
Qed.

Lemma gather_iterms_gate_mono (gs : list PinType) :
  forall info n,
  iterm_gate_area info <= iterm_gate_area (fst (gather_iterms gs info n)).
Proof.
  induction gs as [|[k iterm|k] rest IH]; intros info n.
  - simpl. lra.
  - cbn [gather_iterms]. specialize (IH (add_iterm info iterm) (S n)).
    cbn [add_iterm iterm_gate_area] in IH.
    pose proof (gateArea_nonneg (getMTerm iterm)). lra.
  - cbn [gather_iterms]. apply IH.
Qed.

Lemma gather_iterms_gate_pos (g : string) (gs : list PinType) :
  forall info n,
  0 <= iterm_gate_area info ->
  (0 < valid_pin_count g gs)%nat ->
  0 < iterm_gate_area (fst (gather_iterms gs info n)).
Proof.
  induction gs as [|[k iterm|k] rest IH]; intros info n H0 Hc.
  - simpl in Hc. lia.
  - cbn [gather_iterms]. cbn [valid_pin_count] in Hc.
    destruct (isValidGate (getMTerm iterm)) eqn:Ev.
    + apply isValidGate_gateArea in Ev.
      pose proof (gather_iterms_gate_mono rest (add_iterm info iterm) (S n)) as Hm.
      cbn [add_iterm iterm_gate_area] in Hm. lra.
    + cbn [andb Nat.add] in Hc. apply IH; [|exact Hc].
      cbn [add_iterm iterm_gate_area].
      pose proof (gateArea_nonneg (getMTerm iterm)). lra.
  - cbn [gather_iterms]. cbn [valid_pin_count] in Hc. apply IH; assumption.
Qed.

Lemma gather_iterms_diff_nonneg (gs : list PinType) :
  forall info n,
  0 <= iterm_diff_area info ->
  0 <= iterm_diff_area (fst (gather_iterms gs info n)).
Proof.
  induction gs as [|[k iterm|k] rest IH]; intros info n H0.
  - exact H0.
  - cbn [gather_iterms]. apply IH. cbn [add_iterm iterm_diff_area].
    pose proof (diffArea_nonneg (getMTerm iterm)). lra.
  - cbn [gather_iterms]. apply IH. exact H0.
Qed.

(** The fields that neither the area nor the side area of a record touch. *)
Lemma gather_iterms_ratios (gs : list PinType) :
  forall info n,
  let r := fst (gather_iterms gs info n) in
  PAR r = PAR info /\ PSR r = PSR info
  /\ diff_PAR r = diff_PAR info /\ diff_PSR r = diff_PSR info
  /\ CAR r = CAR info /\ CSR r = CSR info
  /\ diff_CAR r = diff_CAR info /\ diff_CSR r = diff_CSR info
  /\ area r = area info /\ side_area r = side_area info.
Proof.
  induction gs as [|[k iterm|k] rest IH]; intros info n.
  - cbn. repeat split; reflexivity.
  - cbn [gather_iterms]. apply (IH (add_iterm info iterm) (S n)).
  - cbn [gather_iterms]. apply IH.
Qed.

Section IslandRecords.
Context {Polygon : Type} {gtl : Gtl Polygon}.
Variable tech : Tech.
Variable dbu_per_micron : Z.

(** The gathered part of an island record: [node_info] only adds the side
    area to it. *)
Lemma node_info_gathered (l : Layer) (node : GraphNode Polygon) :
  exists info0,
    fst (gather_iterms (gates node)
           (set_area InfoType_new
              (dbuToMicrons dbu_per_micron
                 (dbuToMicrons dbu_per_micron (inject_Z (gtl_area (pol node)))))) 0)
    = info0
    /\ (fst (node_info tech dbu_per_micron l node) = info0
        \/ fst (node_info tech dbu_per_micron l node)
           = set_side_area info0
               (dbuToMicrons dbu_per_micron
                  (inject_Z (gtl_perimeter (pol node))
                   * dbuToMicrons dbu_per_micron
                       (inject_Z (getThickness (layer_at tech l)))))).
Proof.
  unfold node_info.
  destruct (gather_iterms _ _ _) as [info c]. cbn [fst].
  exists info. split; [reflexivity|].
  destruct (Nat.eqb c 0); [left; reflexivity|].
  destruct (negb _); [right|left]; reflexivity.
Qed.

Lemma node_info_gate_area (l : Layer) (node : GraphNode Polygon) (g : string) :
  (0 < valid_pin_count g (gates node))%nat ->
  0 < iterm_gate_area (fst (node_info tech dbu_per_micron l node))
  /\ 0 <= iterm_diff_area (fst (node_info tech dbu_per_micron l node)).
Proof.
  intro Hc.
  destruct (node_info_gathered l node) as (info0 & Hg & [E|E]); rewrite E;
    subst info0; cbn [set_side_area iterm_gate_area iterm_diff_area];
    (split; [apply (gather_iterms_gate_pos g); [cbn; lra|exact Hc]
            |apply gather_iterms_diff_nonneg; cbn; lra]).
Qed.

Lemma node_info_fresh (l : Layer) (node : GraphNode Polygon) :
  let r := fst (node_info tech dbu_per_micron l node) in
  PAR r = 0 /\ PSR r = 0 /\ diff_PAR r = 0 /\ diff_PSR r = 0
  /\ CAR r = 0 /\ CSR r = 0 /\ diff_CAR r = 0 /\ diff_CSR r = 0.
Proof.
  cbn zeta.
  destruct (node_info_gathered l node) as (info0 & Hg & [E|E]); rewrite E;
    subst info0; cbn [set_side_area PAR PSR diff_PAR diff_PSR CAR CSR diff_CAR diff_CSR];
    pose proof (gather_iterms_ratios (gates node)
      (set_area InfoType_new
         (dbuToMicrons dbu_per_micron
            (dbuToMicrons dbu_per_micron (inject_Z (gtl_area (pol node)))))) 0) as H;
    cbn zeta in H; destruct H as (H1 & H2 & H3 & H4 & H5 & H6 & H7 & H8 & _);
    rewrite H1, H2, H3, H4, H5, H6, H7, H8; cbn; repeat split; reflexivity.
Qed.

(** A property of island records that merging keeps holds of every stored
    record. *)
Lemma fold_island_step_invariant (P : InfoType -> Prop) (g : string) (L : Layer) :
  (forall a b, P a -> P b -> P (InfoType_add a b)) ->
  forall (isls : list (Layer * GraphNode Polygon)) (o : option InfoType),
  (forall r, o = Some r -> P r) ->
  (forall isl, In isl isls -> fst isl = L ->
               (0 < valid_pin_count g (gates (snd isl)))%nat ->
               P (fst (node_info tech dbu_per_micron (fst isl) (snd isl)))) ->
  forall r, fold_left (island_step tech dbu_per_micron g L) isls o = Some r -> P r.
Proof.
  intros Hadd. induction isls as [|isl rest IH]; intros o Ho Hisl r Hr.
  - apply Ho. exact Hr.
  - cbn [fold_left] in Hr. apply (IH (island_step tech dbu_per_micron g L o isl)).
    + unfold island_step. destruct (Nat.eqb_spec (fst isl) L) as [E|_]; [|exact Ho].
      assert (Hinfo : (0 < valid_pin_count g (gates (snd isl)))%nat ->
                      P (fst (node_info tech dbu_per_micron (fst isl) (snd isl))))
        by (apply Hisl; [left; reflexivity|exact E]).
      induction (valid_pin_count g (gates (snd isl))) as [|n IHn].
      * exact Ho.
      * intros r' Hr'. cbn [Nat.iter nat_rect] in Hr'. unfold merge_record in Hr' at 1.
        injection Hr' as <-.
        fold (Nat.iter n (merge_record (fst (node_info tech dbu_per_micron (fst isl) (snd isl)))) o).
        destruct (Nat.iter n _ o) as [old|] eqn:En.
        -- apply Hadd; [apply IHn; [|reflexivity]|apply Hinfo; lia].
           intros _. apply Hinfo. lia.
        -- apply Hinfo. lia.
    + intros isl' Hin. apply Hisl. right. exact Hin.
    + exact Hr.
Qed.

End IslandRecords.

(** ** One record per gate and layer *)

Lemma update_layer_keys (m : LayerMap) (l : Layer) (f : InfoType -> InfoType) :
  map fst (update_layer m l f) = map fst m.
Proof.
  induction m as [|[k v] rest IH]; [reflexivity|].
  cbn [update_layer]. destruct (Nat.eqb k l); cbn [map fst]; [reflexivity|].
  rewrite IH. reflexivity.
Qed.

Lemma find_layer_None (m : LayerMap) (l : Layer) :
  find_layer m l = None -> ~ In l (map fst m).
Proof.
  induction m as [|[k v] rest IH]; intros H Hin; [exact Hin|].
  cbn [find_layer] in H. destruct (Nat.eqb_spec k l) as [E|Hne]; [discriminate|].
  destruct Hin as [E|Hin]; [cbn in E; contradiction|]. exact (IH H Hin).
Qed.

Lemma NoDup_snoc {A : Type} (l : list A) (x : A) :
  NoDup l -> ~ In x l -> NoDup (l ++ [x]).
Proof.
  intros Hnd Hx. induction Hnd as [|y l Hy Hnd IH].
  - constructor; [intros []|constructor].
  - cbn [app]. constructor.
    + rewrite in_app_iff. intros [H|[H|[]]]; [contradiction|].
      subst. apply Hx. left. reflexivity.
    + apply IH. intro H. apply Hx. right. exact H.
Qed.

Lemma put_layer_keys (m : LayerMap) (l : Layer) (info : InfoType) :
  NoDup (map fst m) -> NoDup (map fst (put_layer m l info)).
Proof.
  intro Hnd. unfold put_layer. destruct (find_layer m l) eqn:E.
  - rewrite update_layer_keys. exact Hnd.
  - rewrite map_app. cbn [map fst]. apply NoDup_snoc; [exact Hnd|].
    apply find_layer_None. exact E.
Qed.

Lemma put_info_keys (m : InfoMap) (g : string) (l : Layer) (info : InfoType) :
  one_record_per_key m -> one_record_per_key (put_info m g l info).
Proof.
  induction m as [|[k v] rest IH]; intros [Hnd Hin].
  - cbn [put_info]. split.
    + cbn. constructor; [intros []|constructor].
    + intros g' lm [E|[]]. injection E as <- <-. apply put_layer_keys. constructor.
  - cbn [put_info]. destruct (String.eqb_spec k g) as [->|Hne].
    + split; [exact Hnd|].
      intros g' lm [E|H].
      * injection E as <- <-. apply put_layer_keys. apply (Hin g v). left. reflexivity.
      * apply (Hin g' lm). right. exact H.
    + cbn [map fst] in Hnd. apply NoDup_cons_iff in Hnd. destruct Hnd as [Hk Hnd].
      destruct IH as [IHnd IHin].
      { split; [exact Hnd|]. intros g' lm H. apply (Hin g' lm). right. exact H. }
      split.
      * cbn [map fst]. constructor; [|exact IHnd].
        intro H. apply in_map_iff in H. destruct H as ([g' lm] & E & H). cbn in E. subst g'.
        clear - H Hk Hne. induction rest as [|[k' v'] rest IHr].
        -- cbn in H. destruct H as [E|[]]. injection E as E _. congruence.
        -- cbn [put_info] in H. destruct (String.eqb_spec k' g) as [->|Hne'].
           ++ destruct H as [E|H].
              ** injection E as E _. congruence.
              ** apply Hk. right. apply in_map_iff. exists (k, lm). split; [reflexivity|exact H].
           ++ destruct H as [E|H].
              ** injection E as E _. apply Hk. left. cbn. congruence.
              ** apply IHr; [|exact H]. intro Hk'. apply Hk. right. exact Hk'.
      * intros g' lm [E|H].
        -- injection E as <- <-. apply (Hin k v). left. reflexivity.
        -- apply (IHin g' lm). exact H.
Qed.

Lemma put_gates_keys (gs : list PinType) (l : Layer) (info : InfoType) :
  forall m, one_record_per_key m -> one_record_per_key (put_gates gs l info m).
Proof.
  induction gs as [|[n iterm|n] rest IH]; intros m Hm.
  - exact Hm.
  - cbn [put_gates]. destruct (negb (isValidGate (getMTerm iterm))).
    + apply IH. exact Hm.
    + apply IH. apply put_info_keys. exact Hm.
  - cbn [put_gates]. apply IH. exact Hm.
Qed.

Lemma calculateAreas_keys {Polygon : Type} {gtl : Gtl Polygon} (tech : Tech)
      (dbu_per_micron : Z) (nodes : NodeMap Polygon) :
  forall m, one_record_per_key m ->
            one_record_per_key (calculateAreas tech dbu_per_micron nodes m).
Proof.
  unfold calculateAreas. induction nodes as [|[l ns] rest IH]; intros m Hm.
  - exact Hm.
  - cbn [fold_left]. apply IH. unfold calculateAreas_layer. cbn [fst snd].
    clear IH. revert m Hm. induction ns as [|n ns IHn]; intros m Hm.
    + exact Hm.
    + cbn [fold_left]. apply IHn. unfold calculateAreas_node.
      destruct (node_info tech dbu_per_micron l n) as [info c].
      destruct (Nat.eqb c 0); [exact Hm|]. apply put_gates_keys. exact Hm.
Qed.

(** ** The merge of the islands of one gate on one layer *)

Lemma inject_nat_succ (n : nat) :
  inject_Z (Z.of_nat (S n)) == inject_Z (Z.of_nat n) + 1.
Proof.
  rewrite Nat2Z.inj_succ. unfold Z.succ. rewrite inject_Z_plus. reflexivity.
Qed.

Lemma iter_merge_area (info : InfoType) (n : nat) (o : option InfoType) :
  option_area (Nat.iter n (merge_record info) o)
  == option_area o + inject_Z (Z.of_nat n) * area info.
Proof.
  induction n as [|n IH].
  - cbn. ring.
  - rewrite inject_nat_succ. cbn [Nat.iter nat_rect].
    fold (Nat.iter n (merge_record info) o).
    assert (E : forall x, option_area (merge_record info x)
                          == option_area x + area info)
      by (intros [old|]; cbn; ring).
    rewrite E, IH. ring.
Qed.

Lemma iter_merge_side_area (info : InfoType) (n : nat) (o : option InfoType) :
  option_side_area (Nat.iter n (merge_record info) o)
  == option_side_area o + inject_Z (Z.of_nat n) * side_area info.
Proof.
  induction n as [|n IH].
  - cbn. ring.
  - rewrite inject_nat_succ. cbn [Nat.iter nat_rect].
    fold (Nat.iter n (merge_record info) o).
    assert (E : forall x, option_side_area (merge_record info x)
                          == option_side_area x + side_area info)
      by (intros [old|]; cbn; ring).
    rewrite E, IH. ring.
Qed.

Lemma iter_merge_kept {A : Type} (q : InfoType -> A) (info : InfoType)
      (n : nat) (o : option InfoType) :
  kept_by_merge q ->
  option_map q (Nat.iter n (merge_record info) o)
  = match o with
    | Some r => Some (q r)
    | None => if Nat.ltb 0 n then Some (q info) else None
    end.
Proof.
  intro Hq. induction n as [|n IH].
  - cbn. destruct o; reflexivity.
  - cbn [Nat.iter nat_rect]. fold (Nat.iter n (merge_record info) o).
    destruct (Nat.iter n (merge_record info) o) as [old|];
      cbn [merge_record option_map] in *.
    + rewrite Hq. destruct o as [r|].
      * injection IH as ->. reflexivity.
      * destruct (Nat.ltb 0 n); [|discriminate]. injection IH as ->. reflexivity.
    + destruct o as [r|]; [discriminate|]. reflexivity.
Qed.

Section Merge.
Context {Polygon : Type} {gtl : Gtl Polygon}.
Variable tech : Tech.
Variable dbu_per_micron : Z.
Variable g : string.
Variable L : Layer.

Lemma fold_island_step_area (isls : list (Layer * GraphNode Polygon)) :
  forall o,
  option_area (fold_left (island_step tech dbu_per_micron g L) isls o)
  == option_area o + carried_sum tech dbu_per_micron area g L isls.
Proof.
  induction isls as [|isl rest IH]; intro o.
  - cbn. ring.
  - cbn [fold_left carried_sum]. rewrite IH. unfold island_step.
    destruct (Nat.eqb (fst isl) L).
    + rewrite iter_merge_area. ring.
    + ring.
Qed.

Lemma fold_island_step_side_area (isls : list (Layer * GraphNode Polygon)) :
  forall o,
  option_side_area (fold_left (island_step tech dbu_per_micron g L) isls o)
  == option_side_area o + carried_sum tech dbu_per_micron side_area g L isls.
Proof.
  induction isls as [|isl rest IH]; intro o.
  - cbn. ring.
  - cbn [fold_left carried_sum]. rewrite IH. unfold island_step.
    destruct (Nat.eqb (fst isl) L).
    + rewrite iter_merge_side_area. ring.
    + ring.
Qed.

Lemma carriers_cons (isl : Layer * GraphNode Polygon)
      (rest : list (Layer * GraphNode Polygon)) :
  carriers g L (isl :: rest)
  = if Nat.eqb (fst isl) L && Nat.ltb 0 (valid_pin_count g (gates (snd isl)))
    then isl :: carriers g L rest else carriers g L rest.
Proof. reflexivity. Qed.

Lemma fold_island_step_kept {A : Type} (q : InfoType -> A)
      (isls : list (Layer * GraphNode Polygon)) :
  kept_by_merge q ->
  forall o,
  option_map q (fold_left (island_step tech dbu_per_micron g L) isls o)
  = match o with
    | Some r => Some (q r)
    | None =>
        option_map (fun isl => q (fst (node_info tech dbu_per_micron (fst isl) (snd isl))))
                   (hd_error (carriers g L isls))
    end.
Proof.
  intro Hq. induction isls as [|isl rest IH]; intro o.
  - cbn. destruct o; reflexivity.
  - cbn [fold_left]. rewrite carriers_cons, IH. unfold island_step.
    destruct (Nat.eqb (fst isl) L); cbn [andb].
    + pose proof (iter_merge_kept q
        (fst (node_info tech dbu_per_micron (fst isl) (snd isl)))
        (valid_pin_count g (gates (snd isl))) o Hq) as Hk.
      destruct (Nat.iter _ _ o) as [r'|]; cbn [option_map] in Hk.
      * destruct o as [r|]; [exact Hk|].
        destruct (Nat.ltb 0 (valid_pin_count g (gates (snd isl)))); [|discriminate].
        cbn [hd_error option_map]. exact Hk.
      * destruct o as [r|]; [discriminate|].
        destruct (Nat.ltb 0 (valid_pin_count g (gates (snd isl)))); [discriminate|].
        reflexivity.
    + destruct o; reflexivity.
Qed.

End Merge.

Lemma stored_record_first_carrier {Polygon : Type} {gtl : Gtl Polygon}
      (tech : Tech) (dbu_per_micron : Z) (nodes : NodeMap Polygon)
      (g : string) (L : Layer) (r : InfoType) :
  find_info (calculateAreas tech dbu_per_micron nodes []) g L = Some r ->
  exists first others,
    carriers g L (islands nodes) = first :: others
    /\ iterm_gate_area r
       = iterm_gate_area (fst (node_info tech dbu_per_micron L (snd first)))
    /\ iterm_diff_area r
       = iterm_diff_area (fst (node_info tech dbu_per_micron L (snd first))).
Proof.
  intro Hfind. rewrite find_info_calculateAreas in Hfind.
  change (find_info [] g L) with (@None InfoType) in Hfind.
  pose proof (fold_island_step_kept tech dbu_per_micron g L iterm_gate_area
                (islands nodes) (fun a b => eq_refl) None) as Hg.
  pose proof (fold_island_step_kept tech dbu_per_micron g L iterm_diff_area
                (islands nodes) (fun a b => eq_refl) None) as Hd.
  rewrite Hfind in Hg, Hd. cbn [option_map] in Hg, Hd.
  destruct (carriers g L (islands nodes)) as [|first others] eqn:Ec;
    [discriminate|].
  exists first, others. split; [reflexivity|].
  assert (Hl : fst first = L).
  { assert (Hin : In first (carriers g L (islands nodes)))
      by (rewrite Ec; left; reflexivity).
    unfold carriers in Hin. apply filter_In in Hin. destruct Hin as [_ Hin].
    apply andb_true_iff in Hin. destruct Hin as [Hin _].
    apply Nat.eqb_eq. exact Hin. }
  cbn [hd_error option_map] in Hg, Hd. rewrite Hl in Hg, Hd.
  injection Hg as Hg. injection Hd as Hd. split; assumption.
Qed.

(** ** The divisors of the partial ratios *)

(** C10 (as amended).  Every record that [calculateAreas] stores has a
    positive [iterm_gate_area] and a non-negative [iterm_diff_area]: its key
    is a valid gate of the island the areas come from.  So the division by
    [iterm_gate_area] is never by zero, and the division by
    [iterm_gate_area + plus_diff_factor * iterm_diff_area] is not either when
    the plus-diff factor is not negative, also after diodes have added to
    the diffusion area. *)
Theorem stored_record_divisors {Polygon : Type} {gtl : Gtl Polygon}
        (tech : Tech) (dbu_per_micron : Z) (nodes : NodeMap Polygon)
        (g : string) (L : Layer) (r : InfoType) :
  find_info (calculateAreas tech dbu_per_micron nodes []) g L = Some r ->
  0 < iterm_gate_area r
  /\ 0 <= iterm_diff_area r
  /\ carriers g L (islands nodes) <> []
  /\ forall plus_diff added,
       0 <= plus_diff -> 0 <= added ->
       0 < iterm_gate_area r + plus_diff * (iterm_diff_area r + added).
Proof.
  intro Hfind.
  assert (Hpos : 0 < iterm_gate_area r /\ 0 <= iterm_diff_area r).
  { rewrite find_info_calculateAreas in Hfind.
    apply (fold_island_step_invariant tech dbu_per_micron
             (fun r => 0 < iterm_gate_area r /\ 0 <= iterm_diff_area r) g L)
      with (isls := islands nodes) (o := find_info [] g L).
    - intros a b Ha _. exact Ha.
    - intros r0 H0. discriminate.
    - intros isl _ _ Hc. apply (node_info_gate_area tech dbu_per_micron _ _ g Hc).
    - exact Hfind. }
  destruct Hpos as [Hg Hd]. split; [exact Hg|]. split; [exact Hd|]. split.
  - destruct (stored_record_first_carrier tech dbu_per_micron nodes g L r Hfind)
      as (first & others & Ec & _).
    rewrite Ec. discriminate.
  - intros plus_diff added Hp Ha.
    assert (0 <= plus_diff * (iterm_diff_area r + added))
      by (apply Qmult_le_0_compat; lra).
    lra.
Qed.

(** Scenario S2 with diffusion 20 on the receiver: gate area 20, and a
    divisor of 60 under a plus-diff factor of 2. *)
Lemma stored_record_divisors_witness :
  exists r,
    find_info (calculateAreas (s2_tech 2) 1 s2_nodes []) "u2/A" M1 = Some r
    /\ 0 < iterm_gate_area r
    /\ 0 < iterm_gate_area r + 2 * (iterm_diff_area r + 0).
Proof.
  eexists. split; [vm_compute; reflexivity|].
  destruct (stored_record_divisors (s2_tech 2) 1 s2_nodes "u2/A" M1 _ eq_refl)
    as (Hg & _ & _ & Hd).
  split; [exact Hg|].
  apply Hd; [vm_compute; discriminate|vm_compute; discriminate].
Defined.

(** Under a plus-diff factor of -1 the same record is diff-connected and the
    divisor of its diff ratios, [20 + (-1) * 20], is zero. *)
Lemma stored_record_divisor_zero :
  exists r,
    find_info (calculateAreas (s2_tech (-1)) 1 s2_nodes []) "u2/A" M1 = Some r
    /\ Qneb (iterm_diff_area r) 0 = true
    /\ iterm_gate_area r
       + plus_diff_factor (layer_info_at (fst (initAntennaRules (s2_tech (-1)))) M1)
         * iterm_diff_area r == 0.
Proof.
  eexists. split; [vm_compute; reflexivity|].
  split; vm_compute; reflexivity.
Qed.

(** ** Cumulative ratios *)

Lemma calculateCAR_walk_done (tech : Tech) (fuel : nat) (sumWire sumVia : InfoType)
      (m : LayerMap) :
  calculateCAR_walk tech fuel None sumWire sumVia m = m.
Proof. destruct fuel; reflexivity. Qed.

Section CumulativePair.
Variable tech : Tech.
Variables c q : InfoType -> Q.
Hypothesis Hpair : cumulative_pair c q.

Lemma step_find (l L : Layer) (sumWire sumVia : InfoType) (m : LayerMap) :
  let '(sumWire', sumVia', m') := calculateCAR_step tech l sumWire sumVia m in
  find_layer m' L
  = if Nat.eqb l L
    then option_map (fun r => add_cumulative r (sum_for tech l sumWire' sumVia'))
                    (find_layer m l)
    else find_layer m L.
Proof.
  unfold calculateCAR_step, sum_for.
  destruct (find_layer m l) as [rec|] eqn:E.
  - destruct (Nat.eqb (routingLevel tech l) 0); rewrite find_layer_update, E;
      destruct (Nat.eqb l L); reflexivity.
  - destruct (Nat.eqb_spec l L) as [->|_]; [rewrite E|]; reflexivity.
Qed.

Lemma step_sum (l L : Layer) (sumWire sumVia : InfoType) (m : LayerMap) :
  let '(sumWire', sumVia', m') := calculateCAR_step tech l sumWire sumVia m in
  q (sum_for tech L sumWire' sumVia')
  == q (sum_for tech L sumWire sumVia) + contribution tech q m L l.
Proof.
  destruct Hpair as (_ & _ & Hadd).
  unfold calculateCAR_step, sum_for, contribution, same_kind.
  destruct (find_layer m l) as [rec|].
  - destruct (Nat.eqb (routingLevel tech l) 0);
      destruct (Nat.eqb (routingLevel tech L) 0); cbn [Bool.eqb];
        rewrite ?Hadd; ring.
  - ring.
Qed.

Lemma step_contribution (l L l' : Layer) (sumWire sumVia : InfoType) (m : LayerMap) :
  let '(sumWire', sumVia', m') := calculateCAR_step tech l sumWire sumVia m in
  contribution tech q m' L l' = contribution tech q m L l'.
Proof.
  destruct Hpair as (_ & Hq & _).
  pose proof (step_find l l' sumWire sumVia m) as Hf.
  destruct (calculateCAR_step tech l sumWire sumVia m) as [[sW sV] m'].
  unfold contribution. rewrite Hf.
  destruct (Nat.eqb_spec l l') as [->|_]; [|reflexivity].
  destruct (find_layer m l') as [r|]; [|reflexivity].
  cbn [option_map]. rewrite Hq. reflexivity.
Qed.

Lemma step_kind_sum (l L : Layer) (ls : list Layer) (sumWire sumVia : InfoType)
      (m : LayerMap) :
  let '(sumWire', sumVia', m') := calculateCAR_step tech l sumWire sumVia m in
  kind_sum tech q m' L ls = kind_sum tech q m L ls.
Proof.
  pose proof (fun l' => step_contribution l L l' sumWire sumVia m) as Hc.
  destruct (calculateCAR_step tech l sumWire sumVia m) as [[sW sV] m'].
  induction ls as [|l' rest IH]; [reflexivity|].
  cbn [kind_sum]. rewrite Hc, IH. reflexivity.
Qed.

(** The walk from layer [l] leaves the records below [l] as they are, and
    adds to the cumulative field of the record of a layer [L] from [l] on
    the running sum it started with and the partial fields of the records of
    the kind of [L] from [l] to [L]. *)
Lemma calculateCAR_walk_find (fuel : nat) :
  forall (l : Layer) (sumWire sumVia : InfoType) (m : LayerMap) (L : Layer) (r : InfoType),
  (l < length tech)%nat -> (length tech - l <= fuel)%nat ->
  find_layer m L = Some r -> (L < length tech)%nat ->
  exists r',
    find_layer (calculateCAR_walk tech fuel (Some l) sumWire sumVia m) L = Some r'
    /\ q r' = q r
    /\ ((L < l)%nat -> c r' = c r)
    /\ ((l <= L)%nat ->
        c r' == c r + q (sum_for tech L sumWire sumVia)
                + kind_sum tech q m L (seq l (S (L - l)))).
Proof.
  destruct Hpair as (Hc & Hq & Hadd).
  induction fuel as [|fuel IH]; intros l sumWire sumVia m L r Hl Hfuel Hfind HL.
  - lia.
  - cbn [calculateCAR_walk].
    pose proof (step_find l L sumWire sumVia m) as Hsf.
    pose proof (step_sum l L sumWire sumVia m) as Hss.
    pose proof (step_sum l l sumWire sumVia m) as Hsl.
    pose proof (step_kind_sum l L (seq (S l) (L - l)) sumWire sumVia m) as Hsk.
    destruct (calculateCAR_step tech l sumWire sumVia m) as [[sW sV] m'].
    set (r1 := if Nat.eqb l L then add_cumulative r (sum_for tech l sW sV) else r).
    assert (Hfind1 : find_layer m' L = Some r1).
    { rewrite Hsf. unfold r1. destruct (Nat.eqb_spec l L) as [->|_].
      - rewrite Hfind. reflexivity.
      - exact Hfind. }
    assert (Hq1 : q r1 = q r).
    { unfold r1. destruct (Nat.eqb l L); [apply Hq|reflexivity]. }
    unfold getUpperLayer. destruct (Nat.ltb_spec (S l) (length tech)) as [Hup|Hup].
    + destruct (IH (S l) sW sV m' L r1 Hup ltac:(lia) Hfind1 HL)
        as (r' & Hf' & Hq' & Hlow & Hhigh).
      exists r'. split; [exact Hf'|]. split; [congruence|]. split.
      * intro HLl. rewrite Hlow by lia. unfold r1.
        destruct (Nat.eqb_spec l L) as [E|_]; [lia|reflexivity].
      * intro HlL. destruct (Nat.eq_dec l L) as [E|Hne].
        -- subst L. rewrite Hlow by lia. unfold r1. rewrite Nat.eqb_refl.
           rewrite Hc, Hsl. replace (l - l)%nat with 0%nat by lia.
           cbn [seq kind_sum]. ring.
        -- rewrite Hhigh by lia. unfold r1.
           destruct (Nat.eqb_spec l L) as [E|_]; [contradiction|].
           replace (S (L - S l)) with (L - l)%nat by lia.
           rewrite Hsk, Hss.
           replace (S (L - l)) with (S (S (L - S l))) by lia.
           replace (L - l)%nat with (S (L - S l)) by lia.
           cbn [seq kind_sum]. ring.
    + rewrite calculateCAR_walk_done.
      exists r1. split; [exact Hfind1|]. split; [exact Hq1|]. split.
      * intro HLl. unfold r1.
        destruct (Nat.eqb_spec l L) as [E|_]; [lia|reflexivity].
      * intro HlL. assert (L = l) by lia. subst L.
        unfold r1. rewrite Nat.eqb_refl.
        rewrite Hc, Hsl. replace (l - l)%nat with 0%nat by lia.
        cbn [seq kind_sum]. ring.
Qed.

End CumulativePair.

Lemma same_kind_refl (tech : Tech) (l : Layer) : same_kind tech l l = true.
Proof. unfold same_kind. destruct (Nat.eqb (routingLevel tech l) 0); reflexivity. Qed.

Lemma kind_sum_app (tech : Tech) (q : InfoType -> Q) (m : LayerMap) (L : Layer)
      (ls ls' : list Layer) :
  kind_sum tech q m L (ls ++ ls')
  == kind_sum tech q m L ls + kind_sum tech q m L ls'.
Proof.
  induction ls as [|l rest IH]; cbn [app kind_sum].
  - ring.
  - rewrite IH. ring.
Qed.

Lemma kind_sum_nonneg (tech : Tech) (q : InfoType -> Q) (m : LayerMap) (L : Layer)
      (ls : list Layer) :
  (forall l r, find_layer m l = Some r -> 0 <= q r) ->
  0 <= kind_sum tech q m L ls
  /\ (kind_sum tech q m L ls == 0 ->
      forall l, In l ls -> contribution tech q m L l == 0).
Proof.
  intro Hq.
  assert (Hc : forall l, 0 <= contribution tech q m L l).
  { intro l. unfold contribution. destruct (find_layer m l) as [r|] eqn:E; [|lra].
    destruct (same_kind tech l L); [apply (Hq l r E)|lra]. }
  induction ls as [|l rest [IH0 IHz]]; cbn [kind_sum].
  - split; [lra|intros _ l []].
  - pose proof (Hc l). split; [lra|].
    intros Hz l' [<-|Hin].
    + lra.
    + apply IHz; [lra|exact Hin].
Qed.

Lemma calculateCAR_walk_find_none (tech : Tech) (fuel : nat) :
  forall (iter_layer : option Layer) (sumWire sumVia : InfoType) (m : LayerMap) (L : Layer),
  find_layer m L = None ->
  find_layer (calculateCAR_walk tech fuel iter_layer sumWire sumVia m) L = None.
Proof.
  induction fuel as [|fuel IH]; intros [l|] sumWire sumVia m L Hnone;
    cbn [calculateCAR_walk]; try exact Hnone.
  pose proof (step_find tech l L sumWire sumVia m) as Hsf.
  destruct (calculateCAR_step tech l sumWire sumVia m) as [[sW sV] m'].
  apply IH. rewrite Hsf. destruct (Nat.eqb_spec l L) as [->|_].
  - rewrite Hnone. reflexivity.
  - exact Hnone.
Qed.

Lemma cumulative_pair_area : cumulative_pair CAR PAR.
Proof. repeat split. Qed.

Lemma cumulative_pair_side : cumulative_pair CSR PSR.
Proof. repeat split. Qed.

(** The records of one gate after [calculateCAR]: the cumulative ratios of
    layer [L] are the partial ratios of [L] plus those of the lower layers
    of its kind. *)
Lemma gate_cumulative_ratios (tech : Tech) (lm : LayerMap) (mn L : Layer) (r : InfoType) :
  (forall l r1, find_layer lm l = Some r1 -> CAR r1 = 0 /\ CSR r1 = 0) ->
  (mn <= L)%nat -> (L < length tech)%nat ->
  find_layer (calculateCAR_walk tech (length tech) (Some mn)
                                InfoType_new InfoType_new lm) L = Some r ->
  exists r1,
    find_layer lm L = Some r1
    /\ PAR r = PAR r1 /\ PSR r = PSR r1
    /\ CAR r == kind_sum tech PAR lm L (seq mn (L - mn)) + PAR r1
    /\ CSR r == kind_sum tech PSR lm L (seq mn (L - mn)) + PSR r1.
Proof.
  intros Hfresh HmL HL Hfind.
  destruct (find_layer lm L) as [r1|] eqn:E.
  2:{ rewrite (calculateCAR_walk_find_none tech _ _ _ _ lm L E) in Hfind. discriminate. }
  exists r1. split; [reflexivity|].
  destruct (Hfresh L r1 E) as [Hcar Hcsr].
  assert (Hlast : forall q, kind_sum tech q lm L (seq mn (S (L - mn)))
                            == kind_sum tech q lm L (seq mn (L - mn)) + q r1).
  { intro q. rewrite seq_S, kind_sum_app. cbn [kind_sum]. unfold contribution.
    replace (mn + (L - mn))%nat with L by lia.
    rewrite E, same_kind_refl. ring. }
  destruct (calculateCAR_walk_find tech CAR PAR cumulative_pair_area (length tech)
              mn InfoType_new InfoType_new lm L r1 ltac:(lia) ltac:(lia) E HL)
    as (ra & Hfa & Hqa & _ & Hca).
  destruct (calculateCAR_walk_find tech CSR PSR cumulative_pair_side (length tech)
              mn InfoType_new InfoType_new lm L r1 ltac:(lia) ltac:(lia) E HL)
    as (rs & Hfs & Hqs & _ & Hcs).
  rewrite Hfind in Hfa, Hfs. injection Hfa as <-. injection Hfs as <-.
  split; [exact Hqa|]. split; [exact Hqs|]. split.
  - rewrite (Hca HmL), Hcar, Hlast.
    unfold sum_for. destruct (Nat.eqb (routingLevel tech L) 0); cbn; ring.
  - rewrite (Hcs HmL), Hcsr, Hlast.
    unfold sum_for. destruct (Nat.eqb (routingLevel tech L) 0); cbn; ring.
Qed.

Lemma find_info_calculateCAR (tech : Tech) (min_layer : option Layer)
      (m : InfoMap) (g : string) (L : Layer) :
  find_info (calculateCAR tech min_layer m) g L
  = match find_gate m g with
    | Some lm =>
        find_layer (calculateCAR_walk tech (length tech) min_layer
                                      InfoType_new InfoType_new lm) L
    | None => None
    end.
Proof.
  unfold find_info, calculateCAR.
  rewrite (find_gate_map
             (calculateCAR_walk tech (length tech) min_layer InfoType_new InfoType_new)).
  destruct (find_gate m g); reflexivity.
Qed.

Lemma find_gate_calculatePAR (tech : Tech) (layer_info : LayerInfo)
      (m : InfoMap) (g : string) :
  find_gate (calculatePAR tech layer_info m) g
  = match find_gate m g with
    | Some lm => Some (map (calculatePAR_record tech layer_info) lm)
    | None => None
    end.
Proof.
  unfold calculatePAR.
  apply (find_gate_map (map (calculatePAR_record tech layer_info))).
Qed.

Lemma dbuToMicrons_nonneg (dbu_per_micron : Z) (x : Q) :
  (0 < dbu_per_micron)%Z -> 0 <= x -> 0 <= dbuToMicrons dbu_per_micron x.
Proof.
  intros Hd Hx. unfold dbuToMicrons.
  assert (0 < inject_Z dbu_per_micron)
    by (change 0 with (inject_Z 0); rewrite <- Zlt_Qlt; exact Hd).
  apply Qle_shift_div_l; [assumption|]. lra.
Qed.

Lemma inject_Z_nonneg (z : Z) : (0 <= z)%Z -> 0 <= inject_Z z.
Proof.
  intro H. change 0 with (inject_Z 0). rewrite <- Zle_Qle. exact H.
Qed.

Lemma Qdiv_nonneg (a b : Q) : 0 <= a -> 0 < b -> 0 <= a / b.
Proof.
  intros Ha Hb. apply Qle_shift_div_l; [exact Hb|]. lra.
Qed.

Lemma calculateAreas_fresh {Polygon : Type} {gtl : Gtl Polygon}
      (tech : Tech) (dbu_per_micron : Z) (nodes : NodeMap Polygon)
      (g : string) (L : Layer) (r : InfoType) :
  geometry_ok tech dbu_per_micron nodes = true ->
  find_info (calculateAreas tech dbu_per_micron nodes []) g L = Some r ->
  fresh_record r.
Proof.
  intros Hgeo Hfind. unfold geometry_ok in Hgeo.
  apply andb_true_iff in Hgeo. destruct Hgeo as [Hdbu Hall].
  apply Z.ltb_lt in Hdbu. rewrite forallb_forall in Hall.
  rewrite find_info_calculateAreas in Hfind.
  apply (fold_island_step_invariant tech dbu_per_micron fresh_record g L)
    with (isls := islands nodes) (o := find_info [] g L); [| | |exact Hfind].
  - intros a b (Ha1 & Ha2 & Ha3 & Ha4 & Ha5 & Ha6) (Hb1 & Hb2 & _ & Hb4 & _).
    unfold fresh_record. cbn [InfoType_add area side_area iterm_gate_area PSR CAR CSR].
    split; [lra|]. split; [lra|]. split; [exact Ha3|]. split; [lra|].
    split; assumption.
  - intros r0 H0. discriminate.
  - intros isl Hin _ Hc.
    specialize (Hall isl Hin). apply andb_true_iff in Hall. destruct Hall as [Hall Ht].
    apply andb_true_iff in Hall. destruct Hall as [Ha Hp].
    apply Z.leb_le in Ha, Hp, Ht.
    destruct (node_info_gate_area tech dbu_per_micron (fst isl) (snd isl) g Hc) as [Hgate _].
    pose proof (node_info_fresh tech dbu_per_micron (fst isl) (snd isl)) as Hf.
    cbn zeta in Hf. destruct Hf as (_ & Hpsr & _ & _ & Hcar & Hcsr & _).
    assert (Harea : 0 <= dbuToMicrons dbu_per_micron
                           (dbuToMicrons dbu_per_micron
                              (inject_Z (gtl_area (pol (snd isl))))))
      by (repeat apply dbuToMicrons_nonneg; try assumption;
          apply inject_Z_nonneg; assumption).
    assert (Hside : 0 <= dbuToMicrons dbu_per_micron
                           (inject_Z (gtl_perimeter (pol (snd isl)))
                            * dbuToMicrons dbu_per_micron
                                (inject_Z (getThickness (layer_at tech (fst isl)))))).
    { apply dbuToMicrons_nonneg; [assumption|]. apply Qmult_le_0_compat.
      - apply inject_Z_nonneg; assumption.
      - apply dbuToMicrons_nonneg; [assumption|]. apply inject_Z_nonneg; assumption. }
    unfold fresh_record. rewrite Hpsr, Hcar, Hcsr.
    split; [|split; [|split; [exact Hgate|repeat split; reflexivity]]].
    + destruct (node_info_gathered tech dbu_per_micron (fst isl) (snd isl))
        as (info0 & Hg0 & [E|E]); rewrite E; subst info0; cbn [set_side_area area];
        pose proof (gather_iterms_ratios (gates (snd isl))
          (set_area InfoType_new
             (dbuToMicrons dbu_per_micron
                (dbuToMicrons dbu_per_micron
                   (inject_Z (gtl_area (pol (snd isl))))))) 0) as H;
        cbn zeta in H; destruct H as (_ & _ & _ & _ & _ & _ & _ & _ & H & _);
        rewrite H; exact Harea.
    + destruct (node_info_gathered tech dbu_per_micron (fst isl) (snd isl))
        as (info0 & Hg0 & [E|E]); rewrite E; subst info0;
        cbn [set_side_area side_area]; [|exact Hside].
      pose proof (gather_iterms_ratios (gates (snd isl))
        (set_area InfoType_new
           (dbuToMicrons dbu_per_micron
              (dbuToMicrons dbu_per_micron
                 (inject_Z (gtl_area (pol (snd isl))))))) 0) as H.
      cbn zeta in H. destruct H as (_ & _ & _ & _ & _ & _ & _ & _ & _ & H).
      rewrite H. cbn. lra.
Qed.

Lemma layer_info_at_ok (layer_info : LayerInfo) (l : Layer) :
  models_ok layer_info = true -> model_ok (layer_info_at layer_info l) = true.
Proof.
  intro H. induction layer_info as [|[k m] rest IH].
  - reflexivity.
  - cbn [models_ok forallb snd] in H. apply andb_true_iff in H. destruct H as [Hm Hr].
    cbn [layer_info_at]. destruct (Nat.eqb k l); [exact Hm|apply IH; exact Hr].
Qed.

Lemma calculatePAR_record_nonneg (tech : Tech) (layer_info : LayerInfo)
      (l : Layer) (r0 : InfoType) :
  models_ok layer_info = true ->
  fresh_record r0 ->
  let r1 := snd (calculatePAR_record tech layer_info (l, r0)) in
  0 <= PAR r1 /\ 0 <= PSR r1 /\ CAR r1 = 0 /\ CSR r1 = 0.
Proof.
  intros Hok (Ha & Hs & Hg & Hpsr & Hcar & Hcsr).
  pose proof (layer_info_at_ok layer_info l Hok) as Hm. unfold model_ok in Hm.
  repeat (apply andb_true_iff in Hm; destruct Hm as [Hm ?]).
  repeat match goal with H : Qle_bool _ _ = true |- _ => apply Qle_bool_iff in H end.
  cbn zeta. unfold calculatePAR_record. cbn [snd].
  destruct (Nat.eqb (routingLevel tech l) 0).
  - unfold calculateViaPar. destruct (Qneb (iterm_diff_area r0) 0);
      cbn [set_ratios PAR PSR CAR CSR];
      (split; [apply Qdiv_nonneg; [apply Qmult_le_0_compat; assumption|exact Hg]|]);
      (split; [lra|split; assumption]).
  - unfold calculateWirePar. destruct (Qneb (iterm_diff_area r0) 0);
      cbn [set_ratios PAR PSR CAR CSR];
      (split; [apply Qdiv_nonneg; [apply Qmult_le_0_compat; assumption|exact Hg]|]);
      (split; [apply Qdiv_nonneg; [apply Qmult_le_0_compat; assumption|exact Hg]|]);
      split; assumption.
Qed.

Lemma kind_sum_zero (tech : Tech) (q : InfoType -> Q) (m : LayerMap) (L : Layer)
      (ls : list Layer) :
  (forall l, In l ls -> contribution tech q m L l == 0) ->
  kind_sum tech q m L ls == 0.
Proof.
  induction ls as [|l rest IH]; intro H; cbn [kind_sum].
  - reflexivity.
  - rewrite (H l (or_introl eq_refl)), IH; [ring|].
    intros l' Hin. apply H. right. exact Hin.
Qed.

(** C4 (as amended).  With factors, areas and thicknesses that are not
    negative, the ratios PAR, PSR, CAR and CSR of every record from
    [min_layer_] up are not negative and CAR is at least PAR.  The sums run
    per kind of layer: CAR equals PAR when no lower layer of the same kind
    (metal for a metal layer, via for a via layer) carries the gate, and
    equality leaves the lower records of that kind with a PAR of zero. *)
Theorem cumulative_ratio_bounds {Polygon : Type} {gtl : Gtl Polygon}
        (tech : Tech) (dbu_per_micron : Z) (layer_info : LayerInfo)
        (nodes : NodeMap Polygon) (mn : Layer) (g : string) (L : Layer)
        (r : InfoType) :
  models_ok layer_info = true ->
  geometry_ok tech dbu_per_micron nodes = true ->
  (mn <= L)%nat -> (L < length tech)%nat ->
  find_info (net_info tech dbu_per_micron layer_info (Some mn) nodes) g L = Some r ->
  0 <= PAR r /\ 0 <= PSR r /\ 0 <= CAR r /\ 0 <= CSR r
  /\ PAR r <= CAR r
  /\ (lowest_of_kind tech (net_info tech dbu_per_micron layer_info (Some mn) nodes)
                     g mn L ->
      CAR r == PAR r)
  /\ (CAR r == PAR r ->
      forall L' r',
        (mn <= L')%nat -> (L' < L)%nat -> same_kind tech L' L = true ->
        find_info (net_info tech dbu_per_micron layer_info (Some mn) nodes) g L'
        = Some r' ->
        PAR r' == 0).
Proof.
  intros Hok Hgeo HmL HL Hfind.
  assert (Hinfo : forall l,
            find_info (net_info tech dbu_per_micron layer_info (Some mn) nodes) g l
            = match find_gate (calculateAreas tech dbu_per_micron nodes []) g with
              | Some lm0 =>
                  find_layer
                    (calculateCAR_walk tech (length tech) (Some mn)
                       InfoType_new InfoType_new
                       (map (calculatePAR_record tech layer_info) lm0)) l
              | None => None
              end).
  { intro l. unfold net_info. rewrite find_info_calculateCAR, find_gate_calculatePAR.
    destruct (find_gate _ g); reflexivity. }
  unfold lowest_of_kind. setoid_rewrite Hinfo. rewrite Hinfo in Hfind.
  destruct (find_gate (calculateAreas tech dbu_per_micron nodes []) g) as [lm0|] eqn:Eg;
    [|discriminate].
  set (lm1 := map (calculatePAR_record tech layer_info) lm0) in *.
  assert (Hrec : forall l r1, find_layer lm1 l = Some r1 ->
                 0 <= PAR r1 /\ 0 <= PSR r1 /\ CAR r1 = 0 /\ CSR r1 = 0).
  { intros l r1 H1. unfold lm1 in H1.
    rewrite find_layer_map in H1 by (intros [k v]; reflexivity).
    destruct (find_layer lm0 l) as [r0|] eqn:E0; [|discriminate].
    injection H1 as <-.
    apply calculatePAR_record_nonneg; [exact Hok|].
    apply (calculateAreas_fresh tech dbu_per_micron nodes g l r0 Hgeo).
    unfold find_info. rewrite Eg. exact E0. }
  destruct (gate_cumulative_ratios tech lm1 mn L r
              (fun l r1 H => proj2 (proj2 (Hrec l r1 H))) HmL HL Hfind)
    as (r1 & E1 & Hpar & Hpsr & Hcar & Hcsr).
  destruct (Hrec L r1 E1) as (Hp0 & Hs0 & _ & _).
  destruct (kind_sum_nonneg tech PAR lm1 L (seq mn (L - mn))
              (fun l x H => proj1 (Hrec l x H))) as [Hka Hkz].
  destruct (kind_sum_nonneg tech PSR lm1 L (seq mn (L - mn))
              (fun l x H => proj1 (proj2 (Hrec l x H)))) as [Hks _].
  rewrite Hpar, Hpsr.
  split; [exact Hp0|]. split; [exact Hs0|].
  split; [lra|]. split; [lra|]. split; [lra|]. split.
  - intro Hlow. rewrite Hcar.
    rewrite (kind_sum_zero tech PAR lm1 L (seq mn (L - mn))); [ring|].
    intros l Hin. apply in_seq in Hin. unfold contribution.
    destruct (find_layer lm1 l) as [x|] eqn:Ex; [|reflexivity].
    destruct (same_kind tech l L) eqn:Ek; [|reflexivity].
    exfalso. specialize (Hlow l ltac:(lia) ltac:(lia) Ek).
    destruct (calculateCAR_walk_find tech CAR PAR cumulative_pair_area (length tech)
                mn InfoType_new InfoType_new lm1 l x ltac:(lia) ltac:(lia) Ex
                ltac:(lia)) as (x' & Hx' & _).
    congruence.
  - intros Heq L' r' HmL' HL' Hkind Hfind'.
    assert (Hz : kind_sum tech PAR lm1 L (seq mn (L - mn)) == 0) by lra.
    destruct (gate_cumulative_ratios tech lm1 mn L' r'
                (fun l r1 H => proj2 (proj2 (Hrec l r1 H))) HmL' ltac:(lia) Hfind')
      as (r1' & E1' & Hpar' & _).
    specialize (Hkz Hz L' ltac:(apply in_seq; lia)).
    unfold contribution in Hkz. rewrite E1', Hkind in Hkz.
    rewrite Hpar'. exact Hkz.
Qed.

(** The via of [wire_and_via_nodes] is the lowest via layer of the gate and
    its CAR is its PAR. *)
Lemma cumulative_ratio_bounds_witness :
  exists r,
    find_info wire_and_via_info "u2/A" V1 = Some r
    /\ 0 <= PAR r /\ PAR r <= CAR r.
Proof.
  destruct (find_info wire_and_via_info "u2/A" V1) as [r|] eqn:E;
    [|vm_compute in E; discriminate].
  exists r. split; [reflexivity|].
  destruct (cumulative_ratio_bounds (s2_tech 0) 1 (fst (initAntennaRules (s2_tech 0)))
              wire_and_via_nodes 0%nat "u2/A" V1 r
              ltac:(vm_compute; reflexivity) ltac:(vm_compute; reflexivity)
              (le_0_n _) ltac:(vm_compute; lia) E)
    as (H1 & _ & _ & _ & H5 & _).
  split; assumption.
Defined.

(** On the same net CAR equals PAR on the via layer, which is not the
    lowest layer that carries the gate: metal 1 below it does. *)
Lemma car_equality_fails_on_via : ~ car_equality_on_lowest_layer wire_and_via_info.
Proof.
  intro H.
  assert (Hv : exists r, find_info wire_and_via_info "u2/A" V1 = Some r
                         /\ CAR r == PAR r)
    by (eexists; split; vm_compute; reflexivity).
  destruct Hv as (rv & Hfv & Heq).
  assert (Hm : exists r, find_info wire_and_via_info "u2/A" M1 = Some r)
    by (eexists; vm_compute; reflexivity).
  destruct Hm as (rm & Hfm).
  pose proof (proj1 (H "u2/A"%string V1 rv Hfv) Heq M1 rm Hfm) as Hle.
  unfold V1, M1 in Hle. lia.
Qed.

(** ** The ratio margin *)

Lemma margin_scale_bounds (ratio_margin : Q) :
  0 < ratio_margin -> ratio_margin < 100 ->
  0 < 1 - ratio_margin / 100 /\ 1 - ratio_margin / 100 < 1.
Proof.
  intros H0 H100.
  change (ratio_margin / 100) with (ratio_margin * (1 # 100)).
  split; lra.
Qed.

Lemma margin_zero_scale : 1 - 0 / 100 == 1.
Proof. reflexivity. Qed.

(** A check against a threshold scaled by [s]: fixed when the scaled fixed
    threshold is not zero, else PWL when the scaled PWL threshold is not
    zero, else none. *)
Lemma scaled_threshold_keeps_violation (fixed pwl v dv s : Q) :
  0 <= fixed -> 0 <= pwl -> 0 < s -> s < 1 ->
  (if Qneb (fixed * (1 - 0 / 100)) 0 then Qgtb v (fixed * (1 - 0 / 100))
   else if Qneb (pwl * (1 - 0 / 100)) 0 then Qgtb dv (pwl * (1 - 0 / 100)) else false)
  = true ->
  (if Qneb (fixed * s) 0 then Qgtb v (fixed * s)
   else if Qneb (pwl * s) 0 then Qgtb dv (pwl * s) else false)
  = true.
Proof.
  intros Hf Hp Hs0 Hs1.
  assert (Hnz : forall t, 0 <= t -> Qneb (t * s) 0 = Qneb (t * (1 - 0 / 100)) 0).
  { intros t Ht. destruct (Qneb (t * (1 - 0 / 100)) 0) eqn:E.
    - apply Qneb_true in E. apply Qneb_true. rewrite margin_zero_scale in E.
      intro Hz. apply E. nra.
    - apply Qneb_false in E. apply Qneb_false. rewrite margin_zero_scale in E. nra. }
  assert (Hgt : forall t x, 0 <= t -> Qgtb x (t * (1 - 0 / 100)) = true ->
                            Qgtb x (t * s) = true).
  { intros t x Ht Hx. apply Qgtb_true in Hx. apply Qgtb_true.
    rewrite margin_zero_scale in Hx. nra. }
  rewrite (Hnz fixed Hf), (Hnz pwl Hp).
  destruct (Qneb (fixed * (1 - 0 / 100)) 0).
  - apply Hgt. exact Hf.
  - destruct (Qneb (pwl * (1 - 0 / 100)) 0); [apply Hgt; exact Hp|trivial].
Qed.

Lemma checkPAR_verdict (antenna_rule : dbTechLayerAntennaRule) (ratio_margin : Q)
      (info : InfoType) (verbose report : bool) :
  fst (fst (checkPAR antenna_rule ratio_margin info verbose report))
  = if Qneb (getPAR antenna_rule * (1 - ratio_margin / 100)) 0
    then Qgtb (PAR info) (getPAR antenna_rule * (1 - ratio_margin / 100))
    else if Qneb (getPwlFactor (getDiffPAR antenna_rule) (iterm_diff_area info) 0
                  * (1 - ratio_margin / 100)) 0
         then Qgtb (diff_PAR info)
                   (getPwlFactor (getDiffPAR antenna_rule) (iterm_diff_area info) 0
                    * (1 - ratio_margin / 100))
         else false.
Proof.
  unfold checkPAR.
  destruct (Qneb (getPAR antenna_rule * (1 - ratio_margin / 100)) 0); reflexivity.
Qed.

Lemma checkPSR_verdict (antenna_rule : dbTechLayerAntennaRule) (ratio_margin : Q)
      (info : InfoType) (verbose report : bool) :
  fst (fst (checkPSR antenna_rule ratio_margin info verbose report))
  = if Qneb (getPSR antenna_rule * (1 - ratio_margin / 100)) 0
    then Qgtb (PSR info) (getPSR antenna_rule * (1 - ratio_margin / 100))
    else if Qneb (getPwlFactor (getDiffPSR antenna_rule) (iterm_diff_area info) 0
                  * (1 - ratio_margin / 100)) 0
         then Qgtb (diff_PSR info)
                   (getPwlFactor (getDiffPSR antenna_rule) (iterm_diff_area info) 0
                    * (1 - ratio_margin / 100))
         else false.
Proof.
  unfold checkPSR.
  destruct (Qneb (getPSR antenna_rule * (1 - ratio_margin / 100)) 0); reflexivity.
Qed.

(** C3 (as amended).  Raising the margin from 0 to [r] in (0, 100) scales
    the fixed and the PWL thresholds of the PAR and PSR checks alike and
    leaves the CAR and CSR checks alone.  With thresholds that are not
    negative, a PAR or PSR check that found a violation at margin 0, fixed
    or PWL, finds it at margin [r], and so does the check of the record. *)
Theorem margin_keeps_violations (tech : Tech) (antenna_rule : dbTechLayerAntennaRule)
        (ratio_margin : Q) (l : Layer) (info : InfoType) :
  0 < ratio_margin -> ratio_margin < 100 ->
  0 <= getPAR antenna_rule -> 0 <= getPSR antenna_rule ->
  0 <= getPwlFactor (getDiffPAR antenna_rule) (iterm_diff_area info) 0 ->
  0 <= getPwlFactor (getDiffPSR antenna_rule) (iterm_diff_area info) 0 ->
  (fst (fst (checkPAR antenna_rule 0 info false false)) = true ->
   fst (fst (checkPAR antenna_rule ratio_margin info false false)) = true)
  /\ (fst (fst (checkPSR antenna_rule 0 info false false)) = true ->
      fst (fst (checkPSR antenna_rule ratio_margin info false false)) = true)
  /\ (fst (check_record tech antenna_rule 0 l info false false) = true ->
      fst (check_record tech antenna_rule ratio_margin l info false false) = true).
Proof.
  intros H0 H100 Hpar Hpsr Hdpar Hdpsr.
  destruct (margin_scale_bounds ratio_margin H0 H100) as [Hs0 Hs1].
  assert (HPAR : fst (fst (checkPAR antenna_rule 0 info false false)) = true ->
                 fst (fst (checkPAR antenna_rule ratio_margin info false false)) = true).
  { rewrite !checkPAR_verdict.
    apply scaled_threshold_keeps_violation; assumption. }
  assert (HPSR : fst (fst (checkPSR antenna_rule 0 info false false)) = true ->
                 fst (fst (checkPSR antenna_rule ratio_margin info false false)) = true).
  { rewrite !checkPSR_verdict.
    apply scaled_threshold_keeps_violation; assumption. }
  split; [exact HPAR|]. split; [exact HPSR|].
  unfold check_record.
  destruct (negb (Nat.eqb (routingLevel tech l) 0)); cbn [fst].
  - rewrite !orb_true_iff. intros [[[H|H]|H]|H]; auto.
  - rewrite !orb_true_iff. intros [H|H]; auto.
Qed.

(** Scenario S2: a PAR of 2 against a threshold of 1 violates at margin 0
    and at margin 20. *)
Lemma margin_keeps_violations_witness :
  exists r,
    find_info (net_info (s2_tech 0) 1 (fst (initAntennaRules (s2_tech 0)))
                        (Some M1) s2_nodes) "u2/A" M1 = Some r
    /\ fst (check_record (s2_tech 0) (toy_rule 1 empty_pwl 0) 20 M1 r false false)
       = true.
Proof.
  destruct (find_info (net_info (s2_tech 0) 1 (fst (initAntennaRules (s2_tech 0)))
                                (Some M1) s2_nodes) "u2/A" M1) as [r|] eqn:E;
    [|vm_compute in E; discriminate].
  exists r. split; [reflexivity|].
  vm_compute in E. injection E as <-.
  apply (margin_keeps_violations (s2_tech 0) (toy_rule 1 empty_pwl 0) 20 M1);
    vm_compute; try reflexivity; discriminate.
Defined.

(** The record of [pwl_only_nodes] has a diff-PAR of 0.9 against the PWL
    threshold 1: no violation at margin 0, a violation at margin 20. *)
Lemma margin_adds_pwl_violation : ~ margin_adds_no_pwl_violation pwl_only_tech.
Proof.
  intro H.
  destruct (find_info (info_ pwl_only_checker) "u2/A" M1) as [r|] eqn:E;
    [|vm_compute in E; discriminate].
  specialize (H (toy_rule 0 (mk_pwl [0] [1]) 0) M1 r 20).
  vm_compute in E. injection E as <-.
  vm_compute in H.
  specialize (H eq_refl eq_refl eq_refl eq_refl eq_refl eq_refl eq_refl).
  discriminate.
Qed.

(** The same on the whole check: no violating pin at margin 0, one at
    margin 20. *)
Lemma margin_adds_pwl_violation_count :
  fst (checkInfo pwl_only_tech 10 pwl_only_checker false false None 0) = 0%nat
  /\ fst (checkInfo pwl_only_tech 10 pwl_only_checker false false None 20) = 1%nat.
Proof. split; vm_compute; reflexivity. Qed.

(** ** The diode loop *)

Section DiodeLoop.
Variable tech : Tech.
Variable layer_info : LayerInfo.
Variable antenna_rule : dbTechLayerAntennaRule.
Variable ratio_margin : Q.
Variable violation_layer : Layer.
Variable diode_diff_area : Q.
Variable gates_size : nat.
Variable max_diode_count_per_gate : nat.

(** With fuel for the diodes that may still be counted the loop returns:
    the record after [n] more diodes, the count, and the warning exactly
    when the count passed the cap.  The loop went on only while PAR or PSR
    failed, and below the cap it stopped because both passed. *)
Lemma diode_loop_result (fuel : nat) :
  forall (violation_info : InfoType) (diode_count_per_gate : nat),
  (diode_count_per_gate <= max_diode_count_per_gate)%nat ->
  (S max_diode_count_per_gate - diode_count_per_gate <= fuel)%nat ->
  exists n,
    diode_loop tech layer_info antenna_rule ratio_margin violation_layer
               diode_diff_area gates_size max_diode_count_per_gate
               fuel violation_info diode_count_per_gate
               (fst (checkPAR antenna_rule ratio_margin violation_info false false))
               (fst (checkPSR antenna_rule ratio_margin violation_info false false))
    = Some (Nat.iter n (diode_step tech layer_info violation_layer
                                   diode_diff_area gates_size) violation_info,
            (diode_count_per_gate + n)%nat,
            Nat.ltb max_diode_count_per_gate (diode_count_per_gate + n))
    /\ (diode_count_per_gate + n <= S max_diode_count_per_gate)%nat
    /\ (forall j, (j < n)%nat ->
          par_psr_violation antenna_rule ratio_margin
            (Nat.iter j (diode_step tech layer_info violation_layer
                                    diode_diff_area gates_size) violation_info)
          = true)
    /\ ((diode_count_per_gate + n <= max_diode_count_per_gate)%nat ->
        par_psr_violation antenna_rule ratio_margin
          (Nat.iter n (diode_step tech layer_info violation_layer
                                  diode_diff_area gates_size) violation_info)
        = false).
Proof.
  induction fuel as [|fuel IH]; intros info count Hcount Hfuel.
  - lia.
  - cbn [diode_loop].
    fold (par_psr_violation antenna_rule ratio_margin info).
    destruct (par_psr_violation antenna_rule ratio_margin info) eqn:Ev; cbn [negb].
    + fold (diode_step tech layer_info violation_layer diode_diff_area gates_size info).
      set (info1 := diode_step tech layer_info violation_layer
                               diode_diff_area gates_size info).
      destruct (Nat.ltb_spec max_diode_count_per_gate (S count)) as [Hcap|Hcap].
      * exists 1%nat. replace (count + 1)%nat with (S count) by lia.
        split; [|split; [lia|split]].
        -- destruct (Nat.ltb_spec max_diode_count_per_gate (S count)); [|lia].
           reflexivity.
        -- intros j Hj. assert (j = 0%nat) by lia. subst j. exact Ev.
        -- lia.
      * destruct (IH info1 (S count) Hcap ltac:(lia)) as (n & Hres & Hle & Hgo & Hstop).
        exists (S n). replace (count + S n)%nat with (S count + n)%nat by lia.
        rewrite Nat.iter_succ_r. fold info1.
        split; [exact Hres|]. split; [exact Hle|]. split; [|exact Hstop].
        intros [|j] Hj; [exact Ev|].
        rewrite Nat.iter_succ_r. apply Hgo. lia.
    + exists 0%nat. replace (count + 0)%nat with count by lia.
      split; [|split; [lia|split]].
      * destruct (Nat.ltb_spec max_diode_count_per_gate count); [lia|reflexivity].
      * intros j Hj. lia.
      * intros _. exact Ev.
Qed.

End DiodeLoop.

(** The fuel that [diode_estimate] gives the loop is enough. *)
Lemma diode_estimate_total (tech : Tech) (layer_info : LayerInfo)
      (antenna_rule : dbTechLayerAntennaRule) (ratio_margin : Q)
      (violation_layer : Layer) (diode_mterm : dbMTerm)
      (max_diode_count_per_gate : nat) (violation_info : InfoType) :
  exists n,
    diode_estimate tech layer_info antenna_rule ratio_margin violation_layer
                   diode_mterm max_diode_count_per_gate violation_info
    = Some (Nat.iter n (diode_step tech layer_info violation_layer
                                   (diffArea diode_mterm)
                                   (length (iterms violation_info))) violation_info,
            n, Nat.ltb max_diode_count_per_gate n)
    /\ (n <= S max_diode_count_per_gate)%nat
    /\ (forall j, (j < n)%nat ->
          par_psr_violation antenna_rule ratio_margin
            (Nat.iter j (diode_step tech layer_info violation_layer
                                    (diffArea diode_mterm)
                                    (length (iterms violation_info))) violation_info)
          = true)
    /\ ((n <= max_diode_count_per_gate)%nat ->
        par_psr_violation antenna_rule ratio_margin
          (Nat.iter n (diode_step tech layer_info violation_layer
                                  (diffArea diode_mterm)
                                  (length (iterms violation_info))) violation_info)
        = false).
Proof.
  unfold diode_estimate.
  apply (diode_loop_result tech layer_info antenna_rule ratio_margin violation_layer
           (diffArea diode_mterm) (length (iterms violation_info))
           max_diode_count_per_gate (S max_diode_count_per_gate) violation_info 0);
    lia.
Qed.

Lemma check_record_silent (tech : Tech) (antenna_rule : dbTechLayerAntennaRule)
      (ratio_margin : Q) (l : Layer) (info : InfoType) :
  snd (check_record tech antenna_rule ratio_margin l info false false) = [].
Proof.
  assert (Hsilent : forall v line, report_if v false false line = []).
  { intros v line. unfold report_if. rewrite andb_false_r. reflexivity. }
  unfold check_record, checkPAR, checkPSR, checkCAR, checkCSR.
  repeat match goal with
         | |- context [if ?b then _ else _] => destruct b
         end; cbn [fst snd]; rewrite ?Hsilent; reflexivity.
Qed.

(** C2 (as amended).  With a diode mterm, on a violating record of a metal
    layer whose gate was not among the gates of a record repaired earlier on
    that layer, [checkInfo] runs the diode loop: each diode adds
    [diffArea(diode) * |gates|] to the diffusion area and PAR and PSR alone
    are recomputed and re-checked; the loop goes on while one of them fails
    and stops when both pass or the count exceeds the cap, with warning 15;
    one Violation is emitted when the count is positive, and the gates of
    the record are marked.  A record whose gate is marked is skipped. *)
Theorem diode_loop_repairs (tech : Tech) (layer_info : LayerInfo) (ratio_margin : Q)
        (verbose report : bool) (diode_mterm : dbMTerm)
        (max_diode_count_per_gate : nat) (gate : string) (st : CheckState)
        (l : Layer) (info : InfoType) (antenna_rule : dbTechLayerAntennaRule) :
  getDefaultAntennaRule (layer_at tech l) = Some antenna_rule ->
  fst (check_record tech antenna_rule ratio_margin l info false false) = true ->
  routingLevel tech l <> 0%nat ->
  let st' := checkInfo_layer tech layer_info ratio_margin verbose report
                             (Some diode_mterm) max_diode_count_per_gate gate st
                             (l, info) in
  let step := diode_step tech layer_info l (diffArea diode_mterm)
                         (length (iterms info)) in
  (pin_added_mem (pin_added st) l gate = false ->
   exists diode_count,
     (diode_count <= S max_diode_count_per_gate)%nat
     /\ (forall j, (j < diode_count)%nat ->
           par_psr_violation antenna_rule ratio_margin (Nat.iter j step info) = true)
     /\ ((diode_count <= max_diode_count_per_gate)%nat ->
         par_psr_violation antenna_rule ratio_margin (Nat.iter diode_count step info)
         = false)
     /\ violations st'
        = violations st
          ++ (if Nat.ltb 0 diode_count
              then [mk_violation (routingLevel tech l) (iterms info) diode_count]
              else [])
     /\ log st'
        = log st
          ++ (if Nat.ltb max_diode_count_per_gate diode_count
              then [Warn15_too_many_diodes max_diode_count_per_gate] else [])
     /\ pin_added st'
        = pin_added st ++ map (fun iterm_iter => (l, getName iterm_iter)) (iterms info))
  /\ (pin_added_mem (pin_added st) l gate = true ->
      violations st' = violations st /\ log st' = log st
      /\ pin_added st' = pin_added st).
Proof.
  intros Hrule Hviol Hlevel st' step. subst st'.
  unfold checkInfo_layer. rewrite Hrule.
  pose proof (check_record_silent tech antenna_rule ratio_margin l info) as Hsilent.
  destruct (check_record tech antenna_rule ratio_margin l info false false)
    as [v lines]. cbn [fst snd] in Hviol, Hsilent. subst v lines.
  rewrite andb_false_r.
  destruct (Nat.eqb_spec (routingLevel tech l) 0) as [E|_]; [contradiction|].
  cbn [negb andb].
  assert (Hadded : pin_added (set_pin_has_violation (say st [])) = pin_added st)
    by reflexivity.
  rewrite Hadded.
  split.
  - intros Hmem. rewrite Hmem. cbn [negb].
    destruct (diode_estimate_total tech layer_info antenna_rule ratio_margin l
                diode_mterm max_diode_count_per_gate info)
      as (n & Hres & Hle & Hgo & Hstop).
    exists n. split; [exact Hle|]. split; [exact Hgo|]. split; [exact Hstop|].
    unfold repair_record. rewrite Hres.
    unfold set_pin_has_violation, say. cbn [violations log pin_added].
    rewrite app_nil_r. repeat split; reflexivity.
  - intros Hmem. rewrite Hmem.
    unfold set_pin_has_violation, say. cbn [negb violations log pin_added].
    rewrite app_nil_r. repeat split; reflexivity.
Qed.

(** ** The counts of violating pins *)

Section CheckInfoCount.
Variable tech : Tech.
Variable layer_info : LayerInfo.
Variable ratio_margin : Q.
Variables verbose report : bool.
Variable diode_mterm : option dbMTerm.
Variable max_diode_count_per_gate : nat.

Lemma checkInfo_layer_flag (gate : string) (st : CheckState) (it : Layer * InfoType) :
  pin_has_violation
    (checkInfo_layer tech layer_info ratio_margin verbose report diode_mterm
                     max_diode_count_per_gate gate st it)
  = pin_has_violation st || record_violates tech ratio_margin it.
Proof.
  destruct it as [l info]. unfold checkInfo_layer, record_violates. cbn [fst snd].
  destruct (getDefaultAntennaRule (layer_at tech l)) as [antenna_rule|];
    [|rewrite orb_false_r; reflexivity].
  destruct (check_record tech antenna_rule ratio_margin l info false false)
    as [v lines]. cbn [fst].
  destruct v; cbn [orb].
  - rewrite orb_true_r.
    destruct diode_mterm as [diode|]; cbn [andb].
    + destruct (negb (Nat.eqb (routingLevel tech l) 0)
                && negb (pin_added_mem
                           (pin_added (set_pin_has_violation (say st lines))) l gate));
        [|reflexivity].
      unfold repair_record.
      destruct (match diode_estimate _ _ _ _ _ _ _ _ with
                | Some r => r | None => _ end) as [[i n] w].
      reflexivity.
    + reflexivity.
  - rewrite orb_false_r.
    destruct (report && match diode_mterm with Some _ => false | None => true end);
      reflexivity.
Qed.

Lemma checkInfo_layers_flag (gate : string) (lm : LayerMap) :
  forall st,
  pin_has_violation
    (fold_left (checkInfo_layer tech layer_info ratio_margin verbose report
                                diode_mterm max_diode_count_per_gate gate) lm st)
  = pin_has_violation st || existsb (record_violates tech ratio_margin) lm.
Proof.
  induction lm as [|it rest IH]; intro st; cbn [fold_left existsb].
  - rewrite orb_false_r. reflexivity.
  - rewrite IH, checkInfo_layer_flag, orb_assoc. reflexivity.
Qed.

Lemma checkInfo_gate_count (st : CheckState) (n : nat) (gate_info : string * LayerMap) :
  snd (checkInfo_gate tech layer_info ratio_margin verbose report diode_mterm
                      max_diode_count_per_gate (st, n) gate_info)
  = if pin_violates tech ratio_margin gate_info then S n else n.
Proof.
  unfold checkInfo_gate, pin_violates. cbn [snd].
  rewrite checkInfo_layers_flag. cbn [pin_has_violation orb]. reflexivity.
Qed.

Lemma checkInfo_gates_count (gis : InfoMap) :
  forall st n,
  snd (fold_left (checkInfo_gate tech layer_info ratio_margin verbose report
                                 diode_mterm max_diode_count_per_gate) gis (st, n))
  = (n + length (filter (pin_violates tech ratio_margin) gis))%nat.
Proof.
  induction gis as [|gi rest IH]; intros st n; cbn [fold_left filter].
  - cbn. lia.
  - pose proof (checkInfo_gate_count st n gi) as Hg.
    destruct (checkInfo_gate tech layer_info ratio_margin verbose report diode_mterm
                max_diode_count_per_gate (st, n) gi) as [st' n'].
    cbn [snd] in Hg. subst n'. rewrite IH.
    destruct (pin_violates tech ratio_margin gi); cbn [length]; lia.
Qed.

End CheckInfoCount.

(** The count that [checkInfo] returns is the number of gates with a
    violating record; the diode mterm has no part in it. *)
Lemma checkInfo_count (tech : Tech) (max_diode_count_per_gate : nat) (c : Checker)
      (verbose report : bool) (diode_mterm : option dbMTerm) (ratio_margin : Q) :
  fst (checkInfo tech max_diode_count_per_gate c verbose report diode_mterm ratio_margin)
  = length (filter (pin_violates tech ratio_margin) (info_ c)).
Proof.
  unfold checkInfo.
  pose proof (checkInfo_gates_count tech (layer_info_ c) ratio_margin verbose report
                diode_mterm max_diode_count_per_gate (info_ c)
                (mk_state [] (antenna_violations_ c) (logger_ c) false false false) 0)
    as H.
  destruct (fold_left _ (info_ c) _) as [st n]. cbn [snd] in H. cbn [fst]. exact H.
Qed.

Lemma checkInfo_frame (tech : Tech) (max_diode_count_per_gate : nat) (c : Checker)
      (verbose report : bool) (diode_mterm : option dbMTerm) (ratio_margin : Q) :
  let c' := snd (checkInfo tech max_diode_count_per_gate c verbose report
                           diode_mterm ratio_margin) in
  info_ c' = info_ c /\ layer_info_ c' = layer_info_ c /\ min_layer_ c' = min_layer_ c.
Proof.
  unfold checkInfo. destruct (fold_left _ (info_ c) _) as [st n].
  cbn. repeat split; reflexivity.
Qed.

(** ** The violation list *)

Lemma extends_violations_refl (diode_mterm : option dbMTerm) (st st' : CheckState) :
  violations st' = violations st -> extends_violations diode_mterm st st'.
Proof.
  intro H. exists []. rewrite app_nil_r. split; [exact H|reflexivity].
Qed.

Lemma extends_violations_trans (diode_mterm : option dbMTerm) (st1 st2 st3 : CheckState) :
  extends_violations diode_mterm st1 st2 -> extends_violations diode_mterm st2 st3 ->
  extends_violations diode_mterm st1 st3.
Proof.
  intros (v1 & H1 & N1) (v2 & H2 & N2). exists (v1 ++ v2). split.
  - rewrite H2, H1, app_assoc. reflexivity.
  - intro Hn. rewrite (N1 Hn), (N2 Hn). reflexivity.
Qed.

Section ViolationList.
Variable tech : Tech.
Variable layer_info : LayerInfo.
Variable ratio_margin : Q.
Variables verbose report : bool.
Variable diode_mterm : option dbMTerm.
Variable max_diode_count_per_gate : nat.

Lemma checkInfo_layer_violations (gate : string) (st : CheckState)
      (it : Layer * InfoType) :
  extends_violations diode_mterm st
    (checkInfo_layer tech layer_info ratio_margin verbose report diode_mterm
                     max_diode_count_per_gate gate st it).
Proof.
  destruct it as [l info]. unfold checkInfo_layer.
  destruct (getDefaultAntennaRule (layer_at tech l)) as [antenna_rule|];
    [|apply extends_violations_refl; reflexivity].
  destruct (check_record tech antenna_rule ratio_margin l info false false)
    as [v lines].
  destruct diode_mterm as [diode|] eqn:Ed.
  - rewrite andb_false_r. destruct v; [|apply extends_violations_refl; reflexivity].
    destruct (negb (Nat.eqb (routingLevel tech l) 0)
              && negb (pin_added_mem
                         (pin_added (set_pin_has_violation (say st lines))) l gate));
      [|apply extends_violations_refl; reflexivity].
    unfold repair_record.
    destruct (match diode_estimate _ _ _ _ _ _ _ _ with
              | Some r => r | None => _ end) as [[i n] w].
    eexists. split; [reflexivity|]. intro Hn. discriminate.
  - apply extends_violations_refl.
    destruct ((v || report) && true); destruct v; reflexivity.
Qed.

Lemma checkInfo_layers_violations (gate : string) (lm : LayerMap) :
  forall st,
  extends_violations diode_mterm st
    (fold_left (checkInfo_layer tech layer_info ratio_margin verbose report
                                diode_mterm max_diode_count_per_gate gate) lm st).
Proof.
  induction lm as [|it rest IH]; intro st; cbn [fold_left].
  - apply extends_violations_refl. reflexivity.
  - eapply extends_violations_trans; [apply checkInfo_layer_violations|apply IH].
Qed.

Lemma checkInfo_gates_violations (gis : InfoMap) :
  forall st n,
  extends_violations diode_mterm st
    (fst (fold_left (checkInfo_gate tech layer_info ratio_margin verbose report
                                    diode_mterm max_diode_count_per_gate) gis (st, n))).
Proof.
  induction gis as [|gi rest IH]; intros st n; cbn [fold_left].
  - apply extends_violations_refl. reflexivity.
  - destruct (checkInfo_gate tech layer_info ratio_margin verbose report diode_mterm
                max_diode_count_per_gate (st, n) gi) as [st' n'] eqn:Eg.
    eapply extends_violations_trans; [|apply IH].
    unfold checkInfo_gate in Eg. injection Eg as <- _.
    eapply extends_violations_trans.
    + apply extends_violations_refl.
      instantiate (1 := mk_state (pin_added st) (violations st) (log st)
                                 (net_is_reported st) false false).
      reflexivity.
    + eapply extends_violations_trans; [apply checkInfo_layers_violations|].
      apply extends_violations_refl.
      destruct (pin_is_reported _); reflexivity.
Qed.

End ViolationList.

Lemma checkInfo_violations (tech : Tech) (max_diode_count_per_gate : nat) (c : Checker)
      (verbose report : bool) (diode_mterm : option dbMTerm) (ratio_margin : Q) :
  exists vs,
    antenna_violations_
      (snd (checkInfo tech max_diode_count_per_gate c verbose report diode_mterm
                      ratio_margin))
    = antenna_violations_ c ++ vs
    /\ (diode_mterm = None -> vs = []).
Proof.
  unfold checkInfo.
  pose proof (checkInfo_gates_violations tech (layer_info_ c) ratio_margin verbose report
                diode_mterm max_diode_count_per_gate (info_ c)
                (mk_state [] (antenna_violations_ c) (logger_ c) false false false) 0)
    as (vs & Hvs & Hnone).
  destruct (fold_left _ (info_ c) _) as [st n]. cbn [fst] in Hvs.
  exists vs. split; [|exact Hnone].
  cbn [snd antenna_violations_]. destruct (net_is_reported st); exact Hvs.
Qed.

(** C6.  With the same inputs, a run with a diode mterm returns the counts
    of violating nets and pins of the run without one.  The diode loop
    appends to the violation list, with the diode count of each violation,
    and leaves the stored records as they were; without a diode the
    violation list is not touched. *)
Theorem diode_mterm_frame {Polygon : Type} {gtl : Gtl Polygon}
        (tech : Tech) (dbu_per_micron : Z) (max_diode_count_per_gate : nat)
        (c : Checker) (wire : option (NodeMap Polygon)) (verbose report : bool)
        (diode_mterm : dbMTerm) (ratio_margin : Q)
        (net_violation_count pin_violation_count : nat) :
  let with_diode :=
    checkNet tech dbu_per_micron max_diode_count_per_gate c wire verbose report
             (Some diode_mterm) ratio_margin net_violation_count pin_violation_count in
  let without :=
    checkNet tech dbu_per_micron max_diode_count_per_gate c wire verbose report
             None ratio_margin net_violation_count pin_violation_count in
  snd (fst with_diode) = snd (fst without)
  /\ snd with_diode = snd without
  /\ info_ (fst (fst with_diode)) = info_ (fst (fst without))
  /\ antenna_violations_ (fst (fst without)) = antenna_violations_ c
  /\ (exists vs, antenna_violations_ (fst (fst with_diode))
                 = antenna_violations_ c ++ vs)
  /\ fst (checkInfo tech max_diode_count_per_gate c verbose report
                    (Some diode_mterm) ratio_margin)
     = fst (checkInfo tech max_diode_count_per_gate c verbose report None ratio_margin)
  /\ info_ (snd (checkInfo tech max_diode_count_per_gate c verbose report
                           (Some diode_mterm) ratio_margin))
     = info_ c.
Proof.
  cbn zeta.
  assert (Hcount : forall c0,
            fst (checkInfo tech max_diode_count_per_gate c0 verbose report
                           (Some diode_mterm) ratio_margin)
            = fst (checkInfo tech max_diode_count_per_gate c0 verbose report
                             None ratio_margin))
    by (intro c0; rewrite !checkInfo_count; reflexivity).
  assert (Hlast : fst (checkInfo tech max_diode_count_per_gate c verbose report
                                 (Some diode_mterm) ratio_margin)
                  = fst (checkInfo tech max_diode_count_per_gate c verbose report
                                   None ratio_margin)
                  /\ info_ (snd (checkInfo tech max_diode_count_per_gate c verbose
                                           report (Some diode_mterm) ratio_margin))
                     = info_ c).
  { split; [apply Hcount|].
    apply (checkInfo_frame tech max_diode_count_per_gate c verbose report
             (Some diode_mterm) ratio_margin). }
  destruct wire as [nodes|]; cbn [checkNet].
  2:{ cbn [fst snd]. repeat split; try reflexivity; try apply Hlast.
      exists []. rewrite app_nil_r. reflexivity. }
  set (c0 := mk_checker (layer_info_ c) (findRoutingLayer tech 1)
               (calculateCAR tech (findRoutingLayer tech 1)
                  (calculatePAR tech (layer_info_ c)
                     (calculateAreas tech dbu_per_micron nodes [])))
               (ratio_margin_ c) (antenna_violations_ c) (logger_ c)).
  pose proof (Hcount c0) as Hc.
  pose proof (checkInfo_frame tech max_diode_count_per_gate c0 verbose report
                (Some diode_mterm) ratio_margin) as (Hf1 & _).
  pose proof (checkInfo_frame tech max_diode_count_per_gate c0 verbose report
                None ratio_margin) as (Hf0 & _).
  pose proof (checkInfo_violations tech max_diode_count_per_gate c0 verbose report
                (Some diode_mterm) ratio_margin) as (vs1 & Hv1 & _).
  pose proof (checkInfo_violations tech max_diode_count_per_gate c0 verbose report
                None ratio_margin) as (vs0 & Hv0 & Hn0).
  rewrite (Hn0 eq_refl), app_nil_r in Hv0.
  destruct (checkInfo tech max_diode_count_per_gate c0 verbose report
                      (Some diode_mterm) ratio_margin) as [n1 c1].
  destruct (checkInfo tech max_diode_count_per_gate c0 verbose report
                      None ratio_margin) as [n0 c0'].
  cbn [fst snd] in Hc, Hf1, Hf0, Hv1, Hv0. subst n1.
  destruct (Nat.ltb 0 n0); cbn [fst snd];
    (split; [reflexivity|]); (split; [reflexivity|]);
    (split; [congruence|]); (split; [exact Hv0|]);
    (split; [exists vs1; exact Hv1|exact Hlast]).
Qed.

(** Scenario S5: one diode repairs the record and one Violation with a
    diode count of 1 is emitted. *)
Lemma diode_loop_repairs_witness :
  exists r,
    find_info s5_info "u2/A" M1 = Some r
    /\ exists diode_count,
         (diode_count <= 11)%nat
         /\ par_psr_violation (toy_rule 0 (mk_pwl [0; 10] [1; 5]) 0) 0
              (Nat.iter diode_count
                 (diode_step s5_tech (fst (initAntennaRules s5_tech)) M1
                             (diffArea s5_diode) (length (iterms r))) r)
            = false
         /\ violations
              (checkInfo_layer s5_tech (fst (initAntennaRules s5_tech)) 0 false false
                               (Some s5_diode) 10 "u2/A"
                               (mk_state [] [] [] false false false) (M1, r))
            = [mk_violation 1 (iterms r) 1].
Proof.
  destruct (find_info s5_info "u2/A" M1) as [r|] eqn:E;
    [|vm_compute in E; discriminate].
  exists r. split; [reflexivity|].
  vm_compute in E. injection E as <-.
  match goal with
  | |- context [checkInfo_layer _ _ _ _ _ _ _ _ _ (_, ?r)] =>
      destruct (diode_loop_repairs s5_tech (fst (initAntennaRules s5_tech)) 0
                  false false s5_diode 10 "u2/A"
                  (mk_state [] [] [] false false false) M1
                  r (toy_rule 0 (mk_pwl [0; 10] [1; 5]) 0)
                  eq_refl ltac:(vm_compute; reflexivity)
                  ltac:(vm_compute; discriminate))
        as [Hrun _]
  end.
  destruct (Hrun eq_refl) as (n & Hle & Hgo & Hstop & Hv & _).
  exists n. split; [exact Hle|].
  assert (Hn : n = 1%nat).
  { destruct n as [|[|n]]; [| reflexivity |].
    - specialize (Hstop (le_0_n _)). vm_compute in Hstop. discriminate.
    - specialize (Hgo 1%nat ltac:(lia)). vm_compute in Hgo. discriminate. }
  split.
  - apply Hstop. lia.
  - rewrite Hv, Hn. reflexivity.
Defined.

(** Three violating records on metal 1, each one diode short.  The record
    of [u1/A] is repaired first and marks [u1/A] and [u2/A]; the record of
    [u2/A] is skipped; the record of [u3/A] is repaired and lists [u1/A]
    again.  Two Violations for three records, and [u1/A] is in both. *)
Lemma shared_gate_two_violations :
  ~ one_violation_per_gate_layer s5_tech 10 shared_gate_checker s5_diode 0.
Proof.
  intro H.
  assert (Hrec : exists lm it,
             In ("u1/A"%string, lm) (info_ shared_gate_checker) /\ In it lm
             /\ fst it = M1
             /\ needs_diodes s5_tech (layer_info_ shared_gate_checker) 0 s5_diode 10 it
                = true).
  { eexists. eexists. split; [vm_compute; left; reflexivity|].
    split; [left; reflexivity|]. split; vm_compute; reflexivity. }
  destruct Hrec as (lm & it & Hin & Hit & Hl & Hneeds).
  specialize (H "u1/A"%string lm it Hin Hit Hneeds). rewrite Hl in H.
  vm_compute in H. discriminate.
Qed.

Lemma shared_gate_violation_list :
  map (fun v => (routing_level v, map getName (violation_gates v),
                 diode_count_per_gate v))
      (antenna_violations_
         (snd (checkInfo s5_tech 10 shared_gate_checker false false (Some s5_diode) 0)))
  = [(1%nat, ["u1/A"%string; "u2/A"%string], 1%nat);
     (1%nat, ["u3/A"%string; "u1/A"%string], 1%nat)]
  /\ length (filter (needs_diodes s5_tech (layer_info_ shared_gate_checker) 0
                                  s5_diode 10)
                    (flat_map snd (info_ shared_gate_checker)))
     = 3%nat.
Proof. split; vm_compute; reflexivity. Qed.

(** ** The layered graph *)

Section GraphFacts.
Context {Polygon : Type} {gtl : Gtl Polygon}.
Variable tech : Tech.

Lemma nodes_at_set_nodes (m : NodeMap Polygon) (l l' : Layer)
      (ns : list (GraphNode Polygon)) :
  nodes_at (set_nodes m l ns) l' = if Nat.eqb l l' then ns else nodes_at m l'.
Proof.
  induction m as [|[k old] rest IH].
  - cbn. destruct (Nat.eqb l l'); reflexivity.
  - cbn [set_nodes]. destruct (Nat.eqb_spec k l) as [->|Hkl].
    + cbn [nodes_at]. destruct (Nat.eqb l l'); reflexivity.
    + cbn [nodes_at]. rewrite IH.
      destruct (Nat.eqb_spec k l') as [->|_]; [|reflexivity].
      destruct (Nat.eqb_spec l l') as [->|_]; [contradiction|reflexivity].
Qed.

Lemma node_grows_refl (n : GraphNode Polygon) : node_grows n n.
Proof. repeat split. apply incl_refl. Qed.

Lemma node_grows_trans (a b c : GraphNode Polygon) :
  node_grows a b -> node_grows b c -> node_grows a c.
Proof.
  intros (P1 & V1 & I1) (P2 & V2 & I2).
  repeat split; try congruence. eapply incl_tran; eassumption.
Qed.

Lemma nodes_grow_refl (ns : list (GraphNode Polygon)) : Forall2 node_grows ns ns.
Proof. induction ns; constructor; [apply node_grows_refl|assumption]. Qed.

Lemma nodes_grow_trans (a b c : list (GraphNode Polygon)) :
  Forall2 node_grows a b -> Forall2 node_grows b c -> Forall2 node_grows a c.
Proof.
  intro H. revert c. induction H as [|x y xs ys Hxy H IH]; intros c Hc.
  - inversion Hc. constructor.
  - inversion Hc as [|y' z ys' zs Hyz Hrest]; subst. constructor.
    + eapply node_grows_trans; eassumption.
    + apply IH. assumption.
Qed.

Lemma graph_grows_refl (m : NodeMap Polygon) : graph_grows m m.
Proof. intro l. apply nodes_grow_refl. Qed.

Lemma graph_grows_trans (a b c : NodeMap Polygon) :
  graph_grows a b -> graph_grows b c -> graph_grows a c.
Proof. intros H1 H2 l. eapply nodes_grow_trans; [apply H1|apply H2]. Qed.

Lemma update_nth_grows (i v : nat) (ns : list (GraphNode Polygon)) :
  Forall2 node_grows ns (update_nth i (add_low_adj v) ns).
Proof.
  revert i. induction ns as [|n rest IH]; intros [|i]; cbn [update_nth];
    try constructor; try apply nodes_grow_refl; try apply node_grows_refl;
    try apply IH.
  repeat split. cbn. apply incl_appl, incl_refl.
Qed.

Lemma update_nth_has (i v : nat) (ns : list (GraphNode Polygon)) :
  (i < length ns)%nat ->
  exists node, nth_error (update_nth i (add_low_adj v) ns) i = Some node
               /\ In v (low_adj node).
Proof.
  revert i. induction ns as [|n rest IH]; intros [|i] Hi; cbn in Hi; try lia.
  - exists (add_low_adj v n). split; [reflexivity|].
    cbn. apply in_or_app. right. left. reflexivity.
  - cbn [update_nth nth_error]. apply IH. lia.
Qed.

Lemma push_low_adj_grows (m : NodeMap Polygon) (l : Layer) (i v : nat) :
  graph_grows m (push_low_adj m l i v).
Proof.
  intro l'. unfold push_low_adj. rewrite nodes_at_set_nodes.
  destruct (Nat.eqb_spec l l') as [->|_].
  - apply update_nth_grows.
  - apply nodes_grow_refl.
Qed.

Lemma push_low_adj_has (m : NodeMap Polygon) (l : Layer) (i v : nat) :
  (i < length (nodes_at m l))%nat -> points_down (push_low_adj m l i v) l i v.
Proof.
  intro Hi. unfold points_down, push_low_adj.
  rewrite nodes_at_set_nodes, Nat.eqb_refl. apply update_nth_has. exact Hi.
Qed.

Lemma graph_grows_length (m m' : NodeMap Polygon) (l : Layer) :
  graph_grows m m' -> length (nodes_at m l) = length (nodes_at m' l).
Proof. intro H. apply (Forall2_length (H l)). Qed.

Lemma nodes_grow_nth (ns ns' : list (GraphNode Polygon)) :
  Forall2 node_grows ns ns' ->
  forall i n, nth_error ns i = Some n ->
  exists n', nth_error ns' i = Some n' /\ node_grows n n'.
Proof.
  intro H. induction H as [|x y xs ys Hxy H IH]; intros [|i] n Hn; cbn in Hn;
    try discriminate.
  - injection Hn as <-. exists y. split; [reflexivity|exact Hxy].
  - apply IH. exact Hn.
Qed.

Lemma points_down_grows (m m' : NodeMap Polygon) (l : Layer) (i v : nat) :
  graph_grows m m' -> points_down m l i v -> points_down m' l i v.
Proof.
  intros Hg (n & Hn & Hv).
  destruct (nodes_grow_nth _ _ (Hg l) i n Hn) as (n' & Hn' & _ & _ & Hincl).
  exists n'. split; [exact Hn'|apply Hincl; exact Hv].
Qed.

(** The search only reads the polygons of the nodes. *)
Lemma findNodes_loop_grows (ns ns' : list (GraphNode Polygon)) :
  Forall2 node_grows ns ns' ->
  forall objs last_size index ids,
  findNodes_loop ns objs last_size index ids
  = findNodes_loop ns' objs last_size index ids.
Proof.
  intro H. induction H as [|x y xs ys (Hp & _) H IH]; intros objs last_size index ids.
  - reflexivity.
  - cbn [findNodes_loop]. rewrite Hp. apply IH.
Qed.

Lemma findNodes_grows (m m' : NodeMap Polygon) (l : option Layer) (p : Polygon) :
  graph_grows m m' ->
  findNodesWithIntersection (nodes_at_opt m l) p
  = findNodesWithIntersection (nodes_at_opt m' l) p.
Proof.
  intro H. unfold findNodesWithIntersection. apply findNodes_loop_grows.
  destruct l as [l|]; [apply H|constructor].
Qed.

(** The search returns indices of the nodes it was given. *)
Lemma findNodes_loop_bound (ns : list (GraphNode Polygon)) :
  forall objs last_size index ids,
  (forall u, In u ids -> (u < index)%nat) ->
  forall u, In u (findNodes_loop ns objs last_size index ids) ->
            (u < index + length ns)%nat.
Proof.
  induction ns as [|n rest IH]; intros objs last_size index ids Hids u Hu.
  - cbn in Hu. specialize (Hids u Hu). cbn. lia.
  - cbn [findNodes_loop] in Hu. cbn [length].
    replace (index + S (length rest))%nat with (S index + length rest)%nat by lia.
    eapply IH; [|exact Hu].
    intros u' Hu'. destruct (Nat.eqb last_size _).
    + apply in_app_or in Hu'. destruct Hu' as [Hu'|[<-|[]]]; [|lia].
      specialize (Hids u' Hu'). lia.
    + specialize (Hids u' Hu'). lia.
Qed.

Lemma findNodes_bound (ns : list (GraphNode Polygon)) (p : Polygon) (u : nat) :
  In u (findNodesWithIntersection ns p) -> (u < length ns)%nat.
Proof.
  intro Hu. apply (findNodes_loop_bound ns _ _ 0 [] (fun u H => match H with end) u Hu).
Qed.

End GraphFacts.

Section Connections.
Context {Polygon : Type} {gtl : Gtl Polygon}.
Variable tech : Tech.

Lemma push_upper_fold (ul : option Layer) (via_index : nat) (us : list nat) :
  forall m : NodeMap Polygon,
  graph_grows m (fold_left (fun m up_index =>
                              push_low_adj_opt m ul up_index via_index) us m)
  /\ forall u l, In u us -> ul = Some l -> (u < length (nodes_at m l))%nat ->
       points_down (fold_left (fun m up_index =>
                                 push_low_adj_opt m ul up_index via_index) us m)
                   l u via_index.
Proof.
  induction us as [|u0 rest IH]; intro m; cbn [fold_left].
  - split; [apply graph_grows_refl|intros u l []].
  - destruct (IH (push_low_adj_opt m ul u0 via_index)) as [Hg Hp].
    assert (Hstep : graph_grows m (push_low_adj_opt m ul u0 via_index)).
    { destruct ul as [l|]; [apply push_low_adj_grows|apply graph_grows_refl]. }
    split; [eapply graph_grows_trans; eassumption|].
    intros u l [<-|Hin] Hul Hlt.
    + subst ul. cbn [push_low_adj_opt] in *.
      eapply points_down_grows; [exact Hg|]. apply push_low_adj_has. exact Hlt.
    + apply Hp; [exact Hin|exact Hul|].
      rewrite <- (graph_grows_length _ _ l Hstep). exact Hlt.
Qed.

Lemma push_lower_fold (via_layer : Layer) (via_index : nat) (ws : list nat) :
  forall m : NodeMap Polygon,
  graph_grows m (fold_left (fun m low_index =>
                              push_low_adj m via_layer via_index low_index) ws m)
  /\ ((via_index < length (nodes_at m via_layer))%nat ->
      forall w, In w ws ->
        points_down (fold_left (fun m low_index =>
                                  push_low_adj m via_layer via_index low_index) ws m)
                    via_layer via_index w).
Proof.
  induction ws as [|w0 rest IH]; intro m; cbn [fold_left].
  - split; [apply graph_grows_refl|intros _ w []].
  - destruct (IH (push_low_adj m via_layer via_index w0)) as [Hg Hp].
    pose proof (push_low_adj_grows m via_layer via_index w0) as Hstep.
    split; [eapply graph_grows_trans; eassumption|].
    intros Hlt w [<-|Hin].
    + eapply points_down_grows; [exact Hg|]. apply push_low_adj_has. exact Hlt.
    + apply Hp; [|exact Hin].
      rewrite <- (graph_grows_length _ _ via_layer Hstep). exact Hlt.
Qed.

(** The connections of one via: what is stored and what is logged. *)
Lemma connect_via_spec (via_layer : Layer) (via_index : nat) (via_it : Polygon)
      (m : NodeMap Polygon) (lg : list LogEvent) :
  let upper_index :=
    findNodesWithIntersection (nodes_at_opt m (getUpperLayer tech via_layer)) via_it in
  let lower_index :=
    findNodesWithIntersection (nodes_at_opt m (getLowerLayer tech via_layer)) via_it in
  let acc := connect_via tech via_layer via_index via_it (m, lg) in
  run_grows (m, lg) acc
  /\ ((length upper_index <= 2)%nat ->
      forall u, In u upper_index ->
        exists ul, getUpperLayer tech via_layer = Some ul
                   /\ points_down (fst acc) ul u via_index)
  /\ (length lower_index = 1%nat ->
      (via_index < length (nodes_at m via_layer))%nat ->
      forall w, In w lower_index -> points_down (fst acc) via_layer via_index w)
  /\ ((2 < length upper_index)%nat -> In (Error_via_upper via_layer) (snd acc))
  /\ ((2 < length lower_index)%nat -> In (Error_via_lower via_layer) (snd acc)).
Proof.
  cbn zeta. unfold connect_via.
  set (upper_index :=
         findNodesWithIntersection (nodes_at_opt m (getUpperLayer tech via_layer)) via_it).
  set (lower_index :=
         findNodesWithIntersection (nodes_at_opt m (getLowerLayer tech via_layer)) via_it).
  destruct (push_upper_fold (getUpperLayer tech via_layer) via_index upper_index m)
    as [Hug Hup].
  set (m1 := fold_left (fun m up_index =>
                          push_low_adj_opt m (getUpperLayer tech via_layer)
                                           up_index via_index) upper_index m) in *.
  assert (Hbound : forall u, In u upper_index ->
            exists ul, getUpperLayer tech via_layer = Some ul
                       /\ (u < length (nodes_at m ul))%nat).
  { intros u Hu. apply findNodes_bound in Hu.
    destruct (getUpperLayer tech via_layer) as [ul|]; [|cbn in Hu; lia].
    exists ul. split; [reflexivity|exact Hu]. }
  destruct (Nat.leb_spec (length upper_index) 2) as [Hu2|Hu2].
  - destruct (push_lower_fold via_layer via_index lower_index m1) as [Hlg Hlp].
    destruct (Nat.eqb_spec (length lower_index) 1) as [Hl1|Hl1]; cbn [fst snd].
    + split; [split; [eapply graph_grows_trans; eassumption
                     |exists []; rewrite app_nil_r; reflexivity]|].
      split; [|split; [|split; intro; lia]].
      * intros _ u Hu. destruct (Hbound u Hu) as (ul & Hul & Hlt).
        exists ul. split; [exact Hul|].
        eapply points_down_grows; [exact Hlg|]. apply Hup; assumption.
      * intros _ Hlt w Hw. apply Hlp; [|exact Hw].
        rewrite <- (graph_grows_length _ _ via_layer Hug). exact Hlt.
    + destruct (Nat.ltb_spec 2 (length lower_index)) as [Hl2|Hl2]; cbn [fst snd].
      * split; [split; [exact Hug|eexists; reflexivity]|].
        split; [|split; [intro; lia|split; [intro; lia|]]].
        -- intros _ u Hu. destruct (Hbound u Hu) as (ul & Hul & Hlt).
           exists ul. split; [exact Hul|]. apply Hup; assumption.
        -- intros _. apply in_or_app. right. left. reflexivity.
      * split; [split; [exact Hug|exists []; rewrite app_nil_r; reflexivity]|].
        split; [|split; [intro; lia|split; intro; lia]].
        intros _ u Hu. destruct (Hbound u Hu) as (ul & Hul & Hlt).
        exists ul. split; [exact Hul|]. apply Hup; assumption.
  - destruct (Nat.ltb_spec 2 (length upper_index)) as [_|Hn]; [|lia].
    destruct (push_lower_fold via_layer via_index lower_index m) as [Hlg Hlp].
    destruct (Nat.eqb_spec (length lower_index) 1) as [Hl1|Hl1]; cbn [fst snd].
    + split; [split; [exact Hlg|eexists; reflexivity]|].
      split; [intro; lia|]. split; [|split; [|intro; lia]].
      * intros _ Hlt w Hw. apply Hlp; assumption.
      * intros _. apply in_or_app. right. left. reflexivity.
    + destruct (Nat.ltb_spec 2 (length lower_index)) as [Hl2|Hl2]; cbn [fst snd].
      * split; [split; [apply graph_grows_refl
                       |exists [Error_via_upper via_layer; Error_via_lower via_layer];
                        rewrite <- app_assoc; reflexivity]|].
        split; [intro; lia|]. split; [intro; lia|]. split; intros _.
        -- apply in_or_app. left. apply in_or_app. right. left. reflexivity.
        -- apply in_or_app. right. left. reflexivity.
      * split; [split; [apply graph_grows_refl|eexists; reflexivity]|].
        split; [intro; lia|]. split; [intro; lia|]. split; [|intro; lia].
        intros _. apply in_or_app. right. left. reflexivity.
Qed.

Lemma run_grows_refl (a : NodeMap Polygon * list LogEvent) : run_grows a a.
Proof. split; [apply graph_grows_refl|exists []; rewrite app_nil_r; reflexivity]. Qed.

Lemma run_grows_trans (a b c : NodeMap Polygon * list LogEvent) :
  run_grows a b -> run_grows b c -> run_grows a c.
Proof.
  intros [G1 (e1 & E1)] [G2 (e2 & E2)]. split.
  - eapply graph_grows_trans; eassumption.
  - exists (e1 ++ e2). rewrite E2, E1, app_assoc. reflexivity.
Qed.

Lemma connect_vias_grows (via_layer : Layer) (vias : list Polygon) :
  forall via_index acc,
  run_grows acc (connect_vias tech via_layer via_index vias acc).
Proof.
  induction vias as [|v rest IH]; intros via_index acc; cbn [connect_vias].
  - apply run_grows_refl.
  - eapply run_grows_trans; [|apply IH].
    destruct acc as [m lg]. apply (connect_via_spec via_layer via_index v m lg).
Qed.

Lemma connect_layers_grows (s : list (Layer * list Polygon)) :
  forall acc, run_grows acc (fold_left (connect_layer tech) s acc).
Proof.
  induction s as [|it rest IH]; intro acc; cbn [fold_left].
  - apply run_grows_refl.
  - eapply run_grows_trans; [|apply IH]. unfold connect_layer.
    destruct (Nat.eqb (routingLevel tech (fst it)) 0);
      [apply connect_vias_grows|apply run_grows_refl].
Qed.

Lemma connect_layer_via (acc : NodeMap Polygon * list LogEvent)
      (via_layer : Layer) (vias : list Polygon) :
  routingLevel tech via_layer = 0%nat ->
  connect_layer tech acc (via_layer, vias) = connect_vias tech via_layer 0 vias acc.
Proof.
  intro H. unfold connect_layer. cbn [fst snd]. rewrite H. reflexivity.
Qed.

Lemma connect_vias_app (via_layer : Layer) (a b : list Polygon) :
  forall via_index acc,
  connect_vias tech via_layer via_index (a ++ b) acc
  = connect_vias tech via_layer (via_index + length a) b
                 (connect_vias tech via_layer via_index a acc).
Proof.
  induction a as [|v rest IH]; intros via_index acc; cbn [app connect_vias length].
  - replace (via_index + 0)%nat with via_index by lia. reflexivity.
  - rewrite IH. replace (S via_index + length rest)%nat
      with (via_index + S (length rest))%nat by lia. reflexivity.
Qed.

End Connections.

Section InitNodes.
Context {Polygon : Type} {gtl : Gtl Polygon}.
Variable tech : Tech.

Lemma add_nodes_shape (l : Layer) (pols : list Polygon) :
  forall (m : NodeMap Polygon) (c : nat) (l' : Layer),
  map pol (nodes_at (fst (fold_left (add_node tech l) pols (m, c))) l')
  = map pol (nodes_at m l') ++ (if Nat.eqb l l' then pols else []).
Proof.
  induction pols as [|p rest IH]; intros m c l'; cbn [fold_left].
  - cbn. destruct (Nat.eqb l l'); rewrite app_nil_r; reflexivity.
  - cbn [add_node]. rewrite IH, nodes_at_set_nodes.
    destruct (Nat.eqb_spec l l') as [->|_].
    + rewrite map_app, <- app_assoc. reflexivity.
    + reflexivity.
Qed.

Lemma init_nodes_shape (s : list (Layer * list Polygon)) :
  forall (m : NodeMap Polygon) (c : nat) (l' : Layer),
  map pol (nodes_at (fst (fold_left (add_layer_nodes tech) s (m, c))) l')
  = map pol (nodes_at m l') ++ pols_of s l'.
Proof.
  induction s as [|[k ps] rest IH]; intros m c l'; cbn [fold_left].
  - cbn. rewrite app_nil_r. reflexivity.
  - unfold add_layer_nodes at 2. cbn [fst snd].
    destruct (fold_left (add_node tech k) ps (m, c)) as [m1 c1] eqn:E.
    rewrite IH.
    pose proof (add_nodes_shape k ps m c l') as H. rewrite E in H. cbn [fst] in H.
    rewrite H, <- app_assoc. reflexivity.
Qed.

Lemma pols_of_absent (s : list (Layer * list Polygon)) (l : Layer) :
  ~ In l (map fst s) -> pols_of s l = [].
Proof.
  induction s as [|[k ps] rest IH]; intro H; [reflexivity|].
  cbn [pols_of flat_map fst snd]. destruct (Nat.eqb_spec k l) as [->|_].
  - exfalso. apply H. left. reflexivity.
  - apply IH. intro Hin. apply H. right. exact Hin.
Qed.

Lemma pols_of_unique (s : list (Layer * list Polygon)) (l : Layer) (ps : list Polygon) :
  NoDup (map fst s) -> In (l, ps) s -> pols_of s l = ps.
Proof.
  induction s as [|[k qs] rest IH]; intros Hnd Hin; [destruct Hin|].
  cbn [map fst] in Hnd. apply NoDup_cons_iff in Hnd. destruct Hnd as [Hk Hnd].
  cbn [pols_of flat_map fst snd]. destruct Hin as [E|Hin].
  - injection E as -> ->. rewrite Nat.eqb_refl.
    fold (pols_of rest l). rewrite (pols_of_absent rest l Hk). apply app_nil_r.
  - destruct (Nat.eqb_spec k l) as [->|_].
    + exfalso. apply Hk. apply in_map_iff. exists (l, ps). split; [reflexivity|exact Hin].
    + apply IH; assumption.
Qed.

(** With one polygon set per layer, the nodes of a layer are its polygons in
    order. *)
Lemma init_nodes_pols (s : list (Layer * list Polygon)) (l : Layer) (ps : list Polygon) :
  NoDup (map fst s) -> In (l, ps) s ->
  map pol (nodes_at (fst (init_nodes tech s)) l) = ps.
Proof.
  intros Hnd Hin. unfold init_nodes. rewrite init_nodes_shape.
  cbn [nodes_at map app]. apply pols_of_unique; assumption.
Qed.

End InitNodes.

(** What the two guards of [buildLayerMaps] store and log.  For a via
    island, the islands of the layer above and of the layer below that
    intersect it are searched.  Every island found above points down to the
    via when at most two were found; the island found below is among the
    lower neighbours of the via when exactly one was found; more than two
    on a side is logged as an error for that side, and the run goes on to
    the end in every case. *)
Lemma buildLayerMaps_stores_found {Polygon : Type} {gtl : Gtl Polygon}
        (tech : Tech) (set_by_layer : list (Layer * list Polygon))
        (via_layer : Layer) (vias : list Polygon) (via_index : nat)
        (via_it : Polygon) :
  NoDup (map fst set_by_layer) ->
  In (via_layer, vias) set_by_layer ->
  routingLevel tech via_layer = 0%nat ->
  nth_error vias via_index = Some via_it ->
  let m0 := fst (init_nodes tech set_by_layer) in
  let upper_index :=
    findNodesWithIntersection (nodes_at_opt m0 (getUpperLayer tech via_layer)) via_it in
  let lower_index :=
    findNodesWithIntersection (nodes_at_opt m0 (getLowerLayer tech via_layer)) via_it in
  let m := fst (buildLayerMaps tech set_by_layer) in
  let lg := snd (buildLayerMaps tech set_by_layer) in
  (exists node, nth_error (nodes_at m via_layer) via_index = Some node
                /\ pol node = via_it)
  /\ ((length upper_index <= 2)%nat ->
      forall u, In u upper_index ->
        exists ul, getUpperLayer tech via_layer = Some ul
                   /\ points_down m ul u via_index)
  /\ (length lower_index = 1%nat ->
      forall w, In w lower_index -> points_down m via_layer via_index w)
  /\ ((2 < length upper_index)%nat -> In (Error_via_upper via_layer) lg)
  /\ ((2 < length lower_index)%nat -> In (Error_via_lower via_layer) lg).
Proof.
  intros Hnd Hin Hlevel Hnth. cbn zeta. unfold buildLayerMaps.
  set (m0 := fst (init_nodes tech set_by_layer)).
  destruct (in_split _ _ Hin) as (s1 & s2 & Hs).
  destruct (nth_error_split _ _ Hnth) as (v1 & v2 & Hv & Hlen).
  assert (Hfold : fold_left (connect_layer tech) set_by_layer (m0, [])
                  = fold_left (connect_layer tech) s2
                      (connect_vias tech via_layer (S via_index) v2
                         (connect_via tech via_layer via_index via_it
                            (connect_vias tech via_layer 0 v1
                               (fold_left (connect_layer tech) s1 (m0, [])))))).
  { rewrite Hs at 1. rewrite fold_left_app. cbn [fold_left]. f_equal.
    rewrite (connect_layer_via tech _ via_layer vias Hlevel).
    rewrite Hv, connect_vias_app. cbn [connect_vias]. rewrite Hlen. reflexivity. }
  rewrite Hfold. clear Hfold.
  set (acc1 := connect_vias tech via_layer 0 v1
                 (fold_left (connect_layer tech) s1 (m0, []))).
  assert (H01 : run_grows (m0, []) acc1).
  { eapply run_grows_trans; [apply connect_layers_grows|apply connect_vias_grows]. }
  destruct acc1 as [m1 lg1] eqn:E1. destruct H01 as [G01 _]. cbn [fst] in G01.
  pose proof (connect_via_spec tech via_layer via_index via_it m1 lg1) as Hvia.
  cbn zeta in Hvia.
  rewrite <- !(findNodes_grows m0 m1 _ via_it G01) in Hvia.
  set (acc2 := connect_via tech via_layer via_index via_it (m1, lg1)) in *.
  destruct Hvia as (G12 & Hup & Hlow & Heu & Hel).
  set (acc3 := fold_left (connect_layer tech) s2
                 (connect_vias tech via_layer (S via_index) v2 acc2)).
  assert (H23 : run_grows acc2 acc3).
  { eapply run_grows_trans; [apply connect_vias_grows|apply connect_layers_grows]. }
  destruct H23 as [G23 (extra & Hextra)].
  assert (Hnode0 : exists n0, nth_error (nodes_at m0 via_layer) via_index = Some n0
                              /\ pol n0 = via_it).
  { pose proof (init_nodes_pols tech set_by_layer via_layer vias Hnd Hin) as Hp.
    fold m0 in Hp. rewrite <- Hp in Hnth.
    rewrite nth_error_map in Hnth.
    destruct (nth_error (nodes_at m0 via_layer) via_index) as [n0|]; [|discriminate].
    injection Hnth as Hnth. exists n0. split; [reflexivity|exact Hnth]. }
  destruct Hnode0 as (n0 & Hn0 & Hpol0).
  assert (G03 : graph_grows m0 (fst acc3)).
  { eapply graph_grows_trans; [exact G01|].
    eapply graph_grows_trans; [apply G12|exact G23]. }
  split; [|split; [|split; [|split]]].
  - destruct (nodes_grow_nth _ _ (G03 via_layer) via_index n0 Hn0)
      as (n3 & Hn3 & Hp3 & _).
    exists n3. split; [exact Hn3|congruence].
  - intros Hle u Hu. destruct (Hup Hle u Hu) as (ul & Hul & Hpd).
    exists ul. split; [exact Hul|]. eapply points_down_grows; [exact G23|exact Hpd].
  - intros Hone w Hw. eapply points_down_grows; [exact G23|].
    apply Hlow; [exact Hone| |exact Hw].
    rewrite <- (graph_grows_length _ _ via_layer G01).
    apply nth_error_Some. rewrite Hn0. discriminate.
  - intro H. rewrite Hextra. apply in_or_app. left. apply Heu. exact H.
  - intro H. rewrite Hextra. apply in_or_app. left. apply Hel. exact H.
Qed.

(** One via between one island below and one above: the island above
    points down to the via and the via to the island below. *)
Lemma one_via_connected :
  points_down (fst (buildLayerMaps (s2_tech 0) one_via_set)) M2 0 0
  /\ points_down (fst (buildLayerMaps (s2_tech 0) one_via_set)) V1 0 0.
Proof.
  destruct (buildLayerMaps_stores_found (s2_tech 0) one_via_set V1 [mk_strip 4 8] 0
              (mk_strip 4 8)
              ltac:(repeat constructor; simpl; intuition discriminate)
              ltac:(simpl; auto) eq_refl eq_refl)
    as (_ & Hup & Hlow & _).
  split.
  - destruct (Hup ltac:(vm_compute; lia) 0%nat ltac:(vm_compute; auto))
      as (ul & Hul & Hpd).
    vm_compute in Hul. injection Hul as <-. exact Hpd.
  - apply (Hlow ltac:(vm_compute; reflexivity) 0%nat ltac:(vm_compute; auto)).
Qed.

(** A via under three islands of metal 2: the three intersect it, the error
    is logged and none of them points down to the via. *)
Lemma three_upper_islands_logged :
  findNodesWithIntersection
    (nodes_at (fst (init_nodes (s2_tech 0) three_upper_set)) M2) (mk_strip 4 8)
  = [0%nat; 1%nat; 2%nat]
  /\ snd (buildLayerMaps (s2_tech 0) three_upper_set) = [Error_via_upper V1]
  /\ (forall u, ~ points_down (fst (buildLayerMaps (s2_tech 0) three_upper_set))
                              M2 u 0).
Proof.
  split; [vm_compute; reflexivity|]. split; [vm_compute; reflexivity|].
  intros u (node & Hnode & Hin).
  destruct u as [|[|[|u]]];
    [| | |vm_compute in Hnode; destruct u; discriminate Hnode];
    vm_compute in Hnode; injection Hnode as <-; exact Hin.
Qed.

(** C9. The failing input: a via over two islands of metal 1.
    [findNodesWithIntersection] finds both, but the guard of the lower side
    stores a neighbour only when exactly one was found and logs only above
    two: the via gets no lower neighbour and nothing is logged.  The guard
    of the upper side stores up to two: with two islands of metal 2 over
    the via, both point down to it. *)
Theorem two_lower_islands_dropped :
  findNodesWithIntersection
    (nodes_at (fst (init_nodes (s2_tech 0) two_lower_set)) M1) (mk_strip 4 8)
  = [0%nat; 1%nat]
  /\ (forall w, ~ points_down (fst (buildLayerMaps (s2_tech 0) two_lower_set)) V1 0 w)
  /\ snd (buildLayerMaps (s2_tech 0) two_lower_set) = []
  /\ findNodesWithIntersection
       (nodes_at (fst (init_nodes (s2_tech 0) two_upper_set)) M2) (mk_strip 4 8)
     = [0%nat; 1%nat]
  /\ points_down (fst (buildLayerMaps (s2_tech 0) two_upper_set)) M2 0 0
  /\ points_down (fst (buildLayerMaps (s2_tech 0) two_upper_set)) M2 1 0
  /\ snd (buildLayerMaps (s2_tech 0) two_upper_set) = [].
Proof.
  split; [vm_compute; reflexivity|]. split; [|split; [vm_compute; reflexivity|]].
  - intros w (node & Hnode & Hin).
    vm_compute in Hnode. injection Hnode as <-. exact Hin.
  - split; [vm_compute; reflexivity|].
    split; [|split; [|vm_compute; reflexivity]];
      (eexists; split; [vm_compute; reflexivity|left; reflexivity]).
Qed.

(** * Further properties of the checker *)

(** ** The RuleStore covers the technology *)

Lemma initAntennaRules_from_keys (tech : Tech) : forall pos,
  map fst (fst (initAntennaRules_from tech pos)) = seq pos (length tech).
Proof.
  induction tech as [|t rest IH]; intro pos; cbn [initAntennaRules_from].
  - reflexivity.
  - destruct (initAntennaRule pos t) as [m w].
    specialize (IH (S pos)).
    destruct (initAntennaRules_from rest (S pos)) as [ms ws].
    cbn in *. f_equal. exact IH.
Qed.

Lemma layer_info_at_absent (layer_info : LayerInfo) (l : Layer) :
  ~ In l (map fst layer_info) -> layer_info_at layer_info l = zero_model.
Proof.
  induction layer_info as [|[k m] rest IH]; cbn; intro H; [reflexivity|].
  destruct (Nat.eqb k l) eqn:E.
  - apply Nat.eqb_eq in E. exfalso. apply H. now left.
  - apply IH. intro Hin. apply H. now right.
Qed.

(** X1. [initAntennaRules] stores one model for each layer of the
    technology, in stack order.  The model of a layer names that layer and
    has reduce factor 1; with a rule its minus-diff and plus-diff factors are
    the ones of the rule, and without a rule it is the default model (all
    factors 1, minus-diff and plus-diff 0).  A layer outside the technology
    reads as the zero model. *)
Theorem initAntennaRules_covers_layers (tech : Tech) (l : Layer) :
  map fst (fst (initAntennaRules tech)) = seq 0 (length tech)
  /\ ((l < length tech)%nat ->
      let am := layer_info_at (fst (initAntennaRules tech)) l in
      am_layer am = Some l
      /\ diff_metal_reduce_factor am = 1
      /\ match getDefaultAntennaRule (layer_at tech l) with
         | Some antenna_rule =>
             minus_diff_factor am = getAreaMinusDiffFactor antenna_rule
             /\ plus_diff_factor am = getGatePlusDiffFactor antenna_rule
         | None => am = mk_model (Some l) 1 1 1 1 1 1 0 0 1
         end)
  /\ ((length tech <= l)%nat ->
      layer_info_at (fst (initAntennaRules tech)) l = zero_model).
Proof.
  split; [apply initAntennaRules_from_keys|]. split.
  - intros Hl am. subst am. rewrite (initAntennaRules_at tech l Hl).
    unfold initAntennaRule.
    destruct (getDefaultAntennaRule (layer_at tech l)) as [antenna_rule|].
    + destruct (isAreaFactorDiffUseOnly antenna_rule),
               (isSideAreaFactorDiffUseOnly antenna_rule);
        cbn; repeat split; reflexivity.
    + cbn. repeat split; reflexivity.
  - intro Hl. apply layer_info_at_absent.
    unfold initAntennaRules. rewrite initAntennaRules_from_keys.
    rewrite in_seq. lia.
Qed.

Lemma initAntennaRules_covers_layers_witness :
  layer_info_at (fst (initAntennaRules (s2_tech 0))) V1
  = mk_model (Some V1) 1 1 1 1 1 1 0 0 1
  /\ layer_info_at (fst (initAntennaRules (s2_tech 0))) 3%nat = zero_model.
Proof.
  destruct (initAntennaRules_covers_layers (s2_tech 0) 3%nat) as (_ & _ & H3).
  split; [vm_compute; reflexivity|].
  apply H3. simpl. lia.
Defined.

Lemma initAntennaRule_snd (l : Layer) (tech_layer : dbTechLayer) :
  snd (initAntennaRule l tech_layer)
  = match getDefaultAntennaRule tech_layer with
    | Some antenna_rule =>
        if (Qneb (getPSR antenna_rule) 0
            || negb (Nat.eqb (length (indices (getDiffPSR antenna_rule))) 0))
           && match getType tech_layer with ROUTING => true | _ => false end
           && Z.eqb (getThickness tech_layer) 0
        then [Warn13_no_thickness l] else []
    | None => []
    end.
Proof.
  unfold initAntennaRule.
  destruct (getDefaultAntennaRule tech_layer) as [antenna_rule|]; [|reflexivity].
  destruct (isAreaFactorDiffUseOnly antenna_rule),
           (isSideAreaFactorDiffUseOnly antenna_rule); reflexivity.
Qed.

Lemma initAntennaRule_log (l : Layer) (tech_layer : dbTechLayer) (e : LogEvent) :
  In e (snd (initAntennaRule l tech_layer))
  <-> exists antenna_rule,
        e = Warn13_no_thickness l
        /\ getDefaultAntennaRule tech_layer = Some antenna_rule
        /\ (~ getPSR antenna_rule == 0 \/ indices (getDiffPSR antenna_rule) <> [])
        /\ getType tech_layer = ROUTING
        /\ getThickness tech_layer = 0%Z.
Proof.
  rewrite initAntennaRule_snd.
  destruct (getDefaultAntennaRule tech_layer) as [antenna_rule|].
  - assert (Hc : (Qneb (getPSR antenna_rule) 0
                  || negb (Nat.eqb (length (indices (getDiffPSR antenna_rule))) 0))
                 && match getType tech_layer with ROUTING => true | _ => false end
                 && Z.eqb (getThickness tech_layer) 0 = true
                 <-> (~ getPSR antenna_rule == 0
                      \/ indices (getDiffPSR antenna_rule) <> [])
                     /\ getType tech_layer = ROUTING
                     /\ getThickness tech_layer = 0%Z).
    { rewrite !andb_true_iff, orb_true_iff, Qneb_true, Z.eqb_eq, negb_true_iff,
        Nat.eqb_neq.
      assert (Hlen : length (indices (getDiffPSR antenna_rule)) <> 0%nat
                     <-> indices (getDiffPSR antenna_rule) <> []).
      { destruct (indices (getDiffPSR antenna_rule)); cbn; split; intro H;
          congruence. }
      rewrite Hlen.
      assert (Hty : match getType tech_layer with ROUTING => true | _ => false end
                    = true <-> getType tech_layer = ROUTING).
      { destruct (getType tech_layer); split; intro H; congruence. }
      rewrite Hty. tauto. }
    destruct ((Qneb (getPSR antenna_rule) 0
               || negb (Nat.eqb (length (indices (getDiffPSR antenna_rule))) 0))
              && match getType tech_layer with ROUTING => true | _ => false end
              && Z.eqb (getThickness tech_layer) 0) eqn:E.
    + split.
      * intros [H|[]]. exists antenna_rule. split; [now symmetry|].
        split; [reflexivity|]. now apply Hc.
      * intros (r & He & _). left. now symmetry.
    + split; [intros []|]. intros (r & _ & Hr & H). injection Hr as <-.
      apply Hc in H. discriminate H.
  - split; [intros []|]. intros (r & _ & Hr & _). discriminate Hr.
Qed.

Lemma initAntennaRules_from_log (tech : Tech) (e : LogEvent) : forall pos,
  In e (snd (initAntennaRules_from tech pos))
  <-> exists i, (i < length tech)%nat
                /\ In e (snd (initAntennaRule (pos + i)%nat (nth i tech no_layer))).
Proof.
  induction tech as [|t rest IH]; intro pos; cbn [initAntennaRules_from].
  - cbn. split; [contradiction|]. intros (i & Hi & _). lia.
  - destruct (initAntennaRule pos t) as [m w] eqn:Et.
    specialize (IH (S pos)).
    destruct (initAntennaRules_from rest (S pos)) as [ms ws].
    cbn [snd] in *. rewrite in_app_iff, IH. split.
    + intros [H|(i & Hi & H)].
      * exists 0%nat. split; [cbn; lia|]. rewrite Nat.add_0_r. cbn [nth].
        rewrite Et. exact H.
      * exists (S i). split; [cbn; lia|]. cbn [nth].
        replace (pos + S i)%nat with (S pos + i)%nat by lia. exact H.
    + intros ([|i] & Hi & H).
      * left. rewrite Nat.add_0_r in H. cbn [nth] in H. rewrite Et in H. exact H.
      * right. exists i. split; [cbn in Hi; lia|]. cbn [nth] in H.
        replace (pos + S i)%nat with (S pos + i)%nat in H by lia. exact H.
Qed.

(** X2. What [initAntennaRules] logs: warning 13 for a layer, exactly when
    the layer has a rule with a side-area ratio (a PSR that is not zero or
    a diffPSR table that is not empty), is a routing layer and has no
    thickness; and nothing else. *)
Theorem initAntennaRules_thickness_warnings (tech : Tech) (e : LogEvent) :
  In e (snd (initAntennaRules tech))
  <-> exists l antenna_rule,
        e = Warn13_no_thickness l /\ (l < length tech)%nat
        /\ getDefaultAntennaRule (layer_at tech l) = Some antenna_rule
        /\ (~ getPSR antenna_rule == 0 \/ indices (getDiffPSR antenna_rule) <> [])
        /\ getType (layer_at tech l) = ROUTING
        /\ getThickness (layer_at tech l) = 0%Z.
Proof.
  unfold initAntennaRules. rewrite initAntennaRules_from_log. split.
  - intros (i & Hi & H). cbn [Nat.add] in H. apply initAntennaRule_log in H.
    destruct H as (r & He & Hr & Hc & Ht & Hz).
    exists i, r. unfold layer_at. repeat split; assumption.
  - intros (l & r & He & Hl & Hr & Hc & Ht & Hz).
    exists l. split; [exact Hl|]. cbn [Nat.add]. apply initAntennaRule_log.
    exists r. unfold layer_at in *. repeat split; assumption.
Qed.

(** ** Pin areas *)

Lemma max_area_loop_spec (areas : list (Q * option Layer)) : forall m,
  m <= max_area_loop areas m
  /\ (forall a, In a (map fst areas) -> a <= max_area_loop areas m)
  /\ (max_area_loop areas m = m \/ In (max_area_loop areas m) (map fst areas)).
Proof.
  induction areas as [|[a o] rest IH]; intro m; cbn [max_area_loop map fst In].
  - split; [apply Qle_refl|]. split; [contradiction|]. now left.
  - destruct (IH (std_max m a)) as (H1 & H2 & H3).
    assert (Hm : m <= std_max m a) by apply std_max_ge_l.
    assert (Ha : a <= std_max m a).
    { unfold std_max. destruct (Qltb m a) eqn:E; [apply Qle_refl|].
      apply Qltb_false in E. exact E. }
    split; [eapply Qle_trans; eassumption|]. split.
    + intros x [Hx|Hx]; [subst x; eapply Qle_trans; eassumption|now apply H2].
    + destruct H3 as [H3|H3]; [|right; now right].
      rewrite H3. unfold std_max. destruct (Qltb m a); [right; now left|now left].
Qed.

(** X3. [gateArea] and [diffArea] return the largest listed area, and 0
    when no area is listed or none is positive ([gateArea] also when the
    pin has no default antenna model).  A pin is a valid gate exactly when
    it is an input whose default antenna model lists a positive gate
    area. *)
Theorem pin_areas_are_maxima (mterm : dbMTerm) :
  match getDefaultAntennaModel mterm with
  | None => gateArea mterm = 0
  | Some gate_areas =>
      0 <= gateArea mterm
      /\ (forall a, In a (map fst gate_areas) -> a <= gateArea mterm)
      /\ (gateArea mterm = 0 \/ In (gateArea mterm) (map fst gate_areas))
  end
  /\ (0 <= diffArea mterm
      /\ (forall a, In a (map fst (getDiffArea mterm)) -> a <= diffArea mterm)
      /\ (diffArea mterm = 0 \/ In (diffArea mterm) (map fst (getDiffArea mterm))))
  /\ (isValidGate mterm = true
      <-> getIoType mterm = INPUT
          /\ exists gate_areas a,
               getDefaultAntennaModel mterm = Some gate_areas
               /\ In a (map fst gate_areas) /\ 0 < a).
Proof.
  split; [|split].
  - unfold gateArea. destruct (getDefaultAntennaModel mterm) as [gate_areas|];
      [apply max_area_loop_spec|reflexivity].
  - unfold diffArea. apply max_area_loop_spec.
  - unfold isValidGate, gateArea. rewrite andb_true_iff, Qgtb_true. split.
    + intros [Hio Hpos]. split; [destruct (getIoType mterm); congruence|].
      destruct (getDefaultAntennaModel mterm) as [gate_areas|];
        [|exfalso; apply (Qlt_irrefl 0), Hpos].
      destruct (max_area_loop_spec gate_areas 0) as (_ & _ & [H|H]).
      * rewrite H in Hpos. exfalso. apply (Qlt_irrefl 0), Hpos.
      * exists gate_areas, (max_area_loop gate_areas 0). now repeat split.
    + intros (Hio & gate_areas & a & Hm & Hin & Hpos). rewrite Hio, Hm.
      split; [reflexivity|].
      destruct (max_area_loop_spec gate_areas 0) as (_ & H & _).
      eapply Qlt_le_trans; [exact Hpos|now apply H].
Qed.

(** ** Via layers carry no side ratios *)

Lemma no_side_ratios_add (a b : InfoType) :
  no_side_ratios a -> no_side_ratios b -> no_side_ratios (InfoType_add a b).
Proof.
  intros (A1 & A2 & A3 & A4 & A5) (B1 & B2 & B3 & B4 & B5).
  unfold no_side_ratios, InfoType_add; cbn.
  rewrite A1, A2, A3, B1, B2, B3. repeat split; try assumption; reflexivity.
Qed.

Section ViaRecords.
Context {Polygon : Type} {gtl : Gtl Polygon}.
Variable tech : Tech.
Variable dbu_per_micron : Z.

Lemma node_info_via (l : Layer) (node : GraphNode Polygon) :
  routingLevel tech l = 0%nat ->
  no_side_ratios (fst (node_info tech dbu_per_micron l node)).
Proof.
  intro Hv. unfold node_info.
  pose proof (gather_iterms_ratios (gates node)
                (set_area InfoType_new
                   (dbuToMicrons dbu_per_micron
                      (dbuToMicrons dbu_per_micron (inject_Z (gtl_area (pol node))))))
                0) as H.
  cbv zeta in H.
  destruct (gather_iterms (gates node) _ 0) as [info n]. cbn [fst] in H.
  destruct H as (_ & H2 & _ & H4 & _ & H6 & _ & H8 & _ & H10).
  rewrite Hv. cbn [Nat.eqb negb].
  assert (Hinfo : no_side_ratios info).
  { unfold no_side_ratios. rewrite H2, H4, H6, H8, H10. cbn.
    repeat split; reflexivity. }
  destruct (Nat.eqb n 0); exact Hinfo.
Qed.

Lemma calculateAreas_via (nodes : NodeMap Polygon) (g : string) (L : Layer)
      (r : InfoType) :
  routingLevel tech L = 0%nat ->
  find_info (calculateAreas tech dbu_per_micron nodes []) g L = Some r ->
  no_side_ratios r.
Proof.
  intros Hv Hr. rewrite find_info_calculateAreas in Hr.
  revert r Hr.
  apply (fold_island_step_invariant tech dbu_per_micron no_side_ratios g L
           no_side_ratios_add).
  - cbn. intros r H. discriminate H.
  - intros isl _ Hl _. rewrite Hl. now apply node_info_via.
Qed.

End ViaRecords.

Lemma calculatePAR_record_via (tech : Tech) (layer_info : LayerInfo) (L : Layer)
      (r : InfoType) :
  routingLevel tech L = 0%nat -> no_side_ratios r ->
  no_side_ratios (snd (calculatePAR_record tech layer_info (L, r))).
Proof.
  intros Hv H. unfold calculatePAR_record. rewrite Hv. cbn [Nat.eqb snd].
  unfold calculateViaPar.
  destruct (Qneb (iterm_diff_area r) 0); exact H.
Qed.

Lemma calculateCAR_step_via (tech : Tech) (l : Layer) (sumWire sumVia : InfoType)
      (m : LayerMap) :
  (forall l0 r, find_layer m l0 = Some r -> routingLevel tech l0 = 0%nat ->
                no_side_ratios r) ->
  PSR sumVia == 0 -> diff_PSR sumVia == 0 ->
  let '(sumWire', sumVia', m') := calculateCAR_step tech l sumWire sumVia m in
  (forall l0 r, find_layer m' l0 = Some r -> routingLevel tech l0 = 0%nat ->
                no_side_ratios r)
  /\ PSR sumVia' == 0 /\ diff_PSR sumVia' == 0.
Proof.
  intros Hm Hs Hd. unfold calculateCAR_step.
  destruct (find_layer m l) as [rec|] eqn:E;
    [|split; [exact Hm|split; assumption]].
  destruct (Nat.eqb (routingLevel tech l) 0) eqn:Ev.
  - apply Nat.eqb_eq in Ev.
    destruct (Hm l rec E Ev) as (R1 & R2 & R3 & R4 & R5).
    assert (Hs' : PSR (InfoType_add sumVia rec) == 0).
    { cbn. rewrite Hs, R2. reflexivity. }
    assert (Hd' : diff_PSR (InfoType_add sumVia rec) == 0).
    { cbn. rewrite Hd, R3. reflexivity. }
    split; [|split; assumption].
    intros l0 r Hr Hv0. rewrite find_layer_update in Hr.
    destruct (Nat.eqb l l0) eqn:El; [|now apply (Hm l0)].
    rewrite E in Hr. cbn [option_map] in Hr. injection Hr as <-.
    unfold no_side_ratios. cbn [add_cumulative side_area PSR diff_PSR CSR diff_CSR].
    rewrite Hs', Hd', R4, R5. repeat split; try assumption; reflexivity.
  - split; [|split; assumption].
    intros l0 r Hr Hv0. rewrite find_layer_update in Hr.
    destruct (Nat.eqb l l0) eqn:El; [|now apply (Hm l0)].
    apply Nat.eqb_eq in El. subst l0. rewrite Hv0 in Ev. discriminate Ev.
Qed.

Lemma calculateCAR_walk_via (tech : Tech) (fuel : nat) :
  forall (iter_layer : option Layer) (sumWire sumVia : InfoType) (m : LayerMap),
  (forall l0 r, find_layer m l0 = Some r -> routingLevel tech l0 = 0%nat ->
                no_side_ratios r) ->
  PSR sumVia == 0 -> diff_PSR sumVia == 0 ->
  forall l0 r,
    find_layer (calculateCAR_walk tech fuel iter_layer sumWire sumVia m) l0 = Some r ->
    routingLevel tech l0 = 0%nat -> no_side_ratios r.
Proof.
  induction fuel as [|fuel IH]; intros iter_layer sumWire sumVia m Hm Hs Hd;
    cbn [calculateCAR_walk].
  - destruct iter_layer; exact Hm.
  - destruct iter_layer as [l|]; [|exact Hm].
    pose proof (calculateCAR_step_via tech l sumWire sumVia m Hm Hs Hd) as H.
    destruct (calculateCAR_step tech l sumWire sumVia m) as [[sw sv] m'].
    destruct H as (Hm' & Hs' & Hd'). now apply IH.
Qed.

(** X4. On a via layer the records of a net carry no side area: the side
    area, PSR, diff_PSR, CSR and diff_CSR of every record that [checkNet]
    builds on a layer of routing level 0 are zero, whatever the geometry,
    the RuleStore and the first routing layer. *)
Theorem via_records_have_no_side_ratios {Polygon : Type} {gtl : Gtl Polygon}
        (tech : Tech) (dbu_per_micron : Z) (layer_info : LayerInfo)
        (min_layer : option Layer) (nodes : NodeMap Polygon)
        (g : string) (L : Layer) (r : InfoType) :
  routingLevel tech L = 0%nat ->
  find_info (net_info tech dbu_per_micron layer_info min_layer nodes) g L = Some r ->
  side_area r == 0 /\ PSR r == 0 /\ diff_PSR r == 0 /\ CSR r == 0 /\ diff_CSR r == 0.
Proof.
  intros Hv Hr. unfold net_info in Hr.
  rewrite find_info_calculateCAR, find_gate_calculatePAR in Hr.
  destruct (find_gate (calculateAreas tech dbu_per_micron nodes []) g) as [lm|] eqn:Eg;
    [|discriminate Hr].
  assert (Hbase : forall l0 r0,
             find_layer (map (calculatePAR_record tech layer_info) lm) l0 = Some r0 ->
             routingLevel tech l0 = 0%nat -> no_side_ratios r0).
  { intros l0 r0 H0 Hv0.
    rewrite (find_layer_map (calculatePAR_record tech layer_info)) in H0
      by (intros [a b]; reflexivity).
    destruct (find_layer lm l0) as [r1|] eqn:E1; [|discriminate H0].
    injection H0 as <-. apply calculatePAR_record_via; [exact Hv0|].
    apply (calculateAreas_via tech dbu_per_micron nodes g l0 r1 Hv0).
    unfold find_info. rewrite Eg. exact E1. }
  exact (calculateCAR_walk_via tech (length tech) min_layer InfoType_new InfoType_new
           _ Hbase (Qeq_refl 0) (Qeq_refl 0) L r Hr Hv).
Qed.

Lemma via_records_have_no_side_ratios_witness :
  exists r,
    find_info wire_and_via_info "u2/A" V1 = Some r
    /\ side_area r == 0 /\ PSR r == 0 /\ CSR r == 0.
Proof.
  destruct (find_info wire_and_via_info "u2/A" V1) as [r|] eqn:E;
    [|vm_compute in E; discriminate E].
  exists r. split; [reflexivity|].
  destruct (via_records_have_no_side_ratios
              (s2_tech 0) 1 (fst (initAntennaRules (s2_tech 0)))
              (findRoutingLayer (s2_tech 0) 1) wire_and_via_nodes "u2/A" V1 r
              ltac:(reflexivity) E) as (H1 & H2 & _ & H4 & _).
  repeat split; assumption.
Defined.

(** ** The cumulative ratios are sums of partial ratios *)

Lemma cumulative_pair_diff_area : cumulative_pair diff_CAR diff_PAR.
Proof. repeat split. Qed.

Lemma cumulative_pair_diff_side : cumulative_pair diff_CSR diff_PSR.
Proof. repeat split. Qed.

Lemma sum_for_new (tech : Tech) (L : Layer) :
  sum_for tech L InfoType_new InfoType_new = InfoType_new.
Proof. unfold sum_for. destruct (Nat.eqb (routingLevel tech L) 0); reflexivity. Qed.

Lemma calculateCAR_walk_sum (tech : Tech) (c q : InfoType -> Q) (mn L : Layer)
      (lm : LayerMap) (r r' : InfoType) :
  cumulative_pair c q -> q InfoType_new = 0 ->
  (mn <= L)%nat -> (L < length tech)%nat ->
  find_layer lm L = Some r ->
  find_layer (calculateCAR_walk tech (length tech) (Some mn)
                                InfoType_new InfoType_new lm) L = Some r' ->
  c r' == c r + kind_sum tech q lm L (seq mn (S (L - mn))).
Proof.
  intros Hp Hq Hmn HL Hr Hr'.
  destruct (calculateCAR_walk_find tech c q Hp (length tech) mn
              InfoType_new InfoType_new lm L r) as (r2 & E2 & _ & _ & Hsum);
    try lia; try assumption.
  rewrite E2 in Hr'. injection Hr' as <-.
  rewrite (Hsum Hmn), sum_for_new, Hq. ring.
Qed.

(** X5. What [calculateCAR] adds to a record of a gate on a layer [L]
    between the first routing layer and the top of the stack: CAR, CSR,
    diff_CAR and diff_CSR each grow by the sum of PAR, PSR, diff_PAR and
    diff_PSR over the records of that gate on the layers from the first
    routing layer up to [L] that are of the kind of [L] (metal or via). *)
Theorem calculateCAR_sums (tech : Tech) (mn : Layer) (info_map : InfoMap)
        (g : string) (lm : LayerMap) (L : Layer) (r : InfoType) :
  find_gate info_map g = Some lm ->
  find_layer lm L = Some r ->
  (mn <= L)%nat -> (L < length tech)%nat ->
  exists r',
    find_info (calculateCAR tech (Some mn) info_map) g L = Some r'
    /\ CAR r' == CAR r + kind_sum tech PAR lm L (seq mn (S (L - mn)))
    /\ CSR r' == CSR r + kind_sum tech PSR lm L (seq mn (S (L - mn)))
    /\ diff_CAR r' == diff_CAR r + kind_sum tech diff_PAR lm L (seq mn (S (L - mn)))
    /\ diff_CSR r' == diff_CSR r + kind_sum tech diff_PSR lm L (seq mn (S (L - mn))).
Proof.
  intros Hg Hr Hmn HL.
  rewrite find_info_calculateCAR, Hg.
  destruct (calculateCAR_walk_find tech CAR PAR cumulative_pair_area (length tech) mn
              InfoType_new InfoType_new lm L r) as (r' & E' & _);
    try lia; try assumption.
  exists r'. split; [exact E'|].
  repeat split.
  - apply (calculateCAR_walk_sum tech CAR PAR mn L lm r r' cumulative_pair_area);
      auto.
  - apply (calculateCAR_walk_sum tech CSR PSR mn L lm r r' cumulative_pair_side);
      auto.
  - apply (calculateCAR_walk_sum tech diff_CAR diff_PAR mn L lm r r'
             cumulative_pair_diff_area); auto.
  - apply (calculateCAR_walk_sum tech diff_CSR diff_PSR mn L lm r r'
             cumulative_pair_diff_side); auto.
Qed.

Lemma calculateCAR_sums_witness :
  exists r',
    find_info (calculateCAR (s2_tech 0) (Some M1) two_metal_par) "u2/A" M2 = Some r'
    /\ CAR r' == 3.
Proof.
  destruct (find_gate two_metal_par "u2/A") as [lm|] eqn:Eg;
    [|vm_compute in Eg; discriminate Eg].
  destruct (find_layer lm M2) as [r|] eqn:Er;
    [|vm_compute in Eg; injection Eg as <-; vm_compute in Er; discriminate Er].
  destruct (calculateCAR_sums (s2_tech 0) M1 two_metal_par "u2/A" lm M2 r Eg Er
              ltac:(unfold M1, M2; lia) ltac:(simpl; unfold M2; lia))
    as (r' & E' & Hc & _).
  exists r'. split; [exact E'|]. rewrite Hc.
  vm_compute in Eg. injection Eg as <-. vm_compute in Er. injection Er as <-.
  vm_compute. reflexivity.
Defined.

(** ** What [calculateCAR] and [calculatePAR] leave alone *)

Lemma calculateCAR_walk_keys (tech : Tech) (fuel : nat) :
  forall (iter_layer : option Layer) (sumWire sumVia : InfoType) (m : LayerMap),
  map fst (calculateCAR_walk tech fuel iter_layer sumWire sumVia m) = map fst m.
Proof.
  induction fuel as [|fuel IH]; intros iter_layer sumWire sumVia m;
    cbn [calculateCAR_walk].
  - destruct iter_layer; reflexivity.
  - destruct iter_layer as [l|]; [|reflexivity].
    unfold calculateCAR_step.
    destruct (find_layer m l) as [rec|]; [|apply IH].
    destruct (Nat.eqb (routingLevel tech l) 0); rewrite IH; apply update_layer_keys.
Qed.

Lemma calculateCAR_step_frame (tech : Tech) (l L : Layer) (sumWire sumVia : InfoType)
      (m : LayerMap) :
  let '(_, _, m') := calculateCAR_step tech l sumWire sumVia m in
  match find_layer m L with
  | None => find_layer m' L = None
  | Some r =>
      exists r', find_layer m' L = Some r'
                 /\ area_fields r' = area_fields r
                 /\ partial_fields r' = partial_fields r
                 /\ (L <> l -> r' = r)
  end.
Proof.
  unfold calculateCAR_step.
  destruct (find_layer m l) as [rec|] eqn:E.
  - destruct (Nat.eqb (routingLevel tech l) 0);
      rewrite find_layer_update;
      (destruct (Nat.eqb l L) eqn:El;
       [ apply Nat.eqb_eq in El; subst L; rewrite E; cbn [option_map];
         eexists; split; [reflexivity|]; split; [reflexivity|];
         split; [reflexivity|]; intro H; now contradiction H
       | destruct (find_layer m L) as [r|]; [|reflexivity];
         exists r; repeat split; reflexivity ]).
  - destruct (find_layer m L) as [r|]; [|reflexivity].
    exists r. repeat split; reflexivity.
Qed.

Lemma calculateCAR_walk_frame (tech : Tech) (fuel : nat) :
  forall (iter_layer : option Layer) (sumWire sumVia : InfoType) (m : LayerMap)
         (L : Layer),
  match find_layer m L with
  | None => find_layer (calculateCAR_walk tech fuel iter_layer sumWire sumVia m) L = None
  | Some r =>
      exists r',
        find_layer (calculateCAR_walk tech fuel iter_layer sumWire sumVia m) L = Some r'
        /\ area_fields r' = area_fields r
        /\ partial_fields r' = partial_fields r
        /\ match iter_layer with
           | None => r' = r
           | Some l => (L < l)%nat -> r' = r
           end
  end.
Proof.
  induction fuel as [|fuel IH]; intros iter_layer sumWire sumVia m L;
    cbn [calculateCAR_walk].
  - destruct (find_layer m L) as [r|]; destruct iter_layer; try reflexivity;
      exists r; repeat split; reflexivity.
  - destruct iter_layer as [l|].
    + pose proof (calculateCAR_step_frame tech l L sumWire sumVia m) as Hs.
      destruct (calculateCAR_step tech l sumWire sumVia m) as [[sw sv] m'].
      specialize (IH (getUpperLayer tech l) sw sv m' L).
      destruct (find_layer m L) as [r|].
      * destruct Hs as (r1 & E1 & A1 & P1 & F1). rewrite E1 in IH.
        destruct IH as (r2 & E2 & A2 & P2 & F2).
        exists r2. split; [exact E2|]. split; [congruence|]. split; [congruence|].
        intro HL. rewrite <- (F1 ltac:(lia)).
        unfold getUpperLayer in F2.
        destruct (Nat.ltb (S l) (length tech)); [apply F2; lia|exact F2].
      * rewrite Hs in IH. exact IH.
    + destruct (find_layer m L) as [r|]; [|reflexivity].
      exists r. repeat split; reflexivity.
Qed.

(** X6. [calculateCAR] writes the cumulative ratios only: a record that was
    there is still there with the same areas, iterms and partial ratios, no
    record appears or disappears, and the gates keep their order.  A record
    below the first routing layer, and every record when the technology has
    no first routing layer, is left as it was. *)
Theorem calculateCAR_frame (tech : Tech) (min_layer : option Layer)
        (info_map : InfoMap) (g : string) (L : Layer) :
  map fst (calculateCAR tech min_layer info_map) = map fst info_map
  /\ match find_info info_map g L with
     | None => find_info (calculateCAR tech min_layer info_map) g L = None
     | Some r =>
         exists r',
           find_info (calculateCAR tech min_layer info_map) g L = Some r'
           /\ area_fields r' = area_fields r
           /\ partial_fields r' = partial_fields r
           /\ match min_layer with
              | None => r' = r
              | Some mn => (L < mn)%nat -> r' = r
              end
     end.
Proof.
  split.
  - unfold calculateCAR. rewrite map_map. apply map_ext. reflexivity.
  - rewrite find_info_calculateCAR. unfold find_info.
    destruct (find_gate info_map g) as [lm|]; [|reflexivity].
    apply calculateCAR_walk_frame.
Qed.

Lemma calculatePAR_record_frame (tech : Tech) (layer_info : LayerInfo) (L : Layer)
      (r : InfoType) :
  let r' := snd (calculatePAR_record tech layer_info (L, r)) in
  area_fields r' = area_fields r
  /\ cumulative_fields r' = cumulative_fields r
  /\ (routingLevel tech L = 0%nat -> PSR r' = PSR r /\ diff_PSR r' = diff_PSR r).
Proof.
  unfold calculatePAR_record. cbn [snd].
  destruct (Nat.eqb (routingLevel tech L) 0) eqn:Ev.
  - unfold calculateViaPar. destruct (Qneb (iterm_diff_area r) 0);
      repeat split; reflexivity.
  - unfold calculateWirePar. destruct (Qneb (iterm_diff_area r) 0);
      (split; [reflexivity|]; split; [reflexivity|]);
      intro H; rewrite H in Ev; discriminate Ev.
Qed.

Lemma calculatePAR_record_idem (tech : Tech) (layer_info : LayerInfo)
      (it : Layer * InfoType) :
  calculatePAR_record tech layer_info (calculatePAR_record tech layer_info it)
  = calculatePAR_record tech layer_info it.
Proof.
  destruct it as [L r]. unfold calculatePAR_record.
  destruct (Nat.eqb (routingLevel tech L) 0).
  - unfold calculateViaPar, reduce_factor.
    destruct (Qneb (iterm_diff_area r) 0) eqn:Ed; cbn; rewrite Ed; reflexivity.
  - unfold calculateWirePar, reduce_factor.
    destruct (Qneb (iterm_diff_area r) 0) eqn:Ed; cbn; rewrite Ed; reflexivity.
Qed.

(** X7. [calculatePAR] writes the partial ratios only, and from the areas
    alone: running it a second time changes nothing; a record keeps its
    areas, iterms and cumulative ratios, no record appears or disappears;
    and on a via layer PSR and diff_PSR are left as they were. *)
Theorem calculatePAR_frame (tech : Tech) (layer_info : LayerInfo)
        (info_map : InfoMap) (g : string) (L : Layer) :
  calculatePAR tech layer_info (calculatePAR tech layer_info info_map)
  = calculatePAR tech layer_info info_map
  /\ map fst (calculatePAR tech layer_info info_map) = map fst info_map
  /\ match find_info info_map g L with
     | None => find_info (calculatePAR tech layer_info info_map) g L = None
     | Some r =>
         exists r',
           find_info (calculatePAR tech layer_info info_map) g L = Some r'
           /\ area_fields r' = area_fields r
           /\ cumulative_fields r' = cumulative_fields r
           /\ (routingLevel tech L = 0%nat ->
               PSR r' = PSR r /\ diff_PSR r' = diff_PSR r)
     end.
Proof.
  split; [|split].
  - unfold calculatePAR. rewrite map_map. apply map_ext. intros [k lm].
    cbn [fst snd]. f_equal. rewrite map_map. apply map_ext.
    apply calculatePAR_record_idem.
  - unfold calculatePAR. rewrite map_map. apply map_ext. reflexivity.
  - rewrite find_info_calculatePAR.
    destruct (find_info info_map g L) as [r|]; [|reflexivity].
    eexists. split; [reflexivity|]. apply calculatePAR_record_frame.
Qed.

(** ** Which records [calculateAreas] stores *)

Lemma valid_pin_count_pos (g : string) (gs : list PinType) :
  (0 < valid_pin_count g gs)%nat
  <-> exists iterm, In (ITermPin g iterm) gs /\ isValidGate (getMTerm iterm) = true.
Proof.
  induction gs as [|[n iterm|n] rest IH]; cbn [valid_pin_count In].
  - split; [lia|]. intros (i & [] & _).
  - destruct (isValidGate (getMTerm iterm) && String.eqb n g) eqn:E.
    + apply andb_true_iff in E. destruct E as [Ev En].
      apply String.eqb_eq in En. subst n.
      split; [|lia]. intros _. exists iterm. split; [now left|exact Ev].
    + cbn [Nat.add]. rewrite IH. split.
      * intros (i & Hi & Hv). exists i. split; [now right|exact Hv].
      * intros (i & [Hi|Hi] & Hv); [|exists i; now split].
        injection Hi as -> ->. rewrite Hv, String.eqb_refl in E. discriminate E.
  - rewrite IH. split.
    + intros (i & Hi & Hv). exists i. split; [now right|exact Hv].
    + intros (i & [Hi|Hi] & Hv); [discriminate Hi|exists i; now split].
Qed.

Lemma filter_nonempty {A : Type} (f : A -> bool) (l : list A) :
  filter f l <> [] <-> exists x, In x l /\ f x = true.
Proof.
  split.
  - intro H. destruct (filter f l) as [|x rest] eqn:E; [now contradiction H|].
    exists x. apply filter_In. rewrite E. now left.
  - intros (x & Hx) H. apply filter_In in Hx. rewrite H in Hx. exact Hx.
Qed.

Lemma carriers_nonempty {Polygon : Type} (g : string) (L : Layer)
      (isls : list (Layer * GraphNode Polygon)) :
  carriers g L isls <> []
  <-> exists node iterm,
        In (L, node) isls /\ In (ITermPin g iterm) (gates node)
        /\ isValidGate (getMTerm iterm) = true.
Proof.
  unfold carriers. rewrite filter_nonempty. split.
  - intros ([l node] & Hin & Hp). cbn [fst snd] in Hp.
    apply andb_true_iff in Hp. destruct Hp as [Hl Hc].
    apply Nat.eqb_eq in Hl. subst l. apply Nat.ltb_lt in Hc.
    apply valid_pin_count_pos in Hc. destruct Hc as (iterm & Hi & Hv).
    exists node, iterm. now repeat split.
  - intros (node & iterm & Hin & Hi & Hv).
    exists (L, node). split; [exact Hin|]. cbn [fst snd].
    rewrite Nat.eqb_refl. cbn [andb]. apply Nat.ltb_lt.
    apply valid_pin_count_pos. exists iterm. now split.
Qed.

Lemma kept_by_merge_gates :
  kept_by_merge (fun r => (iterms r, iterm_gate_area r, iterm_diff_area r)).
Proof. intros a b. reflexivity. Qed.

(** X8. [calculateAreas] stores a record for a gate name on a layer exactly
    when an island of that layer carries an instance pin of that name that
    is a valid gate.  Block terminals and pins that are not valid gates
    (outputs, pins without gate area) never get a record. *)
Theorem calculateAreas_record_iff {Polygon : Type} {gtl : Gtl Polygon}
        (tech : Tech) (dbu_per_micron : Z) (nodes : NodeMap Polygon)
        (g : string) (L : Layer) :
  (exists r, find_info (calculateAreas tech dbu_per_micron nodes []) g L = Some r)
  <-> exists node iterm,
        In (L, node) (islands nodes) /\ In (ITermPin g iterm) (gates node)
        /\ isValidGate (getMTerm iterm) = true.
Proof.
  rewrite <- carriers_nonempty.
  pose proof (fold_island_step_kept tech dbu_per_micron g L
                (fun r => (iterms r, iterm_gate_area r, iterm_diff_area r))
                (islands nodes) kept_by_merge_gates None) as H.
  rewrite <- (find_info_calculateAreas tech dbu_per_micron nodes [] g L) in H.
  cbn [find_info find_gate] in H.
  destruct (find_info (calculateAreas tech dbu_per_micron nodes []) g L) as [r|];
    destruct (carriers g L (islands nodes)) as [|first others];
    cbn [option_map hd_error] in H; try discriminate H.
  - split; [intros _ Hc; discriminate Hc|]. intros _. now exists r.
  - split; [intros (r & Hr); discriminate Hr|]. intro Hc. now contradiction Hc.
Qed.

Lemma gather_iterms_spec (gs : list PinType) :
  forall info n,
  iterms (fst (gather_iterms gs info n)) = iterms info ++ iterms_of gs
  /\ iterm_gate_area (fst (gather_iterms gs info n))
     == iterm_gate_area info + area_sum gateArea (iterms_of gs)
  /\ iterm_diff_area (fst (gather_iterms gs info n))
     == iterm_diff_area info + area_sum diffArea (iterms_of gs).
Proof.
  induction gs as [|[nm iterm|nm] rest IH]; intros info n;
    cbn [gather_iterms iterms_of area_sum fst].
  - rewrite app_nil_r. split; [reflexivity|split; ring].
  - destruct (IH (add_iterm info iterm) (S n)) as (H1 & H2 & H3).
    rewrite H1, H2, H3. cbn [add_iterm iterms iterm_gate_area iterm_diff_area].
    rewrite <- app_assoc. split; [reflexivity|split; ring].
  - apply IH.
Qed.

Lemma node_info_iterms {Polygon : Type} {gtl : Gtl Polygon}
      (tech : Tech) (dbu_per_micron : Z) (l : Layer) (node : GraphNode Polygon) :
  let r := fst (node_info tech dbu_per_micron l node) in
  iterms r = iterms_of (gates node)
  /\ iterm_gate_area r == area_sum gateArea (iterms r)
  /\ iterm_diff_area r == area_sum diffArea (iterms r).
Proof.
  unfold node_info.
  pose proof (gather_iterms_spec (gates node)
                (set_area InfoType_new
                   (dbuToMicrons dbu_per_micron
                      (dbuToMicrons dbu_per_micron (inject_Z (gtl_area (pol node))))))
                0) as H.
  destruct (gather_iterms (gates node) _ 0) as [info n]. cbn [fst] in H.
  destruct H as (H1 & H2 & H3). cbn in H1, H2, H3.
  assert (Hinfo : iterms info = iterms_of (gates node)
                  /\ iterm_gate_area info == area_sum gateArea (iterms info)
                  /\ iterm_diff_area info == area_sum diffArea (iterms info)).
  { split; [exact H1|]. rewrite H1, H2, H3. split; ring. }
  destruct (Nat.eqb n 0); [exact Hinfo|].
  destruct (negb (Nat.eqb (routingLevel tech l) 0)); exact Hinfo.
Qed.

(** X9. The gates of a stored record, which a Violation lists: the iterms
    of the record are all the instance pins of the first island of the
    layer that carries the gate, in order, valid gates or not; and the gate
    area and the diffusion area of the record are the sums of [gateArea]
    and of [diffArea] over these iterms. *)
Theorem stored_record_iterms {Polygon : Type} {gtl : Gtl Polygon}
        (tech : Tech) (dbu_per_micron : Z) (nodes : NodeMap Polygon)
        (g : string) (L : Layer) (r : InfoType) :
  find_info (calculateAreas tech dbu_per_micron nodes []) g L = Some r ->
  iterm_gate_area r == area_sum gateArea (iterms r)
  /\ iterm_diff_area r == area_sum diffArea (iterms r)
  /\ exists first others,
       carriers g L (islands nodes) = first :: others
       /\ iterms r = iterms_of (gates (snd first)).
Proof.
  intro Hr.
  pose proof (fold_island_step_kept tech dbu_per_micron g L
                (fun r => (iterms r, iterm_gate_area r, iterm_diff_area r))
                (islands nodes) kept_by_merge_gates None) as H.
  rewrite <- (find_info_calculateAreas tech dbu_per_micron nodes [] g L) in H.
  cbn [find_info find_gate] in H. rewrite Hr in H.
  destruct (carriers g L (islands nodes)) as [|first others];
    cbn [option_map hd_error] in H; [discriminate H|].
  injection H as Hi Hg Hd.
  destruct (node_info_iterms tech dbu_per_micron (fst first) (snd first))
    as (N1 & N2 & N3).
  rewrite Hg, Hd, Hi. split; [exact N2|]. split; [exact N3|].
  exists first, others. split; [reflexivity|exact N1].
Qed.

Lemma stored_record_iterms_witness :
  exists r,
    find_info (calculateAreas (s2_tech 0) 1 two_island_nodes []) "u2/A" M1 = Some r
    /\ iterm_gate_area r == area_sum gateArea (iterms r)
    /\ length (iterms r) = 1%nat.
Proof.
  destruct (find_info (calculateAreas (s2_tech 0) 1 two_island_nodes []) "u2/A" M1)
    as [r|] eqn:E; [|vm_compute in E; discriminate E].
  exists r. split; [reflexivity|].
  destruct (stored_record_iterms (s2_tech 0) 1 two_island_nodes "u2/A" M1 r E)
    as (H1 & _ & _).
  split; [exact H1|].
  vm_compute in E. injection E as <-. reflexivity.
Defined.

(** ** The record of a gate that several islands carry *)

Section StoredFacts.
Context {Polygon : Type} {gtl : Gtl Polygon}.
Variable tech : Tech.
Variable dbu_per_micron : Z.
Variable g : string.
Variable L : Layer.

Lemma iter_merge_repeat (info : InfoType) (n : nat) :
  forall o,
  Nat.iter n (merge_record info) o
  = fold_left (fun o r => merge_record r o) (repeat info n) o.
Proof.
  induction n as [|n IH]; intro o; [reflexivity|].
  rewrite Nat.iter_succ_r. cbn [repeat fold_left]. apply IH.
Qed.

Lemma fold_island_step_stored (isls : list (Layer * GraphNode Polygon)) :
  forall o,
  fold_left (island_step tech dbu_per_micron g L) isls o
  = fold_left (fun o r => merge_record r o) (stored_for tech dbu_per_micron g L isls) o.
Proof.
  induction isls as [|isl rest IH]; intro o; [reflexivity|].
  cbn [fold_left stored_for flat_map]. rewrite fold_left_app.
  fold (stored_for tech dbu_per_micron g L rest). rewrite IH. f_equal.
  unfold island_step. destruct (Nat.eqb (fst isl) L); [|reflexivity].
  apply iter_merge_repeat.
Qed.

Lemma fold_merge_some (rs : list InfoType) :
  forall a,
  fold_left (fun o r => merge_record r o) rs (Some a)
  = Some (fold_left InfoType_add rs a).
Proof.
  induction rs as [|r rest IH]; intro a; [reflexivity|].
  cbn [fold_left]. change (merge_record r (Some a)) with (Some (InfoType_add a r)).
  apply IH.
Qed.

Lemma stored_record_is_merge (nodes : NodeMap Polygon) (r : InfoType) :
  find_info (calculateAreas tech dbu_per_micron nodes []) g L = Some r ->
  exists first others,
    stored_for tech dbu_per_micron g L (islands nodes) = first :: others
    /\ r = fold_left InfoType_add others first.
Proof.
  rewrite find_info_calculateAreas, fold_island_step_stored.
  change (find_info [] g L) with (@None InfoType).
  destruct (stored_for tech dbu_per_micron g L (islands nodes)) as [|first others];
    [discriminate|].
  cbn [fold_left]. change (merge_record first None) with (Some first).
  rewrite fold_merge_some.
  intro H. injection H as <-. exists first, others. now split.
Qed.

End StoredFacts.

(** C7 (as amended).  After [calculateAreas] the info map holds at most one
    record per gate and layer.  The record of gate [g] on layer [L] is the
    record of the first island of [L] that carries [g], to which the merge
    has added the records of the others in turn.  It has the summed area
    and side area of these islands.  Its iterms, gate area and diffusion
    area are those of the first island alone, the merge adds nothing to
    them; and they are not the values of [g]: the iterms are all the
    instance pins of that island and the two areas are the sums of
    [gateArea] and of [diffArea] over them. *)
Theorem calculateAreas_merges_islands {Polygon : Type} {gtl : Gtl Polygon}
        (tech : Tech) (dbu_per_micron : Z) (nodes : NodeMap Polygon)
        (g : string) (L : Layer) (r : InfoType) :
  find_info (calculateAreas tech dbu_per_micron nodes []) g L = Some r ->
  one_record_per_key (calculateAreas tech dbu_per_micron nodes [])
  /\ (exists first_record other_records,
        stored_for tech dbu_per_micron g L (islands nodes)
        = first_record :: other_records
        /\ r = fold_left InfoType_add other_records first_record)
  /\ area r == carried_sum tech dbu_per_micron area g L (islands nodes)
  /\ side_area r == carried_sum tech dbu_per_micron side_area g L (islands nodes)
  /\ exists first others,
       carriers g L (islands nodes) = first :: others
       /\ iterms r = iterms_of (gates (snd first))
       /\ iterm_gate_area r == area_sum gateArea (iterms_of (gates (snd first)))
       /\ iterm_diff_area r == area_sum diffArea (iterms_of (gates (snd first))).
Proof.
  intro Hfind. split; [|split; [|split; [|split]]].
  - apply calculateAreas_keys. split; [constructor|intros ? ? []].
  - now apply stored_record_is_merge.
  - rewrite find_info_calculateAreas in Hfind.
    pose proof (fold_island_step_area tech dbu_per_micron g L (islands nodes)
                  (find_info [] g L)) as H.
    rewrite Hfind in H. cbn [option_area find_info find_gate] in H. rewrite H. ring.
  - rewrite find_info_calculateAreas in Hfind.
    pose proof (fold_island_step_side_area tech dbu_per_micron g L (islands nodes)
                  (find_info [] g L)) as H.
    rewrite Hfind in H. cbn [option_side_area find_info find_gate] in H. rewrite H. ring.
  - pose proof (fold_island_step_kept tech dbu_per_micron g L
                  (fun r => (iterms r, iterm_gate_area r, iterm_diff_area r))
                  (islands nodes) kept_by_merge_gates None) as H.
    rewrite <- (find_info_calculateAreas tech dbu_per_micron nodes [] g L) in H.
    cbn [find_info find_gate] in H. rewrite Hfind in H.
    destruct (carriers g L (islands nodes)) as [|first others];
      cbn [option_map hd_error] in H; [discriminate H|].
    injection H as Hi Hg Hd.
    destruct (node_info_iterms tech dbu_per_micron (fst first) (snd first))
      as (N1 & N2 & N3).
    exists first, others. split; [reflexivity|].
    rewrite Hg, Hd, Hi, <- N1. split; [reflexivity|]. split; assumption.
Qed.

(** Two islands of metal 1, of area 80 each, end on the pin of [u1/A],
    the first with [u2/A] and the second with [u3/A], every gate of area
    20: one record for [u1/A], of area 160, with the two pins of the first
    island and their gate area 40. *)
Lemma calculateAreas_merges_islands_witness :
  exists r,
    find_info (calculateAreas s5_tech 1 shared_gate_nodes []) "u1/A" M1 = Some r
    /\ area r == 160 /\ iterm_gate_area r == 40 /\ length (iterms r) = 2%nat.
Proof.
  destruct (find_info (calculateAreas s5_tech 1 shared_gate_nodes []) "u1/A" M1)
    as [r|] eqn:E; [|vm_compute in E; discriminate E].
  exists r. split; [reflexivity|].
  destruct (calculateAreas_merges_islands s5_tech 1 shared_gate_nodes "u1/A" M1 r E)
    as (_ & _ & Ha & _ & first & others & Hc & Hi & Hg & _).
  vm_compute in Hc. injection Hc as <- <-.
  split; [rewrite Ha; vm_compute; reflexivity|].
  split; [rewrite Hg; vm_compute; reflexivity|].
  rewrite Hi. reflexivity.
Defined.

(** One island on the pins of [u1/A] and [u2/A], of gate areas 4 and 12
    and diffusions 2 and 7: the record of [u1/A] holds the gate area 16 and
    the diffusion 9, with no merge involved. *)
Lemma shared_island_record :
  exists r,
    find_info (calculateAreas (s2_tech 0) 1 shared_island_nodes []) "u1/A" M1 = Some r
    /\ iterm_gate_area r == 16 /\ iterm_diff_area r == 9
    /\ map getName (iterms r) = ["u1/A"%string; "u2/A"%string].
Proof.
  eexists. split; [vm_compute; reflexivity|].
  split; [vm_compute; reflexivity|]. split; [vm_compute; reflexivity|].
  reflexivity.
Qed.

(** The record of [u1/A] there does not hold the gate area of [u1/A]. *)
Lemma island_gate_areas_are_summed :
  ~ stores_per_gate_areas (s2_tech 0) 1 shared_island_nodes.
Proof.
  intro H.
  destruct (find_info (calculateAreas (s2_tech 0) 1 shared_island_nodes []) "u1/A" M1)
    as [r|] eqn:E; [|vm_compute in E; discriminate E].
  destruct (H M1 _ "u1/A"%string _ r (or_introl eq_refl) (or_introl eq_refl) E)
    as [Hg _].
  vm_compute in E. injection E as <-.
  vm_compute in Hg. discriminate Hg.
Qed.

(** ** [checkInfo] in repair mode *)

Lemma repair_extends_same (tech : Tech) (ratio_margin : Q) (max : nat)
      (src : Layer * InfoType -> Prop) (st st' : CheckState) :
  same_output st st' -> repair_extends tech ratio_margin max src st st'.
Proof.
  intros (Hl & Hv & Hn & Hp). split; [exact Hn|]. split; [exact Hp|].
  exists [], []. rewrite !app_nil_r. repeat split; auto.
Qed.

Lemma repair_extends_trans (tech : Tech) (ratio_margin : Q) (max : nat)
      (src : Layer * InfoType -> Prop) (st1 st2 st3 : CheckState) :
  repair_extends tech ratio_margin max src st1 st2 ->
  repair_extends tech ratio_margin max src st2 st3 ->
  repair_extends tech ratio_margin max src st1 st3.
Proof.
  intros (N1 & P1 & ws1 & vs1 & L1 & V1' & W1 & C1 & F1)
         (N2 & P2 & ws2 & vs2 & L2 & V2' & W2 & C2 & F2).
  split; [congruence|]. split; [congruence|].
  exists (ws1 ++ ws2), (vs1 ++ vs2).
  rewrite L2, L1, V2', V1', !app_assoc, !length_app.
  repeat split; try reflexivity; try (apply Forall_app; now split). lia.
Qed.

Lemma same_output_say_nil (st : CheckState) : same_output st (say st []).
Proof. unfold same_output, say. cbn. rewrite app_nil_r. auto. Qed.

Section RepairMode.
Variable tech : Tech.
Variable layer_info : LayerInfo.
Variable ratio_margin : Q.
Variables verbose report : bool.
Variable diode_mterm : dbMTerm.
Variable max_diode_count_per_gate : nat.
Variable src : Layer * InfoType -> Prop.

Lemma checkInfo_layer_repair (gate : string) (st : CheckState)
      (it : Layer * InfoType) :
  src it ->
  repair_extends tech ratio_margin max_diode_count_per_gate src st
    (checkInfo_layer tech layer_info ratio_margin verbose report (Some diode_mterm)
                     max_diode_count_per_gate gate st it).
Proof.
  intro Hsrc. destruct it as [l info]. unfold checkInfo_layer.
  destruct (getDefaultAntennaRule (layer_at tech l)) as [antenna_rule|] eqn:Er;
    [|apply repair_extends_same; unfold same_output; auto].
  pose proof (check_record_silent tech antenna_rule ratio_margin l info) as Hs.
  destruct (check_record tech antenna_rule ratio_margin l info false false)
    as [v lines]. cbn [snd] in Hs. subst lines.
  rewrite andb_false_r.
  destruct v; [|apply repair_extends_same, same_output_say_nil].
  destruct (negb (Nat.eqb (routingLevel tech l) 0)
            && negb (pin_added_mem (pin_added (set_pin_has_violation (say st []))) l
                                   gate)) eqn:Em;
    [|apply repair_extends_same; unfold same_output, set_pin_has_violation, say;
      cbn; rewrite app_nil_r; auto].
  apply andb_true_iff in Em. destruct Em as [Hmetal _].
  apply negb_true_iff, Nat.eqb_neq in Hmetal.
  unfold repair_record.
  destruct (diode_estimate_total tech layer_info antenna_rule ratio_margin l
              diode_mterm max_diode_count_per_gate info)
    as (n & En & Hn & Hviol & _).
  rewrite En. unfold set_pin_has_violation, say. cbn.
  split; [reflexivity|]. split; [reflexivity|].
  exists (if Nat.ltb max_diode_count_per_gate n
          then [Warn15_too_many_diodes max_diode_count_per_gate] else []),
         (if Nat.ltb 0 n
          then [mk_violation (routingLevel tech l) (iterms info) n] else []).
  rewrite app_nil_r.
  split; [reflexivity|]. split; [reflexivity|].
  destruct (Nat.ltb 0 n) eqn:E0.
  - apply Nat.ltb_lt in E0. split; [|split].
    + destruct (Nat.ltb max_diode_count_per_gate n); repeat constructor.
    + destruct (Nat.ltb max_diode_count_per_gate n); cbn; lia.
    + constructor; [|constructor]. unfold violation_from. cbn.
      split; [lia|]. split; [exact Hn|]. split; [exact Hmetal|].
      exists l, info, antenna_rule. repeat split; try assumption.
      exact (Hviol 0%nat E0).
  - apply Nat.ltb_ge in E0. assert (n = 0%nat) by lia. subst n.
    destruct (Nat.ltb max_diode_count_per_gate 0) eqn:E1;
      [apply Nat.ltb_lt in E1; lia|].
    repeat split; constructor.
Qed.

Lemma checkInfo_layers_repair (gate : string) (lm : LayerMap) :
  forall st,
  (forall it, In it lm -> src it) ->
  repair_extends tech ratio_margin max_diode_count_per_gate src st
    (fold_left (checkInfo_layer tech layer_info ratio_margin verbose report
                                (Some diode_mterm) max_diode_count_per_gate gate)
               lm st).
Proof.
  induction lm as [|it rest IH]; intros st Hsrc; cbn [fold_left].
  - apply repair_extends_same. unfold same_output. auto.
  - eapply repair_extends_trans.
    + apply checkInfo_layer_repair. apply Hsrc. now left.
    + apply IH. intros it' Hin. apply Hsrc. now right.
Qed.

Lemma checkInfo_gate_repair (st : CheckState) (n : nat) (gate_info : string * LayerMap) :
  pin_is_reported st = false ->
  (forall it, In it (snd gate_info) -> src it) ->
  repair_extends tech ratio_margin max_diode_count_per_gate src st
    (fst (checkInfo_gate tech layer_info ratio_margin verbose report
                         (Some diode_mterm) max_diode_count_per_gate
                         (st, n) gate_info)).
Proof.
  intros Hp Hsrc. unfold checkInfo_gate.
  pose proof (checkInfo_layers_repair (fst gate_info) (snd gate_info)
                (mk_state (pin_added st) (violations st) (log st)
                          (net_is_reported st) false false) Hsrc) as H.
  destruct H as (N & P & H). cbn [pin_is_reported net_is_reported] in N, P.
  rewrite P. cbn [fst].
  split; [exact N|]. split; [congruence|]. exact H.
Qed.

Lemma checkInfo_gates_repair (gis : InfoMap) :
  forall st n,
  pin_is_reported st = false ->
  (forall gi it, In gi gis -> In it (snd gi) -> src it) ->
  repair_extends tech ratio_margin max_diode_count_per_gate src st
    (fst (fold_left (checkInfo_gate tech layer_info ratio_margin verbose report
                                    (Some diode_mterm) max_diode_count_per_gate)
                    gis (st, n))).
Proof.
  induction gis as [|gi rest IH]; intros st n Hp Hsrc; cbn [fold_left].
  - apply repair_extends_same. unfold same_output. auto.
  - pose proof (checkInfo_gate_repair st n gi Hp
                  (fun it Hin => Hsrc gi it (or_introl eq_refl) Hin)) as Hg.
    destruct (checkInfo_gate tech layer_info ratio_margin verbose report
                (Some diode_mterm) max_diode_count_per_gate (st, n) gi)
      as [st1 n1] eqn:E1. cbn [fst] in Hg.
    eapply repair_extends_trans; [exact Hg|].
    apply IH.
    + destruct Hg as (_ & P & _). congruence.
    + intros gi' it Hin. apply Hsrc. now right.
Qed.

End RepairMode.

Lemma checkInfo_repair_state (tech : Tech) (max_diode_count_per_gate : nat)
      (c : Checker) (verbose report : bool) (diode_mterm : dbMTerm)
      (ratio_margin : Q) :
  repair_extends tech ratio_margin max_diode_count_per_gate (record_of (info_ c))
    (mk_state [] (antenna_violations_ c) (logger_ c) false false false)
    (fst (fold_left (checkInfo_gate tech (layer_info_ c) ratio_margin verbose report
                                    (Some diode_mterm) max_diode_count_per_gate)
                    (info_ c)
                    (mk_state [] (antenna_violations_ c) (logger_ c)
                              false false false, 0%nat))).
Proof.
  apply checkInfo_gates_repair; [reflexivity|].
  intros [g lm] it Hin Hit. exists g, lm. now split.
Qed.

(** X10. [checkInfo] with a diode master (repair mode): whatever the
    verbose and report flags, it prints no report line; it adds to the log
    only warnings 15, at most one for each Violation it appends; and each
    appended Violation comes from a record of the info map on a metal layer
    that fails the PAR or the PSR check, lists the iterms of that record,
    and counts between 1 and the cap plus one diodes. *)
Theorem checkInfo_repair_output (tech : Tech) (max_diode_count_per_gate : nat)
        (c : Checker) (verbose report : bool) (diode_mterm : dbMTerm)
        (ratio_margin : Q) :
  let c' := snd (checkInfo tech max_diode_count_per_gate c verbose report
                           (Some diode_mterm) ratio_margin) in
  exists ws vs,
    logger_ c' = logger_ c ++ ws
    /\ antenna_violations_ c' = antenna_violations_ c ++ vs
    /\ Forall (fun e => e = Warn15_too_many_diodes max_diode_count_per_gate) ws
    /\ (length ws <= length vs)%nat
    /\ Forall (violation_from tech ratio_margin max_diode_count_per_gate
                              (record_of (info_ c))) vs.
Proof.
  unfold checkInfo.
  pose proof (checkInfo_repair_state tech max_diode_count_per_gate c verbose report
                diode_mterm ratio_margin) as H.
  destruct (fold_left _ (info_ c) _) as [st n]. cbn [fst] in H.
  destruct H as (N & _ & ws & vs & L & V & H).
  cbn [net_is_reported log violations] in N, L, V. rewrite N. cbn.
  exists ws, vs. split; [exact L|]. split; [exact V|]. exact H.
Qed.

(** ** When [checkInfo] stays silent *)

Section Silence.
Variable tech : Tech.
Variable layer_info : LayerInfo.
Variable ratio_margin : Q.
Variables verbose report : bool.
Variable diode_mterm : option dbMTerm.
Variable max_diode_count_per_gate : nat.

Lemma same_output_refl (st : CheckState) : same_output st st.
Proof. unfold same_output. auto. Qed.

Lemma same_output_trans (st1 st2 st3 : CheckState) :
  same_output st1 st2 -> same_output st2 st3 -> same_output st1 st3.
Proof.
  intros (A1 & A2 & A3 & A4) (B1 & B2 & B3 & B4).
  unfold same_output. repeat split; congruence.
Qed.

Lemma checkInfo_layer_clean (gate : string) (st : CheckState) (it : Layer * InfoType) :
  report = false \/ diode_mterm <> None ->
  record_violates tech ratio_margin it = false ->
  same_output st
    (checkInfo_layer tech layer_info ratio_margin verbose report diode_mterm
                     max_diode_count_per_gate gate st it).
Proof.
  intros Hmode Hclean. destruct it as [l info].
  unfold checkInfo_layer. unfold record_violates in Hclean. cbn [fst snd] in Hclean.
  destruct (getDefaultAntennaRule (layer_at tech l)) as [antenna_rule|];
    [|apply same_output_refl].
  pose proof (check_record_silent tech antenna_rule ratio_margin l info) as Hs.
  destruct (check_record tech antenna_rule ratio_margin l info false false)
    as [v lines]. cbn [fst snd] in Hs, Hclean. subst lines v.
  cbn [orb].
  assert (Hc : report && match diode_mterm with None => true | Some _ => false end
               = false).
  { destruct Hmode as [-> | Hd]; [reflexivity|].
    destruct diode_mterm; [apply andb_false_r|now contradiction Hd]. }
  rewrite Hc. apply same_output_say_nil.
Qed.

Lemma checkInfo_layers_clean (gate : string) (lm : LayerMap) :
  forall st,
  report = false \/ diode_mterm <> None ->
  existsb (record_violates tech ratio_margin) lm = false ->
  same_output st
    (fold_left (checkInfo_layer tech layer_info ratio_margin verbose report
                                diode_mterm max_diode_count_per_gate gate) lm st).
Proof.
  induction lm as [|it rest IH]; intros st Hmode Hclean; cbn [fold_left].
  - apply same_output_refl.
  - cbn [existsb] in Hclean. apply orb_false_iff in Hclean.
    destruct Hclean as [H1 H2].
    eapply same_output_trans; [apply checkInfo_layer_clean; eassumption|].
    now apply IH.
Qed.

Lemma checkInfo_gates_clean (gis : InfoMap) :
  forall st n,
  report = false \/ diode_mterm <> None ->
  pin_is_reported st = false ->
  (forall gi, In gi gis -> pin_violates tech ratio_margin gi = false) ->
  let st' := fst (fold_left (checkInfo_gate tech layer_info ratio_margin verbose
                                            report diode_mterm
                                            max_diode_count_per_gate)
                            gis (st, n)) in
  same_output st st'.
Proof.
  induction gis as [|gi rest IH]; intros st n Hmode Hp Hclean; cbn [fold_left].
  - apply same_output_refl.
  - cbv zeta.
    assert (Hg : same_output st
                   (fst (checkInfo_gate tech layer_info ratio_margin verbose report
                                        diode_mterm max_diode_count_per_gate
                                        (st, n) gi))).
    { unfold checkInfo_gate.
      pose proof (checkInfo_layers_clean (fst gi) (snd gi)
                    (mk_state (pin_added st) (violations st) (log st)
                              (net_is_reported st) false false) Hmode
                    (Hclean gi (or_introl eq_refl))) as (A1 & A2 & A3 & A4).
      cbn [log violations net_is_reported pin_is_reported] in A1, A2, A3, A4.
      rewrite A4. cbn [fst]. unfold same_output. repeat split; congruence. }
    destruct (checkInfo_gate tech layer_info ratio_margin verbose report
                diode_mterm max_diode_count_per_gate (st, n) gi) as [st1 n1].
    cbn [fst] in Hg.
    eapply same_output_trans; [exact Hg|].
    apply IH; [exact Hmode| |].
    + destruct Hg as (_ & _ & _ & P). congruence.
    + intros gi' Hin. apply Hclean. now right.
Qed.

Lemma log_extends_refl (st : CheckState) : log_extends false st st.
Proof.
  exists []. rewrite app_nil_r. split; [reflexivity|]. intro H. discriminate H.
Qed.

Lemma log_extends_trans (b1 b2 : bool) (st1 st2 st3 : CheckState) :
  log_extends b1 st1 st2 -> log_extends b2 st2 st3 ->
  log_extends (b1 || b2) st1 st3.
Proof.
  intros (l1 & E1 & S1) (l2 & E2 & S2). exists (l1 ++ l2).
  rewrite E2, E1, app_assoc. split; [reflexivity|].
  intros Hb Hnil. apply app_eq_nil in Hnil. destruct Hnil as [-> ->].
  apply orb_true_iff in Hb. destruct Hb as [Hb|Hb]; [now apply S1|now apply S2].
Qed.

Lemma checkInfo_layer_reports (gate : string) (st : CheckState)
      (it : Layer * InfoType) :
  diode_mterm = None ->
  log_extends (record_violates tech ratio_margin it) st
    (checkInfo_layer tech layer_info ratio_margin verbose report diode_mterm
                     max_diode_count_per_gate gate st it).
Proof.
  intros ->. destruct it as [l info].
  unfold checkInfo_layer, record_violates. cbn [fst snd].
  destruct (getDefaultAntennaRule (layer_at tech l)) as [antenna_rule|];
    [|apply log_extends_refl].
  pose proof (check_record_silent tech antenna_rule ratio_margin l info) as Hs.
  destruct (check_record tech antenna_rule ratio_margin l info false false)
    as [v lines]. cbn [fst snd] in Hs |- *. subst lines.
  rewrite andb_true_r.
  destruct v.
  - cbn [orb]. unfold report_record, set_pin_has_violation, say. cbn [log].
    eexists. rewrite app_nil_r. split; [reflexivity|].
    intros _ H.
    destruct (net_is_reported st), (pin_is_reported st); discriminate H.
  - cbn [orb]. destruct report.
    + unfold report_record, say. cbn [log].
      eexists. rewrite app_nil_r. split; [reflexivity|].
      intro H. discriminate H.
    + unfold say. cbn [log]. exists []. split; [reflexivity|].
      intro H. discriminate H.
Qed.

Lemma checkInfo_layers_report (gate : string) (lm : LayerMap) :
  forall st,
  diode_mterm = None ->
  log_extends (existsb (record_violates tech ratio_margin) lm) st
    (fold_left (checkInfo_layer tech layer_info ratio_margin verbose report
                                diode_mterm max_diode_count_per_gate gate) lm st).
Proof.
  induction lm as [|it rest IH]; intros st Hd; cbn [fold_left existsb].
  - apply log_extends_refl.
  - eapply log_extends_trans; [now apply checkInfo_layer_reports|now apply IH].
Qed.

Lemma checkInfo_gate_reports (st : CheckState) (n : nat) (gi : string * LayerMap) :
  diode_mterm = None ->
  log_extends (pin_violates tech ratio_margin gi) st
    (fst (checkInfo_gate tech layer_info ratio_margin verbose report diode_mterm
                         max_diode_count_per_gate (st, n) gi)).
Proof.
  intro Hd. unfold checkInfo_gate, pin_violates.
  pose proof (checkInfo_layers_report (fst gi) (snd gi)
                (mk_state (pin_added st) (violations st) (log st)
                          (net_is_reported st) false false) Hd)
    as (lines & E & S). cbn [log] in E.
  destruct (pin_is_reported (fold_left _ (snd gi) _)); cbn [fst].
  - exists (lines ++ [Report_blank]). unfold say. cbn [log].
    rewrite E, app_assoc. split; [reflexivity|].
    intros _ H. apply app_eq_nil in H. destruct H as [_ H]. discriminate H.
  - exists lines. now split.
Qed.

Lemma checkInfo_gates_report (gis : InfoMap) :
  forall st n,
  diode_mterm = None ->
  log_extends (existsb (pin_violates tech ratio_margin) gis) st
    (fst (fold_left (checkInfo_gate tech layer_info ratio_margin verbose report
                                    diode_mterm max_diode_count_per_gate)
                    gis (st, n))).
Proof.
  induction gis as [|gi rest IH]; intros st n Hd; cbn [fold_left existsb].
  - apply log_extends_refl.
  - pose proof (checkInfo_gate_reports st n gi Hd) as Hg.
    destruct (checkInfo_gate tech layer_info ratio_margin verbose report
                diode_mterm max_diode_count_per_gate (st, n) gi) as [st1 n1].
    cbn [fst] in Hg.
    eapply log_extends_trans; [exact Hg|now apply IH].
Qed.

End Silence.

Lemma filter_length_zero {A : Type} (f : A -> bool) (l : list A) :
  length (filter f l) = 0%nat -> forall x, In x l -> f x = false.
Proof.
  intros H x Hin. destruct (f x) eqn:E; [|reflexivity].
  assert (Hf : In x (filter f l)) by (apply filter_In; now split).
  destruct (filter f l); [contradiction|discriminate H].
Qed.

Lemma filter_length_pos {A : Type} (f : A -> bool) (l : list A) :
  (0 < length (filter f l))%nat -> existsb f l = true.
Proof.
  intro H. apply existsb_exists.
  destruct (filter f l) as [|x rest] eqn:E; [cbn in H; lia|].
  exists x. apply filter_In. rewrite E. now left.
Qed.

(** X11. When [checkInfo] prints.  If no gate violates (the count it
    returns is 0) and either the report flag is off or a diode master is
    given, the run changes neither the log nor the violation list, verbose
    or not.  Without a diode master, a run that counts a violating pin
    always adds lines to the log. *)
Theorem checkInfo_silent_iff_clean (tech : Tech) (max_diode_count_per_gate : nat)
        (c : Checker) (verbose report : bool) (diode_mterm : option dbMTerm)
        (ratio_margin : Q) :
  let r := checkInfo tech max_diode_count_per_gate c verbose report diode_mterm
                     ratio_margin in
  (fst r = 0%nat -> report = false \/ diode_mterm <> None ->
   logger_ (snd r) = logger_ c
   /\ antenna_violations_ (snd r) = antenna_violations_ c)
  /\ ((0 < fst r)%nat -> diode_mterm = None ->
      (length (logger_ c) < length (logger_ (snd r)))%nat).
Proof.
  cbv zeta. rewrite checkInfo_count. unfold checkInfo. split.
  - intros Hz Hmode.
    pose proof (checkInfo_gates_clean tech (layer_info_ c) ratio_margin verbose report
                  diode_mterm max_diode_count_per_gate (info_ c)
                  (mk_state [] (antenna_violations_ c) (logger_ c) false false false)
                  0%nat Hmode eq_refl (filter_length_zero _ _ Hz)) as H.
    cbv zeta in H.
    destruct (fold_left _ (info_ c) _) as [st n]. cbn [fst] in H.
    destruct H as (A1 & A2 & A3 & _).
    cbn [log violations net_is_reported] in A1, A2, A3.
    rewrite A3. cbn. now split.
  - intros Hpos Hd.
    pose proof (checkInfo_gates_report tech (layer_info_ c) ratio_margin verbose report
                  diode_mterm max_diode_count_per_gate (info_ c)
                  (mk_state [] (antenna_violations_ c) (logger_ c) false false false)
                  0%nat Hd) as H.
    rewrite (filter_length_pos _ _ Hpos) in H.
    destruct (fold_left _ (info_ c) _) as [st n]. cbn [fst] in H.
    destruct H as (lines & E & S). cbn [log] in E.
    assert (Hlen : (0 < length lines)%nat).
    { destruct lines; [now contradiction (S eq_refl)|cbn; lia]. }
    destruct (net_is_reported st); cbn; rewrite E, ?length_app; cbn; lia.
Qed.

Lemma checkInfo_silent_iff_clean_witness :
  logger_ (snd (checkInfo pwl_only_tech 10 pwl_only_checker true false None 0)) = []
  /\ (0 < length (logger_ (snd (checkInfo pwl_only_tech 10 pwl_only_checker
                                          false false None 20))))%nat.
Proof.
  destruct (checkInfo_silent_iff_clean pwl_only_tech 10 pwl_only_checker
              true false None 0) as [H0 _].
  destruct (checkInfo_silent_iff_clean pwl_only_tech 10 pwl_only_checker
              false false None 20) as [_ H20].
  split.
  - apply H0; [vm_compute; reflexivity|left; reflexivity].
  - apply H20; [vm_compute; lia|reflexivity].
Defined.

(** X12. The count that [checkInfo] returns is the number of gates of the
    info map with a record, on a layer that has a rule, that fails one of
    its checks.  It is at most the number of gates, and the same whatever
    the verbose and report flags and the diode master. *)
Theorem checkInfo_counts_violating_gates (tech : Tech)
        (max_diode_count_per_gate : nat) (c : Checker) (verbose report : bool)
        (diode_mterm : option dbMTerm) (ratio_margin : Q) :
  let n := fst (checkInfo tech max_diode_count_per_gate c verbose report diode_mterm
                          ratio_margin) in
  n = length (filter (pin_violates tech ratio_margin) (info_ c))
  /\ (n <= length (info_ c))%nat
  /\ n = fst (checkInfo tech max_diode_count_per_gate c false false None ratio_margin).
Proof.
  cbv zeta. rewrite !checkInfo_count. split; [reflexivity|].
  split; [apply filter_length_le|reflexivity].
Qed.

(** ** What the diode loop changes *)

Lemma diode_step_frame (tech : Tech) (layer_info : LayerInfo) (l : Layer)
      (diode_diff_area : Q) (gates_size : nat) (info : InfoType) :
  let r := diode_step tech layer_info l diode_diff_area gates_size info in
  area r = area info /\ side_area r = side_area info
  /\ iterm_gate_area r = iterm_gate_area info /\ iterms r = iterms info
  /\ cumulative_fields r = cumulative_fields info
  /\ iterm_diff_area r
     = iterm_diff_area info + diode_diff_area * inject_Z (Z.of_nat gates_size).
Proof.
  unfold diode_step, calculateWirePar. cbn.
  destruct (Qneb _ 0); repeat split; reflexivity.
Qed.

Lemma diode_iter_frame (tech : Tech) (layer_info : LayerInfo) (l : Layer)
      (diode_diff_area : Q) (gates_size : nat) (info : InfoType) (n : nat) :
  let r := Nat.iter n (diode_step tech layer_info l diode_diff_area gates_size) info in
  area r = area info /\ side_area r = side_area info
  /\ iterm_gate_area r = iterm_gate_area info /\ iterms r = iterms info
  /\ cumulative_fields r = cumulative_fields info
  /\ iterm_diff_area r
     == iterm_diff_area info
        + inject_Z (Z.of_nat n) * (diode_diff_area * inject_Z (Z.of_nat gates_size)).
Proof.
  induction n as [|n IH]; cbv zeta.
  - cbn [Nat.iter nat_rect]. repeat split; try reflexivity.
    change (inject_Z (Z.of_nat 0)) with 0. ring.
  - cbv zeta in IH. destruct IH as (A & Sa & G & I & C & D).
    change (Nat.iter (S n) (diode_step tech layer_info l diode_diff_area gates_size)
                     info)
      with (diode_step tech layer_info l diode_diff_area gates_size
              (Nat.iter n (diode_step tech layer_info l diode_diff_area gates_size)
                        info)).
    destruct (diode_step_frame tech layer_info l diode_diff_area gates_size
                (Nat.iter n (diode_step tech layer_info l diode_diff_area gates_size)
                          info)) as (A' & Sa' & G' & I' & C' & D').
    split; [congruence|]. split; [congruence|]. split; [congruence|].
    split; [congruence|]. split; [congruence|].
    rewrite D', D, inject_nat_succ. ring.
Qed.

(** X13. The diode estimate of a record always ends, with a count of at
    most the cap plus one, and the count is 0 exactly when the record
    passes the PAR and the PSR checks (a record that fails only a
    cumulative check gets no diode).  The estimate changes the diffusion
    area alone among the areas: it adds, for each diode counted, the
    diffusion area of the diode times the number of iterms of the record;
    the area, side area, gate area, iterms and cumulative ratios stay. *)
Theorem diode_estimate_adds_diffusion (tech : Tech) (layer_info : LayerInfo)
        (antenna_rule : dbTechLayerAntennaRule) (ratio_margin : Q)
        (violation_layer : Layer) (diode_mterm : dbMTerm)
        (max_diode_count_per_gate : nat) (violation_info : InfoType) :
  exists r' n,
    diode_estimate tech layer_info antenna_rule ratio_margin violation_layer
                   diode_mterm max_diode_count_per_gate violation_info
    = Some (r', n, Nat.ltb max_diode_count_per_gate n)
    /\ (n <= S max_diode_count_per_gate)%nat
    /\ (n = 0%nat
        <-> par_psr_violation antenna_rule ratio_margin violation_info = false)
    /\ area r' = area violation_info /\ side_area r' = side_area violation_info
    /\ iterm_gate_area r' = iterm_gate_area violation_info
    /\ iterms r' = iterms violation_info
    /\ cumulative_fields r' = cumulative_fields violation_info
    /\ iterm_diff_area r'
       == iterm_diff_area violation_info
          + inject_Z (Z.of_nat n)
            * (diffArea diode_mterm
               * inject_Z (Z.of_nat (length (iterms violation_info)))).
Proof.
  destruct (diode_estimate_total tech layer_info antenna_rule ratio_margin
              violation_layer diode_mterm max_diode_count_per_gate violation_info)
    as (n & En & Hn & Hviol & Hend).
  eexists. exists n. split; [exact En|]. split; [exact Hn|]. split.
  - split.
    + intros ->. apply (Hend ltac:(lia)).
    + intro Hc. destruct n as [|n]; [reflexivity|].
      specialize (Hviol 0%nat ltac:(lia)). cbn [Nat.iter nat_rect] in Hviol.
      congruence.
  - apply diode_iter_frame.
Qed.

(** ** [checkNet] and [getAntennaViolations2] *)

(** X14. [checkNet] on a net without wire changes nothing.  On a net with
    wire it replaces the info map of the checker by the one of the net
    (what was there before plays no part), sets the first routing layer
    and the margin, adds to the pin count the number of violating gates of
    the net, and adds one to the net count exactly when that number is
    positive; the RuleStore stays. *)
Theorem checkNet_counts {Polygon : Type} {gtl : Gtl Polygon}
        (tech : Tech) (dbu_per_micron : Z) (max_diode_count_per_gate : nat)
        (c : Checker) (wire : option (NodeMap Polygon)) (verbose report : bool)
        (diode_mterm : option dbMTerm) (ratio_margin : Q)
        (net_violation_count pin_violation_count : nat) :
  let r := checkNet tech dbu_per_micron max_diode_count_per_gate c wire verbose
                    report diode_mterm ratio_margin net_violation_count
                    pin_violation_count in
  match wire with
  | None => r = (c, net_violation_count, pin_violation_count)
  | Some node_by_layer_map_ =>
      let info := net_info tech dbu_per_micron (layer_info_ c)
                           (findRoutingLayer tech 1) node_by_layer_map_ in
      let k := length (filter (pin_violates tech ratio_margin) info) in
      snd r = (pin_violation_count + k)%nat
      /\ snd (fst r)
         = (net_violation_count + if Nat.ltb 0 k then 1 else 0)%nat
      /\ info_ (fst (fst r)) = info
      /\ min_layer_ (fst (fst r)) = findRoutingLayer tech 1
      /\ layer_info_ (fst (fst r)) = layer_info_ c
      /\ ratio_margin_ (fst (fst r)) = ratio_margin
  end.
Proof.
  cbv zeta. unfold checkNet. destruct wire as [nodes|]; [|reflexivity].
  fold (net_info tech dbu_per_micron (layer_info_ c) (findRoutingLayer tech 1) nodes).
  set (c0 := mk_checker (layer_info_ c) (findRoutingLayer tech 1)
                        (net_info tech dbu_per_micron (layer_info_ c)
                                  (findRoutingLayer tech 1) nodes)
                        (ratio_margin_ c) (antenna_violations_ c) (logger_ c)).
  pose proof (checkInfo_count tech max_diode_count_per_gate c0 verbose report
                diode_mterm ratio_margin) as Hc.
  pose proof (checkInfo_frame tech max_diode_count_per_gate c0 verbose report
                diode_mterm ratio_margin) as Hf.
  cbv zeta in Hf.
  assert (Hm : ratio_margin_ (snd (checkInfo tech max_diode_count_per_gate c0 verbose
                                             report diode_mterm ratio_margin))
               = ratio_margin).
  { unfold checkInfo. destruct (fold_left _ (info_ c0) _) as [st n]. reflexivity. }
  destruct (checkInfo tech max_diode_count_per_gate c0 verbose report diode_mterm
                      ratio_margin) as [k c'].
  cbn [fst snd] in Hc, Hf, Hm. destruct Hf as (F1 & F2 & F3).
  subst k c0. cbn [info_ layer_info_ min_layer_] in *.
  destruct (Nat.ltb 0 (length (filter (pin_violates tech ratio_margin)
                                      (net_info tech dbu_per_micron (layer_info_ c)
                                                (findRoutingLayer tech 1) nodes))))
    eqn:E; cbn [fst snd]; repeat split; try assumption; try lia.
  apply Nat.ltb_ge in E. lia.
Qed.

(** The log has no part in what [checkInfo] counts and records. *)

Section LogIndependence.
Variable tech : Tech.
Variable layer_info : LayerInfo.
Variable ratio_margin : Q.
Variables verbose report : bool.
Variable diode_mterm : option dbMTerm.
Variable max_diode_count_per_gate : nat.

Lemma checkInfo_layer_same_but_log (gate : string) (st st' : CheckState)
      (it : Layer * InfoType) :
  same_but_log st st' ->
  same_but_log
    (checkInfo_layer tech layer_info ratio_margin verbose report diode_mterm
                     max_diode_count_per_gate gate st it)
    (checkInfo_layer tech layer_info ratio_margin verbose report diode_mterm
                     max_diode_count_per_gate gate st' it).
Proof.
  destruct st as [pa vs lg nr pr pv], st' as [pa' vs' lg' nr' pr' pv'].
  intros (H1 & H2 & H3 & H4 & H5). cbn in H1, H2, H3, H4, H5. subst pa' vs' nr' pr' pv'.
  destruct it as [l info]. unfold checkInfo_layer.
  destruct (getDefaultAntennaRule (layer_at tech l)) as [antenna_rule|];
    [|now repeat split].
  destruct (check_record tech antenna_rule ratio_margin l info false false)
    as [v lines].
  destruct ((v || report) && match diode_mterm with None => true | Some _ => false end);
    destruct v; try (now repeat split);
    destruct diode_mterm as [diode|]; try (now repeat split);
    cbn [say report_record set_pin_has_violation pin_added violations log
         net_is_reported pin_is_reported pin_has_violation];
    destruct (negb (Nat.eqb (routingLevel tech l) 0) && negb (pin_added_mem pa l gate));
    try (now repeat split);
    unfold repair_record;
    destruct (match diode_estimate _ _ _ _ _ _ _ _ with
              | Some r => r | None => _ end) as [[i n] w];
    now repeat split.
Qed.

Lemma checkInfo_layers_same_but_log (gate : string) (lm : LayerMap) :
  forall st st', same_but_log st st' ->
  same_but_log
    (fold_left (checkInfo_layer tech layer_info ratio_margin verbose report
                                diode_mterm max_diode_count_per_gate gate) lm st)
    (fold_left (checkInfo_layer tech layer_info ratio_margin verbose report
                                diode_mterm max_diode_count_per_gate gate) lm st').
Proof.
  induction lm as [|it rest IH]; intros st st' H; cbn [fold_left]; [exact H|].
  apply IH. now apply checkInfo_layer_same_but_log.
Qed.

Lemma checkInfo_gates_same_but_log (gis : InfoMap) :
  forall st st' n, same_but_log st st' ->
  let r := fold_left (checkInfo_gate tech layer_info ratio_margin verbose report
                                     diode_mterm max_diode_count_per_gate)
                     gis (st, n) in
  let r' := fold_left (checkInfo_gate tech layer_info ratio_margin verbose report
                                      diode_mterm max_diode_count_per_gate)
                      gis (st', n) in
  same_but_log (fst r) (fst r') /\ snd r = snd r'.
Proof.
  induction gis as [|gi rest IH]; intros st st' n H; cbn [fold_left];
    [split; [exact H|reflexivity]|].
  unfold checkInfo_gate at 2 4 6 8.
  assert (H0 : same_but_log
                 (mk_state (pin_added st) (violations st) (log st)
                           (net_is_reported st) false false)
                 (mk_state (pin_added st') (violations st') (log st')
                           (net_is_reported st') false false)).
  { destruct H as (H1 & H2 & H3 & _). now repeat split. }
  pose proof (checkInfo_layers_same_but_log (fst gi) (snd gi) _ _ H0) as Hl.
  destruct (fold_left _ (snd gi) _) as [pa vs lg nr pr pv].
  destruct (fold_left _ (snd gi) _) as [pa' vs' lg' nr' pr' pv'].
  destruct Hl as (H1 & H2 & H3 & H4 & H5). cbn in H1, H2, H3, H4, H5.
  subst pa' vs' nr' pr' pv'.
  cbn [pin_has_violation pin_is_reported]. cbv zeta in IH.
  destruct pr; apply IH; now repeat split.
Qed.

End LogIndependence.

Lemma checkInfo_forgets_log (tech : Tech) (max_diode_count_per_gate : nat)
      (c c' : Checker) (verbose report : bool) (diode_mterm : option dbMTerm)
      (ratio_margin : Q) :
  layer_info_ c' = layer_info_ c -> info_ c' = info_ c ->
  antenna_violations_ c' = antenna_violations_ c ->
  let r := checkInfo tech max_diode_count_per_gate c verbose report diode_mterm
                     ratio_margin in
  let r' := checkInfo tech max_diode_count_per_gate c' verbose report diode_mterm
                      ratio_margin in
  fst r' = fst r /\ antenna_violations_ (snd r') = antenna_violations_ (snd r).
Proof.
  intros Hl Hi Hv. cbv zeta. unfold checkInfo. rewrite Hl, Hi, Hv.
  pose proof (checkInfo_gates_same_but_log tech (layer_info_ c) ratio_margin verbose
                report diode_mterm max_diode_count_per_gate (info_ c)
                (mk_state [] (antenna_violations_ c) (logger_ c) false false false)
                (mk_state [] (antenna_violations_ c) (logger_ c') false false false)
                0%nat ltac:(now repeat split)) as H.
  cbv zeta in H.
  destruct (fold_left _ (info_ c) _) as [st n].
  destruct (fold_left _ (info_ c) _) as [st' n'].
  cbn [fst snd] in H. destruct H as [(_ & H2 & H3 & _) Hn]. subst n'.
  cbn [fst snd antenna_violations_]. split; [reflexivity|].
  rewrite H3. destruct (net_is_reported st'); cbn [say violations]; congruence.
Qed.

(** X15. [getAntennaViolations2] returns the violation list that it leaves
    in the checker, and the list is that of the net alone: it is the same
    whatever violations, info map, first routing layer, margin and log an
    earlier call left in the checker.  The list is empty for a special net,
    for a net without wire, and whenever no diode master is given;
    otherwise every Violation in it comes from a record of the info map of
    the net, on a metal layer, that fails the PAR or the PSR check under the
    margin given, lists the iterms of that record and counts between 1 and
    the cap plus one diodes. *)
Theorem getAntennaViolations2_result {Polygon : Type} {gtl : Gtl Polygon}
        (tech : Tech) (dbu_per_micron : Z) (max_diode_count_per_gate : nat)
        (c : Checker) (isSpecial : bool) (wire : option (NodeMap Polygon))
        (diode_mterm : option dbMTerm) (ratio_margin : Q) :
  let r := getAntennaViolations2 tech dbu_per_micron max_diode_count_per_gate c
                                 isSpecial wire diode_mterm ratio_margin in
  antenna_violations_ (snd r) = fst r
  /\ (forall min_layer info margin earlier_violations earlier_log,
        fst (getAntennaViolations2 tech dbu_per_micron max_diode_count_per_gate
               (mk_checker (layer_info_ c) min_layer info margin
                           earlier_violations earlier_log)
               isSpecial wire diode_mterm ratio_margin)
        = fst r)
  /\ (isSpecial = true \/ wire = None \/ diode_mterm = None -> fst r = [])
  /\ Forall (fun v => (1 <= diode_count_per_gate v)%nat
                      /\ (diode_count_per_gate v <= S max_diode_count_per_gate)%nat
                      /\ routing_level v <> 0%nat)
            (fst r)
  /\ match wire with
     | Some node_by_layer_map_ =>
         Forall (violation_from tech ratio_margin max_diode_count_per_gate
                   (record_of (net_info tech dbu_per_micron (layer_info_ c)
                                        (findRoutingLayer tech 1)
                                        node_by_layer_map_)))
                (fst r)
     | None => True
     end.
Proof.
  cbv zeta. unfold getAntennaViolations2.
  destruct isSpecial;
    [cbn; split; [reflexivity|]; split; [reflexivity|]; split; [reflexivity|];
     split; [constructor|destruct wire; [constructor|exact I]]|].
  unfold checkNet.
  destruct wire as [nodes|];
    [|cbn; split; [reflexivity|]; split; [reflexivity|]; split; [reflexivity|];
      split; [constructor|exact I]].
  cbn [layer_info_ ratio_margin_ antenna_violations_ logger_].
  fold (net_info tech dbu_per_micron (layer_info_ c) (findRoutingLayer tech 1) nodes).
  set (info := net_info tech dbu_per_micron (layer_info_ c) (findRoutingLayer tech 1)
                        nodes).
  set (c0 := mk_checker (layer_info_ c) (findRoutingLayer tech 1) info
                        (ratio_margin_ c) [] (logger_ c)).
  assert (Hind : forall margin earlier_log,
            fst (let '(c1, _, _) :=
                   let '(pin_violations, c1) :=
                     checkInfo tech max_diode_count_per_gate
                       (mk_checker (layer_info_ c) (findRoutingLayer tech 1) info
                                   margin [] earlier_log)
                       false false diode_mterm ratio_margin in
                   if Nat.ltb 0 pin_violations
                   then (c1, 1%nat, (0 + pin_violations)%nat) else (c1, 0%nat, 0%nat) in
                 (antenna_violations_ c1, c1))
            = antenna_violations_
                (snd (checkInfo tech max_diode_count_per_gate c0 false false
                                diode_mterm ratio_margin))).
  { intros margin earlier_log.
    destruct (checkInfo_forgets_log tech max_diode_count_per_gate c0
                (mk_checker (layer_info_ c) (findRoutingLayer tech 1) info
                            margin [] earlier_log)
                false false diode_mterm ratio_margin eq_refl eq_refl eq_refl)
      as [_ Hv].
    destruct (checkInfo tech max_diode_count_per_gate
                (mk_checker (layer_info_ c) (findRoutingLayer tech 1) info
                            margin [] earlier_log) false false diode_mterm
                ratio_margin) as [k1 c1].
    cbn [snd] in Hv. destruct (Nat.ltb 0 k1); exact Hv. }
  assert (Hres : forall k c',
            antenna_violations_
              (snd (let '(c1, _, _) :=
                      if Nat.ltb 0 k
                      then (c', 1%nat, (0 + k)%nat) else (c', 0%nat, 0%nat) in
                    (antenna_violations_ c1, c1)))
            = fst (let '(c1, _, _) :=
                      if Nat.ltb 0 k
                      then (c', 1%nat, (0 + k)%nat) else (c', 0%nat, 0%nat) in
                    (antenna_violations_ c1, c1))
            /\ fst (let '(c1, _, _) :=
                      if Nat.ltb 0 k
                      then (c', 1%nat, (0 + k)%nat) else (c', 0%nat, 0%nat) in
                    (antenna_violations_ c1, c1))
               = antenna_violations_ c').
  { intros k c'. destruct (Nat.ltb 0 k); split; reflexivity. }
  split; [|split].
  - destruct (checkInfo tech max_diode_count_per_gate c0 false false diode_mterm
                        ratio_margin) as [k c'].
    apply Hres.
  - intros min_layer info0 margin earlier_violations earlier_log.
    cbn [layer_info_ ratio_margin_ antenna_violations_ logger_].
    rewrite (Hind margin earlier_log).
    fold (net_info tech dbu_per_micron (layer_info_ c) (findRoutingLayer tech 1) nodes).
    fold info. fold c0.
    destruct (checkInfo tech max_diode_count_per_gate c0 false false diode_mterm
                        ratio_margin) as [k c'].
    symmetry. apply Hres.
  - destruct diode_mterm as [diode|].
    + pose proof (checkInfo_repair_state tech max_diode_count_per_gate c0 false false
                    diode ratio_margin) as H.
      unfold checkInfo.
      destruct (fold_left _ (info_ c0) _) as [st n]. cbn [fst] in H.
      destruct H as (_ & _ & ws & vs & _ & V & _ & _ & F).
      cbn [violations app] in V.
      set (c' := mk_checker (layer_info_ c0) (min_layer_ c0) (info_ c0) ratio_margin
                            (violations (if net_is_reported st
                                         then say st [Report_blank] else st))
                            (log (if net_is_reported st
                                  then say st [Report_blank] else st))).
      assert (V' : antenna_violations_ c' = vs).
      { subst c'. cbn [antenna_violations_]. destruct (net_is_reported st); exact V. }
      destruct (Hres n c') as [_ Hr]. rewrite Hr, V'.
      split; [intros [H|[H|H]]; discriminate H|]. split; [|exact F].
      eapply Forall_impl; [|exact F].
      intros v (H1 & H2 & H3 & _). now repeat split.
    + pose proof (checkInfo_violations tech max_diode_count_per_gate c0 false false
                    None ratio_margin) as H.
      destruct (checkInfo tech max_diode_count_per_gate c0 false false None
                          ratio_margin) as [k c'].
      cbn [snd] in H. destruct H as (vs & V & Hnil).
      rewrite (Hnil eq_refl) in V. cbn in V.
      destruct (Hres k c') as [_ Hr]. rewrite Hr, V.
      split; [reflexivity|]. split; constructor.
Qed.

(** ** The nodes of the layered graph *)

Section NodeIds.
Context {Polygon : Type} {gtl : Gtl Polygon}.
Variable tech : Tech.

Lemma all_nodes_snoc (m : NodeMap Polygon) (l : Layer) (x : GraphNode Polygon) :
  Permutation (all_nodes (set_nodes m l (nodes_at m l ++ [x]))) (x :: all_nodes m).
Proof.
  induction m as [|[k ns] rest IH]; cbn [set_nodes nodes_at].
  - cbn. apply Permutation_refl.
  - destruct (Nat.eqb k l).
    + unfold all_nodes. cbn [flat_map snd]. rewrite <- app_assoc. cbn [app].
      apply Permutation_sym, Permutation_middle.
    + unfold all_nodes in *. cbn [flat_map snd].
      eapply Permutation_trans; [apply Permutation_app_head, IH|].
      apply Permutation_sym, Permutation_middle.
Qed.

Lemma add_nodes_ids (l : Layer) (pols : list Polygon) :
  forall (m : NodeMap Polygon) (c : nat),
  Permutation (map id (all_nodes m)) (seq 0 c) ->
  Permutation (map id (all_nodes (fst (fold_left (add_node tech l) pols (m, c)))))
              (seq 0 (snd (fold_left (add_node tech l) pols (m, c))))
  /\ snd (fold_left (add_node tech l) pols (m, c)) = (c + length pols)%nat.
Proof.
  induction pols as [|p rest IH]; intros m c H; cbn [fold_left].
  - cbn. split; [exact H|lia].
  - cbn [add_node].
    destruct (IH (set_nodes m l
                    (nodes_at m l
                     ++ [mk_node c (Nat.eqb (routingLevel tech l) 0) p [] []]))
                 (S c)) as [H1 H2].
    + eapply Permutation_trans; [apply Permutation_map, all_nodes_snoc|].
      cbn [map id]. rewrite seq_S. cbn [Nat.add].
      eapply Permutation_trans; [apply perm_skip, H|].
      apply Permutation_cons_append.
    + split; [exact H1|]. rewrite H2. cbn [length]. lia.
Qed.

Lemma init_nodes_ids_from (s : list (Layer * list Polygon)) :
  forall (m : NodeMap Polygon) (c : nat),
  Permutation (map id (all_nodes m)) (seq 0 c) ->
  Permutation (map id (all_nodes (fst (fold_left (add_layer_nodes tech) s (m, c)))))
              (seq 0 (snd (fold_left (add_layer_nodes tech) s (m, c))))
  /\ snd (fold_left (add_layer_nodes tech) s (m, c))
     = (c + length (flat_map snd s))%nat.
Proof.
  induction s as [|[l pols] rest IH]; intros m c H; cbn [fold_left].
  - cbn. split; [exact H|lia].
  - unfold add_layer_nodes at 2 4 6. cbn [fst snd].
    destruct (add_nodes_ids l pols m c H) as [H1 H2].
    destruct (fold_left (add_node tech l) pols (m, c)) as [m1 c1].
    cbn [fst snd] in H1, H2.
    destruct (IH m1 c1 H1) as [H3 H4].
    split; [exact H3|]. rewrite H4, H2. cbn [flat_map snd].
    rewrite length_app. lia.
Qed.

Lemma add_nodes_fresh (P : Layer -> GraphNode Polygon -> Prop) (l : Layer)
      (pols : list Polygon) :
  (forall c p, P l (mk_node c (Nat.eqb (routingLevel tech l) 0) p [] [])) ->
  forall (m : NodeMap Polygon) (c : nat),
  (forall l' node, In node (nodes_at m l') -> P l' node) ->
  forall l' node,
    In node (nodes_at (fst (fold_left (add_node tech l) pols (m, c))) l') ->
    P l' node.
Proof.
  intro Hnew. induction pols as [|p rest IH]; intros m c H; cbn [fold_left].
  - exact H.
  - cbn [add_node]. apply IH.
    intros l' node. rewrite nodes_at_set_nodes.
    destruct (Nat.eqb l l') eqn:E; [|apply H].
    apply Nat.eqb_eq in E. subst l'. rewrite in_app_iff.
    intros [Hin|[<-|[]]]; [now apply H|apply Hnew].
Qed.

Lemma init_nodes_fresh_from (P : Layer -> GraphNode Polygon -> Prop)
      (s : list (Layer * list Polygon)) :
  (forall l c p, P l (mk_node c (Nat.eqb (routingLevel tech l) 0) p [] [])) ->
  forall (m : NodeMap Polygon) (c : nat),
  (forall l' node, In node (nodes_at m l') -> P l' node) ->
  forall l' node,
    In node (nodes_at (fst (fold_left (add_layer_nodes tech) s (m, c))) l') ->
    P l' node.
Proof.
  intro Hnew. induction s as [|[l pols] rest IH]; intros m c H; cbn [fold_left].
  - exact H.
  - unfold add_layer_nodes at 2. cbn [fst snd].
    pose proof (add_nodes_fresh P l pols (Hnew l) m c H) as H1.
    destruct (fold_left (add_node tech l) pols (m, c)) as [m1 c1].
    cbn [fst] in H1. now apply IH.
Qed.

Lemma init_nodes_fresh (s : list (Layer * list Polygon)) (l : Layer)
      (node : GraphNode Polygon) :
  In node (nodes_at (fst (init_nodes tech s)) l) ->
  isVia node = Nat.eqb (routingLevel tech l) 0
  /\ low_adj node = [] /\ gates node = [].
Proof.
  apply (init_nodes_fresh_from
           (fun l node => isVia node = Nat.eqb (routingLevel tech l) 0
                          /\ low_adj node = [] /\ gates node = []) s).
  - intros l0 c p. cbn. auto.
  - intros l' n []. 
Qed.

End NodeIds.

(** X16. The first loop of [buildLayerMaps] numbers the islands densely:
    the ids of the nodes are exactly 0, 1, ..., node_count_ - 1, each once,
    and node_count_ is the number of polygons of the net.  A new node is a
    via exactly when its layer has routing level 0, and it starts without
    lower neighbours and without gates. *)
Theorem init_nodes_ids {Polygon : Type} {gtl : Gtl Polygon}
        (tech : Tech) (set_by_layer : list (Layer * list Polygon)) :
  Permutation (map id (all_nodes (fst (init_nodes tech set_by_layer))))
              (seq 0 (snd (init_nodes tech set_by_layer)))
  /\ snd (init_nodes tech set_by_layer) = length (flat_map snd set_by_layer)
  /\ forall l node,
       In node (nodes_at (fst (init_nodes tech set_by_layer)) l) ->
       isVia node = Nat.eqb (routingLevel tech l) 0
       /\ low_adj node = [] /\ gates node = [].
Proof.
  destruct (init_nodes_ids_from tech set_by_layer [] 0%nat
              (Permutation_refl _)) as [H1 H2].
  split; [exact H1|]. split; [exact H2|].
  intros l node. apply init_nodes_fresh.
Qed.

Lemma init_nodes_ids_witness :
  map id (all_nodes (fst (init_nodes (s2_tech 0) three_upper_set)))
  = [0; 1; 2; 3; 4]%nat
  /\ snd (init_nodes (s2_tech 0) three_upper_set) = 5%nat.
Proof.
  destruct (init_nodes_ids (s2_tech 0) three_upper_set) as (_ & H & _).
  split; [vm_compute; reflexivity|]. rewrite H. reflexivity.
Defined.

(** ** The adjacency of the layered graph stays in bounds *)

Section GraphBounds.
Context {Polygon : Type} {gtl : Gtl Polygon}.
Variable tech : Tech.
Variable m0 : NodeMap Polygon.

Lemma update_nth_core (i v : nat) (ns : list (GraphNode Polygon)) :
  map node_core (update_nth i (add_low_adj v) ns) = map node_core ns.
Proof.
  revert i. induction ns as [|n rest IH]; intros [|i]; cbn; try reflexivity.
  now rewrite IH.
Qed.

Lemma update_nth_in (i v : nat) (ns : list (GraphNode Polygon))
      (node : GraphNode Polygon) :
  In node (update_nth i (add_low_adj v) ns) ->
  In node ns \/ exists n0, In n0 ns /\ node = add_low_adj v n0.
Proof.
  revert i. induction ns as [|n rest IH]; intros [|i]; cbn; try tauto.
  - intros [H|H]; [right; exists n; split; [now left|now symmetry]|left; now right].
  - intros [H|H]; [left; now left|].
    destruct (IH i H) as [H'|(n0 & H1 & H2)]; [left; now right|].
    right. exists n0. split; [now right|exact H2].
Qed.

Lemma keeps_nodes_length (m : NodeMap Polygon) (l : Layer) :
  keeps_nodes tech m0 m -> length (nodes_at m l) = length (nodes_at m0 l).
Proof.
  intros [H _]. specialize (H l).
  apply (f_equal (@length _)) in H. now rewrite !length_map in H.
Qed.

Lemma push_low_adj_keeps (m : NodeMap Polygon) (l : Layer) (i v : nat) :
  keeps_nodes tech m0 m ->
  (exists lower, getLowerLayer tech l = Some lower
                 /\ (v < length (nodes_at m0 lower))%nat) ->
  keeps_nodes tech m0 (push_low_adj m l i v).
Proof.
  intros [Hc Ha] Hv. unfold push_low_adj. split.
  - intro l'. rewrite nodes_at_set_nodes.
    destruct (Nat.eqb l l') eqn:E; [|apply Hc].
    apply Nat.eqb_eq in E. subst l'. rewrite update_nth_core. apply Hc.
  - intros l' node v'. rewrite nodes_at_set_nodes.
    destruct (Nat.eqb l l') eqn:E; [|apply Ha].
    apply Nat.eqb_eq in E. subst l'. intros Hin Hv'.
    apply update_nth_in in Hin. destruct Hin as [Hin|(n0 & Hin & ->)].
    + now apply (Ha l node).
    + cbn [add_low_adj low_adj] in Hv'. apply in_app_iff in Hv'.
      destruct Hv' as [Hv'|[<-|[]]]; [now apply (Ha l n0)|exact Hv].
Qed.

Lemma push_upper_keeps (via_layer via_index : nat) (us : list nat) :
  (via_index < length (nodes_at m0 via_layer))%nat ->
  forall m : NodeMap Polygon,
  keeps_nodes tech m0 m ->
  keeps_nodes tech m0
    (fold_left (fun m up_index =>
                  push_low_adj_opt m (getUpperLayer tech via_layer) up_index
                                   via_index) us m).
Proof.
  intro Hvi. induction us as [|u rest IH]; intros m Hk; cbn [fold_left];
    [exact Hk|].
  apply IH. unfold push_low_adj_opt, getUpperLayer.
  destruct (Nat.ltb (S via_layer) (length tech)); [|exact Hk].
  apply push_low_adj_keeps; [exact Hk|].
  exists via_layer. split; [reflexivity|exact Hvi].
Qed.

Lemma push_lower_keeps (via_layer via_index : nat) (ws : list nat) :
  (forall w, In w ws ->
     exists lower, getLowerLayer tech via_layer = Some lower
                   /\ (w < length (nodes_at m0 lower))%nat) ->
  forall m : NodeMap Polygon,
  keeps_nodes tech m0 m ->
  keeps_nodes tech m0
    (fold_left (fun m low_index => push_low_adj m via_layer via_index low_index)
               ws m).
Proof.
  induction ws as [|w rest IH]; intros Hws m Hk; cbn [fold_left]; [exact Hk|].
  apply IH; [intros w' Hin; apply Hws; now right|].
  apply push_low_adj_keeps; [exact Hk|]. apply Hws. now left.
Qed.

Lemma connect_via_keeps (via_layer via_index : nat) (via_it : Polygon)
      (m : NodeMap Polygon) (lg : list LogEvent) :
  (via_index < length (nodes_at m0 via_layer))%nat ->
  keeps_nodes tech m0 m ->
  keeps_nodes tech m0 (fst (connect_via tech via_layer via_index via_it (m, lg))).
Proof.
  intros Hvi Hk. unfold connect_via.
  set (lower_index :=
         findNodesWithIntersection (nodes_at_opt m (getLowerLayer tech via_layer))
                                   via_it).
  set (upper_index :=
         findNodesWithIntersection (nodes_at_opt m (getUpperLayer tech via_layer))
                                   via_it).
  assert (Hlow : forall w, In w lower_index ->
            exists lower, getLowerLayer tech via_layer = Some lower
                          /\ (w < length (nodes_at m0 lower))%nat).
  { intros w Hw. subst lower_index. apply findNodes_bound in Hw.
    destruct (getLowerLayer tech via_layer) as [lower|]; [|cbn in Hw; lia].
    exists lower. split; [reflexivity|]. cbn [nodes_at_opt] in Hw.
    now rewrite <- (keeps_nodes_length m lower Hk). }
  assert (Hup : keeps_nodes tech m0
            (fst (if Nat.leb (length upper_index) 2
                  then (fold_left (fun m up_index =>
                                     push_low_adj_opt m (getUpperLayer tech via_layer)
                                                      up_index via_index)
                                  upper_index m, lg)
                  else if Nat.ltb 2 (length upper_index)
                       then (m, lg ++ [Error_via_upper via_layer])
                       else (m, lg)))).
  { destruct (Nat.leb (length upper_index) 2); cbn [fst];
      [now apply push_upper_keeps|].
    destruct (Nat.ltb 2 (length upper_index)); exact Hk. }
  destruct (if Nat.leb (length upper_index) 2 then _ else _) as [m1 lg1].
  cbn [fst] in Hup.
  destruct (Nat.eqb (length lower_index) 1); cbn [fst];
    [now apply push_lower_keeps|].
  destruct (Nat.ltb 2 (length lower_index)); exact Hup.
Qed.

Lemma connect_vias_keeps (via_layer : Layer) (vias : list Polygon) :
  forall via_index acc,
  (via_index + length vias <= length (nodes_at m0 via_layer))%nat ->
  keeps_nodes tech m0 (fst acc) ->
  keeps_nodes tech m0 (fst (connect_vias tech via_layer via_index vias acc)).
Proof.
  induction vias as [|via_it rest IH]; intros via_index [m lg] Hle Hk;
    cbn [connect_vias]; [exact Hk|].
  cbn [length] in Hle. apply IH; [lia|].
  apply connect_via_keeps; [lia|exact Hk].
Qed.

Lemma connect_layers_keeps (s : list (Layer * list Polygon)) :
  (forall l ps, In (l, ps) s -> (length ps <= length (nodes_at m0 l))%nat) ->
  forall acc,
  keeps_nodes tech m0 (fst acc) ->
  keeps_nodes tech m0 (fst (fold_left (connect_layer tech) s acc)).
Proof.
  induction s as [|[l ps] rest IH]; intros Hs acc Hk; cbn [fold_left];
    [exact Hk|].
  apply IH; [intros l' ps' Hin; apply Hs; now right|].
  unfold connect_layer. cbn [fst snd].
  destruct (Nat.eqb (routingLevel tech l) 0); [|exact Hk].
  apply connect_vias_keeps; [|exact Hk].
  cbn [Nat.add]. apply Hs. now left.
Qed.

End GraphBounds.

Lemma pols_of_length {Polygon : Type} (s : list (Layer * list Polygon)) (l : Layer)
      (ps : list Polygon) :
  In (l, ps) s -> (length ps <= length (pols_of s l))%nat.
Proof.
  induction s as [|[k qs] rest IH]; [intros []|].
  unfold pols_of. cbn [flat_map fst snd In]. rewrite length_app.
  intros [H|H].
  - injection H as -> ->. rewrite Nat.eqb_refl. lia.
  - specialize (IH H). unfold pols_of in IH. lia.
Qed.

(** X17. [buildLayerMaps] up to [saveGates] leaves every island as the
    first loop created it, except for its lower neighbours: same id, via
    flag, polygon and gates, in the same order on every layer, and the
    polygons of a layer are those of its polygon set.  Every lower
    neighbour stored in a node of a layer is a valid index into the nodes
    of the layer just below (which therefore exists), so following
    [low_adj] never leaves the node vectors. *)
Theorem buildLayerMaps_keeps_nodes {Polygon : Type} {gtl : Gtl Polygon}
        (tech : Tech) (set_by_layer : list (Layer * list Polygon)) :
  let m0 := fst (init_nodes tech set_by_layer) in
  let m := fst (buildLayerMaps tech set_by_layer) in
  (forall l, map node_core (nodes_at m l) = map node_core (nodes_at m0 l))
  /\ (forall l, map pol (nodes_at m l) = pols_of set_by_layer l)
  /\ (forall l node v,
        In node (nodes_at m l) -> In v (low_adj node) ->
        exists lower, getLowerLayer tech l = Some lower
                      /\ (v < length (nodes_at m lower))%nat).
Proof.
  cbv zeta.
  assert (Hpol : forall l, map pol (nodes_at (fst (init_nodes tech set_by_layer)) l)
                           = pols_of set_by_layer l).
  { intro l. exact (init_nodes_shape tech set_by_layer [] 0%nat l). }
  assert (H0 : keeps_nodes tech (fst (init_nodes tech set_by_layer))
                           (fst (init_nodes tech set_by_layer))).
  { split; [reflexivity|]. intros l node v Hin Hv.
    apply init_nodes_fresh in Hin. destruct Hin as (_ & Hadj & _).
    rewrite Hadj in Hv. destruct Hv. }
  assert (Hk : keeps_nodes tech (fst (init_nodes tech set_by_layer))
                           (fst (buildLayerMaps tech set_by_layer))).
  { unfold buildLayerMaps. apply connect_layers_keeps; [|exact H0].
    intros l ps Hin.
    rewrite <- (length_map pol), Hpol. now apply pols_of_length. }
  split; [apply Hk|]. split.
  - intro l. rewrite <- Hpol. destruct Hk as [Hc _]. specialize (Hc l).
    apply (f_equal (map (fun c : nat * bool * Polygon * list PinType =>
                           snd (fst c)))) in Hc.
    rewrite !map_map in Hc. exact Hc.
  - intros l node v Hin Hv. destruct Hk as [Hc Ha].
    destruct (Ha l node v Hin Hv) as (lower & Hl & Hlt).
    exists lower. split; [exact Hl|].
    rewrite (keeps_nodes_length tech _ _ lower (conj Hc Ha)). exact Hlt.
Qed.

Lemma buildLayerMaps_keeps_nodes_witness :
  Forall (fun node => Forall (fun v => (v < 1)%nat) (low_adj node))
         (nodes_at (fst (buildLayerMaps (s2_tech 0) one_via_set)) M2).
Proof.
  apply Forall_forall. intros node Hin. apply Forall_forall. intros v Hv.
  destruct (buildLayerMaps_keeps_nodes (s2_tech 0) one_via_set) as (_ & _ & H).
  destruct (H M2 node v Hin Hv) as (lower & Hl & Hlt).
  injection Hl as <-. exact Hlt.
Defined.

(** * The wire-graph engine *)

(** ** Comparisons respect the equality of rationals *)

Lemma Qle_bool_compat (a a' b b' : Q) :
  a == a' -> b == b' -> Qle_bool a b = Qle_bool a' b'.
Proof.
  intros Ha Hb.
  destruct (Qle_bool a b) eqn:E1, (Qle_bool a' b') eqn:E2; try reflexivity.
  - apply Qle_bool_iff in E1. rewrite Ha, Hb in E1. apply Qle_bool_iff in E1.
    congruence.
  - apply Qle_bool_iff in E2. rewrite <- Ha, <- Hb in E2. apply Qle_bool_iff in E2.
    congruence.
Qed.

Lemma Qgtb_compat (a a' b b' : Q) : a == a' -> b == b' -> Qgtb a b = Qgtb a' b'.
Proof. intros Ha Hb. unfold Qgtb. f_equal. now apply Qle_bool_compat. Qed.

Lemma Qneb_compat (a a' b b' : Q) : a == a' -> b == b' -> Qneb a b = Qneb a' b'.
Proof.
  intros Ha Hb. unfold Qneb. f_equal.
  destruct (Qeq_bool a b) eqn:E1, (Qeq_bool a' b') eqn:E2; try reflexivity.
  - apply Qeq_bool_iff in E1. rewrite Ha, Hb in E1. apply Qeq_bool_iff in E1.
    congruence.
  - apply Qeq_bool_iff in E2. rewrite <- Ha, <- Hb in E2. apply Qeq_bool_iff in E2.
    congruence.
Qed.

Lemma margin_zero_keeps (x : Q) : x * (1 - 0 / 100) == x.
Proof. rewrite margin_zero_scale. ring. Qed.

Lemma checkPAR_at_zero (antenna_rule : dbTechLayerAntennaRule) (info : InfoType)
      (verbose report : bool) :
  fst (checkPAR antenna_rule 0 info verbose report)
  = (if Qneb (getPAR antenna_rule) 0
     then Qgtb (PAR info) (getPAR antenna_rule)
     else Qneb (getPwlFactor (getDiffPAR antenna_rule) (iterm_diff_area info) 0) 0
          && Qgtb (diff_PAR info)
                  (getPwlFactor (getDiffPAR antenna_rule) (iterm_diff_area info) 0),
     negb (Qneb (getPAR antenna_rule) 0)
     && Qneb (getPwlFactor (getDiffPAR antenna_rule) (iterm_diff_area info) 0) 0).
Proof.
  unfold checkPAR.
  rewrite (Qneb_compat _ (getPAR antenna_rule) 0 0 (margin_zero_keeps _) (Qeq_refl 0)).
  rewrite (Qneb_compat _ (getPwlFactor (getDiffPAR antenna_rule)
                                       (iterm_diff_area info) 0) 0 0
                       (margin_zero_keeps _) (Qeq_refl 0)).
  rewrite (Qgtb_compat (PAR info) (PAR info) _ (getPAR antenna_rule)
                       (Qeq_refl _) (margin_zero_keeps _)).
  rewrite (Qgtb_compat (diff_PAR info) (diff_PAR info) _
                       (getPwlFactor (getDiffPAR antenna_rule)
                                     (iterm_diff_area info) 0)
                       (Qeq_refl _) (margin_zero_keeps _)).
  destruct (Qneb (getPAR antenna_rule) 0); [reflexivity|].
  destruct (Qneb (getPwlFactor (getDiffPAR antenna_rule) (iterm_diff_area info) 0) 0);
    reflexivity.
Qed.

Lemma checkPSR_at_zero (antenna_rule : dbTechLayerAntennaRule) (info : InfoType)
      (verbose report : bool) :
  fst (checkPSR antenna_rule 0 info verbose report)
  = (if Qneb (getPSR antenna_rule) 0
     then Qgtb (PSR info) (getPSR antenna_rule)
     else Qneb (getPwlFactor (getDiffPSR antenna_rule) (iterm_diff_area info) 0) 0
          && Qgtb (diff_PSR info)
                  (getPwlFactor (getDiffPSR antenna_rule) (iterm_diff_area info) 0),
     negb (Qneb (getPSR antenna_rule) 0)
     && Qneb (getPwlFactor (getDiffPSR antenna_rule) (iterm_diff_area info) 0) 0).
Proof.
  unfold checkPSR.
  rewrite (Qneb_compat _ (getPSR antenna_rule) 0 0 (margin_zero_keeps _) (Qeq_refl 0)).
  rewrite (Qneb_compat _ (getPwlFactor (getDiffPSR antenna_rule)
                                       (iterm_diff_area info) 0) 0 0
                       (margin_zero_keeps _) (Qeq_refl 0)).
  rewrite (Qgtb_compat (PSR info) (PSR info) _ (getPSR antenna_rule)
                       (Qeq_refl _) (margin_zero_keeps _)).
  rewrite (Qgtb_compat (diff_PSR info) (diff_PSR info) _
                       (getPwlFactor (getDiffPSR antenna_rule)
                                     (iterm_diff_area info) 0)
                       (Qeq_refl _) (margin_zero_keeps _)).
  destruct (Qneb (getPSR antenna_rule) 0); [reflexivity|].
  destruct (Qneb (getPwlFactor (getDiffPSR antenna_rule) (iterm_diff_area info) 0) 0);
    reflexivity.
Qed.

(** X18. The wire-graph engine and the polygon engine take the same PAR and
    PSR decisions.  On the ratios of a [PARinfo], [checkViolation] under a
    margin is the disjunction of the verdicts of [checkPAR] and [checkPSR]
    under that margin; [checkWirePar] returns that disjunction at margin 0
    together with the disjunction of their "checked" flags, whatever its
    report and verbose flags; and [checkViaPar] returns the verdict of
    [checkPAR] at margin 0.  On a layer without rule all three return
    false. *)
Theorem wire_graph_par_decision (tech : Tech) (ratio_margin_ : Q)
        (AntennaRatio : ARinfo) (layer : Layer) (report verbose file_open : bool) :
  let p := par_info AntennaRatio in
  checkViolation tech ratio_margin_ p layer
  = match getDefaultAntennaRule (layer_at tech layer) with
    | Some antenna_rule =>
        par_psr_violation antenna_rule ratio_margin_ (info_of_par p)
    | None => false
    end
  /\ fst (checkWirePar tech AntennaRatio report verbose file_open)
     = match getDefaultAntennaRule (layer_at tech (wire_root_layer p)) with
       | Some antenna_rule =>
           (par_psr_violation antenna_rule 0 (info_of_par p),
            snd (fst (checkPAR antenna_rule 0 (info_of_par p) false false))
            || snd (fst (checkPSR antenna_rule 0 (info_of_par p) false false)))
       | None => (false, false)
       end
  /\ fst (checkViaPar tech AntennaRatio layer report verbose file_open)
     = match getDefaultAntennaRule (layer_at tech layer) with
       | Some antenna_rule =>
           fst (fst (checkPAR antenna_rule 0 (info_of_par p) false false))
       | None => false
       end.
Proof.
  cbv zeta. split; [|split].
  - unfold checkViolation, par_psr_violation.
    destruct (getDefaultAntennaRule (layer_at tech layer)) as [antenna_rule|];
      [|reflexivity].
    rewrite checkPAR_verdict, checkPSR_verdict. cbn [info_of_par PAR PSR diff_PAR
      diff_PSR iterm_diff_area].
    destruct (Qneb (getPAR antenna_rule * (1 - ratio_margin_ / 100)) 0);
      destruct (Qneb (getPSR antenna_rule * (1 - ratio_margin_ / 100)) 0);
      repeat match goal with
             | |- context [Qneb ?a ?b] => destruct (Qneb a b)
             | |- context [Qgtb ?a ?b] => destruct (Qgtb a b)
             end; reflexivity.
  - unfold checkWirePar, par_psr_violation.
    destruct (getDefaultAntennaRule
                (layer_at tech (wire_root_layer (par_info AntennaRatio))))
      as [antenna_rule|]; [|reflexivity].
    rewrite checkPAR_at_zero, checkPSR_at_zero. cbn [fst snd info_of_par PAR PSR
      diff_PAR diff_PSR iterm_diff_area].
    repeat match goal with
           | |- context [Qneb ?a ?b] => destruct (Qneb a b)
           | |- context [Qgtb ?a ?b] => destruct (Qgtb a b)
           end; reflexivity.
  - unfold checkViaPar.
    destruct (getDefaultAntennaRule (layer_at tech layer)) as [antenna_rule|];
      [|reflexivity].
    rewrite checkPAR_at_zero. cbn [fst snd info_of_par PAR PSR
      diff_PAR diff_PSR iterm_diff_area].
    repeat match goal with
           | |- context [Qneb ?a ?b] => destruct (Qneb a b)
           | |- context [Qgtb ?a ?b] => destruct (Qgtb a b)
           end; reflexivity.
Qed.

(** X19. [calculateParInfo] computes the four partial ratios of a wire root
    by the formulas of [calculateWirePar]: on a layer with a rule and with
    a gate area that is not zero, the ratios it stores are those that
    [calculateWirePar] stores for the same areas.  On a layer without rule,
    or when the gate area is zero, it leaves the [PARinfo] as it was, and
    in every case it keeps the areas and the iterms. *)
Theorem calculateParInfo_ratios (tech : Tech) (layer_info : LayerInfo)
        (dbu_per_micron : Z) (getWidth : Layer -> Z) (p : PARinfo) :
  let p' := calculateParInfo tech layer_info dbu_per_micron getWidth p in
  area_fields (info_of_par p') = area_fields (info_of_par p)
  /\ wire_root_layer p' = wire_root_layer p
  /\ (getDefaultAntennaRule (layer_at tech (wire_root_layer p)) = None
      \/ par_iterm_gate_area p == 0 -> p' = p)
  /\ (getDefaultAntennaRule (layer_at tech (wire_root_layer p)) <> None ->
      ~ par_iterm_gate_area p == 0 ->
      info_of_par p'
      = calculateWirePar tech layer_info (wire_root_layer p) (info_of_par p)).
Proof.
  cbv zeta. unfold calculateParInfo, calculateWirePar, reduce_factor.
  destruct (getDefaultAntennaRule (layer_at tech (wire_root_layer p)))
    as [antenna_rule|].
  - destruct (Qeq_bool (par_iterm_gate_area p) 0) eqn:Eg.
    + apply Qeq_bool_iff in Eg.
      split; [reflexivity|]. split; [reflexivity|]. split; [reflexivity|].
      intros _ H. now contradiction H.
    + assert (Hg : ~ par_iterm_gate_area p == 0).
      { intro H. apply Qeq_bool_iff in H. congruence. }
      cbn [info_of_par iterm_diff_area].
      destruct (Qneb (par_iterm_diff_area p) 0);
        (split; [reflexivity|]; split; [reflexivity|]; split;
         [intros [H|H]; [discriminate H|now contradiction Hg]
         |intros _ _; reflexivity]).
  - split; [reflexivity|]. split; [reflexivity|]. split; [reflexivity|].
    intros H. now contradiction H.
Qed.

Lemma Qlt_div_r_iff (a b c : Q) : 0 < c -> (a < b / c <-> a * c < b).
Proof.
  intro Hc. split; intro H.
  - apply (Qmult_lt_r _ _ c Hc) in H.
    assert (E : b / c * c == b)
      by (field; intro E; rewrite E in Hc; apply (Qlt_irrefl 0 Hc)).
    rewrite E in H. exact H.
  - apply Qlt_shift_div_l; assumption.
Qed.

Lemma Qlt_div_l_iff (a b c : Q) : 0 < c -> (a / c < b <-> a < b * c).
Proof.
  intro Hc. split; intro H.
  - apply (Qmult_lt_r _ _ c Hc) in H.
    assert (E : a / c * c == a)
      by (field; intro E; rewrite E in Hc; apply (Qlt_irrefl 0 Hc)).
    rewrite E in H. exact H.
  - apply Qlt_shift_div_r; assumption.
Qed.

Lemma wire_length_threshold (T f A G w : Q) :
  0 < G -> 0 < f -> 0 < w ->
  (T < f * A / G <-> T * G / f / w - w < A / w - w).
Proof.
  intros HG Hf Hw.
  rewrite (Qlt_div_r_iff T (f * A) G HG).
  assert (H1 : T * G / f / w - w < A / w - w <-> T * G / f / w < A / w)
    by (split; intro; lra).
  rewrite H1.
  rewrite (Qlt_div_l_iff (T * G / f) (A / w) w Hw).
  assert (E : A / w * w == A) by (field; lra).
  rewrite E.
  rewrite (Qlt_div_l_iff (T * G) A f Hf).
  split; intro; lra.
Qed.

Lemma side_length_threshold (T f S G w t : Q) :
  0 < G -> 0 < f -> 0 < w -> 0 < t ->
  (T < f * S / G
   <-> (T * G / f - 2 * w * t) / (2 * t) - w < (S - 2 * w * t) / (2 * t) - w).
Proof.
  intros HG Hf Hw Ht.
  rewrite (Qlt_div_r_iff T (f * S) G HG).
  assert (H1 : (T * G / f - 2 * w * t) / (2 * t) - w
               < (S - 2 * w * t) / (2 * t) - w
               <-> (T * G / f - 2 * w * t) / (2 * t) < (S - 2 * w * t) / (2 * t))
    by (split; intro; lra).
  rewrite H1.
  assert (H2t : 0 < 2 * t) by lra.
  rewrite (Qlt_div_l_iff _ _ (2 * t) H2t).
  assert (E : (S - 2 * w * t) / (2 * t) * (2 * t) == S - 2 * w * t) by (field; lra).
  rewrite E.
  assert (H3 : T * G / f - 2 * w * t < S - 2 * w * t <-> T * G / f < S)
    by (split; intro; lra).
  rewrite H3.
  rewrite (Qlt_div_l_iff (T * G) S f Hf).
  split; intro; lra.
Qed.

(** X20. The wire lengths that [calculateParInfo] stores say the same as
    the fixed thresholds: with a positive gate area, wire width, thickness
    and area factors, the PAR of a wire root exceeds the PAR threshold of
    the rule exactly when its wire length exceeds [max_wire_length_PAR],
    and its PSR exceeds the PSR threshold exactly when its side wire
    length exceeds [max_wire_length_PSR]; the factors are the diffusion
    factors when a diffusion area is connected and the plain factors
    otherwise. *)
Theorem calculateParInfo_wire_length (tech : Tech) (layer_info : LayerInfo)
        (dbu_per_micron : Z) (getWidth : Layer -> Z) (p : PARinfo)
        (antenna_rule : dbTechLayerAntennaRule) :
  let l := wire_root_layer p in
  let am := layer_info_at layer_info l in
  let p' := calculateParInfo tech layer_info dbu_per_micron getWidth p in
  getDefaultAntennaRule (layer_at tech l) = Some antenna_rule ->
  0 < par_iterm_gate_area p ->
  0 < dbuToMicrons dbu_per_micron (inject_Z (getWidth l)) ->
  0 < dbuToMicrons dbu_per_micron (inject_Z (getThickness (layer_at tech l))) ->
  0 < (if Qneb (par_iterm_diff_area p) 0
       then diff_metal_factor am else metal_factor am) ->
  0 < (if Qneb (par_iterm_diff_area p) 0
       then diff_side_metal_factor am else side_metal_factor am) ->
  (getPAR antenna_rule < par_PAR p' <-> max_wire_length_PAR p' < wire_length p')
  /\ (getPSR antenna_rule < par_PSR p'
      <-> max_wire_length_PSR p' < side_wire_length p').
Proof.
  cbv zeta. intros Hr HG Hw Ht Hf Hs. unfold calculateParInfo. rewrite Hr.
  assert (Eg : Qeq_bool (par_iterm_gate_area p) 0 = false).
  { destruct (Qeq_bool (par_iterm_gate_area p) 0) eqn:E; [|reflexivity].
    apply Qeq_bool_iff in E. rewrite E in HG. now apply Qlt_irrefl in HG. }
  rewrite Eg.
  destruct (Qneb (par_iterm_diff_area p) 0); cbn;
    (split; [now apply wire_length_threshold|now apply side_length_threshold]).
Qed.

Lemma calculateParInfo_wire_length_witness :
  let p' := calculateParInfo (s2_tech 0) (fst (initAntennaRules (s2_tech 0))) 1
                             s2_width s2_wire_root in
  max_wire_length_PAR p' < wire_length p'.
Proof.
  apply (calculateParInfo_wire_length (s2_tech 0) (fst (initAntennaRules (s2_tech 0)))
           1 s2_width s2_wire_root (toy_rule 1 empty_pwl 0));
    vm_compute; reflexivity.
Defined.

(** ** What the checks of the wire-graph engine write *)

(** X21. The four checks of the wire-graph engine write nothing unless
    their report flag is set, and nothing to a report file that is not
    open.  [checkWirePar] sends lines to the logger only when verbose,
    while a line that [checkWireCar], [checkViaPar] or [checkViaCar]
    produces always reaches the logger.  [checkWireCar] called with
    [par_checked] reports no violation and no check. *)
Theorem wire_graph_checks_output (tech : Tech) (AntennaRatio : ARinfo)
        (layer : Layer) (par_checked report verbose file_open : bool) :
  let wp := checkWirePar tech AntennaRatio report verbose file_open in
  let wc := checkWireCar tech AntennaRatio par_checked report verbose file_open in
  let vp := checkViaPar tech AntennaRatio layer report verbose file_open in
  let vc := checkViaCar tech AntennaRatio layer report verbose file_open in
  (report = false ->
   snd wp = ([], []) /\ snd wc = ([], []) /\ snd vp = ([], []) /\ snd vc = ([], []))
  /\ (file_open = false ->
      fst (snd wp) = [] /\ fst (snd wc) = [] /\ fst (snd vp) = []
      /\ fst (snd vc) = [])
  /\ (verbose = false -> snd (snd wp) = [])
  /\ (file_open = true ->
      fst (snd wc) = snd (snd wc) /\ fst (snd vp) = snd (snd vp)
      /\ fst (snd vc) = snd (snd vc))
  /\ (par_checked = true -> fst wc = (false, false)).
Proof.
  cbv zeta. unfold checkWirePar, checkWireCar, checkViaPar, checkViaCar.
  destruct (getDefaultAntennaRule
              (layer_at tech (wire_root_layer (par_info AntennaRatio))))
    as [wire_rule|];
    destruct (getDefaultAntennaRule (layer_at tech layer)) as [via_rule|];
    cbn [fst snd];
    (split; [intros ->; now repeat split|]);
    (split; [intros ->; destruct report; unfold legacy_line, both_app;
             repeat match goal with
                    | |- context [if ?b then _ else _] => destruct b
                    end; now repeat split|]);
    (split; [intros ->; destruct report; unfold legacy_line, both_app;
             repeat match goal with
                    | |- context [if ?b then _ else _] => destruct b
                    end; reflexivity|]);
    (split; [intros ->; destruct report; unfold legacy_line, both_app;
             repeat match goal with
                    | |- context [if ?b then _ else _] => destruct b
                    end; now repeat split|]);
    intros ->; reflexivity.
Qed.

Lemma wire_graph_checks_output_witness :
  snd (checkWirePar (s2_tech 0) (mk_ar_info s2_wire_root 0 0 0 0 0) false true true)
  = ([], [])
  /\ fst (checkWireCar (s2_tech 0) (mk_ar_info s2_wire_root 0 5 0 0 0)
                       true true true true)
     = (false, false).
Proof.
  destruct (wire_graph_checks_output (s2_tech 0) (mk_ar_info s2_wire_root 0 0 0 0 0)
              V1 true false true true) as (H1 & _).
  destruct (wire_graph_checks_output (s2_tech 0) (mk_ar_info s2_wire_root 0 5 0 0 0)
              V1 true true true true) as (_ & _ & _ & _ & H5).
  split; [apply H1; reflexivity|apply H5; reflexivity].
Defined.

(** ** The diode loop of the wire-graph engine *)

Section WireDiodeLoop.
Variable tech : Tech.
Variable layer_info : LayerInfo.
Variable dbu_per_micron : Z.
Variable getWidth : Layer -> Z.
Variable ratio_margin : Q.
Variable layer : Layer.
Variable diode_diff_area : Q.
Variable gates_size : nat.
Variable max_diode_count_per_gate : nat.

Lemma wire_diode_loop_total (fuel : nat) :
  forall (p : PARinfo) (count : nat) (violation : bool),
  (count <= max_diode_count_per_gate)%nat ->
  (S max_diode_count_per_gate - count <= fuel)%nat ->
  exists p' n,
    wire_diode_loop tech layer_info dbu_per_micron getWidth ratio_margin layer
                    diode_diff_area gates_size max_diode_count_per_gate
                    fuel p count violation
    = Some (p', n, Nat.ltb max_diode_count_per_gate n)
    /\ (count <= n)%nat /\ (n <= S max_diode_count_per_gate)%nat
    /\ (violation = true -> (count < n)%nat)
    /\ (violation = false -> n = count).
Proof.
  induction fuel as [|fuel IH]; intros p count violation Hc Hf.
  - lia.
  - cbn [wire_diode_loop]. destruct violation; cbn [negb].
    + destruct (Nat.ltb max_diode_count_per_gate (S count)) eqn:E.
      * apply Nat.ltb_lt in E. eexists. exists (S count).
        assert (E' : Nat.ltb max_diode_count_per_gate (S count) = true)
          by (apply Nat.ltb_lt; lia).
        rewrite E'. split; [reflexivity|]. repeat split; try lia; try (intro H; discriminate H).
      * apply Nat.ltb_ge in E.
        destruct (IH (calculateParInfo tech layer_info dbu_per_micron getWidth
                        (set_par_iterm_diff_area p
                           (par_iterm_diff_area p
                            + diode_diff_area * inject_Z (Z.of_nat gates_size))))
                     (S count)
                     (checkViolation tech ratio_margin
                        (calculateParInfo tech layer_info dbu_per_micron getWidth
                           (set_par_iterm_diff_area p
                              (par_iterm_diff_area p
                               + diode_diff_area * inject_Z (Z.of_nat gates_size))))
                        layer))
          as (p' & n & En & H1 & H2 & _); try lia.
        exists p', n. split; [exact En|]. repeat split; try lia; try (intro H; discriminate H).
    + exists p, count.
      assert (E : Nat.ltb max_diode_count_per_gate count = false)
        by (apply Nat.ltb_ge; lia).
      rewrite E. split; [reflexivity|]. repeat split; try lia; try (intro H; discriminate H).
Qed.

End WireDiodeLoop.

(** X22. One entry of the PAR table in [getAntennaViolations] (the
    wire-graph engine): the diode loop always ends; a Violation is pushed
    exactly when [checkViolation] holds for the wire root, with the routing
    level of its layer and the gates given; its diode count is at most the
    cap plus one, is 0 when no diode master is given or the rule of the
    layer has no diffPAR and no diffPSR table, and is at least 1 otherwise;
    and the warning is emitted exactly when the count exceeds the cap. *)
Theorem getAntennaViolations_entry_result (tech : Tech) (layer_info : LayerInfo)
        (dbu_per_micron : Z) (getWidth : Layer -> Z) (ratio_margin : Q)
        (diode_mterm : option dbMTerm) (max_diode_count_per_gate : nat)
        (p : PARinfo) (gates : list dbITerm) :
  exists v warned,
    getAntennaViolations_entry tech layer_info dbu_per_micron getWidth ratio_margin
                               diode_mterm max_diode_count_per_gate p gates
    = Some (v, warned)
    /\ match v with
       | None =>
           checkViolation tech ratio_margin p (wire_root_layer p) = false
           /\ warned = false
       | Some violation =>
           checkViolation tech ratio_margin p (wire_root_layer p) = true
           /\ routing_level violation = routingLevel tech (wire_root_layer p)
           /\ violation_gates violation = gates
           /\ (diode_count_per_gate violation <= S max_diode_count_per_gate)%nat
           /\ warned = Nat.ltb max_diode_count_per_gate
                               (diode_count_per_gate violation)
           /\ (diode_mterm = None
               \/ antennaRatioDiffDependent tech (wire_root_layer p) = false ->
               diode_count_per_gate violation = 0%nat)
           /\ (diode_mterm <> None ->
               antennaRatioDiffDependent tech (wire_root_layer p) = true ->
               (1 <= diode_count_per_gate violation)%nat)
       end.
Proof.
  unfold getAntennaViolations_entry.
  destruct (checkViolation tech ratio_margin p (wire_root_layer p)) eqn:Ev.
  - destruct (match diode_mterm with Some _ => true | None => false end
              && antennaRatioDiffDependent tech (wire_root_layer p)) eqn:Ed.
    + apply andb_true_iff in Ed. destruct Ed as [Hd Ha].
      destruct (wire_diode_loop_total tech layer_info dbu_per_micron getWidth
                  ratio_margin (wire_root_layer p)
                  (match diode_mterm with Some diode => diffArea diode | None => 0 end)
                  (length gates) max_diode_count_per_gate
                  (S max_diode_count_per_gate) p 0%nat true)
        as (p' & n & En & _ & Hn & Hpos & _); try lia.
      rewrite En. eexists. eexists. split; [reflexivity|]. cbn.
      split; [reflexivity|]. split; [reflexivity|]. split; [reflexivity|].
      split; [exact Hn|]. split; [reflexivity|]. split.
      * intros [H|H]; [subst diode_mterm; discriminate Hd|congruence].
      * intros _ _. specialize (Hpos eq_refl). lia.
    + eexists. eexists. split; [reflexivity|]. cbn.
      split; [reflexivity|]. split; [reflexivity|]. split; [reflexivity|].
      split; [lia|].
      split; [reflexivity|]. split; [reflexivity|].
      intros Hd Ha. rewrite Ha, andb_true_r in Ed.
      destruct diode_mterm; [discriminate Ed|now contradiction Hd].
  - exists None, false. split; [reflexivity|]. now split.
Qed.

(** * The disjoint sets of [saveGates] *)

Lemma set_nth_length (v : list nat) : forall i x, length (set_nth v i x) = length v.
Proof.
  induction v as [|y rest IH]; intros [|i] x; cbn; try reflexivity.
  now rewrite IH.
Qed.

Lemma nth_set_nth (v : list nat) : forall i x j,
  (i < length v)%nat ->
  nth j (set_nth v i x) 0%nat = if Nat.eqb j i then x else nth j v 0%nat.
Proof.
  induction v as [|y rest IH]; intros [|i] x [|j] Hi; cbn in *; try lia;
    try reflexivity.
  apply IH. lia.
Qed.

Lemma firstn_set_nth (v : list nat) : forall i x,
  (i < length v)%nat -> firstn (S i) (set_nth v i x) = firstn i v ++ [x].
Proof.
  induction v as [|y rest IH]; intros [|i] x Hi; cbn in *; try lia.
  - reflexivity.
  - f_equal. apply IH. lia.
Qed.

Lemma firstn_set_nth_below (v : list nat) : forall i j x,
  (j <= i)%nat -> firstn j (set_nth v i x) = firstn j v.
Proof.
  induction v as [|y rest IH]; intros [|i] [|j] x Hj; cbn in *; try lia;
    try reflexivity.
  f_equal. apply IH. lia.
Qed.

Lemma init_dsu_loop_result (k : nat) : forall (i : nat) (P S : list nat),
  length P = (i + k)%nat -> length S = (i + k)%nat ->
  init_dsu_loop k i (mk_dsu P S)
  = mk_dsu (firstn i P ++ seq i k) (firstn i S ++ repeat 1%nat k).
Proof.
  induction k as [|k IH]; intros i P S HP HS; cbn [init_dsu_loop seq repeat].
  - rewrite !app_nil_r, Nat.add_0_r in *.
    rewrite <- HP at 1. rewrite <- HS at 1. now rewrite !firstn_all.
  - cbn [dsu_parent_ dsu_size_].
    rewrite IH by (rewrite set_nth_length; lia).
    rewrite !firstn_set_nth by lia. rewrite <- !app_assoc. reflexivity.
Qed.

Lemma resize_length (v : list nat) (n : nat) : length (resize v n) = n.
Proof.
  unfold resize. rewrite length_app, length_firstn, repeat_length. lia.
Qed.

Lemma init_dsu_result (n : nat) (d : Dsu) :
  init_dsu n d = mk_dsu (seq 0 n) (repeat 1%nat n).
Proof.
  unfold init_dsu.
  rewrite init_dsu_loop_result by (rewrite resize_length; lia).
  reflexivity.
Qed.

Lemma dsu_forest_at (n : nat) (rank : nat -> nat) (d : Dsu) (u : nat) :
  dsu_forest n rank d -> (u < n)%nat ->
  (nth u (dsu_parent_ d) 0 < n)%nat
  /\ (nth u (dsu_parent_ d) 0%nat <> u ->
      (rank (nth u (dsu_parent_ d) 0%nat) < rank u)%nat).
Proof.
  intros (_ & _ & H) Hu. rewrite forallb_forall in H.
  specialize (H u ltac:(apply in_seq; lia)).
  apply andb_true_iff in H. destruct H as [H1 H2].
  apply Nat.ltb_lt in H1. split; [exact H1|]. intro Hne.
  apply orb_true_iff in H2. destruct H2 as [H2|H2].
  - apply Nat.eqb_eq in H2. now contradiction Hne.
  - now apply Nat.ltb_lt in H2.
Qed.

Lemma dsu_forest_intro (n : nat) (rank : nat -> nat) (d : Dsu) :
  length (dsu_parent_ d) = n -> length (dsu_size_ d) = n ->
  (forall u, (u < n)%nat ->
     (nth u (dsu_parent_ d) 0 < n)%nat
     /\ (nth u (dsu_parent_ d) 0%nat <> u ->
         (rank (nth u (dsu_parent_ d) 0%nat) < rank u)%nat)) ->
  dsu_forest n rank d.
Proof.
  intros HP HS H. split; [exact HP|]. split; [exact HS|].
  apply forallb_forall. intros u Hu. apply in_seq in Hu.
  destruct (H u ltac:(lia)) as [H1 H2].
  apply andb_true_iff. split; [now apply Nat.ltb_lt|].
  destruct (Nat.eqb (nth u (dsu_parent_ d) 0%nat) u) eqn:E; [reflexivity|].
  apply Nat.eqb_neq in E. cbn [orb]. apply Nat.ltb_lt. now apply H2.
Qed.

Lemma reaches_unique (d : Dsu) (u r : nat) :
  reaches d u r -> forall r', reaches d u r' -> r' = r.
Proof.
  induction 1 as [u Hu|u r Hu Hr IH]; intros r' H'.
  - inversion H' as [u' Hu'|u' r'' Hu' Hr']; subst; [reflexivity|].
    now contradiction Hu'.
  - inversion H' as [u' Hu'|u' r'' Hu' Hr']; subst; [now contradiction Hu|].
    now apply IH.
Qed.

Lemma reaches_is_root (d : Dsu) (u r : nat) :
  reaches d u r -> nth r (dsu_parent_ d) 0%nat = r.
Proof. induction 1; assumption. Qed.

Section Forest.
Variable n : nat.
Variable rank : nat -> nat.

Lemma reaches_in_range (d : Dsu) (u r : nat) :
  dsu_forest n rank d -> reaches d u r -> (u < n)%nat ->
  (r < n)%nat /\ (r = u \/ (rank r < rank u)%nat).
Proof.
  intros Hf H. induction H as [u Hu|u r Hu Hr IH]; intro Hlt.
  - split; [exact Hlt|now left].
  - destruct (dsu_forest_at n rank d u Hf Hlt) as [H1 H2].
    destruct (IH H1) as [A [B|B]].
    + split; [exact A|]. right. rewrite B. now apply H2.
    + split; [exact A|]. right. specialize (H2 Hu). lia.
Qed.

Lemma reaches_total (d : Dsu) :
  dsu_forest n rank d -> forall k u, (rank u < k)%nat -> (u < n)%nat ->
  exists r, reaches d u r.
Proof.
  intro Hf. induction k as [|k IH]; intros u Hk Hu; [lia|].
  destruct (Nat.eq_dec (nth u (dsu_parent_ d) 0%nat) u) as [E|E].
  - exists u. now apply reaches_root.
  - destruct (dsu_forest_at n rank d u Hf Hu) as [H1 H2].
    destruct (IH (nth u (dsu_parent_ d) 0%nat)) as [r Hr];
      [specialize (H2 E); lia|exact H1|].
    exists r. now apply reaches_step.
Qed.

Lemma compress_keeps (d : Dsu) (u r : nat) :
  (u < length (dsu_parent_ d))%nat -> reaches d u r ->
  forall v x, reaches d v x ->
  reaches (mk_dsu (set_nth (dsu_parent_ d) u r) (dsu_size_ d)) v x.
Proof.
  intros Hu Hur v x H. induction H as [v Hv|v x Hv Hx IH].
  - apply reaches_root. cbn [dsu_parent_]. rewrite nth_set_nth by exact Hu.
    destruct (Nat.eqb v u) eqn:E; [|exact Hv].
    apply Nat.eqb_eq in E. subst v.
    apply (reaches_unique d u u (reaches_root d u Hv)) in Hur. exact Hur.
  - destruct (Nat.eqb v u) eqn:E.
    + apply Nat.eqb_eq in E. subst v.
      assert (x = r)
        by (apply (reaches_unique d u r Hur), reaches_step; assumption).
      subst x.
      assert (Hru : r <> u).
      { intro Heq. subst r. apply reaches_is_root in Hur. now contradiction Hv. }
      apply reaches_step; cbn [dsu_parent_]; rewrite nth_set_nth by exact Hu;
        rewrite Nat.eqb_refl; [exact Hru|].
      apply reaches_root. cbn [dsu_parent_]. rewrite nth_set_nth by exact Hu.
      destruct (Nat.eqb r u) eqn:E'; [reflexivity|].
      now apply reaches_is_root in Hur.
    + apply reaches_step; cbn [dsu_parent_]; rewrite nth_set_nth by exact Hu;
        rewrite E; assumption.
Qed.

Lemma find_set_spec (fuel : nat) :
  forall (d : Dsu) (u : nat),
  dsu_forest n rank d -> (u < n)%nat -> (rank u < fuel)%nat ->
  exists r d',
    find_set fuel d u = Some (r, d')
    /\ reaches d u r
    /\ dsu_forest n rank d'
    /\ dsu_size_ d' = dsu_size_ d
    /\ (forall v x, reaches d v x -> reaches d' v x)
    /\ reaches d' u r.
Proof.
  induction fuel as [|fuel IH]; intros d u Hf Hu Hk; [lia|].
  cbn [find_set].
  destruct (Nat.eqb u (nth u (dsu_parent_ d) 0%nat)) eqn:E.
  - apply Nat.eqb_eq in E. symmetry in E. exists u, d.
    split; [reflexivity|]. split; [now apply reaches_root|].
    split; [exact Hf|]. split; [reflexivity|]. split; [auto|].
    now apply reaches_root.
  - apply Nat.eqb_neq in E.
    assert (E' : nth u (dsu_parent_ d) 0%nat <> u) by congruence.
    destruct (dsu_forest_at n rank d u Hf Hu) as [H1 H2]. specialize (H2 E').
    destruct (IH d (nth u (dsu_parent_ d) 0%nat) Hf H1 ltac:(lia))
      as (r & d1 & E1 & R1 & F1 & S1 & K1 & _).
    rewrite E1. eexists. eexists. split; [reflexivity|].
    assert (Hur : reaches d u r) by (now apply reaches_step).
    assert (Hlen : (u < length (dsu_parent_ d1))%nat).
    { destruct F1 as (L & _). rewrite L. exact Hu. }
    destruct (reaches_in_range d u r Hf Hur Hu) as [Hr Hrank].
    split; [exact Hur|]. split; [|split; [exact S1|split]].
    + apply dsu_forest_intro; cbn [dsu_parent_ dsu_size_].
      * rewrite set_nth_length. now destruct F1.
      * now destruct F1 as (_ & L & _).
      * intros w Hw. rewrite nth_set_nth by exact Hlen.
        destruct (Nat.eqb w u) eqn:Ew.
        -- apply Nat.eqb_eq in Ew. subst w. split; [exact Hr|].
           intro Hne. destruct Hrank as [->|Hrank]; [now contradiction Hne|exact Hrank].
        -- now apply (dsu_forest_at n rank d1 w F1).
    + intros v x Hvx. apply compress_keeps; [exact Hlen|now apply K1|now apply K1].
    + apply compress_keeps; [exact Hlen|now apply K1|now apply K1].
Qed.

Lemma reaches_back (d d' : Dsu) :
  dsu_forest n rank d ->
  (forall v x, reaches d v x -> reaches d' v x) ->
  forall v x, (v < n)%nat -> reaches d' v x -> reaches d v x.
Proof.
  intros Hf K v x Hv H.
  destruct (reaches_total d Hf (S (rank v)) v ltac:(lia) Hv) as [r Hr].
  assert (x = r) by (apply (reaches_unique d' v r (K v r Hr)), H).
  now subst x.
Qed.

Lemma link_keeps (d : Dsu) (a b : nat) :
  (b < length (dsu_parent_ d))%nat ->
  nth a (dsu_parent_ d) 0%nat = a -> nth b (dsu_parent_ d) 0%nat = b ->
  forall (sz : list nat) v r,
  reaches d v r ->
  reaches (mk_dsu (set_nth (dsu_parent_ d) b a) sz) v
          (if Nat.eqb r b then a else r).
Proof.
  intros Hb Ha Hbr sz v r H. induction H as [v Hv|v r Hv Hr IH].
  - destruct (Nat.eqb v b) eqn:E.
    + apply Nat.eqb_eq in E. subst v.
      destruct (Nat.eq_dec a b) as [->|Hab].
      * apply reaches_root. cbn [dsu_parent_]. rewrite nth_set_nth by exact Hb.
        now rewrite Nat.eqb_refl.
      * apply reaches_step; cbn [dsu_parent_]; rewrite nth_set_nth by exact Hb;
          rewrite Nat.eqb_refl; [exact Hab|].
        apply reaches_root. cbn [dsu_parent_]. rewrite nth_set_nth by exact Hb.
        destruct (Nat.eqb a b) eqn:E'; [reflexivity|exact Ha].
    + apply reaches_root. cbn [dsu_parent_]. rewrite nth_set_nth by exact Hb.
      now rewrite E.
  - assert (E : Nat.eqb v b = false).
    { apply Nat.eqb_neq. intro Heq. subst v. now contradiction Hv. }
    apply reaches_step; cbn [dsu_parent_]; rewrite nth_set_nth by exact Hb;
      rewrite E; assumption.
Qed.

Lemma link_forest (d : Dsu) (a b : nat) (sz : list nat) :
  dsu_forest n rank d -> (a < n)%nat -> (b < n)%nat -> length sz = n ->
  nth a (dsu_parent_ d) 0%nat = a -> nth b (dsu_parent_ d) 0%nat = b ->
  dsu_forest n (fun x => if Nat.eqb x a then 0%nat else S (rank x))
             (mk_dsu (set_nth (dsu_parent_ d) b a) sz).
Proof.
  intros Hf Ha Hb Hsz Hra Hrb.
  assert (Hlen : (b < length (dsu_parent_ d))%nat)
    by (destruct Hf as (L & _); now rewrite L).
  apply dsu_forest_intro; cbn [dsu_parent_ dsu_size_].
  - rewrite set_nth_length. now destruct Hf.
  - exact Hsz.
  - intros w Hw. rewrite nth_set_nth by exact Hlen.
    destruct (dsu_forest_at n rank d w Hf Hw) as [H1 H2].
    destruct (Nat.eqb w b) eqn:Ewb.
    + apply Nat.eqb_eq in Ewb. subst w. split; [exact Ha|].
      intro Hne. cbv beta. rewrite Nat.eqb_refl.
      destruct (Nat.eqb b a) eqn:E; [|lia].
      apply Nat.eqb_eq in E. now contradiction Hne.
    + split; [exact H1|]. intro Hne. specialize (H2 Hne).
      assert (Ewa : Nat.eqb w a = false).
      { apply Nat.eqb_neq. intro Heq. subst w. now contradiction Hne. }
      cbv beta. rewrite Ewa.
      match goal with |- context [if ?c then _ else _] => destruct c end; lia.
Qed.

End Forest.

Lemma singletons_root (n u : nat) :
  (u < n)%nat -> reaches (mk_dsu (seq 0 n) (repeat 1%nat n)) u u.
Proof. intro Hu. apply reaches_root. cbn. now rewrite seq_nth. Qed.

Lemma singletons_forest (n : nat) :
  dsu_forest n (fun _ => 0%nat) (mk_dsu (seq 0 n) (repeat 1%nat n)).
Proof.
  apply dsu_forest_intro; cbn [dsu_parent_ dsu_size_].
  - apply length_seq.
  - apply repeat_length.
  - intros w Hw. rewrite seq_nth by exact Hw. split; [exact Hw|].
    intro H. now contradiction H.
Qed.

Lemma singletons_same (n u v : nat) :
  (u < n)%nat -> (v < n)%nat ->
  (same_set (mk_dsu (seq 0 n) (repeat 1%nat n)) u v <-> u = v).
Proof.
  intros Hu Hv. split.
  - intros (r & Hr1 & Hr2).
    apply (reaches_unique _ _ _ (singletons_root n u Hu)) in Hr1.
    apply (reaches_unique _ _ _ (singletons_root n v Hv)) in Hr2. congruence.
  - intros <-. exists u. split; now apply singletons_root.
Qed.

(** X23. [init_dsu] overwrites whatever the vectors held: whatever the
    state left by an earlier net, afterwards the parent of every node below
    [node_count_] is the node itself and every size is 1, so every node is
    the root of its own set, and [find_set] returns it without changing
    the state. *)
Theorem init_dsu_singletons (node_count_ : nat) (d : Dsu) (u : nat) (fuel : nat) :
  init_dsu node_count_ d = mk_dsu (seq 0 node_count_) (repeat 1%nat node_count_)
  /\ dsu_forest node_count_ (fun _ => 0%nat) (init_dsu node_count_ d)
  /\ ((u < node_count_)%nat ->
      reaches (init_dsu node_count_ d) u u
      /\ find_set (S fuel) (init_dsu node_count_ d) u
         = Some (u, init_dsu node_count_ d)
      /\ forall v, (v < node_count_)%nat ->
           (same_set (init_dsu node_count_ d) u v <-> u = v)).
Proof.
  rewrite init_dsu_result.
  split; [reflexivity|]. split; [apply singletons_forest|].
  intro Hu. split; [now apply singletons_root|]. split.
  - cbn [find_set dsu_parent_]. rewrite seq_nth by exact Hu.
    cbn [Nat.add]. rewrite Nat.eqb_refl. reflexivity.
  - intros v Hv. now apply singletons_same.
Qed.

Lemma init_dsu_singletons_witness :
  find_set 1 (init_dsu 3 (mk_dsu [2; 2; 0; 7]%nat [])) 1 =
  Some (1%nat, mk_dsu [0; 1; 2]%nat [1; 1; 1]%nat).
Proof.
  destruct (init_dsu_singletons 3 (mk_dsu [2; 2; 0; 7]%nat []) 1 0)
    as (E & _ & H).
  destruct (H ltac:(lia)) as (_ & Hf & _).
  rewrite Hf, E. reflexivity.
Defined.

(** X24. [find_set] on a forest, for a node in range and with enough fuel
    (more than the rank of the node): it returns the root that the node
    reaches; the path compression leaves a forest under the same rank with
    the same sizes, in which every node reaches the root it reached before
    (and no other), and in which the node still reaches that root. *)
Theorem find_set_returns_root (n : nat) (rank : nat -> nat) (d : Dsu)
        (u fuel : nat) :
  dsu_forest n rank d -> (u < n)%nat -> (rank u < fuel)%nat ->
  exists r d',
    find_set fuel d u = Some (r, d')
    /\ reaches d u r /\ (r < n)%nat
    /\ dsu_forest n rank d'
    /\ dsu_size_ d' = dsu_size_ d
    /\ (forall v x, (v < n)%nat -> (reaches d' v x <-> reaches d v x)).
Proof.
  intros Hf Hu Hk.
  destruct (find_set_spec n rank fuel d u Hf Hu Hk)
    as (r & d' & E & R & F & S & K & _).
  exists r, d'. split; [exact E|]. split; [exact R|].
  split; [apply (reaches_in_range n rank d u r Hf R Hu)|].
  split; [exact F|]. split; [exact S|].
  intros v x Hv. split; [|apply K].
  now apply (reaches_back n rank d d' Hf K).
Qed.

Lemma find_set_returns_root_witness :
  exists d',
    find_set 3 (mk_dsu [0; 0; 1]%nat [3; 1; 1]%nat) 2 = Some (0%nat, d')
    /\ reaches d' 1 0.
Proof.
  destruct (find_set_returns_root 3 (fun u => u) (mk_dsu [0; 0; 1]%nat [3; 1; 1]%nat)
              2 3 ltac:(repeat split) ltac:(lia) ltac:(simpl; lia))
    as (r & d' & E & R & _ & _ & _ & K).
  assert (Hr : r = 0%nat) by (vm_compute in E; now injection E as <- _).
  subst r. exists d'. split; [exact E|].
  apply K; [lia|].
  apply reaches_step; [cbn; lia|]. apply reaches_root. reflexivity.
Defined.

(** X25. [union_set] on a forest, for two nodes in range and with enough
    fuel: it leaves a forest (under a new rank) in which two nodes are in
    the same set exactly when they were before, or one was in the set of
    [u] and the other in the set of [v].  The two sets are merged and no
    other set changes. *)
Theorem union_set_merges (n : nat) (rank : nat -> nat) (d : Dsu) (u v fuel : nat) :
  dsu_forest n rank d -> (u < n)%nat -> (v < n)%nat ->
  (rank u < fuel)%nat -> (rank v < fuel)%nat ->
  exists d' rank',
    union_set fuel d u v = Some d'
    /\ dsu_forest n rank' d'
    /\ same_set d' u v
    /\ forall x y, (x < n)%nat -> (y < n)%nat ->
         (same_set d' x y
          <-> same_set d x y
              \/ (same_set d x u /\ same_set d y v)
              \/ (same_set d x v /\ same_set d y u)).
Proof.
  intros Hf Hu Hv Hku Hkv. unfold union_set.
  destruct (find_set_spec n rank fuel d u Hf Hu Hku)
    as (ru & d1 & E1 & R1 & F1 & S1 & K1 & U1).
  rewrite E1.
  destruct (find_set_spec n rank fuel d1 v F1 Hv Hkv)
    as (rv & d2 & E2 & R2 & F2 & S2 & K2 & U2).
  rewrite E2.
  assert (K : forall w x, reaches d w x -> reaches d2 w x)
    by (intros w x H; now apply K2, K1).
  assert (Hru : reaches d2 u ru) by now apply K2.
  assert (Hrv : reaches d2 v rv) by exact U2.
  assert (Hback : forall w x, (w < n)%nat -> reaches d2 w x -> reaches d w x)
    by (apply (reaches_back n rank d d2 Hf K)).
  destruct (reaches_in_range n rank d2 u ru F2 Hru Hu) as [Hrun _].
  destruct (reaches_in_range n rank d2 v rv F2 Hrv Hv) as [Hrvn _].
  pose proof (reaches_is_root d2 u ru Hru) as Hroot_u.
  pose proof (reaches_is_root d2 v rv Hrv) as Hroot_v.
  assert (Hlen : length (dsu_parent_ d2) = n) by now destruct F2.
  assert (Hlens : length (dsu_size_ d2) = n) by now destruct F2 as (_ & L & _).
  (* the two orders of the link *)
  assert (Hlink : forall a b,
            (a = ru /\ b = rv) \/ (a = rv /\ b = ru) ->
            exists rank',
              dsu_forest n rank'
                (mk_dsu (set_nth (dsu_parent_ d2) b a)
                        (set_nth (dsu_size_ d2) a
                           (nth a (dsu_size_ d2) 0 + nth b (dsu_size_ d2) 0)%nat))
              /\ forall w x, reaches d2 w x ->
                   reaches
                     (mk_dsu (set_nth (dsu_parent_ d2) b a)
                             (set_nth (dsu_size_ d2) a
                                (nth a (dsu_size_ d2) 0
                                 + nth b (dsu_size_ d2) 0)%nat))
                     w (if Nat.eqb x b then a else x)).
  { intros a b Hab.
    assert (Ha : (a < n)%nat /\ nth a (dsu_parent_ d2) 0%nat = a)
      by (destruct Hab as [[-> _]|[-> _]]; now split).
    assert (Hb : (b < n)%nat /\ nth b (dsu_parent_ d2) 0%nat = b)
      by (destruct Hab as [[_ ->]|[_ ->]]; now split).
    destruct Ha as [Ha Hra]. destruct Hb as [Hb Hrb].
    eexists. split.
    - apply (link_forest n rank d2 a b); try assumption.
      now rewrite set_nth_length.
    - intros w x H. apply link_keeps; try assumption. now rewrite Hlen. }
  assert (Hmain : forall a b,
            (a = ru /\ b = rv) \/ (a = rv /\ b = ru) ->
            exists d' rank',
              Some (mk_dsu (set_nth (dsu_parent_ d2) b a)
                           (set_nth (dsu_size_ d2) a
                              (nth a (dsu_size_ d2) 0
                               + nth b (dsu_size_ d2) 0)%nat))
              = Some d'
              /\ dsu_forest n rank' d'
              /\ same_set d' u v
              /\ forall x y, (x < n)%nat -> (y < n)%nat ->
                   (same_set d' x y
                    <-> same_set d x y
                        \/ (same_set d x u /\ same_set d y v)
                        \/ (same_set d x v /\ same_set d y u))).
  { intros a b Hab. destruct (Hlink a b Hab) as (rank' & F' & K').
    eexists. exists rank'. split; [reflexivity|]. split; [exact F'|].
    set (d' := mk_dsu (set_nth (dsu_parent_ d2) b a)
                      (set_nth (dsu_size_ d2) a
                         (nth a (dsu_size_ d2) 0 + nth b (dsu_size_ d2) 0)%nat))
      in *.
    assert (Hu' : reaches d' u a).
    { specialize (K' u ru Hru). destruct Hab as [[-> ->]|[-> ->]].
      - destruct (Nat.eqb ru rv); exact K'.
      - now rewrite Nat.eqb_refl in K'. }
    assert (Hv' : reaches d' v a).
    { specialize (K' v rv Hrv). destruct Hab as [[-> ->]|[-> ->]].
      - now rewrite Nat.eqb_refl in K'.
      - destruct (Nat.eqb rv ru); exact K'. }
    split; [now exists a|].
    intros x y Hx Hy.
    destruct (reaches_total n rank d Hf (S (rank x)) x ltac:(lia) Hx) as [rx Hrx].
    destruct (reaches_total n rank d Hf (S (rank y)) y ltac:(lia) Hy) as [ry Hry].
    pose proof (K' x rx (K x rx Hrx)) as Hx'.
    pose proof (K' y ry (K y ry Hry)) as Hy'.
    assert (Hsame : forall p q rp rq, reaches d p rp -> reaches d q rq ->
                                      (same_set d p q <-> rp = rq)).
    { intros p q rp rq Hp Hq. split.
      - intros (r & A & B).
        apply (reaches_unique d p rp Hp) in A.
        apply (reaches_unique d q rq Hq) in B. congruence.
      - intros <-. now exists rp. }
    assert (Hsame' : same_set d' x y
                     <-> (if Nat.eqb rx b then a else rx)
                         = (if Nat.eqb ry b then a else ry)).
    { split.
      - intros (r & A & B).
        apply (reaches_unique d' x _ Hx') in A.
        apply (reaches_unique d' y _ Hy') in B. congruence.
      - intro H. eexists. split; [exact Hx'|]. rewrite H. exact Hy'. }
    assert (Hdu : reaches d u ru) by exact R1.
    assert (Hdv : reaches d v rv) by (now apply Hback).
    rewrite Hsame', (Hsame x y rx ry Hrx Hry), (Hsame x u rx ru Hrx Hdu),
      (Hsame y v ry rv Hry Hdv), (Hsame x v rx rv Hrx Hdv),
      (Hsame y u ry ru Hry Hdu).
    clear Hx' Hy' Hsame Hsame' K' Hlink.
    destruct Hab as [[-> ->]|[-> ->]];
      destruct (Nat.eqb_spec rx rv) as [Exv|Exv];
      destruct (Nat.eqb_spec ry rv) as [Eyv|Eyv];
      destruct (Nat.eqb_spec rx ru) as [Exu|Exu];
      destruct (Nat.eqb_spec ry ru) as [Eyu|Eyu];
      split; intro H; intuition congruence. }
  destruct (Nat.ltb (nth ru (dsu_size_ d2) 0%nat) (nth rv (dsu_size_ d2) 0%nat)).
  - apply (Hmain rv ru). right. now split.
  - apply (Hmain ru rv). left. now split.
Qed.

Lemma union_set_merges_witness :
  exists d',
    union_set 2 (init_dsu 3 (mk_dsu [] [])) 0 2 = Some d'
    /\ same_set d' 0 2 /\ ~ same_set d' 0 1.
Proof.
  rewrite init_dsu_result.
  destruct (union_set_merges 3 (fun _ => 0%nat) (mk_dsu (seq 0 3) (repeat 1%nat 3))
              0 2 2 (singletons_forest 3)
              ltac:(lia) ltac:(lia) ltac:(simpl; lia) ltac:(simpl; lia))
    as (d' & rank' & E & _ & Hs & Hiff).
  exists d'. split; [exact E|]. split; [exact Hs|].
  intro H. apply (Hiff 0%nat 1%nat ltac:(lia) ltac:(lia)) in H.
  destruct H as [H|[[_ H]|[H _]]].
  - apply (singletons_same 3 0 1 ltac:(lia) ltac:(lia)) in H. discriminate H.
  - apply (singletons_same 3 1 2 ltac:(lia) ltac:(lia)) in H. discriminate H.
  - apply (singletons_same 3 0 2 ltac:(lia) ltac:(lia)) in H. discriminate H.
Defined.

(** * Wire lengths *)

Lemma Qdiv_compat_l (a b w : Q) : a == b -> a / w == b / w.
Proof. intro H. now rewrite H. Qed.

Lemma cut_numerator_fixed (f A G P : Q) :
  ~ G == 0 -> (f * A / G - P) * G - f * A == - (P * G).
Proof. intro HG. field. exact HG. Qed.

Lemma cut_numerator_diff (X T S : Q) :
  ~ S == 0 -> (X / S - T) * S - X == - (T * S).
Proof. intro HS. field. exact HS. Qed.

Lemma cut_numerator_plain (f A R G T p m D : Q) :
  ~ G == 0 -> D == 0 ->
  (f * A * R / G - T) * (G + p * D) - (f * A * R - m * D) == - (T * (G + p * D)).
Proof. intros HG HD. rewrite HD. field. exact HG. Qed.

Lemma quotient_nonzero (a w : Q) : ~ a == 0 -> ~ w == 0 -> ~ a / w == 0.
Proof.
  intros Ha Hw E. apply Ha.
  assert (H : a == a / w * w) by (field; exact Hw).
  rewrite H, E. ring.
Qed.

Lemma product_nonzero (a b : Q) : ~ a == 0 -> ~ b == 0 -> ~ - (a * b) == 0.
Proof.
  intros Ha Hb E.
  assert (H : a * b == 0) by lra.
  apply Qmult_integral in H. tauto.
Qed.

(** X26. What [getViolatedWireLength] pushes for a wire root, wherever
    exact arithmetic decides as the doubles do.  Under a fixed PAR threshold
    a cut length is pushed exactly when the PAR of the root exceeds the
    threshold, and it is minus the threshold times the gate area, over the
    wire width.  Under a PWL threshold that is not zero a cut length is
    pushed whether or not the threshold is exceeded, and it is minus the
    threshold times (gate area plus plus-diff factor times diffusion area),
    over the wire width.  Neither value depends on the wire area, and a cut
    length that is pushed is never zero.  Nothing is pushed for a root
    without gate area, on a layer without rule, or under a fixed threshold
    that the PAR does not exceed.  The answer is [NotExact] exactly when a
    cut length is assigned and the wire width is zero, or the threshold is
    a PWL threshold and it or the divisor of the ratio is zero. *)
Theorem getViolatedWireLength_root_value (tech : Tech) (layer_info : LayerInfo)
        (dbu_per_micron : Z) (getWidth : Layer -> Z) (l : Layer)
        (wire_area iterm_gate_area iterm_diff_area : Q) :
  let am := layer_info_at layer_info l in
  let wire_width := dbuToMicrons dbu_per_micron (inject_Z (getWidth l)) in
  let divisor := iterm_gate_area + plus_diff_factor am * iterm_diff_area in
  let factor := if Qneb iterm_diff_area 0
                then diff_metal_factor am else metal_factor am in
  match getViolatedWireLength_root tech layer_info dbu_per_micron getWidth l
                                   wire_area iterm_gate_area iterm_diff_area with
  | Cut cut_length =>
      exists antenna_rule,
        getDefaultAntennaRule (layer_at tech l) = Some antenna_rule
        /\ ~ iterm_gate_area == 0 /\ ~ wire_width == 0 /\ ~ cut_length == 0
        /\ (~ getPAR antenna_rule == 0 ->
            getPAR antenna_rule < factor * wire_area / iterm_gate_area
            /\ cut_length == - (getPAR antenna_rule * iterm_gate_area) / wire_width)
        /\ (getPAR antenna_rule == 0 ->
            let diffPAR_ratio :=
              getPwlFactor (getDiffPAR antenna_rule) iterm_diff_area 0 in
            ~ diffPAR_ratio == 0 /\ ~ divisor == 0
            /\ cut_length == - (diffPAR_ratio * divisor) / wire_width)
  | NoCut =>
      iterm_gate_area == 0
      \/ getDefaultAntennaRule (layer_at tech l) = None
      \/ exists antenna_rule,
           getDefaultAntennaRule (layer_at tech l) = Some antenna_rule
           /\ ~ getPAR antenna_rule == 0
           /\ factor * wire_area / iterm_gate_area <= getPAR antenna_rule
  | NotExact =>
      exists antenna_rule,
        getDefaultAntennaRule (layer_at tech l) = Some antenna_rule
        /\ ~ iterm_gate_area == 0
        /\ (~ getPAR antenna_rule == 0 ->
            getPAR antenna_rule < factor * wire_area / iterm_gate_area)
        /\ (wire_width == 0
            \/ (getPAR antenna_rule == 0
                /\ (getPwlFactor (getDiffPAR antenna_rule) iterm_diff_area 0 == 0
                    \/ divisor == 0)))
  end.
Proof.
  cbv zeta. unfold getViolatedWireLength_root.
  destruct (Qeq_bool iterm_gate_area 0) eqn:Eg;
    [left; now apply Qeq_bool_iff|].
  assert (HG : ~ iterm_gate_area == 0).
  { intro E. apply Qeq_bool_iff in E. congruence. }
  destruct (getDefaultAntennaRule (layer_at tech l)) as [antenna_rule|];
    [|right; left; reflexivity].
  set (am := layer_info_at layer_info l).
  set (w := dbuToMicrons dbu_per_micron (inject_Z (getWidth l))).
  set (T := getPwlFactor (getDiffPAR antenna_rule) iterm_diff_area 0).
  set (P := getPAR antenna_rule).
  set (S := iterm_gate_area + plus_diff_factor am * iterm_diff_area).
  cbv zeta.
  destruct (Qneb P 0) eqn:EP.
  - (* fixed threshold *)
    pose proof (proj1 (Qneb_true _ _) EP) as HP.
    cbn [orb andb].
    assert (Hpar : (if Qneb iterm_diff_area 0
                    then diff_metal_factor am * wire_area / iterm_gate_area
                    else metal_factor am * wire_area / iterm_gate_area)
                   = (if Qneb iterm_diff_area 0
                      then diff_metal_factor am else metal_factor am)
                     * wire_area / iterm_gate_area)
      by (destruct (Qneb iterm_diff_area 0); reflexivity).
    rewrite Hpar. clear Hpar.
    set (f := if Qneb iterm_diff_area 0 then diff_metal_factor am else metal_factor am).
    destruct (Qgtb (f * wire_area / iterm_gate_area) P) eqn:Egt; cbn [negb].
    + apply Qgtb_true in Egt. rewrite andb_true_r.
      destruct (Qneb w 0) eqn:Ew; cbn [negb].
      * apply Qneb_true in Ew.
        assert (Hc : (if Qneb iterm_diff_area 0
                      then ((f * wire_area / iterm_gate_area - P) * iterm_gate_area
                            - diff_metal_factor am * wire_area) / w
                      else ((f * wire_area / iterm_gate_area - P) * iterm_gate_area
                            - metal_factor am * wire_area) / w)
                     == - (P * iterm_gate_area) / w).
        { subst f. destruct (Qneb iterm_diff_area 0); apply Qdiv_compat_l;
            now apply cut_numerator_fixed. }
        assert (Hnz : ~ - (P * iterm_gate_area) / w == 0)
          by (apply quotient_nonzero; [now apply product_nonzero|exact Ew]).
        rewrite <- Hc in Hnz. apply Qneb_true in Hnz. rewrite Hnz.
        apply Qneb_true in Hnz.
        exists antenna_rule. split; [reflexivity|]. split; [exact HG|].
        split; [exact Ew|]. split; [exact Hnz|]. split.
        -- intros _. split; [exact Egt|exact Hc].
        -- intro H0. now contradiction HP.
      * apply Qneb_false in Ew.
        exists antenna_rule. split; [reflexivity|]. split; [exact HG|].
        split; [intros _; exact Egt|]. left. exact Ew.
    + right. right. exists antenna_rule. split; [reflexivity|].
      split; [exact HP|].
      unfold Qgtb in Egt. apply negb_false_iff in Egt. now apply Qle_bool_iff.
  - (* PWL threshold *)
    pose proof (proj1 (Qneb_false _ _) EP) as HP.
    cbn [negb orb].
    destruct (Qneb w 0) eqn:Ew; cbn [andb negb].
    + apply Qneb_true in Ew.
      destruct (Qneb T 0) eqn:ET; cbn [andb negb].
      * apply Qneb_true in ET.
        destruct (Qneb S 0) eqn:ES; cbn [negb].
        -- apply Qneb_true in ES.
           match goal with
           | |- match (if Qneb ?c 0 then _ else _) with _ => _ end =>
               assert (Hc : c == - (T * S) / w)
           end.
           { destruct (Qneb iterm_diff_area 0) eqn:Ed; apply Qdiv_compat_l.
             - now apply cut_numerator_diff.
             - apply Qneb_false in Ed. now apply cut_numerator_plain. }
           assert (Hnz : ~ - (T * S) / w == 0)
             by (apply quotient_nonzero; [now apply product_nonzero|exact Ew]).
           rewrite <- Hc in Hnz. apply Qneb_true in Hnz. rewrite Hnz.
           apply Qneb_true in Hnz.
           exists antenna_rule. split; [reflexivity|]. split; [exact HG|].
           split; [exact Ew|]. split; [exact Hnz|]. split.
           ++ intro H0. now contradiction H0.
           ++ intros _. split; [exact ET|]. split; [exact ES|exact Hc].
        -- apply Qneb_false in ES.
           exists antenna_rule. split; [reflexivity|]. split; [exact HG|].
           split; [intro H0; now contradiction H0|].
           right. split; [exact HP|]. right. exact ES.
      * apply Qneb_false in ET.
        exists antenna_rule. split; [reflexivity|]. split; [exact HG|].
        split; [intro H0; now contradiction H0|].
        right. split; [exact HP|]. left. exact ET.
    + apply Qneb_false in Ew.
      exists antenna_rule. split; [reflexivity|]. split; [exact HG|].
      split; [intro H0; now contradiction H0|]. left. exact Ew.
Qed.

Lemma getViolatedWireLength_root_value_witness :
  exists cut_length,
    getViolatedWireLength_root (s2_tech 0) (fst (initAntennaRules (s2_tech 0))) 1
                               s2_width M1 40 20 0 = Cut cut_length
    /\ cut_length == - (10).
Proof.
  pose proof (getViolatedWireLength_root_value (s2_tech 0)
                (fst (initAntennaRules (s2_tech 0))) 1 s2_width M1 40 20 0) as H.
  cbv zeta in H.
  destruct (getViolatedWireLength_root (s2_tech 0)
              (fst (initAntennaRules (s2_tech 0))) 1 s2_width M1 40 20 0)
    as [|c|] eqn:E; [vm_compute in E; discriminate E| |vm_compute in E; discriminate E].
  exists c. split; [reflexivity|].
  destruct H as (r & Hr & _ & _ & _ & H & _).
  vm_compute in Hr. injection Hr as <-.
  destruct (H ltac:(vm_compute; intro H0; discriminate H0)) as [_ Hc].
  rewrite Hc. vm_compute. reflexivity.
Defined.



(** ** The longest net *)

(** The length of an edge is computed in [int]: within 29 bits of
    coordinates it is the Manhattan distance of the two ends, and past 31
    bits the difference wraps around. *)
Lemma wrap_int_in_range (z : Z) : (- 2 ^ 31 <= z < 2 ^ 31)%Z -> wrap_int z = z.
Proof. intro H. unfold wrap_int. rewrite Z.mod_small; lia. Qed.

Lemma edge_length_in_range (x1 y1 x2 y2 : Z) :
  (Z.abs x1 < 2 ^ 29)%Z -> (Z.abs y1 < 2 ^ 29)%Z ->
  (Z.abs x2 < 2 ^ 29)%Z -> (Z.abs y2 < 2 ^ 29)%Z ->
  int_add (int_abs (int_sub x2 x1)) (int_abs (int_sub y2 y1))
  = (Z.abs (x2 - x1) + Z.abs (y2 - y1))%Z.
Proof.
  intros H1 H2 H3 H4. unfold int_add, int_abs, int_sub.
  rewrite (wrap_int_in_range (x2 - x1)) by lia.
  rewrite (wrap_int_in_range (y2 - y1)) by lia.
  rewrite (wrap_int_in_range (Z.abs (x2 - x1))) by lia.
  rewrite (wrap_int_in_range (Z.abs (y2 - y1))) by lia.
  apply wrap_int_in_range. lia.
Qed.

Lemma net_wire_length_wraps :
  net_wire_length 1 [mk_edge SEGMENT (-2000000000, 0)%Z (2000000000, 0)%Z]
  == 294967296.
Proof. vm_compute. reflexivity. Qed.

Lemma findMaxWireLength_fold (dbu_per_micron : Z) (nets : list dbNet) :
  forall (cur : option dbNet) (mx : Q),
  let r := fold_left (findMaxWireLength_step dbu_per_micron) nets (cur, mx) in
  (r = (cur, mx)
   /\ forall n len, In n nets -> routed_length dbu_per_micron n = Some len ->
                    len <= mx)
  \/ exists before net after,
       nets = before ++ net :: after
       /\ r = (Some net, snd r)
       /\ routed_length dbu_per_micron net = Some (snd r)
       /\ mx < snd r
       /\ (forall n len, In n before ->
             routed_length dbu_per_micron n = Some len -> len < snd r)
       /\ (forall n len, In n after ->
             routed_length dbu_per_micron n = Some len -> len <= snd r).
Proof.
  induction nets as [|n rest IH]; intros cur mx; cbn [fold_left].
  - left. split; [reflexivity|]. intros n len [].
  - cbv zeta in IH |- *.
    assert (Hstep :
      (findMaxWireLength_step dbu_per_micron (cur, mx) n = (cur, mx)
       /\ forall len, routed_length dbu_per_micron n = Some len -> len <= mx)
      \/ exists len, findMaxWireLength_step dbu_per_micron (cur, mx) n = (Some n, len)
                     /\ routed_length dbu_per_micron n = Some len /\ mx < len).
    { unfold findMaxWireLength_step, routed_length. cbn [snd].
      destruct (getWire n) as [edges|];
        [|left; split; [reflexivity|intros len H; discriminate H]].
      destruct (isSpecial n); cbn [negb];
        [left; split; [reflexivity|intros len H; discriminate H]|].
      destruct (Qgtb (net_wire_length dbu_per_micron edges) mx) eqn:E.
      - right. eexists. split; [reflexivity|]. split; [reflexivity|].
        now apply Qgtb_true.
      - left. split; [reflexivity|]. intros len H. injection H as <-.
        unfold Qgtb in E. apply negb_false_iff in E. now apply Qle_bool_iff. }
    destruct Hstep as [[Es Hn]|(len & Es & Hr & Hlt)]; rewrite Es.
    + destruct (IH cur mx) as [[Er Hall]|(before & net & after & En & Er & Hnet
                                          & Hmx & Hb & Ha)].
      * left. split; [exact Er|].
        intros n' len' [<-|Hin] Hl; [now apply Hn|now apply (Hall n')].
      * right. exists (n :: before), net, after.
        split; [cbn [app]; f_equal; exact En|]. split; [exact Er|]. split; [exact Hnet|].
        split; [exact Hmx|]. split; [|exact Ha].
        intros n' len' [<-|Hin] Hl; [|now apply (Hb n')].
        eapply Qle_lt_trans; [now apply Hn|exact Hmx].
    + destruct (IH (Some n) len) as [[Er Hall]|(before & net & after & En & Er
                                               & Hnet & Hmx & Hb & Ha)].
      * right. exists [], n, rest. rewrite Er. cbn [snd app].
        split; [reflexivity|]. split; [reflexivity|]. split; [exact Hr|].
        split; [exact Hlt|]. split; [intros n' len' []|exact Hall].
      * right. exists (n :: before), net, after.
        split; [cbn [app]; f_equal; exact En|]. split; [exact Er|]. split; [exact Hnet|].
        split; [eapply Qlt_trans; eassumption|]. split; [|exact Ha].
        intros n' len' [<-|Hin] Hl; [|now apply (Hb n')].
        rewrite Hr in Hl. injection Hl as <-. exact Hmx.
Qed.

(** X28. [findMaxWireLength] reports the first net of the largest wire
    length among the nets that have a wire and are not special, when that
    length is positive: every such net before it is strictly shorter and
    every such net after it is not longer.  It reports nothing when there
    is no such net or none of their lengths is positive.  The lengths are
    those the loop computes, edge by edge in 32-bit [int]. *)
Theorem findMaxWireLength_reports_longest (dbu_per_micron : Z) (nets : list dbNet) :
  match findMaxWireLength dbu_per_micron nets with
  | None =>
      forall n len, In n nets -> routed_length dbu_per_micron n = Some len ->
                    len <= 0
  | Some (name, len) =>
      0 < len
      /\ exists before net after,
           nets = before ++ net :: after
           /\ name = getConstName net
           /\ routed_length dbu_per_micron net = Some len
           /\ (forall n len', In n before ->
                 routed_length dbu_per_micron n = Some len' -> len' < len)
           /\ (forall n len', In n after ->
                 routed_length dbu_per_micron n = Some len' -> len' <= len)
  end.
Proof.
  unfold findMaxWireLength.
  pose proof (findMaxWireLength_fold dbu_per_micron nets None 0) as H.
  cbv zeta in H.
  destruct (fold_left (findMaxWireLength_step dbu_per_micron) nets (None, 0))
    as [cur mx].
  destruct H as [[Er Hall]|(before & net & after & En & Er & Hnet & Hmx & Hb & Ha)].
  - injection Er as -> ->. exact Hall.
  - cbn [snd] in *. injection Er as ->.
    split; [exact Hmx|]. exists before, net, after. now repeat split.
Qed.

(** ** The indices that [findNodesWithIntersection] returns *)

Lemma StronglySorted_snoc (l : list nat) (x : nat) :
  StronglySorted lt l -> (forall u, In u l -> (u < x)%nat) ->
  StronglySorted lt (l ++ [x]).
Proof.
  induction 1 as [|a l Hs IH Ha]; intro Hx; cbn.
  - repeat constructor.
  - constructor.
    + apply IH. intros u Hu. apply Hx. now right.
    + apply Forall_app. split; [exact Ha|].
      constructor; [apply Hx; now left|constructor].
Qed.

Lemma findNodes_loop_sorted {Polygon : Type} {gtl : Gtl Polygon}
      (ns : list (GraphNode Polygon)) :
  forall objs last_size index ids,
  StronglySorted lt ids -> (forall u, In u ids -> (u < index)%nat) ->
  StronglySorted lt (findNodes_loop ns objs last_size index ids).
Proof.
  induction ns as [|node rest IH]; intros objs last_size index ids Hs Hb;
    cbn [findNodes_loop]; [exact Hs|].
  apply IH.
  - destruct (Nat.eqb last_size (length (gtl_add objs (pol node))));
      [now apply StronglySorted_snoc|exact Hs].
  - intros u Hu.
    destruct (Nat.eqb last_size (length (gtl_add objs (pol node)))).
    + apply in_app_iff in Hu. destruct Hu as [Hu|[<-|[]]]; [|lia].
      specialize (Hb u Hu). lia.
    + specialize (Hb u Hu). lia.
Qed.

(** X29. [findNodesWithIntersection] returns indices into the node vector
    it is given, in strictly increasing order, so no index twice; for an
    empty vector it returns no index.  This holds for every polygon
    library. *)
Theorem findNodesWithIntersection_indices {Polygon : Type} {gtl : Gtl Polygon}
        (graph_nodes : list (GraphNode Polygon)) (p : Polygon) :
  StronglySorted lt (findNodesWithIntersection graph_nodes p)
  /\ Forall (fun index => (index < length graph_nodes)%nat)
            (findNodesWithIntersection graph_nodes p)
  /\ (graph_nodes = [] -> findNodesWithIntersection graph_nodes p = []).
Proof.
  split; [|split].
  - unfold findNodesWithIntersection. apply findNodes_loop_sorted;
      [constructor|intros u []].
  - apply Forall_forall. intros u Hu. now apply findNodes_bound in Hu.
  - intros ->. reflexivity.
Qed.

(** ** The adjacency of the layered graph, both ways *)

Section StoredOnly.
Context {Polygon : Type} {gtl : Gtl Polygon}.
Variable tech : Tech.

Lemma nth_error_update_nth (f : GraphNode Polygon -> GraphNode Polygon)
      (ns : list (GraphNode Polygon)) :
  forall i k,
  nth_error (update_nth i f ns) k
  = if Nat.eqb k i then option_map f (nth_error ns k) else nth_error ns k.
Proof.
  induction ns as [|n rest IH]; intros [|i] [|k]; cbn [update_nth nth_error Nat.eqb];
    try reflexivity.
  - destruct (Nat.eqb k i); reflexivity.
  - apply IH.
Qed.

Lemma points_down_push (m : NodeMap Polygon) (l0 : Layer) (idx v0 : nat)
      (l : Layer) (i v : nat) :
  points_down (push_low_adj m l0 idx v0) l i v ->
  points_down m l i v \/ (l = l0 /\ i = idx /\ v = v0).
Proof.
  unfold points_down, push_low_adj. intros (node & Hnode & Hin).
  rewrite nodes_at_set_nodes in Hnode.
  destruct (Nat.eqb_spec l0 l) as [->|_]; [|left; exists node; now split].
  rewrite nth_error_update_nth in Hnode.
  destruct (Nat.eqb_spec i idx) as [->|_]; [|left; exists node; now split].
  destruct (nth_error (nodes_at m l) idx) as [n0|]; [|discriminate Hnode].
  cbn [option_map] in Hnode. injection Hnode as <-.
  cbn [add_low_adj low_adj] in Hin. apply in_app_or in Hin.
  destruct Hin as [Hin|[<-|[]]].
  - left. exists n0. now split.
  - right. now repeat split.
Qed.

Lemma points_down_upper_fold (ul : option Layer) (via_index : nat) (us : list nat)
      (l : Layer) (i v : nat) :
  forall m : NodeMap Polygon,
  points_down (fold_left (fun m up_index =>
                            push_low_adj_opt m ul up_index via_index) us m) l i v ->
  points_down m l i v \/ (ul = Some l /\ In i us /\ v = via_index).
Proof.
  induction us as [|u0 rest IH]; intro m; cbn [fold_left]; [now left|].
  intro H. destruct (IH _ H) as [H0|(H1 & H2 & H3)].
  - destruct ul as [l0|]; cbn [push_low_adj_opt] in H0; [|now left].
    destruct (points_down_push _ _ _ _ _ _ _ H0) as [H1|(-> & -> & ->)];
      [now left|].
    right. repeat split. now left.
  - right. repeat split; [exact H1|now right|exact H3].
Qed.

Lemma points_down_lower_fold (via_layer : Layer) (via_index : nat) (ws : list nat)
      (l : Layer) (i v : nat) :
  forall m : NodeMap Polygon,
  points_down (fold_left (fun m low_index =>
                            push_low_adj m via_layer via_index low_index) ws m) l i v ->
  points_down m l i v \/ (l = via_layer /\ i = via_index /\ In v ws).
Proof.
  induction ws as [|w0 rest IH]; intro m; cbn [fold_left]; [now left|].
  intro H. destruct (IH _ H) as [H0|(H1 & H2 & H3)].
  - destruct (points_down_push _ _ _ _ _ _ _ H0) as [H1|(-> & -> & ->)];
      [now left|].
    right. repeat split. now left.
  - right. repeat split; [exact H1|exact H2|now right].
Qed.

(** What one via adds to the adjacency. *)
Lemma connect_via_stores (via_layer : Layer) (via_index : nat) (via_it : Polygon)
      (m : NodeMap Polygon) (lg : list LogEvent) (l : Layer) (i v : nat) :
  let upper_index :=
    findNodesWithIntersection (nodes_at_opt m (getUpperLayer tech via_layer)) via_it in
  let lower_index :=
    findNodesWithIntersection (nodes_at_opt m (getLowerLayer tech via_layer)) via_it in
  points_down (fst (connect_via tech via_layer via_index via_it (m, lg))) l i v ->
  points_down m l i v
  \/ (getUpperLayer tech via_layer = Some l /\ In i upper_index
      /\ (length upper_index <= 2)%nat /\ v = via_index)
  \/ (l = via_layer /\ i = via_index /\ lower_index = [v]).
Proof.
  cbv zeta. unfold connect_via.
  set (upper_index :=
         findNodesWithIntersection (nodes_at_opt m (getUpperLayer tech via_layer)) via_it).
  set (lower_index :=
         findNodesWithIntersection (nodes_at_opt m (getLowerLayer tech via_layer)) via_it).
  assert (Hupper : forall m1 lg1,
            (m1, lg1)
            = (if Nat.leb (length upper_index) 2
               then (fold_left (fun m up_index =>
                                  push_low_adj_opt m (getUpperLayer tech via_layer)
                                                   up_index via_index)
                               upper_index m, lg)
               else if Nat.ltb 2 (length upper_index)
                    then (m, lg ++ [Error_via_upper via_layer]) else (m, lg)) ->
            points_down m1 l i v ->
            points_down m l i v
            \/ (getUpperLayer tech via_layer = Some l /\ In i upper_index
                /\ (length upper_index <= 2)%nat /\ v = via_index)).
  { intros m1 lg1 E H.
    destruct (Nat.leb_spec (length upper_index) 2) as [Hle|_].
    - injection E as -> _.
      destruct (points_down_upper_fold _ _ _ _ _ _ _ H) as [H0|(H1 & H2 & H3)];
        [now left|right; now repeat split].
    - destruct (Nat.ltb 2 (length upper_index)); injection E as -> _; now left. }
  destruct (if Nat.leb (length upper_index) 2 then _ else _) as [m1 lg1] eqn:E1.
  specialize (Hupper m1 lg1 eq_refl).
  intro H.
  assert (Hlower : points_down m1 l i v
                   \/ (l = via_layer /\ i = via_index /\ lower_index = [v])).
  { destruct (Nat.eqb_spec (length lower_index) 1) as [Hone|_].
    - cbn [fst] in H.
      destruct (points_down_lower_fold _ _ _ _ _ _ _ H) as [H0|(H1 & H2 & H3)];
        [now left|].
      right. repeat split; [exact H1|exact H2|].
      destruct lower_index as [|w [|w' rest]]; try discriminate Hone.
      destruct H3 as [->|[]]. reflexivity.
    - destruct (Nat.ltb 2 (length lower_index)); cbn [fst] in H; now left. }
  destruct Hlower as [H1|H1]; [|now right; right].
  destruct (Hupper H1) as [H2|H2]; [now left|now right; left].
Qed.

Variable set_by_layer : list (Layer * list Polygon).

Let m0 := fst (init_nodes tech set_by_layer).

Let only_guarded (m : NodeMap Polygon) : Prop :=
  forall l i v, points_down m l i v -> stored_by_guard tech set_by_layer l i v.

Lemma connect_vias_only_guarded (via_layer : Layer) (vias : list Polygon) :
  In (via_layer, vias) set_by_layer ->
  routingLevel tech via_layer = 0%nat ->
  forall rest done acc,
  vias = done ++ rest ->
  graph_grows m0 (fst acc) -> only_guarded (fst acc) ->
  only_guarded (fst (connect_vias tech via_layer (length done) rest acc)).
Proof.
  intros Hin Hlevel. induction rest as [|via_it rest IH]; intros done acc Hv Hg Hinv;
    cbn [connect_vias]; [exact Hinv|].
  replace (S (length done)) with (length (done ++ [via_it]))
    by (rewrite length_app; cbn; lia).
  destruct acc as [m lg]. cbn [fst] in Hg, Hinv.
  apply IH.
  - rewrite <- app_assoc. exact Hv.
  - eapply graph_grows_trans; [exact Hg|].
    apply (connect_via_spec tech via_layer (length done) via_it m lg).
  - intros l i v H.
    destruct (connect_via_stores _ _ _ _ _ _ _ _ H)
      as [H0|[(H1 & H2 & H3 & ->)|(-> & -> & H3)]].
    + now apply Hinv.
    + left. exists via_layer, vias, via_it.
      rewrite <- (findNodes_grows m0 m _ via_it Hg), H1 in H2, H3.
      cbn [nodes_at_opt] in H2, H3.
      split; [exact Hin|]. split; [exact Hlevel|]. split; [exact H1|].
      split; [|now split].
      rewrite Hv, nth_error_app2, Nat.sub_diag by lia. reflexivity.
    + right. exists vias, via_it.
      rewrite <- (findNodes_grows m0 m _ via_it Hg) in H3.
      split; [exact Hin|]. split; [exact Hlevel|]. split; [|exact H3].
      rewrite Hv, nth_error_app2, Nat.sub_diag by lia. reflexivity.
Qed.

Lemma connect_layers_only_guarded (s : list (Layer * list Polygon)) :
  incl s set_by_layer ->
  forall acc,
  graph_grows m0 (fst acc) -> only_guarded (fst acc) ->
  only_guarded (fst (fold_left (connect_layer tech) s acc)).
Proof.
  induction s as [|[l vias] rest IH]; intros Hincl acc Hg Hinv; cbn [fold_left];
    [exact Hinv|].
  assert (Hrest : incl rest set_by_layer) by (intros x Hx; apply Hincl; now right).
  assert (Hhere : In (l, vias) set_by_layer) by (apply Hincl; now left).
  apply (IH Hrest).
  - eapply graph_grows_trans; [exact Hg|].
    apply (connect_layers_grows tech [(l, vias)] acc).
  - unfold connect_layer. cbn [fst snd].
    destruct (Nat.eqb_spec (routingLevel tech l) 0) as [Hlevel|_]; [|exact Hinv].
    apply (connect_vias_only_guarded l vias Hhere Hlevel vias [] acc eq_refl Hg Hinv).
Qed.

Lemma buildLayerMaps_only_guarded (l : Layer) (i v : nat) :
  points_down (fst (buildLayerMaps tech set_by_layer)) l i v ->
  stored_by_guard tech set_by_layer l i v.
Proof.
  unfold buildLayerMaps.
  apply (connect_layers_only_guarded set_by_layer (incl_refl _)
           (fst (init_nodes tech set_by_layer), [])).
  - apply graph_grows_refl.
  - intros l' i' v' (node & Hnode & Hin). cbn [fst] in Hnode.
    apply nth_error_In in Hnode.
    destruct (init_nodes_fresh tech set_by_layer l' node Hnode) as (_ & Hlow & _).
    rewrite Hlow in Hin. destruct Hin.
Qed.

End StoredOnly.

Lemma one_set_per_layer {A : Type} (s : list (Layer * A)) (l : Layer) (a b : A) :
  NoDup (map fst s) -> In (l, a) s -> In (l, b) s -> a = b.
Proof.
  induction s as [|[k x] rest IH]; intros Hnd Ha Hb; [destruct Ha|].
  cbn [map fst] in Hnd. apply NoDup_cons_iff in Hnd. destruct Hnd as [Hk Hnd].
  assert (Hout : forall y, In (l, y) rest -> k <> l).
  { intros y Hy ->. apply Hk. apply in_map_iff. exists (l, y). now split. }
  destruct Ha as [Ea|Ha], Hb as [Eb|Hb].
  - congruence.
  - injection Ea as -> _. now contradiction (Hout b Hb).
  - injection Eb as -> _. now contradiction (Hout a Ha).
  - now apply IH.
Qed.

(** X30. The adjacency that [buildLayerMaps] stores, with one polygon set
    per layer.  For a via island: every island found above points down to
    the via when at most two were found; the island found below is among
    the lower neighbours of the via when exactly one was found; more than
    two on a side is logged as an error for that side.  Nothing else is
    stored: a lower neighbour of a node is either the index of a via of the
    layer below that found the node among at most two islands above it, or
    the one island that the node, a via, found below it.  So with more than
    two islands found above, on a routing layer, none of them points down
    to the via, and with none, two or more found below, the layer below
    being a routing layer, the via has no lower neighbour. *)
Theorem buildLayerMaps_adjacency {Polygon : Type} {gtl : Gtl Polygon}
        (tech : Tech) (set_by_layer : list (Layer * list Polygon))
        (via_layer : Layer) (vias : list Polygon) (via_index : nat)
        (via_it : Polygon) :
  NoDup (map fst set_by_layer) ->
  In (via_layer, vias) set_by_layer ->
  routingLevel tech via_layer = 0%nat ->
  nth_error vias via_index = Some via_it ->
  let m0 := fst (init_nodes tech set_by_layer) in
  let upper_index :=
    findNodesWithIntersection (nodes_at_opt m0 (getUpperLayer tech via_layer)) via_it in
  let lower_index :=
    findNodesWithIntersection (nodes_at_opt m0 (getLowerLayer tech via_layer)) via_it in
  let m := fst (buildLayerMaps tech set_by_layer) in
  let lg := snd (buildLayerMaps tech set_by_layer) in
  (exists node, nth_error (nodes_at m via_layer) via_index = Some node
                /\ pol node = via_it)
  /\ ((length upper_index <= 2)%nat ->
      forall u, In u upper_index ->
        exists ul, getUpperLayer tech via_layer = Some ul
                   /\ points_down m ul u via_index)
  /\ (length lower_index = 1%nat ->
      forall w, In w lower_index -> points_down m via_layer via_index w)
  /\ ((2 < length upper_index)%nat -> In (Error_via_upper via_layer) lg)
  /\ ((2 < length lower_index)%nat -> In (Error_via_lower via_layer) lg)
  /\ (forall l index v,
        points_down m l index v -> stored_by_guard tech set_by_layer l index v)
  /\ ((2 < length upper_index)%nat ->
      forall ul u, getUpperLayer tech via_layer = Some ul ->
        routingLevel tech ul <> 0%nat -> ~ points_down m ul u via_index)
  /\ (length lower_index <> 1%nat ->
      (forall ll, getLowerLayer tech via_layer = Some ll ->
                  routingLevel tech ll <> 0%nat) ->
      forall w, ~ points_down m via_layer via_index w).
Proof.
  intros Hnd Hin Hlevel Hnth. cbv zeta.
  pose proof (buildLayerMaps_stores_found tech set_by_layer via_layer vias via_index
                via_it Hnd Hin Hlevel Hnth) as Hpos.
  cbv zeta in Hpos. destruct Hpos as (P1 & P2 & P3 & P4 & P5).
  split; [exact P1|]. split; [exact P2|]. split; [exact P3|].
  split; [exact P4|]. split; [exact P5|].
  split; [intros l index v; apply buildLayerMaps_only_guarded|].
  split.
  - intros Hmany ul u Hul Hrouting Hpd.
    apply buildLayerMaps_only_guarded in Hpd.
    destruct Hpd as [(vl & vias' & via' & Hin' & _ & Hup' & Hnth' & _ & Hle)
                    |(_ & _ & _ & Hl0 & _)]; [|now contradiction Hrouting].
    assert (vl = via_layer).
    { unfold getUpperLayer in Hul, Hup'.
      destruct (Nat.ltb (S vl) (length tech)); [|discriminate Hup'].
      destruct (Nat.ltb (S via_layer) (length tech)); [|discriminate Hul].
      congruence. }
    subst vl.
    rewrite (one_set_per_layer _ _ _ _ Hnd Hin' Hin) in Hnth'.
    rewrite Hnth in Hnth'. injection Hnth' as <-.
    rewrite Hul in Hmany. cbn [nodes_at_opt] in Hmany. lia.
  - intros Hnot Hrouting w Hpd.
    apply buildLayerMaps_only_guarded in Hpd.
    destruct Hpd as [(vl & _ & _ & _ & Hl0 & Hup' & _)
                    |(vias' & via' & Hin' & _ & Hnth' & Hone)].
    + apply (Hrouting vl); [|exact Hl0].
      unfold getUpperLayer in Hup'.
      destruct (Nat.ltb (S vl) (length tech)); [|discriminate Hup'].
      injection Hup' as <-. reflexivity.
    + rewrite (one_set_per_layer _ _ _ _ Hnd Hin' Hin) in Hnth'.
      rewrite Hnth in Hnth'. injection Hnth' as <-.
      apply Hnot. rewrite Hone. reflexivity.
Qed.

(** A via over one island of metal 1 and under three of metal 2: the via
    has the island below as lower neighbour, the error of the upper side is
    logged and none of the three islands points down to the via. *)
Lemma buildLayerMaps_adjacency_witness :
  points_down (fst (buildLayerMaps (s2_tech 0) three_upper_set)) V1 0 0
  /\ In (Error_via_upper V1) (snd (buildLayerMaps (s2_tech 0) three_upper_set))
  /\ ~ points_down (fst (buildLayerMaps (s2_tech 0) three_upper_set)) M2 0 0
  /\ ~ points_down (fst (buildLayerMaps (s2_tech 0) three_upper_set)) M2 1 0
  /\ ~ points_down (fst (buildLayerMaps (s2_tech 0) three_upper_set)) M2 2 0.
Proof.
  destruct (buildLayerMaps_adjacency (s2_tech 0) three_upper_set V1 [mk_strip 4 8] 0
              (mk_strip 4 8)
              ltac:(repeat constructor; simpl; intuition discriminate)
              ltac:(simpl; auto) eq_refl eq_refl)
    as (_ & _ & Hlow & Herr & _ & _ & Hnone & _).
  assert (Hno : forall u,
            ~ points_down (fst (buildLayerMaps (s2_tech 0) three_upper_set)) M2 u 0).
  { intro u. apply (Hnone ltac:(vm_compute; lia) M2 u eq_refl).
    vm_compute. discriminate. }
  split; [|split; [|repeat split; apply Hno]].
  - apply (Hlow ltac:(vm_compute; reflexivity) 0%nat ltac:(vm_compute; auto)).
  - apply Herr. vm_compute. lia.
Defined.
